(** * Javier Soto bot: session state, pipelines and parsers of [bot.js]

    A shallow embedding of the state manager, the retry wrapper, the
    text-to-speech flag parser and the three long-running pipelines of
    [src/bot.js], with the properties of the specification proved on it.

    Conventions of the embedding.
    - JavaScript strings are [string]s of bytes; the white space class of
      [\s], [trim], [parseInt] and [parseFloat] is the ASCII one.
    - Integers parsed by [parseInt] are mathematical integers ([Z]); they
      coincide with the JavaScript numbers up to 2^53.
    - Numbers parsed by [parseFloat] are exact rationals ([Qc]), together
      with the two infinities and NaN; only comparisons are applied to them.
    - [Map]s are [gmap]s, [Set]s are [gset]s.
    - Everything outside the process (Telegram, OpenAI, ElevenLabs, the file
      system) answers through an oracle; every theorem about a handler is
      universally quantified over it.  [Logger] calls only write to the
      console and are left out.
    - A handler runs to its end.  Telegraf races every update against the
      handler timeout and calls the global error handler when it expires,
      while the handler goes on; this race, like the interleaving of the
      handlers of two updates, is outside the embedding. *)

From Stdlib Require Import ZArith QArith Qcanon Lqa Ascii String.
From stdpp Require Import gmap strings list numbers pretty.

Open Scope Z_scope.

(* ===================================================================== *)
(** ** Strings as the program uses them                                   *)
(* ===================================================================== *)

Module Str.

(** The white space of [\s], [String.prototype.trim], [parseInt] and
    [parseFloat], restricted to ASCII: TAB, LF, VT, FF, CR, SPACE. *)
Definition isSpace (c : ascii) : bool :=
  let n := nat_of_ascii c in
  ((9 <=? n)%nat && (n <=? 13)%nat) || (n =? 32)%nat.

Definition isEmpty (s : string) : bool :=
  match s with EmptyString => true | String _ _ => false end.

Fixpoint trimStart (s : string) : string :=
  match s with
  | EmptyString => EmptyString
  | String c s' => if isSpace c then trimStart s' else s
  end.

Fixpoint trimEnd (s : string) : string :=
  match s with
  | EmptyString => EmptyString
  | String c s' =>
      let t := trimEnd s' in
      if isSpace c && isEmpty t then EmptyString else String c t
  end.

(** [s.trim()] *)
Definition trim (s : string) : string := trimEnd (trimStart s).

(** Prefix a character to the first token of a token list. *)
Definition consHead (c : ascii) (ts : list string) : list string :=
  match ts with
  | [] => [String c EmptyString]
  | t :: ts' => String c t :: ts'
  end.

(** [s.split(sep)] for a one-character separator: empty tokens are kept,
    and the empty string splits into one empty token. *)
Fixpoint splitOn (sep : ascii) (s : string) : list string :=
  match s with
  | EmptyString => [EmptyString]
  | String c s' =>
      if Ascii.eqb c sep then EmptyString :: splitOn sep s'
      else consHead c (splitOn sep s')
  end.

(** [s.split(/\s+/)]: a maximal run of white space is one separator; a
    leading or trailing run leaves an empty token at that end. *)
Fixpoint splitSpaces (s : string) : list string :=
  match s with
  | EmptyString => [EmptyString]
  | String c s' =>
      if isSpace c then
        match s' with
        | String c' _ => if isSpace c' then splitSpaces s' else EmptyString :: splitSpaces s'
        | EmptyString => EmptyString :: splitSpaces s'
        end
      else consHead c (splitSpaces s')
  end.

(** [parts.join(' ')] *)
Fixpoint joinSpace (parts : list string) : string :=
  match parts with
  | [] => EmptyString
  | [p] => p
  | p :: ps => p +:+ String " " (joinSpace ps)
  end.

(** [s.startsWith(String c)] *)
Definition startsWithChar (c : ascii) (s : string) : bool :=
  match s with
  | String c' _ => Ascii.eqb c' c
  | EmptyString => false
  end.

(** Value of a character as a digit in the given radix (10 or 16). *)
Definition digitOf (radix : Z) (c : ascii) : option Z :=
  let n := Z.of_nat (nat_of_ascii c) in
  let d :=
    if (48 <=? n) && (n <=? 57) then Some (n - 48)
    else if (97 <=? n) && (n <=? 122) then Some (n - 87)
    else if (65 <=? n) && (n <=? 90) then Some (n - 55)
    else None in
  match d with
  | Some v => if v <? radix then Some v else None
  | None => None
  end.

(** Longest prefix of radix digits: its value, the number of digits read
    and the rest of the string. *)
Fixpoint readDigits (radix : Z) (s : string) (acc : Z) (count : nat) : Z * nat * string :=
  match s with
  | EmptyString => (acc, count, s)
  | String c s' =>
      match digitOf radix c with
      | Some d => readDigits radix s' (acc * radix + d) (S count)
      | None => (acc, count, s)
      end
  end.

(** Strip an optional sign; [true] is a minus sign. *)
Definition readSign (s : string) : bool * string :=
  match s with
  | String "-" s' => (true, s')
  | String "+" s' => (false, s')
  | _ => (false, s)
  end.

(** [parseInt(s)] without a radix: leading white space, a sign, an optional
    [0x]/[0X] prefix, then the longest digit prefix.  [None] is NaN. *)
Definition parseInt (s : string) : option Z :=
  let '(neg, s1) := readSign (trimStart s) in
  let '(radix, s2) :=
    match s1 with
    | String "0" (String "x" r) => (16, r)
    | String "0" (String "X" r) => (16, r)
    | _ => (10, s1)
    end in
  let '(v, n, _) := readDigits radix s2 0 0%nat in
  match n with
  | O => None
  | S _ => Some (if neg then - v else v)
  end.

(** The text [Infinity], which [parseFloat] accepts after the sign. *)
Definition infinityText : string := "Infinity".

Fixpoint stripPrefix (p s : string) : option string :=
  match p, s with
  | EmptyString, _ => Some s
  | String a p', String b s' => if Ascii.eqb a b then stripPrefix p' s' else None
  | String _ _, EmptyString => None
  end.

End Str.

(* ===================================================================== *)
(** ** Authorization registry ([StateManager.initializeState])            *)
(* ===================================================================== *)

(** [parseIds]: [envVar ? envVar.split(',').map(id => parseInt(id.trim()))
    .filter(id => !isNaN(id)) : []].  An unset variable is [None]; the
    empty string is falsy as well. *)
Definition parseIds (envVar : option string) : list Z :=
  match envVar with
  | None => []
  | Some s =>
      if Str.isEmpty s then []
      else omap (fun id => Str.parseInt (Str.trim id)) (Str.splitOn "," s)
  end.

(** [new Set(parseIds(...))] *)
Definition idSet (envVar : option string) : gset Z := list_to_set (parseIds envVar).

(** The tokens of a configuration value, as [parseIds] sees them. *)
Definition tokensOf (envVar : option string) : list string :=
  match envVar with
  | None => []
  | Some s => if Str.isEmpty s then [] else Str.splitOn "," s
  end.

(** *** Vocabulary: comma-separated tokens and integer numerals

    What follows describes the tokens of a configuration value and the
    integer a token reads as without referring to the functions above. *)

(** A string without a comma. *)
Definition commaFree (t : string) : Prop := ","%char ∉ list_ascii_of_string t.

(** [t] is one of the comma-separated tokens of a configuration value: the
    value is set and not empty, and it is a list of strings without commas,
    joined by commas, among which [t] is. *)
Definition listedIn (envVar : option string) (t : string) : Prop :=
  ∃ ts, envVar = Some (String.concat "," ts) ∧ String.concat "," ts ≠ EmptyString ∧
        Forall commaFree ts ∧ t ∈ ts.

(** TAB, LF, VT, FF, CR and SPACE. *)
Definition whiteSpace : list ascii := ["009"; "010"; "011"; "012"; "013"; " "]%char.

Definition blank (s : string) : Prop :=
  Forall (fun c => c ∈ whiteSpace) (list_ascii_of_string s).

(** The position of a character in a string. *)
Fixpoint indexOf (c : ascii) (alphabet : string) : option Z :=
  match alphabet with
  | EmptyString => None
  | String a rest => if Ascii.eqb c a then Some 0 else Z.succ <$> indexOf c rest
  end.

(** The value of a digit, up to the hexadecimal ones in either case. *)
Definition digitValue (c : ascii) : option Z :=
  match indexOf c "0123456789abcdef" with
  | Some d => Some d
  | None => indexOf c "0123456789ABCDEF"
  end.

Definition isDigitIn (radix : Z) (c : ascii) : bool :=
  match digitValue c with
  | Some d => d <? radix
  | None => false
  end.

Fixpoint allDigitsIn (radix : Z) (s : string) : bool :=
  match s with
  | EmptyString => true
  | String c s' => isDigitIn radix c && allDigitsIn radix s'
  end.

(** The number a string of digits denotes after the digits of value [acc]. *)
Fixpoint valueFrom (radix acc : Z) (s : string) : Z :=
  match s with
  | EmptyString => acc
  | String c s' => valueFrom radix (acc * radix + default 0 (digitValue c)) s'
  end.

(** The string starts with a digit. *)
Definition digitAhead (radix : Z) (s : string) : bool :=
  match s with
  | String c _ => isDigitIn radix c
  | EmptyString => false
  end.

(** What follows the mark [0x] or [0X] at the start of a string. *)
Definition afterHexMark (s : string) : option string :=
  match s with
  | String z (String c r) =>
      if Ascii.eqb z "0" && (Ascii.eqb c "x" || Ascii.eqb c "X") then Some r else None
  | _ => None
  end.

Inductive Sign : Type := NoSign | PlusSign | MinusSign.

Definition signText (sg : Sign) : string :=
  match sg with
  | NoSign => EmptyString
  | PlusSign => "+"
  | MinusSign => "-"
  end.

Definition isMinus (sg : Sign) : bool :=
  match sg with MinusSign => true | _ => false end.

Definition signed (sg : Sign) (n : Z) : Z :=
  if isMinus sg then - n else n.

(** The token [t] reads as the integer [k]: after white space and an
    optional sign comes either a decimal numeral that is not the start of a
    hexadecimal mark, or a hexadecimal mark and a hexadecimal numeral; the
    numeral is as long as possible and anything may follow it. *)
Inductive readsAs : string -> Z -> Prop :=
| reads_decimal (ws : string) (sg : Sign) (ds rest : string) :
    blank ws → ds ≠ EmptyString → allDigitsIn 10 ds = true →
    digitAhead 10 rest = false → afterHexMark (ds +:+ rest) = None →
    readsAs (ws +:+ signText sg +:+ ds +:+ rest) (signed sg (valueFrom 10 0 ds))
| reads_hexadecimal (ws : string) (sg : Sign) (x : ascii) (ds rest : string) :
    blank ws → x = "x"%char ∨ x = "X"%char → ds ≠ EmptyString → allDigitsIn 16 ds = true →
    digitAhead 16 rest = false →
    readsAs (ws +:+ signText sg +:+ String "0" (String x (ds +:+ rest)))
            (signed sg (valueFrom 16 0 ds)).

(** The string does not start with white space. *)
Definition noSpaceAhead (s : string) : bool :=
  match s with
  | String c _ => negb (Str.isSpace c)
  | EmptyString => true
  end.

(** JavaScript truthiness of a number that is an integer. *)
Definition truthy (n : Z) : bool := negb (n =? 0).


(* ===================================================================== *)
(** ** JavaScript numbers, as far as the program computes with them       *)
(* ===================================================================== *)

Inductive Num : Type :=
| NaN
| NegInf
| Fin (q : Qc)
| PosInf.

Module Num.

Definition isNaN (x : Num) : bool :=
  match x with NaN => true | _ => false end.

(** [a < b] on numbers; false as soon as one side is NaN. *)
Definition ltb (a b : Num) : bool :=
  match a, b with
  | NaN, _ | _, NaN => false
  | _, NegInf => false
  | NegInf, _ => true
  | PosInf, _ => false
  | Fin _, PosInf => true
  | Fin p, Fin q => bool_decide (p < q)%Qc
  end.

Definition leb (a b : Num) : bool :=
  match a, b with
  | NaN, _ | _, NaN => false
  | _, _ => negb (ltb b a)
  end.

(** [Math.max(a, b)] and [Math.min(a, b)]: NaN if one argument is. *)
Definition max (a b : Num) : Num :=
  match a, b with
  | NaN, _ | _, NaN => NaN
  | _, _ => if ltb a b then b else a
  end.

Definition min (a b : Num) : Num :=
  match a, b with
  | NaN, _ | _, NaN => NaN
  | _, _ => if ltb b a then b else a
  end.

(** The number written [m * 10^e], in lowest terms. *)
Definition decimal (m e : Z) : Num :=
  if 0 <=? e then Fin (Q2Qc (Qred (inject_Z (m * 10 ^ e))))
  else Fin (Q2Qc (Qred (Qmake m (Z.to_pos (10 ^ (- e)))))).

(** The exponent part of a decimal literal: [e] or [E], a sign, at least
    one digit; otherwise nothing is consumed and the exponent is 0. *)
Definition readExponent (s : string) : Z :=
  match s with
  | String c s' =>
      if Ascii.eqb c "e" || Ascii.eqb c "E" then
        let '(neg, s1) := Str.readSign s' in
        let '(v, n, _) := Str.readDigits 10 s1 0 0%nat in
        match n with
        | O => 0
        | S _ => if neg then - v else v
        end
      else 0
  | EmptyString => 0
  end.

(** [parseFloat(s)]: leading white space, a sign, then [Infinity] or the
    longest prefix that is a decimal literal (digits, an optional fraction,
    an optional exponent).  No digit at all gives NaN. *)
Definition parseFloat (s : string) : Num :=
  let '(neg, s1) := Str.readSign (Str.trimStart s) in
  match Str.stripPrefix Str.infinityText s1 with
  | Some _ => if neg then NegInf else PosInf
  | None =>
      let '(v1, n1, s2) := Str.readDigits 10 s1 0 0%nat in
      let '(v, n2, s3) :=
        match s2 with
        | String "." r => Str.readDigits 10 r v1 0%nat
        | _ => (v1, 0%nat, s2)
        end in
      match (n1 + n2)%nat with
      | O => NaN
      | S _ =>
          let e := readExponent s3 - Z.of_nat n2 in
          decimal (if neg then - v else v) e
      end
  end.

End Num.

(* ===================================================================== *)
(** ** Configuration ([CONFIG])                                           *)
(* ===================================================================== *)

Module CONFIG.
Definition MAX_RETRIES : nat := 3.
Definition RETRY_DELAY : Z := 5000.
Definition STABILITY : Num := Num.decimal 30 (-2).
Definition SIMILARITY_BOOST : Num := Num.decimal 10 (-1).
Definition STYLE : Num := Num.decimal 7 (-1).
Definition SPEED : Num := Num.decimal 10 (-1).
Definition USE_SPEAKER_BOOST : bool := true.
End CONFIG.

(* ===================================================================== *)
(** ** Voice settings of the text-to-speech call                          *)
(* ===================================================================== *)

(** The [options] object of [ApiService.generateVoice]; [None] is a
    property that is [undefined]. *)
Module Options.
Record t : Type := mk {
  stability : option Num;
  similarity_boost : option Num;
  style : option Num;
  speed : option Num;
  use_speaker_boost : option bool
}.
Definition empty : t := mk None None None None None.
End Options.

(** The [voice_settings] object sent to the backend. *)
Module VoiceSettings.
Record t : Type := mk {
  stability : Num;
  similarity_boost : Num;
  style : Num;
  speed : Num;
  use_speaker_boost : bool
}.
End VoiceSettings.

(** [finalSettings] of [ApiService.generateVoice]. *)
Definition finalSettings (options : Options.t) : VoiceSettings.t :=
  {| VoiceSettings.stability :=
       match Options.stability options with
       | Some v => Num.max (Num.decimal 0 0) (Num.min (Num.decimal 10 (-1)) v)
       | None => CONFIG.STABILITY
       end;
     VoiceSettings.similarity_boost :=
       match Options.similarity_boost options with
       | Some v => Num.max (Num.decimal 0 0) (Num.min (Num.decimal 10 (-1)) v)
       | None => CONFIG.SIMILARITY_BOOST
       end;
     VoiceSettings.style :=
       match Options.style options with
       | Some v => Num.max (Num.decimal 0 0) v
       | None => CONFIG.STYLE
       end;
     VoiceSettings.speed :=
       match Options.speed options with
       | Some v => Num.max (Num.decimal 5 (-1)) (Num.min (Num.decimal 20 (-1)) v)
       | None => CONFIG.SPEED
       end;
     VoiceSettings.use_speaker_boost :=
       match Options.use_speaker_boost options with
       | Some b => b
       | None => CONFIG.USE_SPEAKER_BOOST
       end |}.

(* ===================================================================== *)
(** ** Option parsing of [/t2v] ([handleTextToVoiceCommand], part 1)      *)
(* ===================================================================== *)

(** The values [currentFlag] takes. *)
Module Flag.
Inductive t : Type := stability | style | speed.
Definition name (f : t) : string :=
  match f with
  | stability => "stability"
  | style => "style"
  | speed => "speed"
  end.
End Flag.

(** [s.charAt(0)] *)
Definition charAt0 (s : string) : string :=
  match s with
  | String c _ => String c EmptyString
  | EmptyString => EmptyString
  end.

(** The two messages [parsingError] can hold; the letter shown is
    [currentFlag.charAt(0)].
    - [ExpectedNumber l part]: a number was expected after [-l], [part] was
      received;
    - [MissingValue l]: option [-l] was given at the end without a value. *)
Inductive ParsingError : Type :=
| ExpectedNumber (letter : string) (part : string)
| MissingValue (letter : string).

(** The variables of the parsing loop. *)
Record ParseVars : Type := mkParseVars {
  overrideOptions : Options.t;
  textParts : list string;
  currentFlag : option Flag.t;
  parsingError : option ParsingError
}.

Definition setOverride (f : Flag.t) (value : Num) (o : Options.t) : Options.t :=
  match f with
  | Flag.stability =>
      Options.mk (Some value) (Options.similarity_boost o) (Options.style o)
                 (Options.speed o) (Options.use_speaker_boost o)
  | Flag.style =>
      Options.mk (Options.stability o) (Options.similarity_boost o) (Some value)
                 (Options.speed o) (Options.use_speaker_boost o)
  | Flag.speed =>
      Options.mk (Options.stability o) (Options.similarity_boost o) (Options.style o)
                 (Some value) (Options.use_speaker_boost o)
  end.

(** [for (const part of parts) { ... }]; the [break] on the first error is
    the branch that does not recurse. *)
Fixpoint parseParts (parts : list string) (v : ParseVars) : ParseVars :=
  match parts with
  | [] => v
  | part :: rest =>
      if String.eqb part "-s" then
        parseParts rest (mkParseVars (overrideOptions v) (textParts v) (Some Flag.stability) (parsingError v))
      else if String.eqb part "-x" then
        parseParts rest (mkParseVars (overrideOptions v) (textParts v) (Some Flag.style) (parsingError v))
      else if String.eqb part "-v" then
        parseParts rest (mkParseVars (overrideOptions v) (textParts v) (Some Flag.speed) (parsingError v))
      else
        match currentFlag v with
        | Some flag =>
            let value := Num.parseFloat part in
            if negb (Num.isNaN value) then
              parseParts rest
                (mkParseVars (setOverride flag value (overrideOptions v)) (textParts v) None (parsingError v))
            else
              mkParseVars (overrideOptions v) (textParts v) (currentFlag v)
                          (Some (ExpectedNumber (charAt0 (Flag.name flag)) part))
        | None =>
            parseParts rest
              (mkParseVars (overrideOptions v) (textParts v ++ [part]) None (parsingError v))
        end
  end.

(** What the first part of the handler decides before the lock is looked at. *)
Inductive T2vRequest : Type :=
| BadOptions (e : ParsingError)
| NoText
| Convert (textToConvert : string) (overrides : Options.t).

Definition parseT2v (messageText : string) : T2vRequest :=
  let parts := tail (Str.splitSpaces messageText) in
  let v := parseParts parts (mkParseVars Options.empty [] None None) in
  let err :=
    match currentFlag v, parsingError v with
    | Some flag, None => Some (MissingValue (charAt0 (Flag.name flag)))
    | _, e => e
    end in
  match err with
  | Some e => BadOptions e
  | None =>
      let textToConvert := Str.trim (Str.joinSpace (textParts v)) in
      if Str.isEmpty textToConvert then NoText
      else Convert textToConvert (overrideOptions v)
  end.

(* ===================================================================== *)
(** ** State manager ([StateManager])                                     *)
(* ===================================================================== *)

Module Role.
Inductive t : Type := system | user | assistant.
End Role.

(** An entry of a conversation history. *)
Record Message : Type := mkMessage { role : Role.t; content : string }.

(** The three values [pendingOperations] is ever given. *)
Inductive Operation : Type := gpt_generating | t2v_converting | v2v_transforming.

Global Instance Operation_eq_dec : EqDecision Operation.
Proof. solve_decision. Defined.

(** An entry of [userSessions].  Its two other properties never change:
    [currentOperation] is null and [preferences] is empty. *)
Record Session : Type := mkSession { lastAction : Z }.

Record StateManager : Type := mkStateManager {
  authorizedUsers : gset Z;
  adminUsers : gset Z;
  userSessions : gmap Z Session;
  pendingOperations : gmap Z Operation;
  conversations : gmap Z (list Message);
  pendingVoiceTransformations : gmap Z Z
}.

(** [initializeState], given the two configuration values. *)
Definition initializeState (AUTHORIZED_USERS ADMIN_USERS : option string) : StateManager :=
  {| authorizedUsers := idSet AUTHORIZED_USERS;
     adminUsers := idSet ADMIN_USERS;
     userSessions := ∅;
     pendingOperations := ∅;
     conversations := ∅;
     pendingVoiceTransformations := ∅ |}.

Definition isAuthorized (userId : Z) (sm : StateManager) : bool :=
  truthy userId && bool_decide (userId ∈ authorizedUsers sm).

Definition isAdmin (userId : Z) (sm : StateManager) : bool :=
  truthy userId && bool_decide (userId ∈ adminUsers sm).

(** [getSystemPrompt()]: a fixed text (its first sentence stands for it). *)
Definition getSystemPrompt : string :=
  "You are Javier Soto, a highly experienced Assistant Director in the film industry.".

Definition systemMessage : Message := mkMessage Role.system getSystemPrompt.

Definition setConversations (c : gmap Z (list Message)) (sm : StateManager) : StateManager :=
  mkStateManager (authorizedUsers sm) (adminUsers sm) (userSessions sm) (pendingOperations sm) c
                 (pendingVoiceTransformations sm).

Definition setOperations (p : gmap Z Operation) (sm : StateManager) : StateManager :=
  mkStateManager (authorizedUsers sm) (adminUsers sm) (userSessions sm) p (conversations sm)
                 (pendingVoiceTransformations sm).

Definition setVoiceTransformations (p : gmap Z Z) (sm : StateManager) : StateManager :=
  mkStateManager (authorizedUsers sm) (adminUsers sm) (userSessions sm) (pendingOperations sm)
                 (conversations sm) p.

Definition setSessions (u : gmap Z Session) (sm : StateManager) : StateManager :=
  mkStateManager (authorizedUsers sm) (adminUsers sm) u (pendingOperations sm)
                 (conversations sm) (pendingVoiceTransformations sm).

(** [createUserSession(userId)], given the value of [Date.now()]. *)
Definition createUserSession (userId now : Z) (sm : StateManager) : StateManager :=
  setSessions (<[userId := mkSession now]> (userSessions sm)) sm.

(** [userSessions.get(userId).lastAction = now], for a session that exists. *)
Definition setLastAction (userId now : Z) (sm : StateManager) : StateManager :=
  setSessions (alter (fun _ => mkSession now) userId (userSessions sm)) sm.

(** [getConversation(userId)]: the stored history, seeded on first use. *)
Definition getConversation (userId : Z) (sm : StateManager) : list Message * StateManager :=
  match conversations sm !! userId with
  | Some conversation => (conversation, sm)
  | None =>
      ([systemMessage], setConversations (<[userId := [systemMessage]]> (conversations sm)) sm)
  end.

(** [array.splice(start, deleteCount)], for [start] within the array. *)
Definition splice {A} (start deleteCount : nat) (l : list A) : list A :=
  take start l ++ drop (start + deleteCount) l.

Definition maxHistoryPairs : nat := 10.
Definition maxMessages : nat := 1 + maxHistoryPairs * 2.

(** [addMessageToConversation(userId, role, content)]; [openai] tells
    whether the OpenAI client exists.  The array is shared with the map, so
    the push and the splice are written back to it. *)
Definition addMessageToConversation (openai : bool) (userId : Z) (r : Role.t) (c : string)
    (sm : StateManager) : StateManager :=
  if negb openai then sm
  else
    let '(conversation, sm1) := getConversation userId sm in
    let pushed := conversation ++ [mkMessage r c] in
    let limited :=
      if (maxMessages <? length pushed)%nat
      then splice 1 (length pushed - maxMessages) pushed
      else pushed in
    setConversations (<[userId := limited]> (conversations sm1)) sm1.

Definition setPendingVoiceTransformation (userId initiatingMessageId : Z) (sm : StateManager)
    : StateManager :=
  setVoiceTransformations (<[userId := initiatingMessageId]> (pendingVoiceTransformations sm)) sm.

(** [undefined] is [None]. *)
Definition getPendingVoiceTransformation (userId : Z) (sm : StateManager) : option Z :=
  pendingVoiceTransformations sm !! userId.

Definition clearPendingVoiceTransformation (userId : Z) (sm : StateManager) : StateManager :=
  if bool_decide (is_Some (pendingVoiceTransformations sm !! userId))
  then setVoiceTransformations (delete userId (pendingVoiceTransformations sm)) sm
  else sm.

Definition setPendingOperation (userId : Z) (operationType : Operation) (sm : StateManager)
    : StateManager :=
  setOperations (<[userId := operationType]> (pendingOperations sm)) sm.

Definition hasPendingOperation (userId : Z) (sm : StateManager) : bool :=
  bool_decide (is_Some (pendingOperations sm !! userId)).

Definition clearPendingOperation (userId : Z) (sm : StateManager) : StateManager :=
  if bool_decide (is_Some (pendingOperations sm !! userId))
  then setOperations (delete userId (pendingOperations sm)) sm
  else sm.

(** [if (pendingV2V)]: an armed intent is a stored message id that is
    truthy. *)
Definition pendingV2V (userId : Z) (sm : StateManager) : bool :=
  match getPendingVoiceTransformation userId sm with
  | Some id => truthy id
  | None => false
  end.

(* ===================================================================== *)
(** ** The world outside the process                                      *)
(* ===================================================================== *)

(** The property [detail] of the body of an error response. *)
Inductive Detail : Type :=
| NoDetail                       (* absent, or neither a string nor an object with a message *)
| DetailText (text : string)     (* a string *)
| DetailObject (msg : string).   (* an object; [msg] is its [message], empty when it has none *)

(** [error.response?.data], as the [catch] blocks of [ApiService] read it.
    - [NoData]: there is no response, or its body is falsy;
    - [Unreadable]: a buffer that [JSON.parse] rejects or that holds null,
      so that reading [detail] throws;
    - [Body buffer errorMessage detail]: an object ([buffer] false) or a
      buffer holding JSON ([buffer] true) with [data.error.message] (empty
      when absent) and [data.detail]. *)
Inductive ResponseData : Type :=
| NoData
| Unreadable
| Body (buffer : bool) (errorMessage : string) (detail : Detail).

(** A JavaScript [Error], with what the handlers read from it: the message,
    and for an HTTP error the status, the status text (empty when absent)
    and the body of the response. *)
Record Error : Type := mkError {
  message : string;
  responseStatus : option Z;
  responseStatusText : string;
  responseData : ResponseData
}.

Definition newError (msg : string) : Error := mkError msg None EmptyString NoData.

(** The value [undefined], when [Utils.retry] throws it ([maxRetries] 0). *)
Definition undefinedThrown : Error := newError "undefined".

(** What the Telegram client returns for a sent message. *)
Record ChatMessage : Type := mkChatMessage { message_id : Z }.

(** The URL object of [getFileLink]; [extname] is [path.extname(pathname)]. *)
Record FileLink : Type := mkFileLink { href : string; extname : string }.

(** An axios response; [data] is the length of the body, [None] when the
    body is missing. *)
Record HttpResponse : Type := mkHttpResponse { status : Z; data : option nat }.

(** Temporary files under [CONFIG.TMP_DIR], named after [Date.now()]. *)
Inductive Path : Type :=
| tts_output (now : Z)
| sts_output (now : Z)
| v2v_input (now : Z) (fileExt : string).

Definition pathName (p : Path) : string :=
  match p with
  | tts_output n => "tts_output_" +:+ pretty n +:+ ".mp3"
  | sts_output n => "sts_output_" +:+ pretty n +:+ ".mp3"
  | v2v_input n ext => "v2v_input_" +:+ pretty n +:+ ext
  end.

Inductive ChatAction : Type := typing | record_voice | upload_voice.

(** The kind of sound a message carries, with the label the handlers pass:
    [voice] is 'mensaje de voz', [audio] is 'archivo de audio'. *)
Inductive TypeLabel : Type := voice | audio.

(** The texts sent to the user, one constructor per text of the source. *)
Inductive Text : Type :=
| TGptOffForT                       (* /t: chat with the AI is switched off *)
| TUsageT                           (* /t: a message is required *)
| TOptionsError (e : ParsingError)  (* /t2v: error in the options *)
| TNoText                           (* /t2v: no text to convert *)
| TStillProcessing (by_ : Operation) (* a previous request is still processed *)
| TStillProcessingV2vCommand        (* the same, from /v2v *)
| TPreparingVoice
| TGeneratingAudio
| TSendingVoice
| TVoiceError (msg : string)
| TAlreadyWaiting                   (* /v2v: audio is already expected *)
| TSendAudioNow                     (* /v2v: ready, send the audio *)
| TV2vStartError (msg : string)
| TNoChatToReset
| TResetDone
| TV2vCancelled                     (* text arrived while audio was expected *)
| TGptOff
| TUnsolicited (l : TypeLabel)      (* sound received without /v2v *)
| TGptUnavailable
| TThinking
| TAnswer (gptResponse : string)
| TGptError (msg : string)
| TReceived (l : TypeLabel)
| TTransforming
| TSendingTransformed
| TTransformError (msg : string)
| THelp                             (* the help text, as HTML *)
| THelpPlain                        (* the help text, as plain text *)
| THelpShort                        (* the list of commands *)
| TUnauthorized (userId : Z)
| TUnexpectedError.                 (* the notice of the global error handler *)

(** Calls that may fail (promises and throwing functions). *)
Inductive Call : Type -> Type :=
| reply (text : Text) : Call ChatMessage
| sendChatAction (a : ChatAction) : Call unit
| editMessageText (id : Z) (text : Text) : Call unit
| deleteMessage (id : Z) : Call unit
| replyWithAudio (source : Path) : Call unit
| getFileLink (file_id : string) : Call FileLink
| axiosGet (url : string) : Call HttpResponse
| chatCompletionsCreate (messages : list Message) : Call (option string)
| postTextToSpeech (text : string) (voice_settings : VoiceSettings.t) : Call HttpResponse
| postSpeechToSpeech (audioFile : Path) : Call HttpResponse
| readFileSync (p : Path) : Call unit
| writeFileSync (p : Path) : Call unit
| unlinkSync (p : Path) : Call unit.

(** Observations that cannot fail. *)
Inductive Query : Type -> Type :=
| existsSync (p : Path) : Query bool
| DateNow : Query Z.

Inductive Outcome (T : Type) : Type :=
| Resolved (v : T)
| Rejected (e : Error).
Arguments Resolved {T} v.
Arguments Rejected {T} e.

(** The environment answers the n-th request of a run. *)
Record Oracle : Type := mkOracle {
  answer : forall T : Type, Call T -> nat -> Outcome T;
  observe : forall T : Type, Query T -> nat -> T
}.

Inductive Action : Type :=
| Called {T : Type} (c : Call T) (r : Outcome T)
| Observed {T : Type} (q : Query T) (v : T)
| Slept (ms : Z).

(** An entry of the trace: what happened, and the state manager as it was
    at that moment.  Every entry but [Slept] is a point where the handler
    is suspended or talks to the outside. *)
Record Event : Type := mkEvent { action : Action; snapshot : StateManager }.

(** [openai] is the client or null; the key is set or not. *)
Record Env : Type := mkEnv { openai : bool; ELEVEN_API_KEY : bool }.

(** The [let] variables the pipelines share between [try], [catch] and
    [finally]. *)
Record Locals : Type := mkLocals {
  loadingMessage : option ChatMessage;
  audioFilePath : option Path;
  tempInputFilePath : option Path;
  transformedFilePath : option Path
}.

Definition noLocals : Locals := mkLocals None None None None.

Record World : Type := mkWorld {
  oracle : Oracle;
  sm : StateManager;
  locals : Locals;
  trace : list Event;
  steps : nat
}.

(* ===================================================================== *)
(** ** The monad of handlers: state, trace and exceptions                 *)
(* ===================================================================== *)

Inductive Result (A : Type) : Type :=
| Value (a : A)
| Thrown (e : Error).
Arguments Value {A} a.
Arguments Thrown {A} e.

Definition M (A : Type) : Type := World -> Result A * World.

Definition ret {A} (a : A) : M A := fun w => (Value a, w).

Definition throw {A} (e : Error) : M A := fun w => (Thrown e, w).

Definition bind {A B} (m : M A) (k : A -> M B) : M B :=
  fun w =>
    match m w with
    | (Value a, w') => k a w'
    | (Thrown e, w') => (Thrown e, w')
    end.

Notation "'let!' x ':=' m 'in' k" := (bind m (fun x => k))
  (at level 10, x name, m at level 100, k at level 200).
Notation "'do!' m 'in' k" := (bind m (fun _ => k))
  (at level 10, m at level 100, k at level 200).

(** [try { m } catch (error) { h error }] *)
Definition tryCatch {A} (m : M A) (h : Error -> M A) : M A :=
  fun w =>
    match m w with
    | (Value a, w') => (Value a, w')
    | (Thrown e, w') => h e w'
    end.

(** [try { m } catch (error) { h error } finally { f }]: [f] runs whatever
    happened; what it throws replaces the outcome. *)
Definition tryCatchFinally {A} (m : M A) (h : Error -> M A) (f : M unit) : M A :=
  fun w =>
    let '(r, w1) := tryCatch m h w in
    match f w1 with
    | (Value _, w2) => (r, w2)
    | (Thrown e, w2) => (Thrown e, w2)
    end.

Definition withState (s : StateManager) (w : World) : World :=
  mkWorld (oracle w) s (locals w) (trace w) (steps w).

Definition withLocals (l : Locals) (w : World) : World :=
  mkWorld (oracle w) (sm w) l (trace w) (steps w).

Definition record (a : Action) (w : World) : World :=
  mkWorld (oracle w) (sm w) (locals w) (trace w ++ [mkEvent a (sm w)]) (steps w).

Definition tick (w : World) : World :=
  mkWorld (oracle w) (sm w) (locals w) (trace w) (S (steps w)).

Definition call {T} (c : Call T) : M T :=
  fun w =>
    let r := answer (oracle w) T c (steps w) in
    let w' := tick (record (Called c r) w) in
    match r with
    | Resolved v => (Value v, w')
    | Rejected e => (Thrown e, w')
    end.

Definition query {T} (q : Query T) : M T :=
  fun w =>
    let v := observe (oracle w) T q (steps w) in
    (Value v, tick (record (Observed q v) w)).

(** [await new Promise(resolve => setTimeout(resolve, ms))] *)
Definition sleep (ms : Z) : M unit :=
  fun w => (Value tt, record (Slept ms) w).

Definition getState : M StateManager := fun w => (Value (sm w), w).

Definition modify (f : StateManager -> StateManager) : M unit :=
  fun w => (Value tt, withState (f (sm w)) w).

Definition getLocals : M Locals := fun w => (Value (locals w), w).

Definition assign (f : Locals -> Locals) : M unit :=
  fun w => (Value tt, withLocals (f (locals w)) w).

(** [promise.catch(() => {})]: the value, or [undefined]. *)
Definition caught {T} (c : Call T) : M (option T) :=
  tryCatch (let! v := call c in ret (Some v)) (fun _ => ret None).

(** [if (cond) await m] for an optional value used as a condition. *)
Definition when_ {A} (cond : option A) (m : A -> M unit) : M unit :=
  match cond with
  | Some a => m a
  | None => ret tt
  end.

(* ===================================================================== *)
(** ** [Utils.retry]                                                      *)
(* ===================================================================== *)

(** The loop [for (let i = 0; i < maxRetries; i++)], from iteration [i]
    with [left] iterations to go. *)
Fixpoint retryFrom {A} (fn : M A) (maxRetries : nat) (delay : Z) (i left : nat)
    (lastError : option Error) : M A :=
  match left with
  | O => throw (default undefinedThrown lastError)
  | S left' =>
      tryCatch fn (fun error =>
        do! (if (i <? maxRetries - 1)%nat
             then sleep (delay * 2 ^ Z.of_nat i)
             else ret tt) in
        retryFrom fn maxRetries delay (S i) left' (Some error))
  end.

Definition retry {A} (fn : M A) (maxRetries : nat) (delay : Z) : M A :=
  retryFrom fn maxRetries delay 0 maxRetries None.

(** The delays a trace contains, in order. *)
Definition delays (tr : list Event) : list Z :=
  omap (fun ev => match action ev with Slept ms => Some ms | _ => None end) tr.

(* ===================================================================== *)
(** ** [ApiService]                                                       *)
(* ===================================================================== *)

(** [s || alt] on strings. *)
Definition orElse (s alt : string) : string :=
  if Str.isEmpty s then alt else s.

(** [error.response?.data?.error?.message || error.message], the message
    the [catch] block of [generateGPTResponse] extracts; a buffer has no
    property [error]. *)
Definition apiErrorMessage (error : Error) : string :=
  match responseData error with
  | Body false m _ => orElse m (message error)
  | _ => message error
  end.

(** The [errorMessage] of the [catch] blocks of [generateVoice] and
    [transformVoice]: with a body that can be read,
    [detail?.message || (typeof detail === 'string' ? detail : statusText)
     || error.message]; otherwise [error.message]. *)
Definition voiceErrorMessage (error : Error) : string :=
  match responseData error with
  | NoData | Unreadable => message error
  | Body _ _ detail =>
      orElse
        (match detail with
         | DetailObject m => orElse m (responseStatusText error)
         | DetailText d => d
         | NoDetail => responseStatusText error
         end)
        (message error)
  end.

(** [response.status !== 200 || !response.data || response.data.length === 0] *)
Definition invalidResponse (r : HttpResponse) : bool :=
  negb (status r =? 200) ||
  match data r with
  | None => true
  | Some n => (n =? 0)%nat
  end.

Definition generateGPTResponse (env : Env) (messages : list Message) : M string :=
  if negb (openai env) then
    throw (newError "La funcionalidad de chat con IA no está disponible en este momento.")
  else
    tryCatch
      (let! completion :=
         retry (call (chatCompletionsCreate messages)) CONFIG.MAX_RETRIES CONFIG.RETRY_DELAY in
       match completion with
       | Some responseText =>
           if Str.isEmpty responseText
           then throw (newError "Respuesta inesperada de la API de IA.")
           else ret (Str.trim responseText)
       | None => throw (newError "Respuesta inesperada de la API de IA.")
       end)
      (fun error =>
         throw (newError ("No pude generar una respuesta de la IA: " +:+ apiErrorMessage error))).

Definition generateVoice (env : Env) (text : string) (options : Options.t) : M Path :=
  if negb (ELEVEN_API_KEY env) then
    throw (newError "El servicio de generación de voz no está configurado.")
  else
    let settings := finalSettings options in
    tryCatch
      (let! response :=
         retry (call (postTextToSpeech text settings)) CONFIG.MAX_RETRIES CONFIG.RETRY_DELAY in
       if invalidResponse response then
         throw (newError ("Respuesta inválida o vacía de ElevenLabs API (TTS): Status "
                          +:+ pretty (status response)))
       else
         let! now := query DateNow in
         let tempFilePath := tts_output now in
         do! call (writeFileSync tempFilePath) in
         ret tempFilePath)
      (fun error =>
         throw (newError ("Error al generar audio (TTS): " +:+ voiceErrorMessage error))).

Definition transformVoice (env : Env) (audioFile : Path) : M Path :=
  if negb (ELEVEN_API_KEY env) then
    throw (newError "El servicio de transformación de voz no está configurado.")
  else
    tryCatch
      (let! found := query (existsSync audioFile) in
       if negb found then
         throw (newError ("Archivo de audio de entrada no encontrado: " +:+ pathName audioFile))
       else
         do! call (readFileSync audioFile) in
         let! response :=
           retry (call (postSpeechToSpeech audioFile)) CONFIG.MAX_RETRIES CONFIG.RETRY_DELAY in
         if invalidResponse response then
           throw (newError ("Respuesta inválida o vacía de ElevenLabs API (STS): Status "
                            +:+ pretty (status response)))
         else
           let! now := query DateNow in
           let tempFilePath := sts_output now in
           do! call (writeFileSync tempFilePath) in
           ret tempFilePath)
      (fun error =>
         let hint :=
           match responseStatus error with
           | Some 400 => " (Posible causa: Modelo STS/Voz no compatible, formato de audio inválido, o problema con el archivo de audio)"
           | _ => EmptyString
           end in
         throw (newError ("Error al transformar audio (STS): " +:+ voiceErrorMessage error +:+ hint))).

(* ===================================================================== *)
(** ** Handlers of [JavierBot]                                            *)
(* ===================================================================== *)

(** What a handler reads from the Telegraf context: [ctx.from.id],
    [ctx.message.message_id], [ctx.message.text] (empty when absent) and
    the [file_id] of [ctx.message.voice] or [ctx.message.audio]. *)
Record Ctx : Type := mkCtx {
  from_id : Z;
  msg_id : Z;
  msg_text : string;
  file_id : string
}.

Definition stateful {A} (f : StateManager -> A * StateManager) : M A :=
  fun w =>
    let '(a, s) := f (sm w) in
    (Value a, withState s w).

Definition setLoadingMessage (v : option ChatMessage) (l : Locals) : Locals :=
  mkLocals v (audioFilePath l) (tempInputFilePath l) (transformedFilePath l).
Definition setAudioFilePath (v : option Path) (l : Locals) : Locals :=
  mkLocals (loadingMessage l) v (tempInputFilePath l) (transformedFilePath l).
Definition setTempInputFilePath (v : option Path) (l : Locals) : Locals :=
  mkLocals (loadingMessage l) (audioFilePath l) v (transformedFilePath l).
Definition setTransformedFilePath (v : option Path) (l : Locals) : Locals :=
  mkLocals (loadingMessage l) (audioFilePath l) (tempInputFilePath l) v.

(** [await ctx.reply(text).catch(() => {})] as a statement. *)
Definition tell (text : Text) : M unit :=
  do! caught (reply text) in ret tt.

(** [if (loadingMessage) await <call>.catch(() => {})] *)
Definition whenLoading {T} (lm : option ChatMessage) (c : ChatMessage -> Call T) : M unit :=
  when_ lm (fun m => do! caught (c m) in ret tt).

(** [error.message || 'Error desconocido'] *)
Definition errorText (error : Error) : string :=
  orElse (message error) "Error desconocido".

(** The way the [catch] blocks report: edit the loading message, reply if
    the edit fails; reply directly when there is no loading message. *)
Definition report (text : Text) : M unit :=
  let! l := getLocals in
  match loadingMessage l with
  | Some lm =>
      tryCatch (call (editMessageText (message_id lm) text)) (fun _ => tell text)
  | None => tell text
  end.

(** [if (p && fs.existsSync(p)) fs.unlinkSync(p)] *)
Definition unlinkIfExists (p : option Path) : M unit :=
  match p with
  | Some f =>
      let! found := query (existsSync f) in
      if found then call (unlinkSync f) else ret tt
  | None => ret tt
  end.

(** The [try] block of [handleTextToVoiceCommand]. *)
Definition t2vTry (env : Env) (textToConvert : string) (overrides : Options.t) : M unit :=
  let! lm := caught (reply TPreparingVoice) in
  do! assign (setLoadingMessage lm) in
  do! whenLoading lm (fun _ => sendChatAction record_voice) in
  do! whenLoading lm (fun m => editMessageText (message_id m) TGeneratingAudio) in
  let! file := generateVoice env textToConvert overrides in
  do! assign (setAudioFilePath (Some file)) in
  do! whenLoading lm (fun m => editMessageText (message_id m) TSendingVoice) in
  do! whenLoading lm (fun _ => sendChatAction upload_voice) in
  do! call (replyWithAudio file) in
  whenLoading lm (fun m => deleteMessage (message_id m)).

(** The file cleanup of its [finally] block. *)
Definition t2vCleanup : M unit :=
  let! l := getLocals in
  tryCatch (unlinkIfExists (audioFilePath l)) (fun _ => ret tt).

Definition handleTextToVoiceCommand (env : Env) (ctx : Ctx) : M unit :=
  let userId := from_id ctx in
  match parseT2v (msg_text ctx) with
  | BadOptions e => tell (TOptionsError e)
  | NoText => tell TNoText
  | Convert textToConvert overrides =>
      let! s := getState in
      if hasPendingOperation userId s then tell (TStillProcessing t2v_converting)
      else
        do! modify (setPendingOperation userId t2v_converting) in
        do! assign (fun _ => noLocals) in
        tryCatchFinally
          (t2vTry env textToConvert overrides)
          (fun error => report (TVoiceError (errorText error)))
          (do! t2vCleanup in
           modify (clearPendingOperation userId))
  end.

Definition handleVoiceToVoiceCommand (ctx : Ctx) : M unit :=
  let userId := from_id ctx in
  let! s := getState in
  if hasPendingOperation userId s then tell TStillProcessingV2vCommand
  else if pendingV2V userId s then tell TAlreadyWaiting
  else
    tryCatch
      (do! modify (setPendingVoiceTransformation userId (msg_id ctx)) in
       do! call (reply TSendAudioNow) in
       ret tt)
      (fun error =>
         do! modify (clearPendingVoiceTransformation userId) in
         tell (TV2vStartError (message error))).

Definition handleResetConversation (env : Env) (ctx : Ctx) : M unit :=
  let userId := from_id ctx in
  if negb (openai env) then tell TNoChatToReset
  else
    do! modify (fun s => setConversations (delete userId (conversations s)) s) in
    tell TResetDone.

(** The [try] block of [processGPTMessage]. *)
Definition gptTry (env : Env) (userId : Z) (userMessage : string) : M unit :=
  let! lm := caught (reply TThinking) in
  do! assign (setLoadingMessage lm) in
  do! whenLoading lm (fun _ => sendChatAction typing) in
  do! modify (addMessageToConversation (openai env) userId Role.user userMessage) in
  let! conversation := stateful (getConversation userId) in
  let! gptResponse := generateGPTResponse env conversation in
  do! modify (addMessageToConversation (openai env) userId Role.assistant gptResponse) in
  match lm with
  | Some m =>
      tryCatch (call (editMessageText (message_id m) (TAnswer gptResponse)))
        (fun _ =>
           do! tell (TAnswer gptResponse) in
           do! caught (deleteMessage (message_id m)) in
           ret tt)
  | None => tell (TAnswer gptResponse)
  end.

Definition processGPTMessage (env : Env) (ctx : Ctx) (userMessage : string) : M unit :=
  let userId := from_id ctx in
  if negb (openai env) then tell TGptUnavailable
  else
    let! s := getState in
    if hasPendingOperation userId s then tell (TStillProcessing gpt_generating)
    else
      do! modify (setPendingOperation userId gpt_generating) in
      do! assign (fun _ => noLocals) in
      tryCatchFinally
        (gptTry env userId userMessage)
        (fun error => report (TGptError (errorText error)))
        (modify (clearPendingOperation userId)).

(** Group 1 of [text.match(/^\/t\s+(.+)$/s)]: after [/t] and the longest
    run of white space, the rest of the text; when nothing is left, the
    last white space character of a run of two or more. *)
Fixpoint lastChar (s : string) : option ascii :=
  match s with
  | EmptyString => None
  | String c EmptyString => Some c
  | String _ s' => lastChar s'
  end.

Definition matchSlashT (text : string) : option string :=
  match text with
  | String "/" (String "t" (String c r)) =>
      if Str.isSpace c then
        let rest := Str.trimStart r in
        if Str.isEmpty rest then
          match lastChar r with
          | Some c' => Some (String c' EmptyString)
          | None => None
          end
        else Some rest
      else None
  | _ => None
  end.

Definition handleTextCommand (env : Env) (ctx : Ctx) : M unit :=
  if negb (openai env) then tell TGptOffForT
  else
    match matchSlashT (msg_text ctx) with
    | None => tell TUsageT
    | Some group =>
        if Str.isEmpty (Str.trim group) then tell TUsageT
        else processGPTMessage env ctx (Str.trim group)
    end.

(** The [try] block of [processVoiceTransformation]. *)
Definition v2vTry (env : Env) (ctx : Ctx) (label : TypeLabel) : M unit :=
  let! lm := caught (reply (TReceived label)) in
  do! assign (setLoadingMessage lm) in
  do! whenLoading lm (fun _ => sendChatAction typing) in
  let! fileLink := call (getFileLink (file_id ctx)) in
  let! downloadResponse := call (axiosGet (href fileLink)) in
  if match data downloadResponse with None => true | Some n => (n =? 0)%nat end then
    throw (newError "La descarga del archivo de audio desde Telegram falló o el archivo está vacío.")
  else
    let fileExt :=
      orElse (extname fileLink)
             (match label with voice => ".ogg" | audio => ".mp3" end) in
    let! now := query DateNow in
    let input := v2v_input now fileExt in
    do! assign (setTempInputFilePath (Some input)) in
    do! call (writeFileSync input) in
    do! whenLoading lm (fun m => editMessageText (message_id m) TTransforming) in
    do! whenLoading lm (fun _ => sendChatAction record_voice) in
    let! transformed := transformVoice env input in
    do! assign (setTransformedFilePath (Some transformed)) in
    do! whenLoading lm (fun m => editMessageText (message_id m) TSendingTransformed) in
    do! whenLoading lm (fun _ => sendChatAction upload_voice) in
    let! found := query (existsSync transformed) in
    if negb found then
      throw (newError "Error interno del servidor: No se pudo encontrar el archivo de audio transformado.")
    else
      do! call (replyWithAudio transformed) in
      whenLoading lm (fun m => deleteMessage (message_id m)).

(** The file cleanup of its [finally] block. *)
Definition v2vCleanup : M unit :=
  let! l := getLocals in
  tryCatch
    (do! unlinkIfExists (tempInputFilePath l) in
     unlinkIfExists (transformedFilePath l))
    (fun _ => ret tt).

Definition processVoiceTransformation (env : Env) (ctx : Ctx) (label : TypeLabel) : M unit :=
  let userId := from_id ctx in
  do! modify (clearPendingVoiceTransformation userId) in
  let! s := getState in
  if hasPendingOperation userId s then tell (TStillProcessing v2v_transforming)
  else
    do! modify (setPendingOperation userId v2v_transforming) in
    do! assign (fun _ => noLocals) in
    tryCatchFinally
      (v2vTry env ctx label)
      (fun error => report (TTransformError (errorText error)))
      (do! v2vCleanup in
       modify (clearPendingOperation userId)).

Definition handleMessage (env : Env) (ctx : Ctx) : M unit :=
  let userId := from_id ctx in
  let userMessage := msg_text ctx in
  if Str.isEmpty userMessage
     || (String.length (Str.trim userMessage) <? 1)%nat
     || Str.startsWithChar "/" userMessage
  then ret tt
  else
    let! s := getState in
    if pendingV2V userId s then
      do! tell TV2vCancelled in
      modify (clearPendingVoiceTransformation userId)
    else if negb (openai env) then tell TGptOff
    else processGPTMessage env ctx userMessage.

Definition handleVoiceMessage (env : Env) (ctx : Ctx) : M unit :=
  let userId := from_id ctx in
  let! s := getState in
  if pendingV2V userId s then processVoiceTransformation env ctx voice
  else tell (TUnsolicited voice).

Definition handleAudioMessage (env : Env) (ctx : Ctx) : M unit :=
  let userId := from_id ctx in
  let! s := getState in
  if pendingV2V userId s then processVoiceTransformation env ctx audio
  else tell (TUnsolicited audio).

Definition handleHelp : M unit :=
  tryCatch
    (do! call (reply THelp) in ret tt)
    (fun _ =>
       tryCatch
         (do! call (reply THelpPlain) in ret tt)
         (fun _ => tell THelpShort)).

(** [bot.on('voice', ...)] and [bot.on('audio', ...)]. *)
Definition onSound (env : Env) (l : TypeLabel) (ctx : Ctx) : M unit :=
  match l with
  | voice => handleVoiceMessage env ctx
  | audio => handleAudioMessage env ctx
  end.

(** The updates the bot receives: those it has a handler for
    ([setupCommands] and [setupMessageHandlers]; a text that is not one of
    the five commands is a [text_message]) and [other_update], any update
    that no handler is registered for (a photo, a sticker, a document, an
    edited message, ...). *)
Inductive UpdateKind : Type :=
| command_help
| command_t
| command_t2v
| command_v2v
| command_reset
| text_message
| sound_message (l : TypeLabel)
| other_update.

Definition dispatch (env : Env) (k : UpdateKind) (ctx : Ctx) : M unit :=
  match k with
  | command_help => handleHelp
  | command_t => handleTextCommand env ctx
  | command_t2v => handleTextToVoiceCommand env ctx
  | command_v2v => handleVoiceToVoiceCommand ctx
  | command_reset => handleResetConversation env ctx
  | text_message => handleMessage env ctx
  | sound_message l => onSound env l ctx
  | other_update => ret tt
  end.

(** Step 2 of the middleware of [setupBot]: the session of the user is
    created when there is none, then stamped with the time. *)
Definition updateSession (userId : Z) : M unit :=
  let! s := getState in
  do! (if negb (bool_decide (is_Some (userSessions s !! userId)))
       then
         let! now := query DateNow in
         modify (createUserSession userId now)
       else ret tt) in
  let! now := query DateNow in
  modify (setLastAction userId now).

(** The middleware of [setupBot] in front of the handlers, inside the
    global error handler of [setupErrorHandler], which clears the lock and
    the intent when it knows the user; an update without [ctx.from] has
    user id 0.  An update is processed to its end: Telegraf also calls the
    error handler when the handler timeout (120 s) expires, while the
    handler goes on; that race is not part of this function. *)
Definition processUpdate (env : Env) (k : UpdateKind) (ctx : Ctx) : M unit :=
  let userId := from_id ctx in
  tryCatch
    (if negb (truthy userId) then ret tt
     else
       let! s := getState in
       if negb (isAuthorized userId s) then tell (TUnauthorized userId)
       else
         do! updateSession userId in
         dispatch env k ctx)
    (fun error =>
       do! tell TUnexpectedError in
       if truthy userId then
         do! modify (clearPendingOperation userId) in
         modify (clearPendingVoiceTransformation userId)
       else ret tt).

(** Updates processed one after the other. *)
Definition runUpdates (env : Env) (us : list (UpdateKind * Ctx)) (w : World) : World :=
  foldl (fun acc '(k, ctx) => snd (processUpdate env k ctx acc)) w us.

(* ===================================================================== *)
(** ** Vocabulary of the statements                                       *)
(* ===================================================================== *)

(** The lock and the voice intent of a user. *)
Definition lockOf (userId : Z) (s : StateManager) : option Operation :=
  pendingOperations s !! userId.

Definition intentOf (userId : Z) (s : StateManager) : option Z :=
  pendingVoiceTransformations s !! userId.

Definition historyOf (userId : Z) (s : StateManager) : option (list Message) :=
  conversations s !! userId.

(** [s'] is [s] but for the sessions. *)
Definition sessionsApart (s s' : StateManager) : Prop :=
  authorizedUsers s' = authorizedUsers s ∧
  adminUsers s' = adminUsers s ∧
  pendingOperations s' = pendingOperations s ∧
  conversations s' = conversations s ∧
  pendingVoiceTransformations s' = pendingVoiceTransformations s.

(** A reading of the clock. *)
Definition isClockRead (ev : Event) : Prop :=
  ∃ v, action ev = Observed DateNow v.

(** The events a run added to the trace. *)
Definition since (w w' : World) : list Event :=
  drop (length (trace w)) (trace w').

(** Calls to the generation and synthesis backends. *)
Definition isBackendCall (ev : Event) : bool :=
  match action ev with
  | Called (chatCompletionsCreate _) _ => true
  | Called (postTextToSpeech _ _) _ => true
  | Called (postSpeechToSpeech _) _ => true
  | _ => false
  end.

Definition backendCalls (tr : list Event) : nat :=
  length (filter (fun ev => isBackendCall ev = true) tr).

(** A sequence of [append] operations on the conversation store. *)
Definition appendAll (openai : bool) (ops : list (Z * Role.t * string)) (s : StateManager)
    : StateManager :=
  foldl (fun acc '(u, r, c) => addMessageToConversation openai u r c acc) s ops.

(** Modelled on the words of the specification: a value clamped to the
    range from [lo] to [hi]. *)
Definition clampedTo (lo hi x : Num) : Num :=
  if Num.ltb x lo then lo else if Num.ltb hi x then hi else x.

(** The valid range of each numeric option of the text-to-speech call. *)
Definition validRange (f : Flag.t) : Num * Num :=
  match f with
  | Flag.stability => (Num.decimal 0 0, Num.decimal 10 (-1))
  | Flag.style => (Num.decimal 0 0, PosInf)
  | Flag.speed => (Num.decimal 5 (-1), Num.decimal 20 (-1))
  end.

(** The double quote character, and a text between double quotes. *)
Definition dquote : ascii := "034"%char.
Definition quoted (s : string) : string :=
  String dquote (s +:+ String dquote EmptyString).

(** The invariant of a conversation history: it starts with the system
    entry and holds at most [maxMessages] entries. *)
Definition historyOk (h : list Message) : Prop :=
  (length h ≤ maxMessages)%nat ∧ h !! 0%nat = Some systemMessage.

Definition storeOk (s : StateManager) : Prop :=
  ∀ u h, historyOf u s = Some h → historyOk h.

(** What [addMessageToConversation] leaves of a history [h] when it pushes
    [m] on it. *)
Definition pushed (h : list Message) (m : Message) : list Message :=
  if (maxMessages <? length (h ++ [m]))%nat
  then splice 1 (length (h ++ [m]) - maxMessages) (h ++ [m])
  else h ++ [m].

(** [w'] is a later world of [w] in which the state manager satisfied [S]
    at every recorded moment and satisfies it now. *)
Definition evolves (S : StateManager -> Prop) (w w' : World) : Prop :=
  S (sm w') ∧ ∃ evs, trace w' = trace w ++ evs ∧ Forall (fun ev => S (snapshot ev)) evs.

(** [m] maintains [S], whatever the environment answers and whether [m]
    returns or throws. *)
Definition keeps (S : StateManager -> Prop) {A} (m : M A) : Prop :=
  ∀ w, S (sm w) → evolves S w (snd (m w)).

(** [m] never throws. *)
Definition safe {A} (m : M A) : Prop :=
  ∀ w, ∃ a, fst (m w) = Value a.

(** [S] does not look at the conversation store. *)
Definition ignoresConversations (S : StateManager -> Prop) : Prop :=
  ∀ s c, S s → S (setConversations c s).

(** Acquire and release are paired in [m], a pipeline of user [U] that
    takes the lock with [kind]: [m] returns normally, the lock table is at
    the end what it was at the start, and at every recorded moment it is
    either that table or, when the lock of [U] was free, that table with
    [kind] for [U]. *)
Definition pairedLock (U : Z) (kind : Operation) (m : M unit) : Prop :=
  ∀ w,
    fst (m w) = Value tt ∧
    pendingOperations (sm (snd (m w))) = pendingOperations (sm w) ∧
    Forall (fun ev =>
              pendingOperations (snapshot ev) = pendingOperations (sm w) ∨
              (lockOf U (sm w) = None ∧
               pendingOperations (snapshot ev) = <[U := kind]> (pendingOperations (sm w))))
           (since w (snd (m w))).

(** [m] takes the lock of [U] with [kind] before anything else. *)
Definition takesLock (U : Z) (kind : Operation) (m : M unit) : Prop :=
  ∀ w, lockOf U (sm w) = None →
       since w (snd (m w)) ≠ [] ∧
       Forall (fun ev => lockOf U (snapshot ev) = Some kind) (since w (snd (m w))).

(** The outcome of a call whose failure is swallowed. *)
Definition swallowed {T} (r : Outcome T) : option T :=
  match r with
  | Resolved v => Some v
  | Rejected _ => None
  end.

(** [m] first records an action, in the state it is started in, and from
    there on maintains [S]. *)
Definition opens (S : StateManager -> Prop) {A} (m : M A) : Prop :=
  ∀ w, S (sm w) → ∃ a, evolves S (tick (record a w)) (snd (m w)).

(** The per-user state of [U] is the same in [s] and [s']. *)
Definition untouched (U : Z) (s s' : StateManager) : Prop :=
  historyOf U s' = historyOf U s ∧
  lockOf U s' = lockOf U s ∧
  intentOf U s' = intentOf U s.

(** The event of a reply sent from world [w]. *)
Definition replyEvent (text : Text) (w : World) : Event :=
  mkEvent (Called (reply text) (answer (oracle w) ChatMessage (reply text) (steps w))) (sm w).

(** How many times, along a trace, the lock of [U] passes into being held
    with [kind]: the number of runs of that pipeline the trace shows. *)
Definition holds (U : Z) (kind : Operation) (ev : Event) : bool :=
  bool_decide (lockOf U (snapshot ev) = Some kind).

Fixpoint acquisitionsFrom (U : Z) (kind : Operation) (held : bool) (evs : list Event) : nat :=
  match evs with
  | [] => 0
  | ev :: evs' =>
      ((if negb held && holds U kind ev then 1 else 0)
       + acquisitionsFrom U kind (holds U kind ev) evs')%nat
  end.

Definition acquisitions (U : Z) (kind : Operation) (evs : list Event) : nat :=
  acquisitionsFrom U kind false evs.

(** ** Concrete environments, for examples *)

(** The value a request returns when it succeeds in the examples. *)
Definition sampleValue {T} (c : Call T) : T :=
  match c in Call T return T with
  | reply _ => mkChatMessage 100
  | sendChatAction _ => tt
  | editMessageText _ _ => tt
  | deleteMessage _ => tt
  | replyWithAudio _ => tt
  | getFileLink _ => mkFileLink "https://api.telegram.org/file/voice.oga" ".oga"
  | axiosGet _ => mkHttpResponse 200 (Some 2048%nat)
  | chatCompletionsCreate _ => Some "Claro."%string
  | postTextToSpeech _ _ => mkHttpResponse 200 (Some 4096%nat)
  | postSpeechToSpeech _ => mkHttpResponse 200 (Some 4096%nat)
  | readFileSync _ => tt
  | writeFileSync _ => tt
  | unlinkSync _ => tt
  end.

Definition sampleObservation {T} (q : Query T) : T :=
  match q in Query T return T with
  | existsSync _ => true
  | DateNow => 1700000000000
  end.

(** An environment whose first [failures] requests fail and whose other
    requests succeed. *)
Definition flakyOracle (failures : nat) : Oracle :=
  mkOracle
    (fun T c n =>
       if (n <? failures)%nat then Rejected (newError ("attempt " +:+ pretty (Z.of_nat n)))
       else Resolved (sampleValue c))
    (fun T q n => sampleObservation q).

Definition obligingOracle : Oracle := flakyOracle 0.

(** An HTTP error 500 whose body has no [detail]. *)
Definition serverError : Error :=
  mkError "Request failed with status code 500" (Some 500) "Internal Server Error"
          (Body true EmptyString NoDetail).

(** An environment in which every request fails with that error. *)
Definition serverErrorOracle : Oracle :=
  mkOracle (fun T c n => Rejected serverError) (fun T q n => sampleObservation q).

Definition startWorld (o : Oracle) (s : StateManager) : World :=
  mkWorld o s noLocals [] 0.

(** User 7 alone is authorized, and nothing is pending. *)
Definition idleState : StateManager := initializeState (Some "7"%string) None.

(** User 7 has issued /v2v (message 41) and nothing else is pending. *)
Definition armedState : StateManager := setPendingVoiceTransformation 7 41 idleState.

(** User 7 has issued /v2v and then started a text-to-speech conversion
    that has not finished yet. *)
Definition busyArmedState : StateManager := setPendingOperation 7 t2v_converting armedState.

Definition sampleEnv : Env := mkEnv true true.

(** A text message that [handleMessage] does not ignore: not empty, not
    blank, not starting with a slash. *)
Definition isPlainText (t : string) : bool :=
  negb (Str.isEmpty t
        || (String.length (Str.trim t) <? 1)%nat
        || Str.startsWithChar "/" t).

(** The value [generateVoice] uses for a numeric option, and the option as
    the caller supplied it. *)
Definition usedValue (f : Flag.t) (v : VoiceSettings.t) : Num :=
  match f with
  | Flag.stability => VoiceSettings.stability v
  | Flag.style => VoiceSettings.style v
  | Flag.speed => VoiceSettings.speed v
  end.

Definition suppliedValue (f : Flag.t) (o : Options.t) : option Num :=
  match f with
  | Flag.stability => Options.stability o
  | Flag.style => Options.style o
  | Flag.speed => Options.speed o
  end.

Definition defaultValue (f : Flag.t) : Num :=
  match f with
  | Flag.stability => CONFIG.STABILITY
  | Flag.style => CONFIG.STYLE
  | Flag.speed => CONFIG.SPEED
  end.

(** [x] lies in the range from [lo] to [hi]. *)
Definition inRange (r : Num * Num) (x : Num) : Prop :=
  Num.leb (fst r) x = true ∧ Num.leb x (snd r) = true.

(** The first thing [m] does is the call [c]. *)
Definition firstCall {T} (c : Call T) {A} (m : M A) : Prop :=
  ∀ w, ∃ rest,
    trace (snd (m w)) =
    trace w ++ mkEvent (Called c (answer (oracle w) T c (steps w))) (sm w) :: rest.

(** Without the OpenAI client the conversation store is never written. *)
Definition storeGate (env : Env) (s : StateManager) : Prop :=
  openai env = false → conversations s = ∅.

(** [S] looks at the conversation store only. *)
Definition onlyConversations (S : StateManager -> Prop) : Prop :=
  ∀ s s', conversations s' = conversations s → S s → S s'.

(** Every numeric option of [o] that is set is a number (not NaN). *)
Definition numericOptions (o : Options.t) : Prop :=
  ∀ f x, suppliedValue f o = Some x → Num.isNaN x = false.

(* ===================================================================== *)
(** ** Vocabulary of the further properties                               *)
(* ===================================================================== *)

(** What a run of [Utils.retry] leaves behind: the delays it made, the
    number of requests it made, the untouched state manager and oracle. *)
Definition retryFootprint (w w' : World) (waits : list Z) (requests : nat) : Prop :=
  delays (trace w') = delays (trace w) ++ waits ∧
  steps w' = (steps w + requests)%nat ∧
  sm w' = sm w ∧
  oracle w' = oracle w.

(** The delays before attempts [i+1], ..., [i+k]: the base delay doubled
    once per failed attempt. *)
Definition backoff (delay : Z) (i k : nat) : list Z :=
  map (fun j => delay * 2 ^ Z.of_nat j) (seq i k).

(** [S] is maintained by every operation of the state manager that the
    handlers apply on behalf of user [U]. *)
Definition stableFor (U : Z) (S : StateManager -> Prop) : Prop :=
  (∀ o r c s, S s → S (addMessageToConversation o U r c s)) ∧
  (∀ s, S s → S (snd (getConversation U s))) ∧
  (∀ s, S s → S (setConversations (delete U (conversations s)) s)) ∧
  (∀ k s, S s → S (setPendingOperation U k s)) ∧
  (∀ s, S s → S (clearPendingOperation U s)) ∧
  (∀ id s, S s → S (setPendingVoiceTransformation U id s)) ∧
  (∀ s, S s → S (clearPendingVoiceTransformation U s)) ∧
  (∀ now s, S s → S (createUserSession U now s)) ∧
  (∀ now s, S s → S (setLastAction U now s)).

(** The two sets of the authorization registry are those of [s0]. *)
Definition sameRegistry (s0 s : StateManager) : Prop :=
  authorizedUsers s = authorizedUsers s0 ∧ adminUsers s = adminUsers s0.

(** A string of white space only. *)
Fixpoint allSpaces (s : string) : bool :=
  match s with
  | EmptyString => true
  | String c s' => Str.isSpace c && allSpaces s'
  end.

(** The weight of a list of events under a cost of actions. *)
Definition weigh (cost : Action -> nat) (evs : list Event) : nat :=
  sum_list_with (fun ev => cost (action ev)) evs.

(** [m] adds events of total weight at most [n] to the trace. *)
Definition spends (cost : Action -> nat) (n : nat) {A} (m : M A) : Prop :=
  ∀ w, ∃ evs, trace (snd (m w)) = trace w ++ evs ∧ (weigh cost evs ≤ n)%nat.

(** One for each request to a generation or synthesis backend. *)
Definition backendCost (a : Action) : nat :=
  match a with
  | Called (chatCompletionsCreate _) _ => 1
  | Called (postTextToSpeech _ _) _ => 1
  | Called (postSpeechToSpeech _) _ => 1
  | _ => 0
  end.

(** The milliseconds of a delay. *)
Definition waitCost (a : Action) : nat :=
  match a with
  | Slept ms => Z.to_nat ms
  | _ => 0
  end.

(** The time spent in the delays of a trace, in milliseconds. *)
Definition totalDelay (evs : list Event) : Z := foldr Z.add 0 (delays evs).

(** The three tokens the option parser of /t2v takes for flags. *)
Definition isFlagToken (part : string) : bool :=
  String.eqb part "-s" || String.eqb part "-x" || String.eqb part "-v".

(** The letter a parsing error names. *)
Definition letterOf (e : ParsingError) : string :=
  match e with
  | ExpectedNumber letter _ => letter
  | MissingValue letter => letter
  end.

(** Options in which only the three numeric overrides of /t2v may be set. *)
Definition onlyFlagOptions (o : Options.t) : Prop :=
  Options.similarity_boost o = None ∧ Options.use_speaker_boost o = None.

(* ===================================================================== *)
(** ** Startup: module initialisation, [Utils.validateEnvVars],
       [ApiService.verifyApis], [JavierBot.verifyPrerequisites],
       [JavierBot.start] and [main]                                       *)
(* ===================================================================== *)

(** The variables of [process.env] that the program reads; [None] is a
    variable that is not defined. *)
Module Process.
Record env : Type := mkEnv {
  BOT_TOKEN : option string;
  ELEVEN_API_KEY : option string;
  AUTHORIZED_USERS : option string;
  ADMIN_USERS : option string;
  OPENAI_API_KEY : option string;
  ELEVEN_VOICE_ID : option string
}.
End Process.

(** Truthiness of [process.env[key]]: defined and not the empty string. *)
Definition isSet (v : option string) : bool :=
  match v with
  | Some s => negb (Str.isEmpty s)
  | None => false
  end.

(** What the services outside answer during startup.  Each of them is
    consulted at most once:
    - the creation of the temporary directory and of its fallback;
    - [new OpenAI(...)] and [new Telegraf(...)];
    - the test completion, with [choices?.length] ([None]: no [choices]);
    - the user request of ElevenLabs, with the truthiness of
      [data?.subscription];
    - the voice request, with [data?.voice_id === VOICE_ID];
    - [bot.launch()]. *)
Record Services : Type := mkServices {
  tmpDir : Outcome unit;
  fallbackTmpDir : Outcome unit;
  openaiConstructor : Outcome unit;
  telegrafConstructor : Outcome unit;
  openaiTest : Outcome (option nat);
  elevenUser : Outcome bool;
  elevenVoice : Outcome bool;
  launch : Outcome unit
}.

Inductive Probe : Type :=
| PTmpDir | PFallbackTmpDir | POpenAIConstructor | PTelegrafConstructor
| POpenAITest | PElevenUser | PElevenVoice | PLaunch.

(** [validateEnvVars()]: the loop over [required] collects the names of the
    variables that are missing. *)
Definition required : list (string * (Process.env -> option string)) :=
  [("BOT_TOKEN"%string, Process.BOT_TOKEN);
   ("ELEVEN_API_KEY"%string, Process.ELEVEN_API_KEY);
   ("AUTHORIZED_USERS"%string, Process.AUTHORIZED_USERS)].

Fixpoint missingOf (keys : list (string * (Process.env -> option string))) (p : Process.env)
    : list string :=
  match keys with
  | [] => []
  | (key, get) :: rest =>
      if negb (isSet (get p)) then key :: missingOf rest p else missingOf rest p
  end.

Definition validateEnvVars (p : Process.env) : bool :=
  match missingOf required p with
  | [] => true
  | _ :: _ => false
  end.

(** The client of section 4: created only when the key is present; when
    the constructor throws the client stays null. *)
Definition initOpenAI (p : Process.env) (sv : Services) : bool * list Probe :=
  if isSet (Process.OPENAI_API_KEY p) then
    match openaiConstructor sv with
    | Resolved _ => (true, [POpenAIConstructor])
    | Rejected _ => (false, [POpenAIConstructor])
    end
  else (false, []).

(** [verifyApis()]: [allOk] is the conjunction of the two verdicts; a voice
    id that does not match only warns.  The probes made are returned with
    the outcome. *)
Definition verifyOpenAI (client : bool) (sv : Services) : bool * list Probe :=
  if client then
    match openaiTest sv with
    | Resolved choices =>
        (match choices with Some n => (0 <? n)%nat | None => false end, [POpenAITest])
    | Rejected _ => (false, [POpenAITest])
    end
  else (true, []).

Definition verifyElevenLabs (p : Process.env) (sv : Services) : bool * list Probe :=
  if isSet (Process.ELEVEN_API_KEY p) then
    match elevenUser sv with
    | Resolved subscription =>
        if subscription then
          match elevenVoice sv with
          | Resolved _ => (true, [PElevenUser; PElevenVoice])
          | Rejected _ => (false, [PElevenUser; PElevenVoice])
          end
        else (false, [PElevenUser])
    | Rejected _ => (false, [PElevenUser])
    end
  else (false, []).

Definition verifyApis (client : bool) (p : Process.env) (sv : Services)
    : Result unit * list Probe :=
  let '(ok1, probes1) := verifyOpenAI client sv in
  let '(ok2, probes2) := verifyElevenLabs p sv in
  (if ok1 && ok2 then Value tt
   else Thrown (newError "Una o más verificaciones de API fallaron al inicio. Revisa los logs."),
   probes1 ++ probes2).

(** How the process stands after [main]: it has called [process.exit], or
    the bot listens with the given clients and state manager. *)
Inductive Startup : Type :=
| Exited (code : Z) (probes : list Probe)
| Listening (e : Env) (s : StateManager) (probes : list Probe).

(** [verifyPrerequisites()]: [true] when the process goes on, [false] when
    it calls [process.exit(1)]. *)
Definition verifyPrerequisites (client : bool) (p : Process.env) (sv : Services)
    : bool * list Probe :=
  if validateEnvVars p then
    match verifyApis client p sv with
    | (Value _, probes) => (true, probes)
    | (Thrown _, probes) => (false, probes)
    end
  else (false, []).

(** [start()], for a bot that was constructed. *)
Definition start (client : bool) (s : StateManager) (p : Process.env) (sv : Services)
    (probes : list Probe) : Startup :=
  let '(ok, probes1) := verifyPrerequisites client p sv in
  if negb ok then Exited 1 (probes ++ probes1)
  else
    match launch sv with
    | Resolved _ =>
        Listening (mkEnv client (isSet (Process.ELEVEN_API_KEY p))) s
                  (probes ++ probes1 ++ [PLaunch])
    | Rejected _ => Exited 1 (probes ++ probes1 ++ [PLaunch])
    end.

(** The temporary directory of section 3: the main one, else the fallback,
    else [process.exit(1)]. *)
Definition setupTmpDir (sv : Services) : bool * list Probe :=
  match tmpDir sv with
  | Resolved _ => (true, [PTmpDir])
  | Rejected _ =>
      match fallbackTmpDir sv with
      | Resolved _ => (true, [PTmpDir; PFallbackTmpDir])
      | Rejected _ => (false, [PTmpDir; PFallbackTmpDir])
      end
  end.

(** The script from its first line to the end of [main()]: the temporary
    directory, the OpenAI client, the constructor of [JavierBot] (state
    manager, then [setupBot] with its two exits), then [start]. *)
Definition main (p : Process.env) (sv : Services) : Startup :=
  let '(dirOk, probes0) := setupTmpDir sv in
  if negb dirOk then Exited 1 probes0
  else
    let '(client, probes1) := initOpenAI p sv in
    let s := initializeState (Process.AUTHORIZED_USERS p) (Process.ADMIN_USERS p) in
    if negb (isSet (Process.BOT_TOKEN p)) then Exited 1 (probes0 ++ probes1)
    else
      match telegrafConstructor sv with
      | Rejected _ => Exited 1 (probes0 ++ probes1 ++ [PTelegrafConstructor])
      | Resolved _ => start client s p sv (probes0 ++ probes1 ++ [PTelegrafConstructor])
      end.

(** [handleShutdown(signal)] *)
Definition handleShutdown : Startup := Exited 0 [].

(** The conditions under which the bot comes to listen. *)
Definition startsWith (client : bool) (p : Process.env) (sv : Services) : Prop :=
  (∃ u, tmpDir sv = Resolved u ∨ fallbackTmpDir sv = Resolved u) ∧
  isSet (Process.BOT_TOKEN p) = true ∧
  isSet (Process.ELEVEN_API_KEY p) = true ∧
  isSet (Process.AUTHORIZED_USERS p) = true ∧
  (∃ u, telegrafConstructor sv = Resolved u) ∧
  client = fst (initOpenAI p sv) ∧
  (client = true → ∃ n, openaiTest sv = Resolved (Some (S n))) ∧
  elevenUser sv = Resolved true ∧
  (∃ same, elevenVoice sv = Resolved same) ∧
  (∃ u, launch sv = Resolved u).

(** A sample environment and obliging services. *)
Definition sampleProcess : Process.env :=
  Process.mkEnv (Some "123:abc"%string) (Some "key"%string) (Some "abc, x7"%string)
                None None None.

Definition sampleServices : Services :=
  mkServices (Resolved tt) (Resolved tt) (Resolved tt) (Resolved tt)
             (Resolved (Some 1%nat)) (Resolved true) (Resolved false) (Resolved tt).

(** The action of an event is a refusal sent to a user. *)
Definition isRefusal (ev : Event) : Prop :=
  ∃ u r, action ev = Called (reply (TUnauthorized u)) r.

(* ===================================================================== *)
(** ** Vocabulary of the properties of traces                             *)
(* ===================================================================== *)

(** The history a request to the model carries. *)
Definition chatMessagesOf (a : Action) : option (list Message) :=
  match a with
  | Called (chatCompletionsCreate messages) _ => Some messages
  | _ => None
  end.

(** One for each request to the model. *)
Definition chatCost (a : Action) : nat :=
  match chatMessagesOf a with
  | Some _ => 1
  | None => 0
  end.

(** The file a successful write created. *)
Definition writtenPath (a : Action) : option Path :=
  match a with
  | Called c r =>
      match c with
      | writeFileSync p =>
          match r with
          | Resolved _ => Some p
          | Rejected _ => None
          end
      | _ => None
      end
  | _ => None
  end.

(** [m] writes neither the state manager nor the local variables, and the
    actions it adds to the trace all satisfy [Φ]. *)
Definition tame (Φ : Action -> Prop) {A} (m : M A) : Prop :=
  ∀ w, sm (snd (m w)) = sm w ∧ locals (snd (m w)) = locals w ∧
       ∃ evs, trace (snd (m w)) = trace w ++ evs ∧
              Forall (fun ev => Φ (action ev) ∧ snapshot ev = sm w) evs.

(** Started in [w], [m] adds only events that satisfy [G]. *)
Definition addsAt (G : Event -> Prop) {A} (m : M A) (w : World) : Prop :=
  ∃ evs, trace (snd (m w)) = trace w ++ evs ∧ Forall G evs.

Definition adds (G : Event -> Prop) {A} (m : M A) : Prop := ∀ w, addsAt G m w.

(** A request to the model is well formed when it carries a history that is
    stored at that moment and ends with a message of the user. *)
Definition wellFormedRequest (ev : Event) : Prop :=
  ∀ messages, chatMessagesOf (action ev) = Some messages →
    (∃ U, historyOf U (snapshot ev) = Some messages) ∧
    (∃ c, last messages = Some (mkMessage Role.user c)).

(** From some point on, the events look for the file [p] and, when it is
    there, remove it at once. *)
Definition removalOf (p : Path) (evs : list Event) : Prop :=
  ∃ pre found post,
    map action evs = pre ++ Observed (existsSync p) found :: post ∧
    (found = true → ∃ r post', post = Called (unlinkSync p) r :: post').

(** No file was written since the trace [tr0]. *)
Definition untracked (tr0 : list Event) (w : World) : Prop :=
  ∃ evs, trace w = tr0 ++ evs ∧ audioFilePath (locals w) = None ∧
         Forall (fun ev => writtenPath (action ev) = None) evs.

(** Since the trace [tr0], either no file was written and the variable
    [audioFilePath] is null, or exactly one file was written and the
    variable holds its path. *)
Definition filesTracked (tr0 : list Event) (w : World) : Prop :=
  untracked tr0 w ∨
  ∃ p evs1 ev evs2,
    trace w = tr0 ++ evs1 ++ ev :: evs2 ∧ audioFilePath (locals w) = Some p ∧
    Forall (fun ev => writtenPath (action ev) = None) evs1 ∧
    writtenPath (action ev) = Some p ∧
    Forall (fun ev => writtenPath (action ev) = None) evs2.

(** Since the trace [tr0], every file that was written is looked for
    afterwards and removed when found. *)
Definition filesRemoved (tr0 : list Event) (w : World) : Prop :=
  ∃ evs, trace w = tr0 ++ evs ∧
    ∀ p before ev after,
      evs = before ++ ev :: after → writtenPath (action ev) = Some p → removalOf p after.

(** Something is stored for user [U]: a session, a conversation, a lock or
    a voice intent. *)
Definition hasState (U : Z) (s : StateManager) : Prop :=
  is_Some (userSessions s !! U) ∨ is_Some (historyOf U s) ∨
  is_Some (lockOf U s) ∨ is_Some (intentOf U s).

(** State is stored for authorized users only. *)
Definition knownOnly (s : StateManager) : Prop :=
  ∀ U, hasState U s → isAuthorized U s = true.

(** For every user but [U], and for the registry, [s] is as [s0]. *)
Definition othersAsIn (U : Z) (s0 s : StateManager) : Prop :=
  sameRegistry s0 s ∧
  ∀ V, V ≠ U → untouched V s0 s ∧ userSessions s !! V = userSessions s0 !! V.

(** The text and the voice settings that a request to the text-to-speech
    backend carries. *)
Definition ttsRequestOf (a : Action) : option (string * VoiceSettings.t) :=
  match a with
  | Called (postTextToSpeech text voice_settings) _ => Some (text, voice_settings)
  | _ => None
  end.

(** One for each request to the text-to-speech backend. *)
Definition ttsCost (a : Action) : nat :=
  match ttsRequestOf a with
  | Some _ => 1
  | None => 0
  end.

(** Started in [w], [m] adds an event that satisfies [P], and before it
    only events that satisfy [Q]. *)
Definition reachesAt (Q P : Event -> Prop) {A} (m : M A) (w : World) : Prop :=
  ∃ before ev after,
    trace (snd (m w)) = trace w ++ before ++ ev :: after ∧ Forall Q before ∧ P ev.

(** The updates a handler answers: all those that have a handler, but for
    the text messages that [handleMessage] ignores. *)
Definition answered (k : UpdateKind) (ctx : Ctx) : bool :=
  match k with
  | other_update => false
  | text_message => isPlainText (msg_text ctx)
  | _ => true
  end.

(** Started in [w], the first thing [m] does is to send a message to the
    user. *)
Definition repliesFirstAt {A} (m : M A) (w : World) : Prop :=
  ∃ text r s rest,
    trace (snd (m w)) = trace w ++ mkEvent (Called (reply text) r) s :: rest.

Definition repliesFirst {A} (m : M A) : Prop := ∀ w, repliesFirstAt m w.

(* ===================================================================== *)
(** * Properties                                                          *)
(* ===================================================================== *)

(** ** Authorization registry *)

Lemma parseIds_tokens (envVar : option string) :
  parseIds envVar = omap (fun id => Str.parseInt (Str.trim id)) (tokensOf envVar).
Proof.
  unfold parseIds, tokensOf. destruct envVar as [s|]; [|reflexivity].
  destruct (Str.isEmpty s); reflexivity.
Qed.

Lemma idSet_spec (envVar : option string) (k : Z) :
  k ∈ idSet envVar ↔
  ∃ t, t ∈ tokensOf envVar ∧ Str.parseInt (Str.trim t) = Some k.
Proof.
  unfold idSet. rewrite elem_of_list_to_set, parseIds_tokens, list_elem_of_omap.
  reflexivity.
Qed.

Lemma idSet_all_malformed (envVar : option string) :
  (∀ t, t ∈ tokensOf envVar → Str.parseInt (Str.trim t) = None) →
  idSet envVar = ∅.
Proof.
  intros Hbad. apply set_eq. intros k. rewrite idSet_spec. split.
  - intros (t & Ht & Hk). rewrite (Hbad t Ht) in Hk. discriminate.
  - intros H. exfalso. set_solver.
Qed.


(** *** The tokens of a configuration value *)

Lemma append_cons (c : ascii) (s s' : string) : String c s +:+ s' = String c (s +:+ s').
Proof. reflexivity. Qed.

Lemma append_nil (s : string) : EmptyString +:+ s = s.
Proof. reflexivity. Qed.

Lemma append_nil_r (s : string) : s +:+ EmptyString = s.
Proof. induction s as [|c s IH]; [done|]. by rewrite append_cons, IH. Qed.

Lemma append_assoc (a b c : string) : (a +:+ b) +:+ c = a +:+ (b +:+ c).
Proof. induction a as [|x a IH]; [done|]. by rewrite !append_cons, IH. Qed.

Lemma splitOn_nonempty (sep : ascii) (s : string) : Str.splitOn sep s ≠ [].
Proof.
  destruct s as [|c s]; cbn; [done|]. destruct (Ascii.eqb c sep); [done|].
  by destruct (Str.splitOn sep s).
Qed.

Lemma concat_consHead (c : ascii) (ts : list string) :
  ts ≠ [] → String.concat "," (Str.consHead c ts) = String c (String.concat "," ts).
Proof. by destruct ts as [|t [|t' ts]]. Qed.

Lemma concat_splitOn (s : string) : String.concat "," (Str.splitOn "," s) = s.
Proof.
  induction s as [|c s IH]; [done|]. cbn [Str.splitOn].
  destruct (Ascii.eqb_spec c ","%char) as [->|Hc].
  - pose proof (splitOn_nonempty "," s) as Hne.
    destruct (Str.splitOn "," s) as [|t ts]; [done|].
    cbn [String.concat] in *. by rewrite IH.
  - rewrite concat_consHead by apply splitOn_nonempty. by rewrite IH.
Qed.

Lemma commaFree_nil : commaFree EmptyString.
Proof. unfold commaFree. cbn. apply not_elem_of_nil. Qed.

Lemma commaFree_cons (c : ascii) (t : string) :
  commaFree (String c t) ↔ c ≠ ","%char ∧ commaFree t.
Proof.
  unfold commaFree. cbn [list_ascii_of_string]. rewrite not_elem_of_cons.
  split; intros [? ?]; split; congruence.
Qed.

Lemma commaFree_splitOn (s : string) : Forall commaFree (Str.splitOn "," s).
Proof.
  induction s as [|c s IH]; cbn [Str.splitOn].
  - repeat constructor. apply commaFree_nil.
  - destruct (Ascii.eqb_spec c ","%char) as [->|Hc].
    + constructor; [apply commaFree_nil|done].
    + pose proof (splitOn_nonempty "," s).
      destruct (Str.splitOn "," s) as [|t ts]; [done|].
      cbn [Str.consHead]. apply Forall_cons in IH as [Ht Hts].
      constructor; [|done]. by apply commaFree_cons.
Qed.

Lemma splitOn_commaFree (t : string) : commaFree t → Str.splitOn "," t = [t].
Proof.
  induction t as [|c t IH]; intros H; [done|].
  apply commaFree_cons in H as [Hc Ht]. cbn [Str.splitOn].
  destruct (Ascii.eqb_spec c ","%char); [done|]. by rewrite IH.
Qed.

Lemma splitOn_app_comma (t r : string) :
  commaFree t → Str.splitOn "," (t +:+ String "," r) = t :: Str.splitOn "," r.
Proof.
  induction t as [|c t IH]; intros H; [done|].
  apply commaFree_cons in H as [Hc Ht]. rewrite append_cons. cbn [Str.splitOn].
  destruct (Ascii.eqb_spec c ","%char); [done|]. by rewrite IH.
Qed.

Lemma splitOn_concat (ts : list string) :
  ts ≠ [] → Forall commaFree ts → Str.splitOn "," (String.concat "," ts) = ts.
Proof.
  induction ts as [|t ts IH]; intros Hne Hall; [done|].
  apply Forall_cons in Hall as [Ht Hts]. destruct ts as [|t' ts].
  - by apply splitOn_commaFree.
  - change (String.concat "," (t :: t' :: ts))
      with (t +:+ String "," (String.concat "," (t' :: ts))).
    rewrite splitOn_app_comma by done. by rewrite IH.
Qed.

(** The tokens [parseIds] sees are the comma-separated tokens of the value. *)
Lemma listedIn_tokens (envVar : option string) (t : string) :
  listedIn envVar t ↔ t ∈ tokensOf envVar.
Proof.
  unfold listedIn, tokensOf. split.
  - intros (ts & -> & Hne & Hall & Ht).
    destruct (Str.isEmpty (String.concat "," ts)) eqn:Hempty.
    { by destruct (String.concat "," ts). }
    rewrite splitOn_concat; [done| |done]. intros ->. by apply elem_of_nil in Ht.
  - destruct envVar as [s|]; [|by intros ?%elem_of_nil].
    destruct (Str.isEmpty s) eqn:Hempty; [by intros ?%elem_of_nil|]. intros Ht.
    exists (Str.splitOn "," s). rewrite concat_splitOn.
    split; [done|]. split; [by intros ->|]. split; [apply commaFree_splitOn|done].
Qed.

(** *** Characters *)

Ltac each_char c := destruct c as [[] [] [] [] [] [] [] []].

Lemma isSpace_whiteSpace (c : ascii) : Str.isSpace c = bool_decide (c ∈ whiteSpace).
Proof. each_char c; vm_compute; reflexivity. Qed.

Lemma blank_nil : blank EmptyString.
Proof. constructor. Qed.

Lemma blank_cons (c : ascii) (s : string) :
  blank (String c s) ↔ Str.isSpace c = true ∧ blank s.
Proof.
  unfold blank. cbn [list_ascii_of_string]. rewrite Forall_cons, isSpace_whiteSpace.
  by rewrite bool_decide_eq_true.
Qed.

Lemma blank_app (a b : string) : blank a → blank b → blank (a +:+ b).
Proof.
  induction a as [|c a IH]; intros Ha Hb; [done|].
  apply blank_cons in Ha as [Hc Ha]. rewrite append_cons. apply blank_cons. auto.
Qed.

Lemma digitOf_digitValue (radix : Z) (c : ascii) :
  radix = 10 ∨ radix = 16 →
  Str.digitOf radix c = if isDigitIn radix c then digitValue c else None.
Proof. intros [-> | ->]; each_char c; vm_compute; reflexivity. Qed.

(** A digit is neither white space, nor a sign, nor the letter of the
    hexadecimal mark. *)
Lemma digit_plain (c : ascii) :
  isDigitIn 16 c = true →
  Str.isSpace c = false ∧ c ≠ "-"%char ∧ c ≠ "+"%char ∧ c ≠ "x"%char ∧ c ≠ "X"%char.
Proof. each_char c; vm_compute; intros H; try discriminate H; by repeat split. Qed.

Lemma digit_10_16 (c : ascii) : isDigitIn 10 c = true → isDigitIn 16 c = true.
Proof. each_char c; vm_compute; done. Qed.

Lemma space_not_digit (c : ascii) : Str.isSpace c = true → isDigitIn 16 c = false.
Proof. each_char c; vm_compute; done. Qed.

Lemma isDigitIn_value (radix : Z) (c : ascii) :
  isDigitIn radix c = true → ∃ d, digitValue c = Some d.
Proof. unfold isDigitIn. destruct (digitValue c) as [d|]; [by exists d|done]. Qed.

(** *** Trimming *)

Lemma trimStart_split (s : string) :
  ∃ ws, blank ws ∧ s = ws +:+ Str.trimStart s ∧ noSpaceAhead (Str.trimStart s) = true.
Proof.
  induction s as [|c s (ws & Hws & Hs & Hhead)].
  - exists EmptyString. by split; [apply blank_nil|].
  - cbn [Str.trimStart]. destruct (Str.isSpace c) eqn:Hc.
    + exists (String c ws). split; [by apply blank_cons|].
      split; [|done]. rewrite append_cons. by rewrite <- Hs.
    + exists EmptyString. split; [apply blank_nil|]. split; [done|].
      cbn [noSpaceAhead]. by rewrite Hc.
Qed.

Lemma trimStart_head (u : string) : noSpaceAhead u = true → Str.trimStart u = u.
Proof.
  destruct u as [|c u]; [done|]. cbn [noSpaceAhead Str.trimStart].
  by intros ->%negb_true_iff.
Qed.

Lemma trimStart_blank_app (ws u : string) :
  blank ws → noSpaceAhead u = true → Str.trimStart (ws +:+ u) = u.
Proof.
  induction ws as [|c ws IH]; intros Hws Hu.
  - rewrite append_nil. by apply trimStart_head.
  - apply blank_cons in Hws as [Hc Hws]. rewrite append_cons. cbn [Str.trimStart].
    rewrite Hc. by apply IH.
Qed.

Lemma trimEnd_split (s : string) : ∃ sp, blank sp ∧ s = Str.trimEnd s +:+ sp.
Proof.
  induction s as [|c s (sp & Hsp & Hs)].
  - exists EmptyString. by split; [apply blank_nil|].
  - cbn [Str.trimEnd]. destruct (Str.isSpace c) eqn:Hc; cbn [andb].
    + destruct (Str.trimEnd s) as [|c' t] eqn:Ht; cbn [Str.isEmpty].
      * exists (String c sp). split; [by apply blank_cons|].
        rewrite append_nil in *. by rewrite <- Hs.
      * exists sp. split; [done|]. rewrite append_cons. by rewrite <- Hs.
    + exists sp. split; [done|]. rewrite append_cons. by rewrite <- Hs.
Qed.

Lemma trimEnd_plain (c : ascii) (s : string) :
  Str.isSpace c = false → Str.trimEnd (String c s) = String c (Str.trimEnd s).
Proof. intros Hc. cbn [Str.trimEnd]. by rewrite Hc. Qed.

Lemma trimEnd_head (s : string) :
  Str.trimEnd s = EmptyString ∨
  ∃ c r r', s = String c r ∧ Str.trimEnd s = String c r'.
Proof.
  destruct s as [|c s]; [by left|]. cbn [Str.trimEnd].
  destruct (Str.isSpace c && Str.isEmpty (Str.trimEnd s)); [by left|].
  right. by eexists _, _, _.
Qed.

(** *** Reading an integer *)

Lemma readSign_other (c : ascii) (s : string) :
  c ≠ "-"%char → c ≠ "+"%char → Str.readSign (String c s) = (false, String c s).
Proof. each_char c; intros H1 H2; first [reflexivity | congruence]. Qed.

Lemma readSign_spec (v : string) :
  ∃ sg y, v = signText sg +:+ y ∧ Str.readSign v = (isMinus sg, y).
Proof.
  destruct v as [|c v]; [by exists NoSign, EmptyString|].
  destruct (Ascii.eqb_spec c "-"%char) as [->|Hminus]; [by exists MinusSign, v|].
  destruct (Ascii.eqb_spec c "+"%char) as [->|Hplus]; [by exists PlusSign, v|].
  exists NoSign, (String c v). split; [done|]. by apply readSign_other.
Qed.

Lemma readSign_signText (sg : Sign) (y : string) :
  digitAhead 16 y = true → Str.readSign (signText sg +:+ y) = (isMinus sg, y).
Proof.
  intros Hy. destruct sg; [|done..]. rewrite append_nil.
  destruct y as [|c y]; [done|]. cbn [digitAhead] in Hy.
  destruct (digit_plain c Hy) as (_ & ? & ? & _). by apply readSign_other.
Qed.

Lemma radix_match (s1 : string) :
  match s1 with
  | String "0" (String "x" r) => (16, r)
  | String "0" (String "X" r) => (16, r)
  | _ => (10, s1)
  end = match afterHexMark s1 with
        | Some r => (16, r)
        | None => (10, s1)
        end.
Proof.
  destruct s1 as [|a [|b r]]; [done| |].
  - each_char a; reflexivity.
  - each_char a; try reflexivity. each_char b; reflexivity.
Qed.

Lemma afterHexMark_Some (y r : string) :
  afterHexMark y = Some r →
  ∃ x, (x = "x"%char ∨ x = "X"%char) ∧ y = String "0" (String x r).
Proof.
  destruct y as [|a [|b y]]; [done..|]. cbn [afterHexMark].
  destruct (Ascii.eqb_spec a "0"%char) as [->|]; [|done]. cbn [andb].
  destruct (Ascii.eqb_spec b "x"%char) as [->|].
  { intros [= <-]. exists "x"%char. by split; [left|]. }
  destruct (Ascii.eqb_spec b "X"%char) as [->|]; [|done].
  intros [= <-]. exists "X"%char. by split; [right|].
Qed.

Lemma readDigits_app (radix : Z) (ds rest : string) (acc : Z) (n : nat) :
  radix = 10 ∨ radix = 16 →
  allDigitsIn radix ds = true → digitAhead radix rest = false →
  Str.readDigits radix (ds +:+ rest) acc n =
  (valueFrom radix acc ds, (n + String.length ds)%nat, rest).
Proof.
  intros Hradix. revert acc n. induction ds as [|c ds IH]; intros acc n Hds Hrest.
  - rewrite append_nil, Nat.add_0_r. destruct rest as [|c rest]; [done|].
    cbn [digitAhead] in Hrest. cbn [Str.readDigits valueFrom].
    by rewrite (digitOf_digitValue radix c Hradix), Hrest.
  - cbn [allDigitsIn] in Hds. apply andb_true_iff in Hds as [Hc Hds].
    rewrite append_cons. cbn [Str.readDigits valueFrom String.length].
    rewrite (digitOf_digitValue radix c Hradix), Hc.
    destruct (isDigitIn_value radix c Hc) as [d Hd]. rewrite Hd. cbn [default].
    rewrite IH by done. by rewrite Nat.add_succ_r.
Qed.

Lemma digits_split (radix : Z) (s : string) :
  ∃ ds rest, s = ds +:+ rest ∧ allDigitsIn radix ds = true ∧ digitAhead radix rest = false.
Proof.
  induction s as [|c s (ds & rest & Hs & Hds & Hrest)].
  - by exists EmptyString, EmptyString.
  - destruct (isDigitIn radix c) eqn:Hc.
    + exists (String c ds), rest. rewrite append_cons, <- Hs. split; [done|].
      split; [|done]. cbn [allDigitsIn]. by rewrite Hc.
    + exists EmptyString, (String c s). split; [done|]. split; [done|]. exact Hc.
Qed.

Lemma noSpaceAhead_numeral (sg : Sign) (y : string) :
  digitAhead 16 y = true → noSpaceAhead (signText sg +:+ y) = true.
Proof.
  intros Hy. destruct sg; [|done..]. rewrite append_nil.
  destruct y as [|c y]; [done|]. cbn [digitAhead noSpaceAhead] in *.
  destruct (digit_plain c Hy) as (-> & _). done.
Qed.

Lemma digitAhead_digits (ds rest : string) :
  ds ≠ EmptyString → allDigitsIn 10 ds = true → digitAhead 16 (ds +:+ rest) = true.
Proof.
  destruct ds as [|c ds]; [done|]. intros _ Hds. cbn [allDigitsIn] in Hds.
  apply andb_true_iff in Hds as [Hc _]. rewrite append_cons. by apply digit_10_16.
Qed.

(** [parseInt] reads exactly the integers that [readsAs] describes. *)
Lemma reads_parseInt (u : string) (k : Z) : readsAs u k → Str.parseInt u = Some k.
Proof.
  intros [ws sg ds rest Hws Hne Hds Hrest Hmark | ws sg x ds rest Hws Hx Hne Hds Hrest];
    unfold Str.parseInt.
  - pose proof (digitAhead_digits ds rest Hne Hds) as Hhead.
    rewrite (trimStart_blank_app _ _ Hws (noSpaceAhead_numeral sg _ Hhead)).
    rewrite (readSign_signText sg _ Hhead). cbv beta iota zeta. rewrite radix_match, Hmark.
    rewrite readDigits_app by auto. destruct ds as [|c ds]; [done|].
    cbn [String.length Nat.add]. reflexivity.
  - assert (Hhead : digitAhead 16 (String "0" (String x (ds +:+ rest))) = true) by done.
    rewrite (trimStart_blank_app _ _ Hws (noSpaceAhead_numeral sg _ Hhead)).
    rewrite (readSign_signText sg _ Hhead).
    destruct Hx as [-> | ->]; cbv beta iota zeta;
      (rewrite readDigits_app by auto; destruct ds as [|c ds]; [done|];
       cbn [String.length Nat.add]; reflexivity).
Qed.

Lemma parseInt_reads (u : string) (k : Z) : Str.parseInt u = Some k → readsAs u k.
Proof.
  unfold Str.parseInt. destruct (trimStart_split u) as (ws & Hws & Hu & _).
  destruct (readSign_spec (Str.trimStart u)) as (sg & y & Hy & Hsign).
  rewrite Hsign. cbv beta iota zeta. rewrite radix_match.
  destruct (afterHexMark y) as [r|] eqn:Hmark.
  - destruct (digits_split 16 r) as (ds & rest & Hr & Hds & Hrest).
    rewrite Hr, readDigits_app by auto.
    destruct ds as [|c ds]; [done|]. cbn [String.length Nat.add]. intros [= <-].
    destruct (afterHexMark_Some _ _ Hmark) as (x & Hx & Hy').
    rewrite Hu, Hy, Hy', Hr. by apply reads_hexadecimal.
  - destruct (digits_split 10 y) as (ds & rest & Hr & Hds & Hrest).
    rewrite Hr, readDigits_app by auto.
    destruct ds as [|c ds]; [done|]. cbn [String.length Nat.add]. intros [= <-].
    rewrite Hu, Hy, Hr. apply reads_decimal; [done|done|done|done|by rewrite <- Hr].
Qed.

(** *** White space around a token is ignored *)

Lemma digitAhead_app_blank (radix : Z) (rest sp : string) :
  radix = 10 ∨ radix = 16 →
  digitAhead radix rest = false → blank sp → digitAhead radix (rest +:+ sp) = false.
Proof.
  intros Hradix Hrest Hsp. destruct rest as [|c rest]; [|done]. rewrite append_nil.
  destruct sp as [|c sp]; [done|]. apply blank_cons in Hsp as [Hc _]. cbn [digitAhead].
  pose proof (space_not_digit c Hc) as H16. destruct Hradix as [-> | ->]; [|done].
  destruct (isDigitIn 10 c) eqn:H10; [|done]. by rewrite (digit_10_16 c H10) in H16.
Qed.

Lemma space_not_x (c : ascii) :
  Str.isSpace c = true → Ascii.eqb c "x" || Ascii.eqb c "X" = false.
Proof. each_char c; vm_compute; done. Qed.

Lemma afterHexMark_app_blank (s sp : string) :
  s ≠ EmptyString → afterHexMark s = None → blank sp → afterHexMark (s +:+ sp) = None.
Proof.
  intros Hne Hs Hsp. destruct s as [|a [|b s]]; [done| |].
  - rewrite append_cons, append_nil. destruct sp as [|c sp]; [done|].
    apply blank_cons in Hsp as [Hc _]. cbn [afterHexMark].
    by rewrite (space_not_x c Hc), andb_false_r.
  - rewrite !append_cons. cbn [afterHexMark] in *.
    by destruct (Ascii.eqb a "0" && (Ascii.eqb b "x" || Ascii.eqb b "X")).
Qed.

Lemma reads_margins (ws0 sp p : string) (k : Z) :
  blank ws0 → blank sp → readsAs p k → readsAs (ws0 +:+ p +:+ sp) k.
Proof.
  intros Hws0 Hsp
    [ws sg ds rest Hws Hne Hds Hrest Hmark | ws sg x ds rest Hws Hx Hne Hds Hrest].
  - replace (ws0 +:+ (ws +:+ signText sg +:+ ds +:+ rest) +:+ sp)
      with ((ws0 +:+ ws) +:+ signText sg +:+ ds +:+ (rest +:+ sp))
      by (by rewrite !append_assoc).
    apply reads_decimal; [by apply blank_app|done|done|by apply digitAhead_app_blank; auto|].
    rewrite <- append_assoc. apply afterHexMark_app_blank; [|done..].
    by destruct ds.
  - replace (ws0 +:+ (ws +:+ signText sg +:+ String "0" (String x (ds +:+ rest))) +:+ sp)
      with ((ws0 +:+ ws) +:+ signText sg +:+ String "0" (String x (ds +:+ (rest +:+ sp))))
      by (by rewrite !append_assoc, !append_cons, !append_assoc).
    apply reads_hexadecimal; [by apply blank_app|done|done|done|].
    by apply digitAhead_app_blank; auto.
Qed.

Lemma trimEnd_sign (sg : Sign) (y : string) :
  Str.trimEnd (signText sg +:+ y) = signText sg +:+ Str.trimEnd y.
Proof. by destruct sg. Qed.

Lemma trimEnd_digits (ds y : string) :
  allDigitsIn 16 ds = true → Str.trimEnd (ds +:+ y) = ds +:+ Str.trimEnd y.
Proof.
  induction ds as [|c ds IH]; intros Hds; [done|]. cbn [allDigitsIn] in Hds.
  apply andb_true_iff in Hds as [Hc Hds]. rewrite !append_cons.
  destruct (digit_plain c Hc) as (Hspace & _). by rewrite (trimEnd_plain _ _ Hspace), IH.
Qed.

Lemma allDigits_10_16 (ds : string) : allDigitsIn 10 ds = true → allDigitsIn 16 ds = true.
Proof.
  induction ds as [|c ds IH]; [done|]. cbn [allDigitsIn]. intros [Hc Hds]%andb_true_iff.
  by rewrite (digit_10_16 c Hc), IH.
Qed.

Lemma digitAhead_trimEnd (radix : Z) (rest : string) :
  digitAhead radix rest = false → digitAhead radix (Str.trimEnd rest) = false.
Proof.
  intros Hrest. destruct (trimEnd_head rest) as [-> | (c & r & r' & -> & ->)]; done.
Qed.

Lemma afterHexMark_trimEnd (ds rest : string) :
  ds ≠ EmptyString → afterHexMark (ds +:+ rest) = None →
  afterHexMark (ds +:+ Str.trimEnd rest) = None.
Proof.
  intros Hne. destruct ds as [|a [|b ds]]; [done| |].
  - rewrite !append_cons, !append_nil.
    destruct (trimEnd_head rest) as [-> | (c & r & r' & -> & ->)]; [done|].
    cbn [afterHexMark]. by destruct (Ascii.eqb a "0" && _).
  - rewrite !append_cons. cbn [afterHexMark]. by destruct (Ascii.eqb a "0" && _).
Qed.

Lemma reads_trimmed (t : string) (k : Z) : readsAs t k → readsAs (Str.trim t) k.
Proof.
  intros [ws sg ds rest Hws Hne Hds Hrest Hmark | ws sg x ds rest Hws Hx Hne Hds Hrest];
    unfold Str.trim.
  - pose proof (digitAhead_digits ds rest Hne Hds) as Hhead.
    rewrite (trimStart_blank_app _ _ Hws (noSpaceAhead_numeral sg _ Hhead)).
    rewrite trimEnd_sign, (trimEnd_digits _ _ (allDigits_10_16 _ Hds)).
    rewrite <- (append_nil (signText sg +:+ _)).
    apply reads_decimal;
      [apply blank_nil|done|done|by apply digitAhead_trimEnd|by apply afterHexMark_trimEnd].
  - assert (Hhead : digitAhead 16 (String "0" (String x (ds +:+ rest))) = true) by done.
    rewrite (trimStart_blank_app _ _ Hws (noSpaceAhead_numeral sg _ Hhead)).
    rewrite trimEnd_sign.
    assert (Hx' : Str.isSpace x = false) by (by destruct Hx as [-> | ->]).
    rewrite (trimEnd_plain "0") by done. rewrite (trimEnd_plain x) by done.
    rewrite (trimEnd_digits _ _ Hds).
    rewrite <- (append_nil (signText sg +:+ _)).
    apply reads_hexadecimal; [apply blank_nil|done|done|done|by apply digitAhead_trimEnd].
Qed.

Lemma trim_margins (t : string) :
  ∃ ws sp, blank ws ∧ blank sp ∧ t = ws +:+ Str.trim t +:+ sp.
Proof.
  destruct (trimStart_split t) as (ws & Hws & Ht & _).
  destruct (trimEnd_split (Str.trimStart t)) as (sp & Hsp & Hu).
  exists ws, sp. split; [done|]. split; [done|]. unfold Str.trim.
  by rewrite <- Hu.
Qed.

(** A token gives the integer [k] exactly when it reads as [k]. *)
Lemma parseInt_trim_reads (t : string) (k : Z) :
  Str.parseInt (Str.trim t) = Some k ↔ readsAs t k.
Proof.
  split.
  - intros H%parseInt_reads. destruct (trim_margins t) as (ws & sp & Hws & Hsp & Ht).
    rewrite Ht. by apply reads_margins.
  - intros H. by apply reads_parseInt, reads_trimmed.
Qed.

(** *** Decimal numerals *)

Lemma valueFrom_acc (radix acc : Z) (s : string) :
  valueFrom radix acc s =
  acc * radix ^ Z.of_nat (String.length s) + valueFrom radix 0 s.
Proof.
  revert acc. induction s as [|c s IH]; intros acc; cbn [valueFrom String.length].
  - cbn. lia.
  - rewrite IH, (IH (0 * radix + _)), Nat2Z.inj_succ, Z.pow_succ_r by lia. ring.
Qed.

Lemma pretty_N_char_digit (y : N) :
  (y < 10)%N →
  isDigitIn 10 (pretty_N_char y) = true ∧ digitValue (pretty_N_char y) = Some (Z.of_N y).
Proof.
  intros Hy.
  assert (y = 0 ∨ y = 1 ∨ y = 2 ∨ y = 3 ∨ y = 4 ∨ y = 5 ∨ y = 6 ∨ y = 7 ∨ y = 8 ∨ y = 9)%N
    as Hcases by lia.
  repeat (destruct Hcases as [-> | Hcases]; [done|]). by subst y.
Qed.

Lemma pretty_N_go_digits (x : N) (s : string) :
  allDigitsIn 10 s = true →
  allDigitsIn 10 (pretty_N_go x s) = true ∧
  valueFrom 10 0 (pretty_N_go x s) =
    Z.of_N x * 10 ^ Z.of_nat (String.length s) + valueFrom 10 0 s ∧
  (s ≠ EmptyString ∨ (0 < x)%N → pretty_N_go x s ≠ EmptyString).
Proof.
  revert s. induction (N.lt_wf_0 x) as [x _ IH]. intros s Hs.
  assert (x = 0 ∨ 0 < x)%N as [-> | Hx] by lia.
  - rewrite pretty_N_go_0. split; [done|]. split; [lia|]. intros [? | ?]; [done|lia].
  - rewrite pretty_N_go_step by done.
    destruct (pretty_N_char_digit (x `mod` 10)) as [Hdigit Hvalue];
      [by apply N.mod_lt|].
    destruct (IH (x `div` 10)%N) with (s := String (pretty_N_char (x `mod` 10)) s)
      as (Hall & Hval & Hne).
    + by apply N.div_lt.
    + cbn [allDigitsIn]. by rewrite Hdigit, Hs.
    + split; [done|]. split; [|intros _; apply Hne; by left].
      rewrite Hval. cbn [valueFrom String.length]. rewrite Hvalue. cbn [default].
      rewrite (valueFrom_acc 10 (0 * 10 + _)), Nat2Z.inj_succ, Z.pow_succ_r by lia.
      rewrite N2Z.inj_div, N2Z.inj_mod. change (Z.of_N 10) with 10. unfold id.
      pose proof (Z.div_mod (Z.of_N x) 10 ltac:(lia)) as Hdm.
      set (q := Z.of_N x `div` 10) in *. set (r := Z.of_N x `mod` 10) in *.
      set (p := 10 ^ Z.of_nat (String.length s)). rewrite Hdm. ring.
Qed.

Lemma digits_not_hexMark (ds : string) : allDigitsIn 10 ds = true → afterHexMark ds = None.
Proof.
  destruct ds as [|a [|b ds]]; [done..|]. cbn [allDigitsIn afterHexMark].
  intros (_ & (Hb & _)%andb_true_iff)%andb_true_iff.
  destruct (digit_plain b (digit_10_16 b Hb)) as (_ & _ & _ & Hx & HX).
  destruct (Ascii.eqb_spec b "x"%char); [done|].
  destruct (Ascii.eqb_spec b "X"%char); [done|]. by rewrite andb_false_r.
Qed.

Lemma reads_digits (sg : Sign) (ds : string) :
  ds ≠ EmptyString → allDigitsIn 10 ds = true →
  readsAs (signText sg +:+ ds) (signed sg (valueFrom 10 0 ds)).
Proof.
  intros Hne Hds.
  replace (signText sg +:+ ds)
    with (EmptyString +:+ signText sg +:+ ds +:+ EmptyString)
    by (by rewrite append_nil, append_nil_r).
  apply reads_decimal; [apply blank_nil|done|done|done|].
  rewrite append_nil_r. by apply digits_not_hexMark.
Qed.

Lemma reads_pretty_positive (sg : Sign) (p : positive) :
  readsAs (signText sg +:+ pretty (N.pos p)) (signed sg (Z.pos p)).
Proof.
  unfold pretty, pretty_N. rewrite decide_False by done.
  destruct (pretty_N_go_digits (N.pos p) EmptyString eq_refl) as (Hall & Hval & Hne).
  replace (Z.pos p) with (valueFrom 10 0 (pretty_N_go (N.pos p) EmptyString)).
  - apply reads_digits; [|done]. apply Hne. right. lia.
  - rewrite Hval. cbn. lia.
Qed.

(** The decimal notation of an integer reads as that integer. *)
Lemma reads_pretty (k : Z) : readsAs (pretty k) k.
Proof.
  destruct k as [|p|p].
  - exact (reads_digits NoSign "0" ltac:(done) eq_refl).
  - exact (reads_pretty_positive NoSign p).
  - exact (reads_pretty_positive MinusSign p).
Qed.

Lemma idSet_reads (envVar : option string) (k : Z) :
  k ∈ idSet envVar ↔ ∃ t, listedIn envVar t ∧ readsAs t k.
Proof.
  rewrite idSet_spec. split; intros (t & Ht & Hk); exists t.
  - by split; [apply listedIn_tokens|apply parseInt_trim_reads].
  - by split; [apply listedIn_tokens|apply parseInt_trim_reads].
Qed.

Lemma idSet_gate (envVar : option string) (u : Z) :
  truthy u && bool_decide (u ∈ idSet envVar) = true ↔
  u ≠ 0 ∧ ∃ t, listedIn envVar t ∧ readsAs t u.
Proof.
  rewrite andb_true_iff, bool_decide_eq_true, idSet_reads. unfold truthy.
  rewrite negb_true_iff, Z.eqb_neq. done.
Qed.

(** C10. The authorized and admin sets built at startup hold exactly the
    integers that the comma-separated tokens of the configuration value
    read as.  The tokens are the strings between the commas of a value that
    is set and not empty.  A token reads as an integer when, after white
    space and an optional sign, it starts with a numeral (decimal, or
    hexadecimal behind [0x]); what follows the numeral is ignored, so that
    in particular the decimal notation of an integer reads as that integer.
    A token that does not read as an integer is dropped without an error.
    [isAuthorized] and [isAdmin] answer true exactly for the identifiers of
    these sets other than zero, and a list of tokens none of which reads as
    an integer gives the empty set.  The statement describes tokens and
    numerals by [listedIn] and [readsAs], which do not refer to the split,
    the trimming and the [parseInt] of the embedding; white space is the
    ASCII one and integers are exact, as everywhere in the embedding. *)
Theorem authorization_sets_from_tokens (AUTHORIZED_USERS ADMIN_USERS : option string) :
  let s := initializeState AUTHORIZED_USERS ADMIN_USERS in
  (∀ k, k ∈ authorizedUsers s ↔ ∃ t, listedIn AUTHORIZED_USERS t ∧ readsAs t k) ∧
  (∀ k, k ∈ adminUsers s ↔ ∃ t, listedIn ADMIN_USERS t ∧ readsAs t k) ∧
  (∀ k : Z, listedIn AUTHORIZED_USERS (pretty k) → k ∈ authorizedUsers s) ∧
  (∀ k : Z, listedIn ADMIN_USERS (pretty k) → k ∈ adminUsers s) ∧
  (∀ u, isAuthorized u s = true ↔
        u ≠ 0 ∧ ∃ t, listedIn AUTHORIZED_USERS t ∧ readsAs t u) ∧
  (∀ u, isAdmin u s = true ↔ u ≠ 0 ∧ ∃ t, listedIn ADMIN_USERS t ∧ readsAs t u) ∧
  ((∀ t k, listedIn AUTHORIZED_USERS t → ¬ readsAs t k) →
   authorizedUsers s = ∅ ∧ ∀ u, isAuthorized u s = false) ∧
  ((∀ t k, listedIn ADMIN_USERS t → ¬ readsAs t k) →
   adminUsers s = ∅ ∧ ∀ u, isAdmin u s = false).
Proof.
  cbn zeta. unfold initializeState, isAuthorized, isAdmin. cbn [authorizedUsers adminUsers].
  assert (Hnone : ∀ envVar, (∀ t k, listedIn envVar t → ¬ readsAs t k) →
            idSet envVar = ∅ ∧ ∀ u, truthy u && bool_decide (u ∈ idSet envVar) = false).
  { intros envVar Hbad.
    assert (Hempty : idSet envVar = ∅).
    { apply set_eq. intros k. rewrite idSet_reads. split; [|set_solver].
      intros (t & Ht & Hk). by destruct (Hbad t k Ht). }
    split; [done|]. intros u. rewrite Hempty. apply andb_false_iff. right.
    apply bool_decide_eq_false. set_solver. }
  split; [intros k; apply idSet_reads|].
  split; [intros k; apply idSet_reads|].
  split; [intros k Hk; apply idSet_reads; exists (pretty k); split; [done|apply reads_pretty]|].
  split; [intros k Hk; apply idSet_reads; exists (pretty k); split; [done|apply reads_pretty]|].
  split; [intros u; apply idSet_gate|].
  split; [intros u; apply idSet_gate|].
  split; apply Hnone.
Qed.

Lemma authorization_sets_from_tokens_witness :
  let s := initializeState (Some "12, x7,0x1F,-5 ,007"%string) (Some "abc,,-"%string) in
  12 ∈ authorizedUsers s ∧ isAuthorized 31 s = true ∧ isAuthorized 7 s = true ∧
  adminUsers s = ∅.
Proof.
  intros s.
  destruct (authorization_sets_from_tokens (Some "12, x7,0x1F,-5 ,007"%string)
              (Some "abc,,-"%string))
    as (_ & _ & Hpretty & _ & Hgate & _ & _ & Hnone).
  split; [|split; [|split]].
  - apply (Hpretty 12). apply listedIn_tokens, list_elem_of_In. vm_compute. tauto.
  - apply Hgate. split; [done|]. exists "0x1F"%string. split.
    + apply listedIn_tokens, list_elem_of_In. vm_compute. tauto.
    + by apply parseInt_trim_reads.
  - apply Hgate. split; [done|]. exists "007"%string. split.
    + apply listedIn_tokens, list_elem_of_In. vm_compute. tauto.
    + by apply parseInt_trim_reads.
  - apply Hnone. intros t k Ht%listedIn_tokens%list_elem_of_In Hk%parseInt_trim_reads.
    vm_compute in Ht. by destruct Ht as [<-|[<-|[<-|[]]]].
Defined.



(** ** Conversation store *)

Lemma addMessage_conversations (u : Z) (r : Role.t) (c : string) (s : StateManager) :
  conversations (addMessageToConversation true u r c s) =
  <[u := pushed (default [systemMessage] (historyOf u s)) (mkMessage r c)]> (conversations s).
Proof.
  unfold addMessageToConversation, getConversation, historyOf, pushed. cbn [negb].
  destruct (conversations s !! u) as [h|] eqn:Hu; cbn [default setConversations conversations].
  - reflexivity.
  - by rewrite insert_insert_eq.
Qed.

Lemma addMessage_disabled (u : Z) (r : Role.t) (c : string) (s : StateManager) :
  addMessageToConversation false u r c s = s.
Proof. reflexivity. Qed.

Lemma maxMessages_21 : maxMessages = 21%nat.
Proof. reflexivity. Qed.

Lemma historyOk_seed : historyOk [systemMessage].
Proof. split; [rewrite maxMessages_21; cbn; lia | reflexivity]. Qed.

Lemma pushed_evicts (h : list Message) (m : Message) :
  historyOk h →
  pushed h m =
  if (length h <? maxMessages)%nat then h ++ [m] else systemMessage :: drop 2 h ++ [m].
Proof.
  intros [Hlen Hhd]. unfold pushed. rewrite length_app. cbn [length].
  rewrite maxMessages_21 in *.
  destruct h as [|x h']; [discriminate|]. cbn in Hhd. injection Hhd as ->.
  destruct (Nat.ltb_spec 21 (length (systemMessage :: h') + 1));
    destruct (Nat.ltb_spec (length (systemMessage :: h')) 21); try lia.
  - assert (Hn : (length (systemMessage :: h') + 1 - 21 = 1)%nat) by lia.
    rewrite Hn. unfold splice. cbn [take drop app Nat.add].
    destruct h' as [|y h'']; [cbn in *; lia|].
    reflexivity.
  - reflexivity.
Qed.

Lemma pushed_ok (h : list Message) (m : Message) : historyOk h → historyOk (pushed h m).
Proof.
  intros Hok. rewrite (pushed_evicts h m Hok). destruct Hok as [Hlen Hhd].
  rewrite maxMessages_21 in *.
  destruct (Nat.ltb_spec (length h) 21).
  - split; [rewrite maxMessages_21, length_app; cbn; lia|].
    rewrite lookup_app_l; [done|]. destruct h; [discriminate|cbn; lia].
  - split; [|reflexivity].
    rewrite maxMessages_21. cbn [length]. rewrite length_app, length_drop. cbn [length]. lia.
Qed.

Lemma storeOk_addMessage (openai : bool) (u : Z) (r : Role.t) (c : string) (s : StateManager) :
  storeOk s → storeOk (addMessageToConversation openai u r c s).
Proof.
  intros Hs. destruct openai; [|done].
  intros u' h. unfold historyOf. rewrite addMessage_conversations.
  destruct (decide (u = u')) as [->|Hne].
  - rewrite lookup_insert_eq. intros [= <-]. apply pushed_ok.
    destruct (historyOf u' s) as [h0|] eqn:Hu; cbn [default];
      [by apply (Hs u')|apply historyOk_seed].
  - rewrite lookup_insert_ne by done. apply Hs.
Qed.

Lemma storeOk_getConversation (u : Z) (s : StateManager) :
  storeOk s → storeOk (snd (getConversation u s)) ∧ historyOk (fst (getConversation u s)).
Proof.
  intros Hs. unfold getConversation.
  destruct (conversations s !! u) as [h|] eqn:Hu; cbn [fst snd].
  - split; [done|by apply (Hs u)].
  - split; [|apply historyOk_seed].
    intros u' h. unfold historyOf. cbn [setConversations conversations].
    destruct (decide (u = u')) as [->|Hne].
    + rewrite lookup_insert_eq. intros [= <-]. apply historyOk_seed.
    + rewrite lookup_insert_ne by done. apply Hs.
Qed.

Lemma storeOk_delete (u : Z) (s : StateManager) :
  storeOk s → storeOk (setConversations (delete u (conversations s)) s).
Proof.
  intros Hs u' h. unfold historyOf. cbn [setConversations conversations].
  intros H. apply lookup_delete_Some in H as [_ H]. by apply (Hs u').
Qed.

Lemma storeOk_initial (a b : option string) : storeOk (initializeState a b).
Proof. intros u h. unfold historyOf. cbn. by rewrite lookup_empty. Qed.

Lemma storeOk_appendAll (openai : bool) (ops : list (Z * Role.t * string)) (s : StateManager) :
  storeOk s → storeOk (appendAll openai ops s).
Proof.
  revert s. induction ops as [|[[u r] c] ops IH]; intros s Hs; [done|].
  cbn. apply IH. by apply storeOk_addMessage.
Qed.

Lemma appendAll_disabled (ops : list (Z * Role.t * string)) (s : StateManager) :
  appendAll false ops s = s.
Proof. induction ops as [|[[u r] c] ops IH]; [done|]. cbn. apply IH. Qed.

(** C3. After any sequence of appends on a fresh store, the history of a
    user holds at most 1 + 2 * 10 = 21 entries and its entry 0 is the
    system entry; one more append keeps every entry while there is room,
    and at the cap it drops the entry at index 1, the oldest one after the
    system entry, and nothing else. *)
Theorem history_bounded_and_fifo
    (openai : bool) (a b : option string) (ops : list (Z * Role.t * string))
    (U : Z) (h : list Message) :
  let s := appendAll openai ops (initializeState a b) in
  historyOf U s = Some h →
  (length h ≤ 21)%nat ∧
  h !! 0%nat = Some systemMessage ∧
  ∀ r c,
    historyOf U (addMessageToConversation openai U r c s) =
    Some (if (length h <? 21)%nat
          then h ++ [mkMessage r c]
          else systemMessage :: drop 2 h ++ [mkMessage r c]).
Proof.
  cbn zeta. intros Hh.
  pose proof (storeOk_appendAll openai ops _ (storeOk_initial a b)) as Hok.
  pose proof (Hok U h Hh) as HhOk.
  split; [apply HhOk|]. split; [apply HhOk|].
  intros r c. rewrite <- maxMessages_21. destruct openai.
  - unfold historyOf at 1. rewrite addMessage_conversations, lookup_insert_eq, Hh.
    cbn [default]. f_equal. apply (pushed_evicts h _ HhOk).
  - exfalso. rewrite appendAll_disabled in Hh. unfold historyOf in Hh. cbn in Hh.
    by rewrite lookup_empty in Hh.
Qed.

Lemma history_bounded_and_fifo_witness :
  let ops := replicate 25 (7, Role.user, "hola"%string) in
  let s := appendAll true ops (initializeState None None) in
  let h := systemMessage :: replicate 20 (mkMessage Role.user "hola") in
  historyOf 7 s = Some h ∧
  (length h ≤ 21)%nat ∧
  h !! 0%nat = Some systemMessage ∧
  historyOf 7 (addMessageToConversation true 7 Role.assistant "ok" s) =
  Some (systemMessage :: drop 2 h ++ [mkMessage Role.assistant "ok"]).
Proof.
  intros ops s h.
  assert (Hh : historyOf 7 s = Some h) by (vm_compute; reflexivity).
  destruct (history_bounded_and_fifo true None None ops 7 h Hh) as (Hlen & Hhd & Hnext).
  split; [exact Hh|]. split; [exact Hlen|]. split; [exact Hhd|].
  exact (Hnext Role.assistant "ok"%string).
Defined.

(** ** Stepping through the first statements of a handler *)

Lemma bind_getState {A} (k : StateManager -> M A) (w : World) :
  bind getState k w = k (sm w) w.
Proof. reflexivity. Qed.

Lemma bind_modify {A} (f : StateManager -> StateManager) (k : unit -> M A) (w : World) :
  bind (modify f) k w = k tt (withState (f (sm w)) w).
Proof. reflexivity. Qed.

Lemma bind_assign {A} (f : Locals -> Locals) (k : unit -> M A) (w : World) :
  bind (assign f) k w = k tt (withLocals (f (locals w)) w).
Proof. reflexivity. Qed.

Lemma bind_value {A B} (m : M A) (k : A -> M B) (w w' : World) (a : A) :
  m w = (Value a, w') → bind m k w = k a w'.
Proof. intros H. unfold bind. by rewrite H. Qed.

Lemma bind_thrown {A B} (m : M A) (k : A -> M B) (w w' : World) (e : Error) :
  m w = (Thrown e, w') → bind m k w = (Thrown e, w').
Proof. intros H. unfold bind. by rewrite H. Qed.

Lemma bind_query {T B} (q : Query T) (k : T -> M B) (w : World) :
  bind (query q) k w =
  k (observe (oracle w) T q (steps w))
    (tick (record (Observed q (observe (oracle w) T q (steps w))) w)).
Proof. reflexivity. Qed.

(** The session step of the middleware returns, reads the clock once or
    twice and writes the sessions only. *)
Lemma updateSession_run (U : Z) (w : World) :
  ∃ w', updateSession U w = (Value tt, w') ∧
        sessionsApart (sm w) (sm w') ∧ locals w' = locals w ∧ oracle w' = oracle w ∧
        is_Some (userSessions (sm w') !! U) ∧
        ∃ evs, trace w' = trace w ++ evs ∧ Forall isClockRead evs ∧
               Forall (fun ev => sessionsApart (sm w) (snapshot ev)) evs.
Proof.
  unfold updateSession. rewrite bind_getState.
  destruct (bool_decide (is_Some (userSessions (sm w) !! U))) eqn:Hhas; cbn [negb].
  - apply bool_decide_eq_true in Hhas. destruct Hhas as [x Hx].
    eexists. split; [reflexivity|]. cbn. repeat (split; [done|]).
    split; [rewrite lookup_alter_eq, Hx; by eexists|].
    eexists. split; [reflexivity|].
    split; repeat constructor; by eexists.
  - eexists. split; [reflexivity|]. cbn. repeat (split; [done|]).
    split; [rewrite lookup_alter_eq, lookup_insert_eq; by eexists|].
    eexists. split; [rewrite <- app_assoc; reflexivity|].
    split; repeat constructor; by eexists.
Qed.

Lemma caught_run {T} (c : Call T) (w : World) :
  caught c w =
  (Value (swallowed (answer (oracle w) T c (steps w))),
   tick (record (Called c (answer (oracle w) T c (steps w))) w)).
Proof.
  unfold caught, tryCatch, bind, call, ret.
  by destruct (answer (oracle w) T c (steps w)).
Qed.

Lemma tell_run (text : Text) (w : World) :
  tell text w =
  (Value tt, tick (record (Called (reply text) (answer (oracle w) _ (reply text) (steps w))) w)).
Proof. unfold tell, bind. by rewrite caught_run. Qed.

Lemma since_app (w w' : World) (evs : list Event) :
  trace w' = trace w ++ evs → since w w' = evs.
Proof. intros H. unfold since. rewrite H. apply drop_app_length. Qed.

Lemma since_tell (text : Text) (w : World) :
  since w (snd (tell text w)) =
  [mkEvent (Called (reply text) (answer (oracle w) _ (reply text) (steps w))) (sm w)].
Proof. rewrite tell_run. by apply since_app. Qed.

(** ** Reasoning about handlers *)

Section Keeps.
Context (S : StateManager -> Prop).

Lemma evolves_refl (w : World) : S (sm w) → evolves S w w.
Proof. intros H. split; [done|]. exists []. by rewrite app_nil_r. Qed.

Lemma evolves_trans (w1 w2 w3 : World) :
  evolves S w1 w2 → evolves S w2 w3 → evolves S w1 w3.
Proof.
  intros (_ & evs1 & E1 & F1) (H3 & evs2 & E2 & F2). split; [done|].
  exists (evs1 ++ evs2). split; [by rewrite E2, E1, app_assoc|].
  by apply Forall_app.
Qed.

Lemma evolves_record (a : Action) (w : World) : S (sm w) → evolves S w (record a w).
Proof.
  intros H. split; [done|]. exists [mkEvent a (sm w)]. split; [done|].
  by apply Forall_singleton.
Qed.

Lemma evolves_tick (w0 w : World) : evolves S w0 w → evolves S w0 (tick w).
Proof. intros H. exact H. Qed.

Lemma keeps_ret {A} (a : A) : keeps S (ret a).
Proof. intros w H. by apply evolves_refl. Qed.

Lemma keeps_throw {A} (e : Error) : keeps S (@throw A e).
Proof. intros w H. by apply evolves_refl. Qed.

Lemma keeps_bind {A B} (m : M A) (k : A -> M B) :
  keeps S m → (∀ a, keeps S (k a)) → keeps S (bind m k).
Proof.
  intros Hm Hk w H. unfold bind. specialize (Hm w H).
  destruct (m w) as [[a|e] w1]; cbn [snd] in *; [|done].
  eapply evolves_trans; [exact Hm|]. apply Hk, Hm.
Qed.

Lemma keeps_tryCatch {A} (m : M A) (h : Error -> M A) :
  keeps S m → (∀ e, keeps S (h e)) → keeps S (tryCatch m h).
Proof.
  intros Hm Hh w H. unfold tryCatch. specialize (Hm w H).
  destruct (m w) as [[a|e] w1]; cbn [snd] in *; [done|].
  eapply evolves_trans; [exact Hm|]. apply Hh, Hm.
Qed.

Lemma keeps_tryCatchFinally {A} (m : M A) (h : Error -> M A) (f : M unit) :
  keeps S m → (∀ e, keeps S (h e)) → keeps S f → keeps S (tryCatchFinally m h f).
Proof.
  intros Hm Hh Hf w H. unfold tryCatchFinally.
  pose proof (keeps_tryCatch m h Hm Hh w H) as H1.
  destruct (tryCatch m h w) as [r w1]; cbn [snd] in *.
  specialize (Hf w1 (proj1 H1)).
  destruct (f w1) as [[[]|e] w2]; cbn [snd] in *;
    (eapply evolves_trans; [exact H1|exact Hf]).
Qed.

Lemma keeps_call {T} (c : Call T) : keeps S (call c).
Proof.
  intros w H. unfold call.
  destruct (answer (oracle w) T c (steps w)); cbn [snd];
    apply evolves_tick; by apply evolves_record.
Qed.

Lemma keeps_query {T} (q : Query T) : keeps S (query q).
Proof. intros w H. unfold query. cbn [snd]. apply evolves_tick. by apply evolves_record. Qed.

Lemma keeps_sleep (ms : Z) : keeps S (sleep ms).
Proof. intros w H. unfold sleep. cbn [snd]. by apply evolves_record. Qed.

Lemma keeps_getState : keeps S getState.
Proof. intros w H. by apply evolves_refl. Qed.

Lemma keeps_getLocals : keeps S getLocals.
Proof. intros w H. by apply evolves_refl. Qed.

Lemma keeps_assign (f : Locals -> Locals) : keeps S (assign f).
Proof. intros w H. split; [done|]. exists []. by rewrite app_nil_r. Qed.

Lemma keeps_modify (f : StateManager -> StateManager) :
  (∀ s, S s → S (f s)) → keeps S (modify f).
Proof.
  intros Hf w H. split; [by apply Hf|]. exists []. by rewrite app_nil_r.
Qed.

Lemma keeps_stateful {A} (f : StateManager -> A * StateManager) :
  (∀ s, S s → S (snd (f s))) → keeps S (stateful f).
Proof.
  intros Hf w H. unfold stateful. specialize (Hf (sm w) H).
  destruct (f (sm w)) as [a s]. split; [done|]. exists []. by rewrite app_nil_r.
Qed.

Lemma keeps_caught {T} (c : Call T) : keeps S (caught c).
Proof.
  apply keeps_tryCatch; [|intros; apply keeps_ret].
  apply keeps_bind; [apply keeps_call|intros; apply keeps_ret].
Qed.

Lemma keeps_tell (text : Text) : keeps S (tell text).
Proof. apply keeps_bind; [apply keeps_caught|intros; apply keeps_ret]. Qed.

Lemma keeps_when {A} (cond : option A) (m : A -> M unit) :
  (∀ a, keeps S (m a)) → keeps S (when_ cond m).
Proof. intros H. destruct cond; [apply H|apply keeps_ret]. Qed.

Lemma keeps_whenLoading {T} (lm : option ChatMessage) (c : ChatMessage -> Call T) :
  keeps S (whenLoading lm c).
Proof.
  apply keeps_when. intros m.
  apply keeps_bind; [apply keeps_caught|intros; apply keeps_ret].
Qed.

Lemma keeps_report (text : Text) : keeps S (report text).
Proof.
  apply keeps_bind; [apply keeps_getLocals|]. intros l.
  destruct (loadingMessage l); [|apply keeps_tell].
  apply keeps_tryCatch; [apply keeps_call|intros; apply keeps_tell].
Qed.

Lemma keeps_unlinkIfExists (p : option Path) : keeps S (unlinkIfExists p).
Proof.
  destruct p as [f|]; [|apply keeps_ret].
  apply keeps_bind; [apply keeps_query|]. intros [|]; [apply keeps_call|apply keeps_ret].
Qed.

Lemma keeps_retryFrom {A} (fn : M A) (maxRetries : nat) (delay : Z) (left i : nat)
    (lastError : option Error) :
  keeps S fn → keeps S (retryFrom fn maxRetries delay i left lastError).
Proof.
  intros Hfn. revert i lastError.
  induction left as [|left IH]; intros i lastError; cbn [retryFrom].
  - apply keeps_throw.
  - apply keeps_tryCatch; [done|]. intros e.
    apply keeps_bind; [|intros; apply IH].
    destruct (i <? maxRetries - 1)%nat; [apply keeps_sleep|apply keeps_ret].
Qed.

Lemma keeps_retry {A} (fn : M A) (maxRetries : nat) (delay : Z) :
  keeps S fn → keeps S (retry fn maxRetries delay).
Proof. apply keeps_retryFrom. Qed.

Lemma keeps_generateGPTResponse (env : Env) (messages : list Message) :
  keeps S (generateGPTResponse env messages).
Proof.
  unfold generateGPTResponse. destruct (negb (openai env)); [apply keeps_throw|].
  apply keeps_tryCatch; [|intros; apply keeps_throw].
  apply keeps_bind; [apply keeps_retry, keeps_call|].
  intros [t|]; [|apply keeps_throw].
  destruct (Str.isEmpty t); [apply keeps_throw|apply keeps_ret].
Qed.

Lemma keeps_generateVoice (env : Env) (text : string) (options : Options.t) :
  keeps S (generateVoice env text options).
Proof.
  unfold generateVoice. destruct (negb (ELEVEN_API_KEY env)); [apply keeps_throw|].
  apply keeps_tryCatch; [|intros; apply keeps_throw].
  apply keeps_bind; [apply keeps_retry, keeps_call|].
  intros r. destruct (invalidResponse r); [apply keeps_throw|].
  apply keeps_bind; [apply keeps_query|]. intros now.
  apply keeps_bind; [apply keeps_call|intros; apply keeps_ret].
Qed.

Lemma keeps_transformVoice (env : Env) (audioFile : Path) :
  keeps S (transformVoice env audioFile).
Proof.
  unfold transformVoice. destruct (negb (ELEVEN_API_KEY env)); [apply keeps_throw|].
  apply keeps_tryCatch; [|intros; apply keeps_throw].
  apply keeps_bind; [apply keeps_query|]. intros found.
  destruct (negb found); [apply keeps_throw|].
  apply keeps_bind; [apply keeps_call|]. intros _.
  apply keeps_bind; [apply keeps_retry, keeps_call|].
  intros r. destruct (invalidResponse r); [apply keeps_throw|].
  apply keeps_bind; [apply keeps_query|]. intros now.
  apply keeps_bind; [apply keeps_call|intros; apply keeps_ret].
Qed.

Lemma opens_caught_bind {T B} (c : Call T) (k : option T -> M B) :
  (∀ o, keeps S (k o)) → opens S (bind (caught c) k).
Proof.
  intros Hk w H. unfold bind. rewrite caught_run. eexists.
  apply Hk. exact H.
Qed.

Lemma opens_keeps {A} (m : M A) : opens S m → keeps S m.
Proof.
  intros Hm w H. destruct (Hm w H) as [a Ha].
  eapply evolves_trans; [|exact Ha]. apply evolves_tick. by apply evolves_record.
Qed.

End Keeps.

Lemma safe_ret {A} (a : A) : safe (ret a).
Proof. intros w. by exists a. Qed.

Lemma safe_bind {A B} (m : M A) (k : A -> M B) :
  safe m → (∀ a, safe (k a)) → safe (bind m k).
Proof.
  intros Hm Hk w. unfold bind. destruct (Hm w) as [a Ha].
  destruct (m w) as [r w1]. cbn [fst] in Ha. subst r. apply Hk.
Qed.

Lemma safe_tryCatch {A} (m : M A) (h : Error -> M A) :
  (∀ e, safe (h e)) → safe (tryCatch m h).
Proof.
  intros Hh w. unfold tryCatch. destruct (m w) as [[a|e] w1]; [by exists a|apply Hh].
Qed.

Lemma safe_tryCatchFinally {A} (m : M A) (h : Error -> M A) (f : M unit) :
  (∀ e, safe (h e)) → safe f → safe (tryCatchFinally m h f).
Proof.
  intros Hh Hf w. unfold tryCatchFinally.
  destruct (safe_tryCatch m h Hh w) as [a Ha].
  destruct (tryCatch m h w) as [r w1]. cbn [fst] in Ha. subst r.
  destruct (Hf w1) as [u Hu]. destruct (f w1) as [r2 w2]. cbn [fst] in Hu. subst r2.
  by exists a.
Qed.

Lemma safe_query {T} (q : Query T) : safe (query q).
Proof. intros w. by eexists. Qed.

Lemma safe_getState : safe getState.
Proof. intros w. by eexists. Qed.

Lemma safe_getLocals : safe getLocals.
Proof. intros w. by eexists. Qed.

Lemma safe_assign (f : Locals -> Locals) : safe (assign f).
Proof. intros w. by eexists. Qed.

Lemma safe_modify (f : StateManager -> StateManager) : safe (modify f).
Proof. intros w. by eexists. Qed.

Lemma safe_caught {T} (c : Call T) : safe (caught c).
Proof. apply safe_tryCatch. intros e. apply safe_ret. Qed.

Lemma safe_tell (text : Text) : safe (tell text).
Proof. apply safe_bind; [apply safe_caught|intros; apply safe_ret]. Qed.

Lemma safe_report (text : Text) : safe (report text).
Proof.
  apply safe_bind; [apply safe_getLocals|]. intros l.
  destruct (loadingMessage l); [|apply safe_tell].
  apply safe_tryCatch. intros; apply safe_tell.
Qed.

(** A block that never throws and maintains [S] ends in a later world. *)
Lemma run_safe_keeps (S : StateManager -> Prop) {A} (m : M A) (w : World) :
  keeps S m → safe m → S (sm w) →
  ∃ a w', m w = (Value a, w') ∧ evolves S w w'.
Proof.
  intros Hk Hs H. destruct (Hs w) as [a Ha]. specialize (Hk w H).
  destruct (m w) as [r w']. cbn [fst snd] in *. subst r. by exists a, w'.
Qed.

(** The shape of the three pipelines once the lock is taken: a [try] whose
    [catch] reports, and a [finally] that cleans up and releases the lock.
    Whatever happens in the [try], control returns normally, at least one
    action was recorded, [S] was maintained until the release, and the
    release is the last step. *)
Lemma section_run (S : StateManager -> Prop) (body : M unit) (h : Error -> M unit)
    (cleanup : M unit) (U : Z) (w : World) :
  opens S body → (∀ e, keeps S (h e)) → (∀ e, safe (h e)) →
  keeps S cleanup → safe cleanup → S (sm w) →
  ∃ w1 ev evs,
    trace w1 = trace w ++ ev :: evs ∧
    Forall (fun ev => S (snapshot ev)) (ev :: evs) ∧
    S (sm w1) ∧
    tryCatchFinally body h (do! cleanup in modify (clearPendingOperation U)) w =
    (Value tt, withState (clearPendingOperation U (sm w1)) w1).
Proof.
  intros Hb Hh Hhs Hc Hcs H. unfold tryCatchFinally, tryCatch.
  destruct (Hb w H) as [a Ev0].
  assert (∃ w1, (let (r, w') := body w in
                 match r with Value v => (Value v, w') | Thrown e => h e w' end)
                = (Value tt, w1) ∧ evolves S (tick (record a w)) w1) as (w1 & -> & Ev1).
  { destruct (body w) as [[[]|e] wb]; cbn [snd] in Ev0.
    - by exists wb.
    - destruct (run_safe_keeps S (h e) wb (Hh e) (Hhs e)) as ([] & wh & E & Ev);
        [apply Ev0|]. exists wh. split; [done|]. by eapply evolves_trans. }
  destruct (run_safe_keeps S cleanup w1 Hc Hcs) as ([] & w2 & E2 & Ev2); [apply Ev1|].
  destruct (evolves_trans S _ _ _ Ev1 Ev2) as (HS2 & evs & Htr & Hevs).
  exists w2, (mkEvent a (sm w)), evs. split; [|split; [|split]].
  - rewrite Htr. cbn [tick record trace]. by rewrite <- app_assoc.
  - by constructor.
  - done.
  - unfold bind. rewrite E2. reflexivity.
Qed.

(** ** The lock table *)

Lemma hasPendingOperation_lockOf (U : Z) (s : StateManager) :
  hasPendingOperation U s = bool_decide (is_Some (lockOf U s)).
Proof. reflexivity. Qed.

Lemma hasPendingOperation_free (U : Z) (s : StateManager) :
  lockOf U s = None → hasPendingOperation U s = false.
Proof.
  intros H. unfold hasPendingOperation. apply bool_decide_eq_false.
  unfold lockOf in H. rewrite H. by intros [? ?].
Qed.

Lemma hasPendingOperation_held (U : Z) (k : Operation) (s : StateManager) :
  lockOf U s = Some k → hasPendingOperation U s = true.
Proof.
  intros H. unfold hasPendingOperation. apply bool_decide_eq_true.
  unfold lockOf in H. rewrite H. by eexists.
Qed.

Lemma clearPendingOperation_table (U : Z) (s : StateManager) :
  pendingOperations (clearPendingOperation U s) = delete U (pendingOperations s).
Proof.
  unfold clearPendingOperation. case_bool_decide as H; [done|].
  symmetry. apply delete_id. destruct (pendingOperations s !! U) eqn:E; [|done].
  exfalso. apply H. by eexists.
Qed.

Lemma clearPendingOperation_others (U : Z) (s : StateManager) :
  conversations (clearPendingOperation U s) = conversations s ∧
  pendingVoiceTransformations (clearPendingOperation U s) = pendingVoiceTransformations s.
Proof. unfold clearPendingOperation. by case_bool_decide. Qed.

Lemma clearPendingVoiceTransformation_table (U : Z) (s : StateManager) :
  pendingVoiceTransformations (clearPendingVoiceTransformation U s) =
  delete U (pendingVoiceTransformations s).
Proof.
  unfold clearPendingVoiceTransformation. case_bool_decide as H; [done|].
  symmetry. apply delete_id. destruct (pendingVoiceTransformations s !! U) eqn:E; [|done].
  exfalso. apply H. by eexists.
Qed.

Lemma clearPendingVoiceTransformation_others (U : Z) (s : StateManager) :
  conversations (clearPendingVoiceTransformation U s) = conversations s ∧
  pendingOperations (clearPendingVoiceTransformation U s) = pendingOperations s.
Proof. unfold clearPendingVoiceTransformation. by case_bool_decide. Qed.

Lemma release_restores (U : Z) (k : Operation) (P : gmap Z Operation) :
  P !! U = None → delete U (<[U := k]> P) = P.
Proof. intros H. rewrite delete_insert_eq. by apply delete_id. Qed.

(** ** The blocks of the pipelines maintain what they do not touch *)

Lemma addMessage_is_setConversations (openai : bool) (u : Z) (r : Role.t) (c : string)
    (s : StateManager) :
  ∃ cs, addMessageToConversation openai u r c s = setConversations cs s.
Proof.
  unfold addMessageToConversation. destruct openai; cbn [negb].
  - unfold getConversation. destruct (conversations s !! u); eexists; reflexivity.
  - exists (conversations s). by destruct s.
Qed.

Lemma getConversation_is_setConversations (u : Z) (s : StateManager) :
  ∃ cs, snd (getConversation u s) = setConversations cs s.
Proof.
  unfold getConversation. destruct (conversations s !! u); cbn [snd].
  - exists (conversations s). by destruct s.
  - eexists; reflexivity.
Qed.

Section Blocks.
Context (S : StateManager -> Prop).

Lemma opens_t2vTry (env : Env) (textToConvert : string) (overrides : Options.t) :
  opens S (t2vTry env textToConvert overrides).
Proof.
  apply opens_caught_bind. intros lm.
  apply keeps_bind; [apply keeps_assign|]. intros _.
  apply keeps_bind; [apply keeps_whenLoading|]. intros _.
  apply keeps_bind; [apply keeps_whenLoading|]. intros _.
  apply keeps_bind; [apply keeps_generateVoice|]. intros file.
  apply keeps_bind; [apply keeps_assign|]. intros _.
  apply keeps_bind; [apply keeps_whenLoading|]. intros _.
  apply keeps_bind; [apply keeps_whenLoading|]. intros _.
  apply keeps_bind; [apply keeps_call|]. intros _.
  apply keeps_whenLoading.
Qed.

Lemma keeps_t2vCleanup : keeps S t2vCleanup.
Proof.
  apply keeps_bind; [apply keeps_getLocals|]. intros l.
  apply keeps_tryCatch; [apply keeps_unlinkIfExists|intros; apply keeps_ret].
Qed.

Lemma keeps_v2vCleanup : keeps S v2vCleanup.
Proof.
  apply keeps_bind; [apply keeps_getLocals|]. intros l.
  apply keeps_tryCatch; [|intros; apply keeps_ret].
  apply keeps_bind; [apply keeps_unlinkIfExists|intros; apply keeps_unlinkIfExists].
Qed.

Lemma opens_gptTry (env : Env) (userId : Z) (userMessage : string) :
  ignoresConversations S → opens S (gptTry env userId userMessage).
Proof.
  intros HS.
  assert (Hadd : ∀ r c s, S s → S (addMessageToConversation (openai env) userId r c s)).
  { intros r c s Hs. destruct (addMessage_is_setConversations (openai env) userId r c s) as [cs ->].
    by apply HS. }
  apply opens_caught_bind. intros lm.
  apply keeps_bind; [apply keeps_assign|]. intros _.
  apply keeps_bind; [apply keeps_whenLoading|]. intros _.
  apply keeps_bind; [apply keeps_modify, Hadd|]. intros _.
  apply keeps_bind.
  { apply keeps_stateful. intros s Hs.
    destruct (getConversation_is_setConversations userId s) as [cs ->]. by apply HS. }
  intros conversation.
  apply keeps_bind; [apply keeps_generateGPTResponse|]. intros gptResponse.
  apply keeps_bind; [apply keeps_modify, Hadd|]. intros _.
  destruct lm as [m|]; [|apply keeps_tell].
  apply keeps_tryCatch; [apply keeps_call|]. intros _.
  apply keeps_bind; [apply keeps_tell|]. intros _.
  apply keeps_bind; [apply keeps_caught|intros; apply keeps_ret].
Qed.

Lemma opens_v2vTry (env : Env) (ctx : Ctx) (label : TypeLabel) :
  opens S (v2vTry env ctx label).
Proof.
  apply opens_caught_bind. intros lm.
  apply keeps_bind; [apply keeps_assign|]. intros _.
  apply keeps_bind; [apply keeps_whenLoading|]. intros _.
  apply keeps_bind; [apply keeps_call|]. intros fileLink.
  apply keeps_bind; [apply keeps_call|]. intros downloadResponse.
  match goal with |- keeps _ (if ?b then _ else _) => destruct b end; [apply keeps_throw|].
  apply keeps_bind; [apply keeps_query|]. intros now.
  apply keeps_bind; [apply keeps_assign|]. intros _.
  apply keeps_bind; [apply keeps_call|]. intros _.
  apply keeps_bind; [apply keeps_whenLoading|]. intros _.
  apply keeps_bind; [apply keeps_whenLoading|]. intros _.
  apply keeps_bind; [apply keeps_transformVoice|]. intros transformed.
  apply keeps_bind; [apply keeps_assign|]. intros _.
  apply keeps_bind; [apply keeps_whenLoading|]. intros _.
  apply keeps_bind; [apply keeps_whenLoading|]. intros _.
  apply keeps_bind; [apply keeps_query|]. intros found.
  destruct (negb found); [apply keeps_throw|].
  apply keeps_bind; [apply keeps_call|]. intros _.
  apply keeps_whenLoading.
Qed.

End Blocks.

Lemma safe_t2vCleanup : safe t2vCleanup.
Proof.
  apply safe_bind; [apply safe_getLocals|]. intros l.
  apply safe_tryCatch. intros; apply safe_ret.
Qed.

Lemma safe_v2vCleanup : safe v2vCleanup.
Proof.
  apply safe_bind; [apply safe_getLocals|]. intros l.
  apply safe_tryCatch. intros; apply safe_ret.
Qed.

(** ** C1: acquire and release are paired *)

Lemma pairedLock_rejected (U : Z) (kind : Operation) (text : Text) (w : World) :
  fst (tell text w) = Value tt ∧
  pendingOperations (sm (snd (tell text w))) = pendingOperations (sm w) ∧
  Forall (fun ev =>
            pendingOperations (snapshot ev) = pendingOperations (sm w) ∨
            (lockOf U (sm w) = None ∧
             pendingOperations (snapshot ev) = <[U := kind]> (pendingOperations (sm w))))
         (since w (snd (tell text w))).
Proof.
  rewrite since_tell. rewrite tell_run. cbn [fst snd].
  split; [done|]. split; [done|]. apply Forall_singleton. by left.
Qed.

(** Take the lock, run the guarded block, release: control returns, [S]
    holds at every recorded moment, of which there is at least one, and the
    final state is the release applied to a state that satisfies [S]. *)
Lemma guarded_run (S : StateManager -> Prop) (U : Z) (kind : Operation) (body : M unit)
    (h : Error -> M unit) (cleanup : M unit) (w : World) :
  let m := do! modify (setPendingOperation U kind) in
           do! assign (fun _ => noLocals) in
           tryCatchFinally body h (do! cleanup in modify (clearPendingOperation U)) in
  opens S body → (∀ e, keeps S (h e)) → (∀ e, safe (h e)) →
  keeps S cleanup → safe cleanup →
  S (setPendingOperation U kind (sm w)) →
  ∃ s1, S s1 ∧
        fst (m w) = Value tt ∧
        sm (snd (m w)) = clearPendingOperation U s1 ∧
        since w (snd (m w)) ≠ [] ∧
        Forall (fun ev => S (snapshot ev)) (since w (snd (m w))).
Proof.
  intros m Hb Hh Hhs Hc Hcs H0. subst m.
  rewrite bind_modify, bind_assign.
  set (w0 := withLocals _ _).
  destruct (section_run S body h cleanup U w0 Hb Hh Hhs Hc Hcs H0)
    as (w1 & ev & evs & Htr & Hevs & HS & ->).
  exists (sm w1). cbn [fst snd]. rewrite (since_app w _ (ev :: evs)) by exact Htr.
  done.
Qed.

Lemma pairedLock_section (U : Z) (kind : Operation) (body : M unit) (h : Error -> M unit)
    (cleanup : M unit) (w : World) :
  let S := fun s => pendingOperations s = <[U := kind]> (pendingOperations (sm w)) in
  let m := do! modify (setPendingOperation U kind) in
           do! assign (fun _ => noLocals) in
           tryCatchFinally body h (do! cleanup in modify (clearPendingOperation U)) in
  opens S body → (∀ e, keeps S (h e)) → (∀ e, safe (h e)) →
  keeps S cleanup → safe cleanup →
  lockOf U (sm w) = None →
  fst (m w) = Value tt ∧
  pendingOperations (sm (snd (m w))) = pendingOperations (sm w) ∧
  since w (snd (m w)) ≠ [] ∧
  Forall (fun ev => pendingOperations (snapshot ev) = <[U := kind]> (pendingOperations (sm w)))
         (since w (snd (m w))).
Proof.
  intros S m Hb Hh Hhs Hc Hcs Hfree.
  destruct (guarded_run S U kind body h cleanup w Hb Hh Hhs Hc Hcs)
    as (s1 & HS & Hret & Hsm & Hne & Hevs); [reflexivity|].
  fold m in Hret, Hsm, Hne, Hevs.
  split; [done|]. split; [|done].
  rewrite Hsm, clearPendingOperation_table, HS. by apply release_restores.
Qed.

Lemma pairedLock_widen (U : Z) (kind : Operation) (P : gmap Z Operation) (evs : list Event) :
  P !! U = None →
  Forall (fun ev => pendingOperations (snapshot ev) = <[U := kind]> P) evs →
  Forall (fun ev => pendingOperations (snapshot ev) = P ∨
                    (P !! U = None ∧ pendingOperations (snapshot ev) = <[U := kind]> P)) evs.
Proof. intros HP H. eapply Forall_impl; [exact H|]. intros ev Hev. by right. Qed.

Lemma section_holds_lock (U : Z) (kind : Operation) (P : gmap Z Operation) (evs : list Event) :
  Forall (fun ev => pendingOperations (snapshot ev) = <[U := kind]> P) evs →
  Forall (fun ev => lockOf U (snapshot ev) = Some kind) evs.
Proof.
  intros H. eapply Forall_impl; [exact H|].
  intros ev Hev. unfold lockOf. rewrite Hev. apply lookup_insert_eq.
Qed.

Lemma finalizer_without_cleanup (U : Z) :
  modify (clearPendingOperation U) = (do! ret tt in modify (clearPendingOperation U)).
Proof. reflexivity. Qed.

Lemma lock_table_ignores_conversations (P : gmap Z Operation) :
  ignoresConversations (fun s => pendingOperations s = P).
Proof. intros s c H. exact H. Qed.

Lemma processGPTMessage_section (env : Env) (ctx : Ctx) (userMessage : string) (w : World) :
  openai env = true → lockOf (from_id ctx) (sm w) = None →
  let w' := snd (processGPTMessage env ctx userMessage w) in
  fst (processGPTMessage env ctx userMessage w) = Value tt ∧
  pendingOperations (sm w') = pendingOperations (sm w) ∧
  since w w' ≠ [] ∧
  Forall (fun ev => pendingOperations (snapshot ev) =
                    <[from_id ctx := gpt_generating]> (pendingOperations (sm w)))
         (since w w').
Proof.
  intros Hgpt Hfree. unfold processGPTMessage. rewrite Hgpt. cbn [negb].
  rewrite bind_getState, (hasPendingOperation_free _ _ Hfree).
  rewrite finalizer_without_cleanup.
  apply (pairedLock_section (from_id ctx) gpt_generating); try done.
  - apply opens_gptTry, lock_table_ignores_conversations.
  - intros e. apply keeps_report.
  - intros e. apply safe_report.
  - apply keeps_ret.
  - apply safe_ret.
Qed.

Lemma handleTextToVoiceCommand_section (env : Env) (ctx : Ctx) (w : World)
    (textToConvert : string) (overrides : Options.t) :
  parseT2v (msg_text ctx) = Convert textToConvert overrides →
  lockOf (from_id ctx) (sm w) = None →
  let w' := snd (handleTextToVoiceCommand env ctx w) in
  fst (handleTextToVoiceCommand env ctx w) = Value tt ∧
  pendingOperations (sm w') = pendingOperations (sm w) ∧
  since w w' ≠ [] ∧
  Forall (fun ev => pendingOperations (snapshot ev) =
                    <[from_id ctx := t2v_converting]> (pendingOperations (sm w)))
         (since w w').
Proof.
  intros Hparse Hfree. unfold handleTextToVoiceCommand. rewrite Hparse.
  rewrite bind_getState, (hasPendingOperation_free _ _ Hfree).
  apply (pairedLock_section (from_id ctx) t2v_converting); try done.
  - apply opens_t2vTry.
  - intros e. apply keeps_report.
  - intros e. apply safe_report.
  - apply keeps_t2vCleanup.
  - apply safe_t2vCleanup.
Qed.

Lemma processVoiceTransformation_section (env : Env) (ctx : Ctx) (label : TypeLabel)
    (w : World) :
  lockOf (from_id ctx) (sm w) = None →
  let w' := snd (processVoiceTransformation env ctx label w) in
  fst (processVoiceTransformation env ctx label w) = Value tt ∧
  pendingOperations (sm w') = pendingOperations (sm w) ∧
  since w w' ≠ [] ∧
  Forall (fun ev => pendingOperations (snapshot ev) =
                    <[from_id ctx := v2v_transforming]> (pendingOperations (sm w)))
         (since w w').
Proof.
  intros Hfree. unfold processVoiceTransformation.
  rewrite bind_modify, bind_getState.
  set (w0 := withState _ w).
  assert (Hops : pendingOperations (sm w0) = pendingOperations (sm w))
    by apply clearPendingVoiceTransformation_others.
  assert (Hfree0 : lockOf (from_id ctx) (sm w0) = None)
    by (unfold lockOf; rewrite Hops; exact Hfree).
  rewrite (hasPendingOperation_free _ _ Hfree0).
  pose proof (pairedLock_section (from_id ctx) v2v_transforming (v2vTry env ctx label)
                (fun error => report (TTransformError (errorText error))) v2vCleanup w0) as H.
  cbn zeta in H. rewrite Hops in H. unfold since in *.
  change (trace w0) with (trace w) in H.
  apply H; try done.
  - apply opens_v2vTry.
  - intros e. apply keeps_report.
  - intros e. apply safe_report.
  - apply keeps_v2vCleanup.
  - apply safe_v2vCleanup.
Qed.

Lemma pairedLock_of_section (U : Z) (kind : Operation) (m : M unit) (w : World) :
  lockOf U (sm w) = None →
  fst (m w) = Value tt ∧
  pendingOperations (sm (snd (m w))) = pendingOperations (sm w) ∧
  since w (snd (m w)) ≠ [] ∧
  Forall (fun ev => pendingOperations (snapshot ev) = <[U := kind]> (pendingOperations (sm w)))
         (since w (snd (m w))) →
  fst (m w) = Value tt ∧
  pendingOperations (sm (snd (m w))) = pendingOperations (sm w) ∧
  Forall (fun ev =>
            pendingOperations (snapshot ev) = pendingOperations (sm w) ∨
            (lockOf U (sm w) = None ∧
             pendingOperations (snapshot ev) = <[U := kind]> (pendingOperations (sm w))))
         (since w (snd (m w))).
Proof.
  intros Hfree (Hret & Htable & _ & Hevs). split; [done|]. split; [done|].
  by apply pairedLock_widen.
Qed.

Lemma lock_cases (U : Z) (s : StateManager) :
  (∃ k, lockOf U s = Some k) ∨ lockOf U s = None.
Proof. destruct (lockOf U s); eauto. Qed.

Lemma pairedLock_processGPTMessage (env : Env) (ctx : Ctx) (userMessage : string) :
  pairedLock (from_id ctx) gpt_generating (processGPTMessage env ctx userMessage).
Proof.
  intros w. destruct (openai env) eqn:Hgpt.
  - destruct (lock_cases (from_id ctx) (sm w)) as [[k Hlock]|Hlock].
    + unfold processGPTMessage. rewrite Hgpt. cbn [negb].
      rewrite bind_getState, (hasPendingOperation_held _ _ _ Hlock).
      apply pairedLock_rejected.
    + apply pairedLock_of_section; [done|].
      by apply processGPTMessage_section.
  - unfold processGPTMessage. rewrite Hgpt. cbn [negb]. apply pairedLock_rejected.
Qed.

Lemma pairedLock_handleTextToVoiceCommand (env : Env) (ctx : Ctx) :
  pairedLock (from_id ctx) t2v_converting (handleTextToVoiceCommand env ctx).
Proof.
  intros w. destruct (parseT2v (msg_text ctx)) as [e| |text overrides] eqn:Hparse.
  - unfold handleTextToVoiceCommand. rewrite Hparse. apply pairedLock_rejected.
  - unfold handleTextToVoiceCommand. rewrite Hparse. apply pairedLock_rejected.
  - destruct (lock_cases (from_id ctx) (sm w)) as [[k Hlock]|Hlock].
    + unfold handleTextToVoiceCommand. rewrite Hparse.
      rewrite bind_getState, (hasPendingOperation_held _ _ _ Hlock).
      apply pairedLock_rejected.
    + apply pairedLock_of_section; [done|].
      by eapply handleTextToVoiceCommand_section.
Qed.

Lemma pairedLock_processVoiceTransformation (env : Env) (ctx : Ctx) (label : TypeLabel) :
  pairedLock (from_id ctx) v2v_transforming (processVoiceTransformation env ctx label).
Proof.
  intros w. destruct (lock_cases (from_id ctx) (sm w)) as [[k Hlock]|Hlock].
  - unfold processVoiceTransformation. rewrite bind_modify, bind_getState.
    set (w0 := withState _ w).
    assert (Hops : pendingOperations (sm w0) = pendingOperations (sm w))
      by apply clearPendingVoiceTransformation_others.
    assert (Hheld : lockOf (from_id ctx) (sm w0) = Some k)
      by (unfold lockOf; rewrite Hops; exact Hlock).
    rewrite (hasPendingOperation_held _ _ _ Hheld).
    pose proof (pairedLock_rejected (from_id ctx) v2v_transforming
                  (TStillProcessing v2v_transforming) w0) as H.
    rewrite Hops in H. unfold since in *. change (trace w0) with (trace w) in H.
    destruct H as (H1 & H2 & H3). split; [done|]. split; [done|].
    eapply Forall_impl; [exact H3|]. intros ev [Hev|[Hev1 Hev2]]; [by left|].
    unfold lockOf in Hev1. rewrite Hops in Hev1. unfold lockOf in Hlock. congruence.
  - apply pairedLock_of_section; [done|].
    by apply processVoiceTransformation_section.
Qed.

(** C1. For every user the lock table is a map, so it holds at most one
    operation kind per user; each of the three pipelines (text-to-speech,
    text generation, voice transform) returns control normally with the
    lock table exactly as it found it, on every path and whatever the
    backends and the messaging platform answer, and while it runs the table
    is either the one at entry or, when the lock of the user was free, that
    table with the kind of the pipeline for the user.  When the lock is
    free and the pipeline goes ahead, it holds the lock at every moment it
    records, and there is at least one. *)
Theorem lock_acquire_release_paired
    (env : Env) (ctx : Ctx) (userMessage : string) (label : TypeLabel) :
  let U := from_id ctx in
  (∀ (s : StateManager) (k1 k2 : Operation),
      lockOf U s = Some k1 → lockOf U s = Some k2 → k1 = k2) ∧
  pairedLock U t2v_converting (handleTextToVoiceCommand env ctx) ∧
  pairedLock U gpt_generating (processGPTMessage env ctx userMessage) ∧
  pairedLock U v2v_transforming (processVoiceTransformation env ctx label) ∧
  ((∃ text overrides, parseT2v (msg_text ctx) = Convert text overrides) →
   takesLock U t2v_converting (handleTextToVoiceCommand env ctx)) ∧
  (openai env = true →
   takesLock U gpt_generating (processGPTMessage env ctx userMessage)) ∧
  takesLock U v2v_transforming (processVoiceTransformation env ctx label).
Proof.
  cbn zeta.
  split; [intros s k1 k2 H1 H2; congruence|].
  split; [apply pairedLock_handleTextToVoiceCommand|].
  split; [apply pairedLock_processGPTMessage|].
  split; [apply pairedLock_processVoiceTransformation|].
  split; [|split].
  - intros (text & overrides & Hparse) w Hfree.
    destruct (handleTextToVoiceCommand_section env ctx w text overrides Hparse Hfree)
      as (_ & _ & Hne & Hevs).
    split; [done|]. by eapply section_holds_lock.
  - intros Hgpt w Hfree.
    destruct (processGPTMessage_section env ctx userMessage w Hgpt Hfree)
      as (_ & _ & Hne & Hevs).
    split; [done|]. by eapply section_holds_lock.
  - intros w Hfree.
    destruct (processVoiceTransformation_section env ctx label w Hfree)
      as (_ & _ & Hne & Hevs).
    split; [done|]. by eapply section_holds_lock.
Qed.

Lemma lock_acquire_release_paired_witness :
  let ctx := mkCtx 7 42 "/t2v -s 0.4 hola" "file-1" in
  let w := startWorld obligingOracle idleState in
  pendingOperations (sm (snd (handleTextToVoiceCommand sampleEnv ctx w))) = pendingOperations (sm w) ∧
  since w (snd (handleTextToVoiceCommand sampleEnv ctx w)) ≠ [] ∧
  since w (snd (processGPTMessage sampleEnv ctx "hola" w)) ≠ [].
Proof.
  intros ctx w.
  destruct (lock_acquire_release_paired sampleEnv ctx "hola" voice)
    as (_ & Ht2v & _ & _ & Htake1 & Htake2 & _).
  split; [apply Ht2v|]. split.
  - apply Htake1; [|reflexivity]. eexists _, _. vm_compute. reflexivity.
  - apply Htake2; reflexivity.
Defined.

(** ** C2: a request that finds the lock held *)

(** C2, as stated, fails: user 7 has armed the voice intent and a
    text-to-speech conversion is still running; the voice message that
    arrives is rejected with the notice, and its intent is gone. *)
Lemma rejected_voice_loses_intent :
  let ctx := mkCtx 7 43 EmptyString "file-1" in
  let w := startWorld obligingOracle busyArmedState in
  let w' := snd (processVoiceTransformation sampleEnv ctx voice w) in
  lockOf 7 (sm w) = Some t2v_converting ∧
  since w w' = [replyEvent (TStillProcessing v2v_transforming) (withState (sm w') w)] ∧
  intentOf 7 (sm w) = Some 41 ∧
  intentOf 7 (sm w') = None ∧
  ¬ untouched 7 (sm w) (sm w').
Proof.
  cbn zeta.
  assert (H1 : intentOf 7 (sm (startWorld obligingOracle busyArmedState)) = Some 41)
    by (vm_compute; reflexivity).
  assert (H2 : intentOf 7 (sm (snd (processVoiceTransformation sampleEnv (mkCtx 7 43 EmptyString "file-1")
                voice (startWorld obligingOracle busyArmedState)))) = None)
    by (vm_compute; reflexivity).
  split; [vm_compute; reflexivity|]. split; [vm_compute; reflexivity|].
  split; [exact H1|]. split; [exact H2|].
  intros (_ & _ & H). rewrite H1, H2 in H. discriminate.
Qed.

Lemma processGPTMessage_rejected (env : Env) (ctx : Ctx) (userMessage : string) (w : World)
    (k : Operation) :
  openai env = true → lockOf (from_id ctx) (sm w) = Some k →
  processGPTMessage env ctx userMessage w = tell (TStillProcessing gpt_generating) w.
Proof.
  intros Hgpt Hlock. unfold processGPTMessage. rewrite Hgpt. cbn [negb].
  by rewrite bind_getState, (hasPendingOperation_held _ _ _ Hlock).
Qed.

Lemma handleTextToVoiceCommand_rejected (env : Env) (ctx : Ctx) (w : World) (k : Operation)
    (text : string) (overrides : Options.t) :
  parseT2v (msg_text ctx) = Convert text overrides →
  lockOf (from_id ctx) (sm w) = Some k →
  handleTextToVoiceCommand env ctx w = tell (TStillProcessing t2v_converting) w.
Proof.
  intros Hparse Hlock. unfold handleTextToVoiceCommand. rewrite Hparse.
  by rewrite bind_getState, (hasPendingOperation_held _ _ _ Hlock).
Qed.

Lemma processVoiceTransformation_rejected (env : Env) (ctx : Ctx) (label : TypeLabel)
    (w : World) (k : Operation) :
  lockOf (from_id ctx) (sm w) = Some k →
  processVoiceTransformation env ctx label w =
  tell (TStillProcessing v2v_transforming)
       (withState (clearPendingVoiceTransformation (from_id ctx) (sm w)) w).
Proof.
  intros Hlock. unfold processVoiceTransformation. rewrite bind_modify, bind_getState.
  set (w0 := withState _ w).
  assert (Hheld : lockOf (from_id ctx) (sm w0) = Some k).
  { unfold lockOf, w0. cbn [withState sm].
    by rewrite (proj2 (clearPendingVoiceTransformation_others _ _)). }
  by rewrite (hasPendingOperation_held _ _ _ Hheld).
Qed.

(** C2, amended.  When the lock of the user is held: the text generation
    pipeline (backend configured) and the text-to-speech pipeline (options
    parsed, text not empty) answer with their still-processing notice and
    leave the whole state manager as it was; the voice transform pipeline
    answers with its still-processing notice and leaves the conversation
    store and the lock table as they were, but it has removed the voice
    intent of the user before it looked at the lock. *)
Theorem rejected_request_frame
    (env : Env) (ctx : Ctx) (userMessage : string) (label : TypeLabel) (w : World)
    (k : Operation) :
  let U := from_id ctx in
  lockOf U (sm w) = Some k →
  (openai env = true →
   let w' := snd (processGPTMessage env ctx userMessage w) in
   since w w' = [replyEvent (TStillProcessing gpt_generating) w] ∧
   sm w' = sm w ∧ untouched U (sm w) (sm w')) ∧
  ((∃ text overrides, parseT2v (msg_text ctx) = Convert text overrides) →
   let w' := snd (handleTextToVoiceCommand env ctx w) in
   since w w' = [replyEvent (TStillProcessing t2v_converting) w] ∧
   sm w' = sm w ∧ untouched U (sm w) (sm w')) ∧
  (let w' := snd (processVoiceTransformation env ctx label w) in
   since w w' = [replyEvent (TStillProcessing v2v_transforming) (withState (sm w') w)] ∧
   conversations (sm w') = conversations (sm w) ∧
   pendingOperations (sm w') = pendingOperations (sm w) ∧
   pendingVoiceTransformations (sm w') = delete U (pendingVoiceTransformations (sm w)) ∧
   intentOf U (sm w') = None).
Proof.
  cbn zeta. intros Hlock. split; [|split].
  - intros Hgpt. rewrite (processGPTMessage_rejected env ctx userMessage w k Hgpt Hlock).
    rewrite since_tell, tell_run. cbn [snd]. done.
  - intros (text & overrides & Hparse).
    rewrite (handleTextToVoiceCommand_rejected env ctx w k text overrides Hparse Hlock).
    rewrite since_tell, tell_run. cbn [snd]. done.
  - rewrite (processVoiceTransformation_rejected env ctx label w k Hlock).
    set (w0 := withState _ w).
    pose proof (since_tell (TStillProcessing v2v_transforming) w0) as Hsince.
    unfold since in *. change (trace w0) with (trace w) in Hsince.
    rewrite Hsince. rewrite tell_run. cbn [snd].
    split; [reflexivity|].
    split; [apply clearPendingVoiceTransformation_others|].
    split; [apply clearPendingVoiceTransformation_others|].
    split; [apply clearPendingVoiceTransformation_table|].
    unfold intentOf. cbn [tick record withState sm w0].
    rewrite clearPendingVoiceTransformation_table. apply lookup_delete_eq.
Qed.

Lemma rejected_request_frame_witness :
  let ctx := mkCtx 7 43 "/t2v hola" "file-1" in
  let w := startWorld obligingOracle busyArmedState in
  sm (snd (processGPTMessage sampleEnv ctx "hola" w)) = sm w ∧
  sm (snd (handleTextToVoiceCommand sampleEnv ctx w)) = sm w ∧
  intentOf 7 (sm (snd (processVoiceTransformation sampleEnv ctx audio w))) = None.
Proof.
  intros ctx w.
  assert (Hlock : lockOf (from_id ctx) (sm w) = Some t2v_converting)
    by (vm_compute; reflexivity).
  destruct (rejected_request_frame sampleEnv ctx "hola" audio w t2v_converting Hlock)
    as (Hgpt & Ht2v & Hv2v).
  split; [apply Hgpt; reflexivity|]. split.
  - apply Ht2v. eexists _, _. vm_compute. reflexivity.
  - apply Hv2v.
Defined.

(** ** The voice intent *)

Lemma pendingV2V_intentOf (U : Z) (s : StateManager) :
  intentOf U s = None → pendingV2V U s = false.
Proof. unfold pendingV2V, getPendingVoiceTransformation, intentOf. by intros ->. Qed.

Lemma setPendingOperation_intent (U : Z) (k : Operation) (s : StateManager) :
  pendingVoiceTransformations (setPendingOperation U k s) = pendingVoiceTransformations s.
Proof. reflexivity. Qed.

(** The voice transform pipeline, started with the lock free: between the
    first recorded moment and the release the state manager does not
    change; the intent of the user is already cleared in it and the lock
    is held. *)
Lemma processVoiceTransformation_run (env : Env) (ctx : Ctx) (label : TypeLabel) (w : World) :
  let U := from_id ctx in
  let s0 := setPendingOperation U v2v_transforming (clearPendingVoiceTransformation U (sm w)) in
  let w' := snd (processVoiceTransformation env ctx label w) in
  lockOf U (sm w) = None →
  fst (processVoiceTransformation env ctx label w) = Value tt ∧
  sm w' = clearPendingOperation U s0 ∧
  since w w' ≠ [] ∧
  Forall (fun ev => snapshot ev = s0) (since w w').
Proof.
  cbn zeta. intros Hfree. unfold processVoiceTransformation.
  rewrite bind_modify, bind_getState.
  set (w0 := withState _ w).
  assert (Hfree0 : lockOf (from_id ctx) (sm w0) = None).
  { unfold lockOf, w0. cbn [withState sm].
    by rewrite (proj2 (clearPendingVoiceTransformation_others _ _)). }
  rewrite (hasPendingOperation_free _ _ Hfree0).
  destruct (guarded_run
              (fun s => s = setPendingOperation (from_id ctx) v2v_transforming (sm w0))
              (from_id ctx) v2v_transforming (v2vTry env ctx label)
              (fun error => report (TTransformError (errorText error))) v2vCleanup w0)
    as (s1 & -> & Hret & Hsm & Hne & Hevs).
  - apply opens_v2vTry.
  - intros e. apply keeps_report.
  - intros e. apply safe_report.
  - apply keeps_v2vCleanup.
  - apply safe_v2vCleanup.
  - reflexivity.
  - unfold since in *. change (trace w0) with (trace w) in Hne, Hevs. done.
Qed.

Lemma v2v_section_state (U : Z) (s : StateManager) :
  let s0 := setPendingOperation U v2v_transforming (clearPendingVoiceTransformation U s) in
  lockOf U s0 = Some v2v_transforming ∧
  intentOf U s0 = None ∧
  intentOf U (clearPendingOperation U s0) = None ∧
  pendingOperations (clearPendingOperation U s0) = delete U (pendingOperations s).
Proof.
  cbn zeta. unfold lockOf, intentOf.
  rewrite (proj2 (clearPendingOperation_others _ _)), clearPendingOperation_table.
  cbn [setPendingOperation setOperations pendingOperations pendingVoiceTransformations].
  rewrite clearPendingVoiceTransformation_table,
    (proj2 (clearPendingVoiceTransformation_others _ _)).
  rewrite lookup_insert_eq, lookup_delete_eq, delete_insert_eq. done.
Qed.

Lemma onSound_armed (env : Env) (label : TypeLabel) (ctx : Ctx) (w : World) :
  pendingV2V (from_id ctx) (sm w) = true →
  onSound env label ctx w = processVoiceTransformation env ctx label w.
Proof.
  intros H. destruct label; cbn [onSound];
    unfold handleVoiceMessage, handleAudioMessage; by rewrite bind_getState, H.
Qed.

Lemma onSound_idle (env : Env) (label : TypeLabel) (ctx : Ctx) (w : World) :
  pendingV2V (from_id ctx) (sm w) = false →
  onSound env label ctx w = tell (TUnsolicited label) w.
Proof.
  intros H. destruct label; cbn [onSound];
    unfold handleVoiceMessage, handleAudioMessage; by rewrite bind_getState, H.
Qed.

Lemma handleVoiceToVoiceCommand_lock_table (ctx : Ctx) (w : World) :
  pendingOperations (sm (snd (handleVoiceToVoiceCommand ctx w))) = pendingOperations (sm w).
Proof.
  unfold handleVoiceToVoiceCommand. rewrite bind_getState.
  destruct (hasPendingOperation _ _); [by rewrite tell_run|].
  destruct (pendingV2V _ _); [by rewrite tell_run|].
  unfold tryCatch. rewrite bind_modify. unfold bind, call.
  destruct (answer _ _ _ _); cbn [ret snd fst]; [reflexivity|].
  cbn [modify]. rewrite tell_run. cbn [snd tick record withState sm].
  rewrite (proj2 (clearPendingVoiceTransformation_others _ _)). reflexivity.
Qed.

(** Issuing /v2v with the lock free, no intent armed, a message id that is
    not zero and a confirmation that is delivered arms the intent. *)
Lemma handleVoiceToVoiceCommand_arms (ctx : Ctx) (w : World) (m : ChatMessage) :
  lockOf (from_id ctx) (sm w) = None →
  pendingV2V (from_id ctx) (sm w) = false →
  msg_id ctx ≠ 0 →
  answer (oracle w) _ (reply TSendAudioNow) (steps w) = Resolved m →
  intentOf (from_id ctx) (sm (snd (handleVoiceToVoiceCommand ctx w))) = Some (msg_id ctx) ∧
  pendingV2V (from_id ctx) (sm (snd (handleVoiceToVoiceCommand ctx w))) = true.
Proof.
  intros Hfree Hidle Hid Hreply. unfold handleVoiceToVoiceCommand.
  rewrite bind_getState, (hasPendingOperation_free _ _ Hfree), Hidle.
  unfold tryCatch. rewrite bind_modify. unfold bind, call.
  cbn [withState oracle steps]. rewrite Hreply. cbn [ret snd].
  unfold pendingV2V, getPendingVoiceTransformation, intentOf.
  cbn [tick record withState sm setPendingVoiceTransformation setVoiceTransformations
       pendingVoiceTransformations].
  rewrite lookup_insert_eq. split; [done|].
  unfold truthy. apply negb_true_iff. by apply Z.eqb_neq.
Qed.

Lemma acquisitionsFrom_held (U : Z) (kind : Operation) (evs rest : list Event) :
  Forall (fun ev => lockOf U (snapshot ev) = Some kind) evs →
  acquisitionsFrom U kind true (evs ++ rest) = acquisitionsFrom U kind true rest.
Proof.
  induction 1 as [|ev evs Hev _ IH]; [done|].
  cbn [app acquisitionsFrom negb andb]. unfold holds. rewrite bool_decide_eq_true_2 by done.
  exact IH.
Qed.

Lemma acquisitions_one_run (U : Z) (kind : Operation) (evs : list Event) (last : Event) :
  evs ≠ [] →
  Forall (fun ev => lockOf U (snapshot ev) = Some kind) evs →
  lockOf U (snapshot last) = None →
  acquisitions U kind (evs ++ [last]) = 1%nat.
Proof.
  intros Hne Hevs Hlast. destruct evs as [|ev evs]; [done|].
  apply Forall_cons in Hevs as [Hev Hevs].
  unfold acquisitions. cbn [app acquisitionsFrom negb andb].
  unfold holds at 1. rewrite bool_decide_eq_true_2 by done.
  assert (Hh : holds U kind ev = true) by (by apply bool_decide_eq_true_2).
  rewrite Hh.
  rewrite (acquisitionsFrom_held U kind evs [last] Hevs).
  cbn [acquisitionsFrom negb andb]. reflexivity.
Qed.

Lemma trace_grows {A} (m : M A) (w : World) :
  keeps (fun _ => True) m → trace (snd (m w)) = trace w ++ since w (snd (m w)).
Proof.
  intros Hk. destruct (Hk w I) as (_ & evs & Hevs & _).
  unfold since. rewrite Hevs. by rewrite drop_app_length.
Qed.

Lemma grows_processVoiceTransformation (env : Env) (ctx : Ctx) (label : TypeLabel) :
  keeps (fun _ => True) (processVoiceTransformation env ctx label).
Proof.
  unfold processVoiceTransformation.
  apply keeps_bind; [by apply keeps_modify|]. intros _.
  apply keeps_bind; [apply keeps_getState|]. intros s.
  destruct (hasPendingOperation _ s); [apply keeps_tell|].
  apply keeps_bind; [by apply keeps_modify|]. intros _.
  apply keeps_bind; [apply keeps_assign|]. intros _.
  apply keeps_tryCatchFinally.
  - apply opens_keeps, opens_v2vTry.
  - intros e. apply keeps_report.
  - apply keeps_bind; [apply keeps_v2vCleanup|]. intros _. by apply keeps_modify.
Qed.

(** C4. A user issues /v2v and the intent is armed; two sound messages
    (voice or audio, in any combination) follow.  The first one runs the
    transform pipeline: at every moment it records, and there is one, the
    lock is held for the transformation and the intent is already cleared,
    so it was cleared before any request was made; when it ends the intent
    and the lock are both free.  The second one only gets the notice for
    unsolicited sound and changes nothing.  Along the two messages the
    lock is taken for a transformation exactly once. *)
Theorem voice_intent_consumed_once
    (env : Env) (ctx0 ctx1 ctx2 : Ctx) (l1 l2 : TypeLabel) (w : World) :
  let U := from_id ctx0 in
  let w1 := snd (handleVoiceToVoiceCommand ctx0 w) in
  let w2 := snd (onSound env l1 ctx1 w1) in
  let w3 := snd (onSound env l2 ctx2 w2) in
  from_id ctx1 = U → from_id ctx2 = U →
  lockOf U (sm w) = None →
  pendingV2V U (sm w1) = true →
  since w1 w2 ≠ [] ∧
  Forall (fun ev => lockOf U (snapshot ev) = Some v2v_transforming ∧
                    intentOf U (snapshot ev) = None) (since w1 w2) ∧
  intentOf U (sm w2) = None ∧
  lockOf U (sm w2) = None ∧
  since w2 w3 = [replyEvent (TUnsolicited l2) w2] ∧
  sm w3 = sm w2 ∧
  acquisitions U v2v_transforming (since w1 w3) = 1%nat.
Proof.
  cbn zeta. intros Hu1 Hu2 Hfree Harmed.
  set (U := from_id ctx0) in *.
  set (w1 := snd (handleVoiceToVoiceCommand ctx0 w)) in *.
  assert (Hfree1 : lockOf (from_id ctx1) (sm w1) = None).
  { rewrite Hu1. unfold lockOf, w1. by rewrite handleVoiceToVoiceCommand_lock_table. }
  rewrite (onSound_armed env l1 ctx1 w1) by (by rewrite Hu1).
  destruct (processVoiceTransformation_run env ctx1 l1 w1 Hfree1) as (_ & Hsm2 & Hne & Hevs).
  set (w2 := snd (processVoiceTransformation env ctx1 l1 w1)) in *.
  rewrite Hu1 in Hsm2, Hevs.
  destruct (v2v_section_state U (sm w1)) as (Hheld & Hint0 & Hint2 & Htable).
  assert (Hlock2 : lockOf U (sm w2) = None).
  { unfold lockOf. rewrite Hsm2, Htable. apply lookup_delete_eq. }
  assert (Hidle2 : pendingV2V (from_id ctx2) (sm w2) = false).
  { rewrite Hu2. apply pendingV2V_intentOf. by rewrite Hsm2. }
  rewrite (onSound_idle env l2 ctx2 w2 Hidle2).
  assert (Hheld12 : Forall (fun ev => lockOf U (snapshot ev) = Some v2v_transforming)
                           (since w1 w2)).
  { eapply Forall_impl; [exact Hevs|]. by intros ev ->. }
  split; [done|]. split.
  { eapply Forall_impl; [exact Hevs|]. by intros ev ->. }
  split; [by rewrite Hsm2|]. split; [done|].
  split; [apply since_tell|]. split; [by rewrite tell_run|].
  assert (Htr2 : trace w2 = trace w1 ++ since w1 w2)
    by apply trace_grows, grows_processVoiceTransformation.
  unfold since at 1. rewrite tell_run. cbn [snd tick record trace].
  rewrite Htr2, <- app_assoc, drop_app_length.
  apply acquisitions_one_run; [done|done|]. exact Hlock2.
Qed.

Lemma voice_intent_consumed_once_witness :
  let ctx0 := mkCtx 7 41 "/v2v" EmptyString in
  let ctx1 := mkCtx 7 42 EmptyString "file-1" in
  let ctx2 := mkCtx 7 43 EmptyString "file-2" in
  let w := startWorld obligingOracle idleState in
  let w1 := snd (handleVoiceToVoiceCommand ctx0 w) in
  let w2 := snd (onSound sampleEnv voice ctx1 w1) in
  let w3 := snd (onSound sampleEnv audio ctx2 w2) in
  pendingV2V 7 (sm w1) = true ∧
  intentOf 7 (sm w2) = None ∧
  since w2 w3 = [replyEvent (TUnsolicited audio) w2] ∧
  acquisitions 7 v2v_transforming (since w1 w3) = 1%nat.
Proof.
  intros ctx0 ctx1 ctx2 w w1 w2 w3.
  assert (Harmed : pendingV2V (from_id ctx0) (sm w1) = true) by (vm_compute; reflexivity).
  destruct (voice_intent_consumed_once sampleEnv ctx0 ctx1 ctx2 voice audio w
              eq_refl eq_refl eq_refl Harmed)
    as (_ & _ & Hint & _ & Hsecond & _ & Hone).
  split; [exact Harmed|]. split; [exact Hint|]. split; [exact Hsecond|exact Hone].
Defined.

(** ** C5: the armed intent and the next message *)

(** C5, as stated, fails: user 7 has armed the intent and sends the command
    [/t hola].  The text generation pipeline runs, the backend is called,
    and the intent is still armed afterwards. *)
Lemma command_keeps_intent_armed :
  let ctx := mkCtx 7 42 "/t hola" EmptyString in
  let w := startWorld obligingOracle armedState in
  let w' := snd (handleTextCommand sampleEnv ctx w) in
  pendingV2V 7 (sm w) = true ∧
  pendingV2V 7 (sm w') = true ∧
  intentOf 7 (sm w') = Some 41 ∧
  backendCalls (since w w') = 1%nat.
Proof. vm_compute. done. Qed.

Lemma handleMessage_guard (t : string) :
  isPlainText t = true →
  Str.isEmpty t || (String.length (Str.trim t) <? 1)%nat || Str.startsWithChar "/" t = false.
Proof. unfold isPlainText. intros H. by apply negb_true_iff in H. Qed.

Lemma handleMessage_cancels (env : Env) (ctx : Ctx) (w : World) :
  pendingV2V (from_id ctx) (sm w) = true →
  isPlainText (msg_text ctx) = true →
  handleMessage env ctx w =
  (Value tt,
   withState (clearPendingVoiceTransformation (from_id ctx) (sm w))
             (tick (record (action (replyEvent TV2vCancelled w)) w))).
Proof.
  intros Harmed Hplain. unfold handleMessage.
  rewrite (handleMessage_guard _ Hplain), bind_getState, Harmed.
  unfold bind. rewrite tell_run. reflexivity.
Qed.

(** C5, amended.  While the intent of a user is armed, a plain text
    message (not blank, not starting with a slash) cancels it: the user is
    told, the intent is removed, nothing else changes and no pipeline runs;
    a voice or audio message consumes it.  So after one such message the
    intent is cleared.  (A command is not such a message.) *)
Theorem armed_intent_cleared_by_text_or_sound (env : Env) (ctx : Ctx) (w : World) :
  let U := from_id ctx in
  pendingV2V U (sm w) = true →
  (isPlainText (msg_text ctx) = true →
   let w' := snd (handleMessage env ctx w) in
   since w w' = [replyEvent TV2vCancelled w] ∧
   backendCalls (since w w') = 0%nat ∧
   intentOf U (sm w') = None ∧
   pendingVoiceTransformations (sm w') = delete U (pendingVoiceTransformations (sm w)) ∧
   pendingOperations (sm w') = pendingOperations (sm w) ∧
   conversations (sm w') = conversations (sm w)) ∧
  (∀ label, intentOf U (sm (snd (onSound env label ctx w))) = None).
Proof.
  cbn zeta. intros Harmed. split.
  - intros Hplain. rewrite (handleMessage_cancels env ctx w Harmed Hplain). cbn [snd].
    unfold since. cbn [withState tick record trace sm].
    rewrite drop_app_length.
    split; [reflexivity|]. split; [reflexivity|].
    split; [unfold intentOf; rewrite clearPendingVoiceTransformation_table;
            apply lookup_delete_eq|].
    split; [apply clearPendingVoiceTransformation_table|].
    split; apply clearPendingVoiceTransformation_others.
  - intros label. rewrite (onSound_armed env label ctx w Harmed).
    destruct (lock_cases (from_id ctx) (sm w)) as [[k Hlock]|Hfree].
    + rewrite (processVoiceTransformation_rejected env ctx label w k Hlock), tell_run.
      cbn [snd tick record withState sm]. unfold intentOf.
      rewrite clearPendingVoiceTransformation_table. apply lookup_delete_eq.
    + destruct (processVoiceTransformation_run env ctx label w Hfree) as (_ & -> & _).
      apply v2v_section_state.
Qed.

Lemma armed_intent_cleared_by_text_or_sound_witness :
  let ctx := mkCtx 7 42 "hola Javier" "file-1" in
  let w := startWorld obligingOracle armedState in
  since w (snd (handleMessage sampleEnv ctx w)) = [replyEvent TV2vCancelled w] ∧
  intentOf 7 (sm (snd (handleMessage sampleEnv ctx w))) = None ∧
  intentOf 7 (sm (snd (onSound sampleEnv voice ctx w))) = None.
Proof.
  intros ctx w.
  assert (Harmed : pendingV2V (from_id ctx) (sm w) = true) by (vm_compute; reflexivity).
  destruct (armed_intent_cleared_by_text_or_sound sampleEnv ctx w Harmed) as (Htext & Hsound).
  destruct (Htext eq_refl) as (H1 & _ & H2 & _).
  split; [exact H1|]. split; [exact H2|]. apply Hsound.
Defined.

(** ** C8: numeric overrides of the text-to-speech call *)

(** Order facts on [Qc] are settled on the underlying rationals. *)
Ltac qc_order :=
  unfold Qclt, Qcle in *;
  first [ done
        | exfalso; lra
        | f_equal; apply Qc_is_canon; lra
        | lra ].

Ltac clamp_cases :=
  unfold clampedTo, inRange, Num.leb, Num.max, Num.min, Num.ltb; cbn [fst snd];
  repeat case_bool_decide; cbn [negb];
  repeat split; qc_order.

Lemma clamp_between (a b : Qc) (x : Num) :
  (a ≤ b)%Qc → Num.isNaN x = false →
  Num.max (Fin a) (Num.min (Fin b) x) = clampedTo (Fin a) (Fin b) x ∧
  inRange (Fin a, Fin b) (clampedTo (Fin a) (Fin b) x).
Proof.
  intros Hab Hx. destruct x as [| |q|]; [discriminate|clamp_cases..].
Qed.

Lemma clamp_below (a : Qc) (x : Num) :
  Num.isNaN x = false →
  Num.max (Fin a) x = clampedTo (Fin a) PosInf x ∧
  inRange (Fin a, PosInf) (clampedTo (Fin a) PosInf x).
Proof.
  intros Hx. destruct x as [| |q|]; [discriminate|clamp_cases..].
Qed.

Lemma decimal_is_Fin (m e : Z) : ∃ q, Num.decimal m e = Fin q.
Proof. unfold Num.decimal. destruct (0 <=? e); eexists; reflexivity. Qed.

Lemma finalSettings_clamps (f : Flag.t) (options : Options.t) (x : Num) :
  Num.isNaN x = false →
  suppliedValue f options = Some x →
  usedValue f (finalSettings options) = clampedTo (fst (validRange f)) (snd (validRange f)) x ∧
  inRange (validRange f) (usedValue f (finalSettings options)).
Proof.
  intros Hx Hsup.
  destruct (decimal_is_Fin 0 0) as [zero Hzero].
  destruct (decimal_is_Fin 10 (-1)) as [one Hone].
  destruct (decimal_is_Fin 5 (-1)) as [half Hhalf].
  destruct (decimal_is_Fin 20 (-1)) as [two Htwo].
  assert (H01 : (zero ≤ one)%Qc).
  { assert (H : Num.leb (Num.decimal 0 0) (Num.decimal 10 (-1)) = true)
      by (vm_compute; reflexivity).
    rewrite Hzero, Hone in H. unfold Num.leb, Num.ltb in H.
    apply negb_true_iff, bool_decide_eq_false in H. by apply Qcnot_lt_le. }
  assert (H52 : (half ≤ two)%Qc).
  { assert (H : Num.leb (Num.decimal 5 (-1)) (Num.decimal 20 (-1)) = true)
      by (vm_compute; reflexivity).
    rewrite Hhalf, Htwo in H. unfold Num.leb, Num.ltb in H.
    apply negb_true_iff, bool_decide_eq_false in H. by apply Qcnot_lt_le. }
  destruct f; cbn [suppliedValue] in Hsup;
    cbn [usedValue finalSettings VoiceSettings.stability VoiceSettings.style
         VoiceSettings.speed validRange fst snd];
    rewrite Hsup, ?Hzero, ?Hone, ?Hhalf, ?Htwo.
  - destruct (clamp_between _ _ x H01 Hx) as [-> Hin]. split; [reflexivity|exact Hin].
  - destruct (clamp_below zero x Hx) as [-> Hin]. split; [reflexivity|exact Hin].
  - destruct (clamp_between _ _ x H52 Hx) as [-> Hin]. split; [reflexivity|exact Hin].
Qed.

Lemma finalSettings_defaults (f : Flag.t) (options : Options.t) :
  suppliedValue f options = None →
  usedValue f (finalSettings options) = defaultValue f.
Proof.
  intros Hsup. destruct f; cbn [suppliedValue] in Hsup;
    cbn [usedValue finalSettings VoiceSettings.stability VoiceSettings.style
         VoiceSettings.speed defaultValue]; by rewrite Hsup.
Qed.

Lemma firstCall_call {T} (c : Call T) : firstCall c (call c).
Proof.
  intros w. exists []. unfold call.
  by destruct (answer (oracle w) T c (steps w)).
Qed.

Lemma firstCall_bind {T A B} (c : Call T) (m : M A) (k : A -> M B) :
  firstCall c m → (∀ a, keeps (fun _ => True) (k a)) → firstCall c (bind m k).
Proof.
  intros Hm Hk w. destruct (Hm w) as [rest Hrest]. unfold bind.
  destruct (m w) as [[a|e] w1]; cbn [snd] in *; [|by exists rest].
  destruct (Hk a w1 I) as (_ & evs & Hevs & _).
  exists (rest ++ evs). by rewrite Hevs, Hrest, <- app_assoc.
Qed.

Lemma firstCall_tryCatch {T A} (c : Call T) (m : M A) (h : Error -> M A) :
  firstCall c m → (∀ e, keeps (fun _ => True) (h e)) → firstCall c (tryCatch m h).
Proof.
  intros Hm Hh w. destruct (Hm w) as [rest Hrest]. unfold tryCatch.
  destruct (m w) as [[a|e] w1]; cbn [snd] in *; [by exists rest|].
  destruct (Hh e w1 I) as (_ & evs & Hevs & _).
  exists (rest ++ evs). by rewrite Hevs, Hrest, <- app_assoc.
Qed.

Lemma firstCall_retry {T} (c : Call T) (n : nat) (delay : Z) :
  firstCall c (retry (call c) (S n) delay).
Proof.
  unfold retry. cbn [retryFrom].
  apply firstCall_tryCatch; [apply firstCall_call|]. intros e.
  apply keeps_bind; [|intros; apply keeps_retryFrom, keeps_call].
  destruct (0 <? S n - 1)%nat; [apply keeps_sleep|apply keeps_ret].
Qed.

Lemma firstCall_generateVoice (env : Env) (text : string) (options : Options.t) :
  ELEVEN_API_KEY env = true →
  firstCall (postTextToSpeech text (finalSettings options)) (generateVoice env text options).
Proof.
  intros Hkey. unfold generateVoice. rewrite Hkey. cbn [negb].
  apply firstCall_tryCatch; [|intros; apply keeps_throw].
  apply firstCall_bind; [apply firstCall_retry|].
  intros r. destruct (invalidResponse r); [apply keeps_throw|].
  apply keeps_bind; [apply keeps_query|]. intros now.
  apply keeps_bind; [apply keeps_call|intros; apply keeps_ret].
Qed.

(** ** C7: the retry wrapper *)

Lemma delays_record_sleep (ms : Z) (w : World) :
  delays (trace (snd (sleep ms w))) = delays (trace w) ++ [ms].
Proof. unfold sleep, record, delays. cbn [snd trace]. by rewrite omap_app. Qed.

Lemma delays_call {T} (c : Call T) (w : World) :
  delays (trace (snd (call c w))) = delays (trace w).
Proof.
  unfold call, delays.
  destruct (answer (oracle w) T c (steps w)); cbn [snd tick record trace];
    rewrite omap_app; cbn; by rewrite app_nil_r.
Qed.

Lemma retryFrom_failed {A} (fn : M A) (maxRetries : nat) (delay : Z) (i left : nat)
    (lastError : option Error) (w w' : World) (e : Error) :
  fn w = (Thrown e, w') →
  retryFrom fn maxRetries delay i (S left) lastError w =
  retryFrom fn maxRetries delay (S i) left (Some e)
    (if (i <? maxRetries - 1)%nat then snd (sleep (delay * 2 ^ Z.of_nat i) w') else w').
Proof.
  intros H. cbn [retryFrom]. unfold tryCatch. rewrite H. unfold bind.
  by destruct (i <? maxRetries - 1)%nat.
Qed.

Lemma retryFrom_succeeded {A} (fn : M A) (maxRetries : nat) (delay : Z) (i left : nat)
    (lastError : option Error) (w w' : World) (v : A) :
  fn w = (Value v, w') →
  retryFrom fn maxRetries delay i (S left) lastError w = (Value v, w').
Proof. intros H. cbn [retryFrom]. unfold tryCatch. by rewrite H. Qed.

Lemma retryFrom_exhausted {A} (fn : M A) (maxRetries : nat) (delay : Z) (i : nat)
    (e : Error) (w : World) :
  retryFrom fn maxRetries delay i 0 (Some e) w = (Thrown e, w).
Proof. reflexivity. Qed.

(** C7. With at most 3 attempts: when the operation fails on the first
    and on the second attempt, the wrapper waits the base delay after the
    first failure and twice the base delay after the second one, and the
    outcome of the third attempt is the outcome of the wrapper: its result
    when it succeeds, its error when it fails.  No other delay is made. *)
Theorem retry_third_attempt_decides
    {A} (fn : M A) (delay : Z) (w0 w1 w2 w3 : World) (e1 e2 : Error) (r3 : Result A) :
  (∀ w, delays (trace (snd (fn w))) = delays (trace w)) →
  fn w0 = (Thrown e1, w1) →
  fn (snd (sleep delay w1)) = (Thrown e2, w2) →
  fn (snd (sleep (2 * delay) w2)) = (r3, w3) →
  retry fn 3 delay w0 = (r3, w3) ∧
  delays (trace w3) = delays (trace w0) ++ [delay; 2 * delay].
Proof.
  intros Hquiet H1 H2 H3. split.
  - unfold retry.
    rewrite (retryFrom_failed fn 3 delay 0 2 None w0 w1 e1 H1).
    change (0 <? 3 - 1)%nat with true. cbn iota.
    replace (delay * 2 ^ Z.of_nat 0) with delay by (cbn; lia).
    rewrite (retryFrom_failed fn 3 delay 1 1 (Some e1) _ w2 e2 H2).
    change (1 <? 3 - 1)%nat with true. cbn iota.
    replace (delay * 2 ^ Z.of_nat 1) with (2 * delay) by (cbn; lia).
    destruct r3 as [v|e3].
    + by apply retryFrom_succeeded.
    + rewrite (retryFrom_failed fn 3 delay 2 0 (Some e2) _ w3 e3 H3).
      change (2 <? 3 - 1)%nat with false. cbn iota. apply retryFrom_exhausted.
  - pose proof (Hquiet w0) as Q1. rewrite H1 in Q1. cbn [snd] in Q1.
    pose proof (Hquiet (snd (sleep delay w1))) as Q2. rewrite H2 in Q2. cbn [snd] in Q2.
    pose proof (Hquiet (snd (sleep (2 * delay) w2))) as Q3. rewrite H3 in Q3. cbn [snd] in Q3.
    rewrite Q3, delays_record_sleep, Q2, delays_record_sleep, Q1.
    by rewrite <- app_assoc.
Qed.

Lemma retry_third_attempt_decides_witness :
  let fn := call (chatCompletionsCreate [systemMessage]) in
  let w0 := startWorld (flakyOracle 2) idleState in
  fst (retry fn CONFIG.MAX_RETRIES CONFIG.RETRY_DELAY w0) = Value (Some "Claro."%string) ∧
  delays (trace (snd (retry fn CONFIG.MAX_RETRIES CONFIG.RETRY_DELAY w0))) = [5000; 10000].
Proof.
  intros fn w0.
  pose (w1 := snd (fn w0)).
  pose (w2 := snd (fn (snd (sleep 5000 w1)))).
  pose (w3 := snd (fn (snd (sleep (2 * 5000) w2)))).
  destruct (retry_third_attempt_decides fn 5000 w0 w1 w2 w3
              (newError "attempt 0") (newError "attempt 1") (Value (Some "Claro."%string)))
    as [Hrun Hdelays].
  - intros w. apply delays_call.
  - reflexivity.
  - reflexivity.
  - reflexivity.
  - change CONFIG.MAX_RETRIES with 3%nat. change CONFIG.RETRY_DELAY with 5000.
    rewrite Hrun. cbn [fst snd]. split; [reflexivity|]. exact Hdelays.
Defined.

(** ** C6: options of the text-to-speech command *)

Lemma handleTextToVoiceCommand_bad_options (env : Env) (ctx : Ctx) (w : World)
    (e : ParsingError) :
  parseT2v (msg_text ctx) = BadOptions e →
  let w' := snd (handleTextToVoiceCommand env ctx w) in
  since w w' = [replyEvent (TOptionsError e) w] ∧
  backendCalls (since w w') = 0%nat ∧
  sm w' = sm w.
Proof.
  intros Hparse. cbn zeta. unfold handleTextToVoiceCommand. rewrite Hparse.
  rewrite since_tell, tell_run. done.
Qed.

(** C6. The message [/t2v -s 0.4 -v 1.1 "Hola"] parses to the overrides
    stability 0.4 and speed 1.1 (no style) and to the body ["Hola"], the
    token as it was typed.  The message [/t2v -s abc "Hola"] is a parsing
    error: the handler sends the error notice and nothing else, so no
    backend is called, and the state is unchanged.  The message
    [/t2v "Hola" -s], a flag at the end without a value, is a parsing
    error in the same way. *)
Theorem t2v_flag_parsing (env : Env) (userId messageId : Z) (fileId : string) (w : World) :
  let good := "/t2v -s 0.4 -v 1.1 " +:+ quoted "Hola" in
  let notNumber := "/t2v -s abc " +:+ quoted "Hola" in
  let noValue := "/t2v " +:+ quoted "Hola" +:+ " -s" in
  let run text := snd (handleTextToVoiceCommand env (mkCtx userId messageId text fileId) w) in
  parseT2v good =
    Convert (quoted "Hola")
            (Options.mk (Some (Num.decimal 4 (-1))) None None (Some (Num.decimal 11 (-1))) None) ∧
  parseT2v notNumber = BadOptions (ExpectedNumber "s" "abc") ∧
  since w (run notNumber) = [replyEvent (TOptionsError (ExpectedNumber "s" "abc")) w] ∧
  backendCalls (since w (run notNumber)) = 0%nat ∧
  sm (run notNumber) = sm w ∧
  parseT2v noValue = BadOptions (MissingValue "s") ∧
  since w (run noValue) = [replyEvent (TOptionsError (MissingValue "s")) w] ∧
  backendCalls (since w (run noValue)) = 0%nat ∧
  sm (run noValue) = sm w.
Proof.
  cbn zeta.
  assert (Hbad : parseT2v ("/t2v -s abc " +:+ quoted "Hola")
                 = BadOptions (ExpectedNumber "s" "abc")) by (vm_compute; reflexivity).
  assert (Hend : parseT2v ("/t2v " +:+ quoted "Hola" +:+ " -s")
                 = BadOptions (MissingValue "s")) by (vm_compute; reflexivity).
  split; [vm_compute; reflexivity|].
  split; [exact Hbad|].
  pose proof (handleTextToVoiceCommand_bad_options env
                (mkCtx userId messageId ("/t2v -s abc " +:+ quoted "Hola") fileId) w _ Hbad)
    as (H1 & H2 & H3).
  pose proof (handleTextToVoiceCommand_bad_options env
                (mkCtx userId messageId ("/t2v " +:+ quoted "Hola" +:+ " -s") fileId) w _ Hend)
    as (H4 & H5 & H6).
  done.
Qed.

(** ** The conversation store is only written with the OpenAI client *)

Section StoreOnly.
Context (S : StateManager -> Prop) (HS : onlyConversations S).

Lemma keeps_lock_or_intent (f : StateManager -> StateManager) :
  (∀ s, conversations (f s) = conversations s) → keeps S (modify f).
Proof. intros Hf. apply keeps_modify. intros s Hs. by apply (HS s). Qed.

Lemma keeps_setPendingOperation (U : Z) (k : Operation) :
  keeps S (modify (setPendingOperation U k)).
Proof. by apply keeps_lock_or_intent. Qed.

Lemma keeps_clearPendingOperation (U : Z) : keeps S (modify (clearPendingOperation U)).
Proof. apply keeps_lock_or_intent. intros s. apply clearPendingOperation_others. Qed.

Lemma keeps_clearPendingVoiceTransformation (U : Z) :
  keeps S (modify (clearPendingVoiceTransformation U)).
Proof. apply keeps_lock_or_intent. intros s. apply clearPendingVoiceTransformation_others. Qed.

Lemma keeps_updateSession (U : Z) : keeps S (updateSession U).
Proof.
  unfold updateSession. apply keeps_bind; [apply keeps_getState|]. intros s.
  apply keeps_bind.
  - destruct (negb _); [|apply keeps_ret].
    apply keeps_bind; [apply keeps_query|]. intros now. by apply keeps_lock_or_intent.
  - intros _. apply keeps_bind; [apply keeps_query|]. intros now.
    by apply keeps_lock_or_intent.
Qed.

Lemma keeps_handleTextToVoiceCommand (env : Env) (ctx : Ctx) :
  keeps S (handleTextToVoiceCommand env ctx).
Proof.
  unfold handleTextToVoiceCommand.
  destruct (parseT2v (msg_text ctx)); [apply keeps_tell..|].
  apply keeps_bind; [apply keeps_getState|]. intros s.
  destruct (hasPendingOperation _ s); [apply keeps_tell|].
  apply keeps_bind; [apply keeps_setPendingOperation|]. intros _.
  apply keeps_bind; [apply keeps_assign|]. intros _.
  apply keeps_tryCatchFinally.
  - apply opens_keeps, opens_t2vTry.
  - intros e. apply keeps_report.
  - apply keeps_bind; [apply keeps_t2vCleanup|]. intros _. apply keeps_clearPendingOperation.
Qed.

Lemma keeps_processVoiceTransformation (env : Env) (ctx : Ctx) (label : TypeLabel) :
  keeps S (processVoiceTransformation env ctx label).
Proof.
  unfold processVoiceTransformation.
  apply keeps_bind; [apply keeps_clearPendingVoiceTransformation|]. intros _.
  apply keeps_bind; [apply keeps_getState|]. intros s.
  destruct (hasPendingOperation _ s); [apply keeps_tell|].
  apply keeps_bind; [apply keeps_setPendingOperation|]. intros _.
  apply keeps_bind; [apply keeps_assign|]. intros _.
  apply keeps_tryCatchFinally.
  - apply opens_keeps, opens_v2vTry.
  - intros e. apply keeps_report.
  - apply keeps_bind; [apply keeps_v2vCleanup|]. intros _. apply keeps_clearPendingOperation.
Qed.

Lemma keeps_onSound (env : Env) (label : TypeLabel) (ctx : Ctx) :
  keeps S (onSound env label ctx).
Proof.
  destruct label; cbn [onSound]; unfold handleVoiceMessage, handleAudioMessage;
    (apply keeps_bind; [apply keeps_getState|]; intros s;
     destruct (pendingV2V _ s); [apply keeps_processVoiceTransformation|apply keeps_tell]).
Qed.

Lemma keeps_handleVoiceToVoiceCommand (ctx : Ctx) : keeps S (handleVoiceToVoiceCommand ctx).
Proof.
  unfold handleVoiceToVoiceCommand.
  apply keeps_bind; [apply keeps_getState|]. intros s.
  destruct (hasPendingOperation _ s); [apply keeps_tell|].
  destruct (pendingV2V _ s); [apply keeps_tell|].
  apply keeps_tryCatch.
  - apply keeps_bind; [by apply keeps_lock_or_intent|]. intros _.
    apply keeps_bind; [apply keeps_call|intros; apply keeps_ret].
  - intros e. apply keeps_bind; [apply keeps_clearPendingVoiceTransformation|].
    intros _. apply keeps_tell.
Qed.

Lemma keeps_handleHelp : keeps S handleHelp.
Proof.
  unfold handleHelp. apply keeps_tryCatch.
  - apply keeps_bind; [apply keeps_call|intros; apply keeps_ret].
  - intros _. apply keeps_tryCatch; [|intros; apply keeps_tell].
    apply keeps_bind; [apply keeps_call|intros; apply keeps_ret].
Qed.

(** With the client, the text generation pipeline needs [S] to accept any
    conversation store; without it, the pipeline is not entered. *)
Lemma keeps_processGPTMessage (env : Env) (ctx : Ctx) (userMessage : string) :
  (openai env = true → ∀ s, S s) →
  keeps S (processGPTMessage env ctx userMessage).
Proof.
  intros Hall. unfold processGPTMessage.
  destruct (openai env) eqn:Hgpt; cbn [negb]; [|apply keeps_tell].
  specialize (Hall eq_refl).
  apply keeps_bind; [apply keeps_getState|]. intros s.
  destruct (hasPendingOperation _ s); [apply keeps_tell|].
  apply keeps_bind; [apply keeps_setPendingOperation|]. intros _.
  apply keeps_bind; [apply keeps_assign|]. intros _.
  apply keeps_tryCatchFinally.
  - apply opens_keeps, opens_gptTry. intros s0 c _. apply Hall.
  - intros e. apply keeps_report.
  - apply keeps_clearPendingOperation.
Qed.

End StoreOnly.

Lemma storeGate_onlyConversations (env : Env) : onlyConversations (storeGate env).
Proof. intros s s' Hc Hs Hgpt. rewrite Hc. by apply Hs. Qed.

Lemma keeps_storeGate_processUpdate (env : Env) (k : UpdateKind) (ctx : Ctx) :
  keeps (storeGate env) (processUpdate env k ctx).
Proof.
  pose proof (storeGate_onlyConversations env) as HS.
  assert (Hall : openai env = true → ∀ s, storeGate env s).
  { intros Hgpt s Hoff. congruence. }
  unfold processUpdate. apply keeps_tryCatch.
  - destruct (negb (truthy (from_id ctx))); [apply keeps_ret|].
    apply keeps_bind; [apply keeps_getState|]. intros s.
    destruct (negb (isAuthorized _ s)); [apply keeps_tell|].
    apply keeps_bind; [by apply keeps_updateSession|]. intros _.
    destruct k; cbn [dispatch]; [| | | | | | |apply keeps_ret].
    + by apply keeps_handleHelp.
    + unfold handleTextCommand. destruct (negb (openai env)); [apply keeps_tell|].
      destruct (matchSlashT _); [|apply keeps_tell].
      destruct (Str.isEmpty _); [apply keeps_tell|]. by apply keeps_processGPTMessage.
    + by apply keeps_handleTextToVoiceCommand.
    + by apply keeps_handleVoiceToVoiceCommand.
    + unfold handleResetConversation.
      destruct (openai env) eqn:Hgpt; cbn [negb]; [|apply keeps_tell].
      apply keeps_bind; [|intros; apply keeps_tell].
      apply keeps_modify. intros s0 _. by apply Hall.
    + unfold handleMessage.
      match goal with |- keeps _ (if ?b then _ else _) => destruct b end; [apply keeps_ret|].
      apply keeps_bind; [apply keeps_getState|]. intros s0.
      destruct (pendingV2V _ s0).
      * apply keeps_bind; [apply keeps_tell|]. intros _.
        by apply keeps_clearPendingVoiceTransformation.
      * destruct (negb (openai env)); [apply keeps_tell|]. by apply keeps_processGPTMessage.
    + by apply keeps_onSound.
  - intros e. apply keeps_bind; [apply keeps_tell|]. intros _.
    destruct (truthy _); [|apply keeps_ret].
    apply keeps_bind; [by apply keeps_clearPendingOperation|]. intros _.
    by apply keeps_clearPendingVoiceTransformation.
Qed.

(** In every state the bot reaches from its initial state, the store is
    empty when the client is missing. *)
Lemma storeGate_reachable (env : Env) (us : list (UpdateKind * Ctx)) (w : World) :
  storeGate env (sm w) → storeGate env (sm (runUpdates env us w)).
Proof.
  revert w. induction us as [|[k ctx] us IH]; intros w Hw; [done|].
  cbn [runUpdates foldl]. apply IH.
  by apply (keeps_storeGate_processUpdate env k ctx w).
Qed.

Lemma storeGate_initial (env : Env) (a b : option string) :
  storeGate env (initializeState a b).
Proof. by intros _. Qed.

(** ** C9: reset *)

Lemma setConversations_same (s : StateManager) : setConversations (conversations s) s = s.
Proof. by destruct s. Qed.

Lemma handleResetConversation_state (env : Env) (ctx : Ctx) (w : World) :
  sm (snd (handleResetConversation env ctx w)) =
  if openai env
  then setConversations (delete (from_id ctx) (conversations (sm w))) (sm w)
  else sm w.
Proof.
  unfold handleResetConversation. destruct (openai env); cbn [negb].
  - rewrite bind_modify. by rewrite tell_run.
  - by rewrite tell_run.
Qed.

(** C9. Reset is idempotent: a second reset leaves the state manager as
    the first one left it; a reset for a user without history changes
    nothing; after a reset the history of the user is absent, and the next
    [getConversation] stores and returns a history that holds the system
    entry alone.  (In a state the bot can reach, the store is empty when
    the OpenAI client is missing; this is the hypothesis.) *)
Theorem reset_idempotent (env : Env) (ctx : Ctx) (w : World) :
  let U := from_id ctx in
  let once := snd (handleResetConversation env ctx w) in
  let twice := snd (handleResetConversation env ctx once) in
  storeGate env (sm w) →
  sm twice = sm once ∧
  (historyOf U (sm w) = None → sm once = sm w) ∧
  historyOf U (sm once) = None ∧
  fst (getConversation U (sm once)) = [systemMessage] ∧
  historyOf U (snd (getConversation U (sm once))) = Some [systemMessage].
Proof.
  cbn zeta. intros Hgate.
  rewrite !handleResetConversation_state.
  assert (Habsent : historyOf (from_id ctx)
            (if openai env
             then setConversations (delete (from_id ctx) (conversations (sm w))) (sm w)
             else sm w) = None).
  { unfold historyOf. destruct (openai env) eqn:Hgpt.
    - cbn [setConversations conversations]. apply lookup_delete_eq.
    - rewrite (Hgate Hgpt). apply lookup_empty. }
  split; [|split; [|split; [exact Habsent|]]].
  - destruct (openai env); [|done].
    cbn [setConversations conversations authorizedUsers adminUsers pendingOperations
         pendingVoiceTransformations userSessions].
    by rewrite delete_delete_eq.
  - intros Hnone. destruct (openai env); [|done].
    unfold historyOf in Hnone. rewrite (delete_id _ _ Hnone). apply setConversations_same.
  - unfold getConversation. unfold historyOf in Habsent. rewrite Habsent. cbn [fst snd].
    split; [done|]. unfold historyOf. cbn [setConversations conversations].
    apply lookup_insert_eq.
Qed.

Lemma reset_idempotent_witness :
  let ctx := mkCtx 7 50 "/reset" EmptyString in
  let w := startWorld obligingOracle
             (addMessageToConversation true 7 Role.user "hola" idleState) in
  let once := snd (handleResetConversation sampleEnv ctx w) in
  historyOf 7 (sm w) = Some [systemMessage; mkMessage Role.user "hola"] ∧
  sm (snd (handleResetConversation sampleEnv ctx once)) = sm once ∧
  historyOf 7 (sm once) = None ∧
  fst (getConversation 7 (sm once)) = [systemMessage].
Proof.
  intros ctx w once.
  assert (Hgate : storeGate sampleEnv (sm w)) by (intros H; discriminate H).
  destruct (reset_idempotent sampleEnv ctx w Hgate) as (Htwice & _ & Habsent & Hfresh & _).
  split; [vm_compute; reflexivity|]. split; [exact Htwice|]. split; [exact Habsent|exact Hfresh].
Defined.

(** ** Between two updates every lock is free *)

Lemma tell_returns (text : Text) (w : World) :
  fst (tell text w) = Value tt ∧
  pendingOperations (sm (snd (tell text w))) = pendingOperations (sm w).
Proof. by rewrite tell_run. Qed.

Lemma pairedLock_returns (U : Z) (kind : Operation) (m : M unit) (w : World) :
  pairedLock U kind m →
  fst (m w) = Value tt ∧ pendingOperations (sm (snd (m w))) = pendingOperations (sm w).
Proof. intros H. destruct (H w) as (H1 & H2 & _). done. Qed.

Lemma dispatch_returns (env : Env) (k : UpdateKind) (ctx : Ctx) (w : World) :
  fst (dispatch env k ctx w) = Value tt ∧
  pendingOperations (sm (snd (dispatch env k ctx w))) = pendingOperations (sm w).
Proof.
  destruct k; cbn [dispatch].
  - unfold handleHelp, tryCatch, bind, call.
    destruct (answer _ _ _ _); cbn [ret fst snd]; [done|].
    destruct (answer _ _ _ _); cbn [ret fst snd]; [done|]. by rewrite tell_run.
  - unfold handleTextCommand. destruct (negb (openai env)); [apply tell_returns|].
    destruct (matchSlashT _); [|apply tell_returns].
    destruct (Str.isEmpty _); [apply tell_returns|].
    eapply pairedLock_returns, pairedLock_processGPTMessage.
  - eapply pairedLock_returns, pairedLock_handleTextToVoiceCommand.
  - split; [|apply handleVoiceToVoiceCommand_lock_table].
    unfold handleVoiceToVoiceCommand. rewrite bind_getState.
    destruct (hasPendingOperation _ _); [apply tell_returns|].
    destruct (pendingV2V _ _); [apply tell_returns|].
    unfold tryCatch. rewrite bind_modify. unfold bind, call.
    destruct (answer _ _ _ _); cbn [ret fst snd]; [done|].
    cbn [modify]. apply tell_returns.
  - unfold handleResetConversation. destruct (negb (openai env)); [apply tell_returns|].
    rewrite bind_modify. rewrite tell_run. done.
  - unfold handleMessage.
    match goal with |- context [if ?b then ret tt else _] => destruct b end; [done|].
    rewrite bind_getState. destruct (pendingV2V _ _).
    + unfold bind. rewrite tell_run. cbn [modify fst snd withState sm tick record].
      split; [done|]. apply clearPendingVoiceTransformation_others.
    + destruct (negb (openai env)); [apply tell_returns|].
      eapply pairedLock_returns, pairedLock_processGPTMessage.
  - destruct (lock_cases (from_id ctx) (sm w)) as [_|_];
      destruct (pendingV2V (from_id ctx) (sm w)) eqn:Harmed.
    + rewrite (onSound_armed env l ctx w Harmed).
      eapply pairedLock_returns, pairedLock_processVoiceTransformation.
    + rewrite (onSound_idle env l ctx w Harmed). apply tell_returns.
    + rewrite (onSound_armed env l ctx w Harmed).
      eapply pairedLock_returns, pairedLock_processVoiceTransformation.
    + rewrite (onSound_idle env l ctx w Harmed). apply tell_returns.
  - done.
Qed.

Lemma processUpdate_lock_table (env : Env) (k : UpdateKind) (ctx : Ctx) (w : World) :
  pendingOperations (sm (snd (processUpdate env k ctx w))) = pendingOperations (sm w).
Proof.
  unfold processUpdate, tryCatch.
  destruct (negb (truthy (from_id ctx))); [done|].
  rewrite bind_getState. destruct (negb (isAuthorized _ _)).
  - by rewrite tell_run.
  - destruct (updateSession_run (from_id ctx) w) as (w1 & Hrun & (_ & _ & Hops & _) & _).
    rewrite (bind_value _ _ _ _ _ Hrun), <- Hops.
    destruct (dispatch_returns env k ctx w1) as [Hret Htable].
    destruct (dispatch env k ctx w1) as [r w']. cbn [fst snd] in *. by subst r.
Qed.

(** Processing updates one after the other from the initial state leaves
    no lock held between two updates. *)
Lemma sequential_lock_free (env : Env) (us : list (UpdateKind * Ctx)) (o : Oracle)
    (a b : option string) (U : Z) :
  lockOf U (sm (runUpdates env us (startWorld o (initializeState a b)))) = None.
Proof.
  assert (H : ∀ w, pendingOperations (sm (runUpdates env us w)) = pendingOperations (sm w)).
  { induction us as [|[k ctx] us IH]; intros w; [done|].
    cbn [runUpdates foldl]. fold (runUpdates env us (snd (processUpdate env k ctx w))).
    by rewrite IH, processUpdate_lock_table. }
  unfold lockOf. rewrite H. apply lookup_empty.
Qed.

(** ** The parser hands only numbers to the pipeline *)

Lemma numericOptions_setOverride (f : Flag.t) (value : Num) (o : Options.t) :
  Num.isNaN value = false → numericOptions o → numericOptions (setOverride f value o).
Proof.
  intros Hv Ho g x H.
  destruct f, g; cbn in H;
    first [ by injection H as <-
          | exact (Ho Flag.stability x H)
          | exact (Ho Flag.style x H)
          | exact (Ho Flag.speed x H) ].
Qed.

Lemma numericOptions_parseParts (parts : list string) (v : ParseVars) :
  numericOptions (overrideOptions v) → numericOptions (overrideOptions (parseParts parts v)).
Proof.
  revert v. induction parts as [|part rest IH]; intros v Hv; [done|].
  cbn [parseParts].
  destruct (String.eqb part "-s"); [by apply IH|].
  destruct (String.eqb part "-x"); [by apply IH|].
  destruct (String.eqb part "-v"); [by apply IH|].
  destruct (currentFlag v) as [flag|]; [|by apply IH].
  destruct (Num.isNaN (Num.parseFloat part)) eqn:Hnan; cbn [negb]; [done|].
  apply IH. cbn [overrideOptions]. by apply numericOptions_setOverride.
Qed.

Lemma parseT2v_numeric (messageText textToConvert : string) (overrides : Options.t) :
  parseT2v messageText = Convert textToConvert overrides → numericOptions overrides.
Proof.
  unfold parseT2v.
  set (v := parseParts _ _).
  assert (Hv : numericOptions (overrideOptions v)).
  { apply numericOptions_parseParts. intros f x. by destruct f. }
  destruct (currentFlag v), (parsingError v); try discriminate.
  destruct (Str.isEmpty _); [discriminate|]. by intros [= _ <-].
Qed.

(** ** Examples *)

Example splitSpaces_example :
  Str.splitSpaces "/t2v -s 0.4   hola " = ["/t2v"; "-s"; "0.4"; "hola"; EmptyString]%string.
Proof. reflexivity. Qed.

Example parseIds_example :
  parseIds (Some " 12, abc,0x1F,,-5 ,3.7,12abc"%string) = [12; 31; -5; 3; 12].
Proof. reflexivity. Qed.

Example parseFloat_examples :
  Num.parseFloat "1.5e2x" = Num.decimal 150 0 ∧
  Num.parseFloat "-.5" = Num.decimal (-5) (-1) ∧
  Num.parseFloat "." = NaN ∧
  Num.parseFloat "abc" = NaN ∧
  Num.parseFloat "Infinity" = PosInf.
Proof. vm_compute. done. Qed.

Example parseT2v_reports_s_for_every_flag :
  parseT2v "/t2v -x muy hola" = BadOptions (ExpectedNumber "s" "muy").
Proof. vm_compute. reflexivity. Qed.

Example matchSlashT_examples :
  matchSlashT "/t  hola " = Some "hola "%string ∧
  matchSlashT "/t" = None ∧
  matchSlashT "/thola" = None.
Proof. vm_compute. done. Qed.

(* ===================================================================== *)
(** * Further properties of the program                                   *)
(* ===================================================================== *)

(** ** [Utils.retry] in general *)

Lemma call_rejected {T} (c : Call T) (w : World) (e : Error) :
  answer (oracle w) T c (steps w) = Rejected e →
  call c w = (Thrown e, tick (record (Called c (Rejected e)) w)).
Proof. intros H. unfold call. by rewrite H. Qed.

Lemma call_resolved {T} (c : Call T) (w : World) (v : T) :
  answer (oracle w) T c (steps w) = Resolved v →
  call c w = (Value v, tick (record (Called c (Resolved v)) w)).
Proof. intros H. unfold call. by rewrite H. Qed.

Lemma retryFrom_success_after {T} (c : Call T) (maxRetries : nat) (delay : Z) (e : nat -> Error)
    (v : T) (k : nat) :
  ∀ (i left : nat) (lastError : option Error) (w : World),
    (k < left)%nat → (i + left = maxRetries)%nat →
    (∀ j, (j < k)%nat → answer (oracle w) T c (steps w + j) = Rejected (e j)) →
    answer (oracle w) T c (steps w + k) = Resolved v →
    fst (retryFrom (call c) maxRetries delay i left lastError w) = Value v ∧
    retryFootprint w (snd (retryFrom (call c) maxRetries delay i left lastError w))
                   (backoff delay i k) (S k).
Proof.
  revert e. induction k as [|k IH]; intros e i left lastError w Hk Hn Hfail Hok.
  - destruct left as [|left]; [lia|]. rewrite Nat.add_0_r in Hok.
    rewrite (retryFrom_succeeded _ _ _ _ _ _ _ _ v (call_resolved c w v Hok)).
    cbn [fst snd]. split; [done|]. unfold retryFootprint, backoff, delays.
    cbn [tick record trace steps sm oracle seq map]. rewrite omap_app. cbn.
    split; [done|]. split; [lia|done].
  - destruct left as [|left]; [lia|].
    assert (H0 : answer (oracle w) T c (steps w) = Rejected (e 0%nat)).
    { rewrite <- (Nat.add_0_r (steps w)). apply Hfail. lia. }
    rewrite (retryFrom_failed _ _ _ _ _ _ _ _ _ (call_rejected c w _ H0)).
    assert (Hi : (i <? maxRetries - 1)%nat = true) by (apply Nat.ltb_lt; lia).
    rewrite Hi.
    set (w1 := snd (sleep _ _)).
    destruct (IH (fun j => e (S j)) (S i) left (Some (e 0%nat)) w1) as [Hret Hfoot].
    + lia.
    + lia.
    + intros j Hj. cbn [w1 sleep snd record tick oracle steps].
      replace (S (steps w) + j)%nat with (steps w + S j)%nat by lia. apply Hfail. lia.
    + cbn [w1 sleep snd record tick oracle steps].
      replace (S (steps w) + k)%nat with (steps w + S k)%nat by lia. exact Hok.
    + split; [exact Hret|].
      destruct Hfoot as (Hd & Hs & Hsm & Ho). unfold retryFootprint.
      rewrite Hd, Hs, Hsm, Ho. unfold w1, sleep, backoff, delays.
      cbn [snd record tick trace steps sm oracle seq map].
      rewrite !omap_app. cbn [omap action]. rewrite <- !app_assoc. cbn [app].
      split; [done|]. split; [lia|done].
Qed.

Lemma retryFrom_exhaustion {T} (c : Call T) (maxRetries : nat) (delay : Z) (left : nat) :
  ∀ (e : nat -> Error) (i : nat) (lastError : option Error) (w : World),
    (i + S left = maxRetries)%nat →
    (∀ j, (j ≤ left)%nat → answer (oracle w) T c (steps w + j) = Rejected (e j)) →
    fst (retryFrom (call c) maxRetries delay i (S left) lastError w) = Thrown (e left) ∧
    retryFootprint w (snd (retryFrom (call c) maxRetries delay i (S left) lastError w))
                   (backoff delay i left) (S left).
Proof.
  induction left as [|left IH]; intros e i lastError w Hn Hfail.
  - assert (H0 : answer (oracle w) T c (steps w) = Rejected (e 0%nat)).
    { rewrite <- (Nat.add_0_r (steps w)). apply Hfail. lia. }
    rewrite (retryFrom_failed _ _ _ _ _ _ _ _ _ (call_rejected c w _ H0)).
    assert (Hi : (i <? maxRetries - 1)%nat = false) by (apply Nat.ltb_ge; lia).
    rewrite Hi, retryFrom_exhausted. cbn [fst snd]. split; [done|].
    unfold retryFootprint, backoff, delays.
    cbn [tick record trace steps sm oracle seq map]. rewrite omap_app. cbn.
    split; [done|]. split; [lia|done].
  - assert (H0 : answer (oracle w) T c (steps w) = Rejected (e 0%nat)).
    { rewrite <- (Nat.add_0_r (steps w)). apply Hfail. lia. }
    rewrite (retryFrom_failed _ _ _ _ _ _ _ _ _ (call_rejected c w _ H0)).
    assert (Hi : (i <? maxRetries - 1)%nat = true) by (apply Nat.ltb_lt; lia).
    rewrite Hi.
    set (w1 := snd (sleep _ _)).
    destruct (IH (fun j => e (S j)) (S i) (Some (e 0%nat)) w1) as [Hret Hfoot].
    + lia.
    + intros j Hj. cbn [w1 sleep snd record tick oracle steps].
      replace (S (steps w) + j)%nat with (steps w + S j)%nat by lia. apply Hfail. lia.
    + split; [exact Hret|].
      destruct Hfoot as (Hd & Hs & Hsm & Ho). unfold retryFootprint.
      rewrite Hd, Hs, Hsm, Ho. unfold w1, sleep, backoff, delays.
      cbn [snd record tick trace steps sm oracle seq map].
      rewrite !omap_app. cbn [omap action]. rewrite <- !app_assoc. cbn [app].
      split; [done|]. split; [lia|done].
Qed.

(** X1. A backend call wrapped in [Utils.retry] that fails on its first [k]
    attempts and succeeds on the next one, with [k] below the maximum,
    returns that result after exactly [k + 1] requests; the delays made are
    the base delay, twice it, four times it, ..., one per failed attempt,
    and nothing else changes. *)
Theorem retry_returns_first_success {T} (c : Call T) (maxRetries k : nat) (delay : Z)
    (e : nat -> Error) (v : T) (w : World) :
  (k < maxRetries)%nat →
  (∀ j, (j < k)%nat → answer (oracle w) T c (steps w + j) = Rejected (e j)) →
  answer (oracle w) T c (steps w + k) = Resolved v →
  fst (retry (call c) maxRetries delay w) = Value v ∧
  retryFootprint w (snd (retry (call c) maxRetries delay w)) (backoff delay 0 k) (S k).
Proof.
  intros Hk Hfail Hok. unfold retry.
  by apply (retryFrom_success_after c maxRetries delay e v k).
Qed.

Lemma retry_returns_first_success_witness :
  let c := postSpeechToSpeech (sts_output 1) in
  let w := startWorld (flakyOracle 1) idleState in
  fst (retry (call c) 3 5000 w) = Value (sampleValue c) ∧
  retryFootprint w (snd (retry (call c) 3 5000 w)) (backoff 5000 0 1) 2.
Proof.
  intros c w.
  apply (retry_returns_first_success c 3 1 5000 (fun j => newError ("attempt " +:+ pretty (Z.of_nat j)))).
  - lia.
  - intros j Hj. assert (j = 0%nat) as -> by lia. reflexivity.
  - reflexivity.
Defined.

(** X2. When every one of the [maxRetries] attempts fails, the wrapper
    throws the error of the last attempt, after exactly [maxRetries]
    requests and [maxRetries - 1] delays: there is no delay after the last
    failure. *)
Theorem retry_exhausted_throws_last {T} (c : Call T) (maxRetries : nat) (delay : Z)
    (e : nat -> Error) (w : World) :
  (0 < maxRetries)%nat →
  (∀ j, (j < maxRetries)%nat → answer (oracle w) T c (steps w + j) = Rejected (e j)) →
  fst (retry (call c) maxRetries delay w) = Thrown (e (maxRetries - 1)%nat) ∧
  retryFootprint w (snd (retry (call c) maxRetries delay w))
                 (backoff delay 0 (maxRetries - 1)) maxRetries.
Proof.
  intros Hpos Hfail. unfold retry. destruct maxRetries as [|n]; [lia|].
  replace (S n - 1)%nat with n by lia.
  apply (retryFrom_exhaustion c (S n) delay n e 0 None w); [lia|].
  intros j Hj. apply Hfail. lia.
Qed.

Lemma retry_exhausted_throws_last_witness :
  let c := chatCompletionsCreate [systemMessage] in
  let w := startWorld (flakyOracle 3) idleState in
  fst (retry (call c) CONFIG.MAX_RETRIES CONFIG.RETRY_DELAY w) = Thrown (newError "attempt 2") ∧
  delays (trace (snd (retry (call c) CONFIG.MAX_RETRIES CONFIG.RETRY_DELAY w))) = [5000; 10000].
Proof.
  intros c w.
  destruct (retry_exhausted_throws_last c CONFIG.MAX_RETRIES CONFIG.RETRY_DELAY
              (fun j => newError ("attempt " +:+ pretty (Z.of_nat j))) w) as (Hret & Hd & _).
  - unfold CONFIG.MAX_RETRIES. lia.
  - intros j Hj. unfold CONFIG.MAX_RETRIES in Hj.
    assert (j = 0 ∨ j = 1 ∨ j = 2)%nat as [->|[->| ->]] by lia; reflexivity.
  - split; [exact Hret|]. rewrite Hd. reflexivity.
Defined.

(** ** Invariants of every run of the bot *)

Section Stable.
Context (S : StateManager -> Prop) (U : Z) (HS : stableFor U S).

Lemma keeps_gptTry_stable (env : Env) (userMessage : string) :
  keeps S (gptTry env U userMessage).
Proof.
  destruct HS as (Hadd & Hget & _).
  apply keeps_bind; [apply keeps_caught|]. intros lm.
  apply keeps_bind; [apply keeps_assign|]. intros _.
  apply keeps_bind; [apply keeps_whenLoading|]. intros _.
  apply keeps_bind; [apply keeps_modify, Hadd|]. intros _.
  apply keeps_bind; [apply keeps_stateful, Hget|]. intros conversation.
  apply keeps_bind; [apply keeps_generateGPTResponse|]. intros gptResponse.
  apply keeps_bind; [apply keeps_modify, Hadd|]. intros _.
  destruct lm as [m|]; [|apply keeps_tell].
  apply keeps_tryCatch; [apply keeps_call|]. intros _.
  apply keeps_bind; [apply keeps_tell|]. intros _.
  apply keeps_bind; [apply keeps_caught|intros; apply keeps_ret].
Qed.

Lemma keeps_processGPTMessage_stable (env : Env) (ctx : Ctx) (userMessage : string) :
  from_id ctx = U → keeps S (processGPTMessage env ctx userMessage).
Proof.
  intros HU. unfold processGPTMessage. rewrite HU.
  destruct HS as (_ & _ & _ & Hset & Hclear & _).
  destruct (negb (openai env)); [apply keeps_tell|].
  apply keeps_bind; [apply keeps_getState|]. intros s.
  destruct (hasPendingOperation _ s); [apply keeps_tell|].
  apply keeps_bind; [apply keeps_modify, Hset|]. intros _.
  apply keeps_bind; [apply keeps_assign|]. intros _.
  apply keeps_tryCatchFinally.
  - apply keeps_gptTry_stable.
  - intros e. apply keeps_report.
  - apply keeps_modify, Hclear.
Qed.

Lemma keeps_processVoiceTransformation_stable (env : Env) (ctx : Ctx) (label : TypeLabel) :
  from_id ctx = U → keeps S (processVoiceTransformation env ctx label).
Proof.
  intros HU. unfold processVoiceTransformation. rewrite HU.
  destruct HS as (_ & _ & _ & Hset & Hclear & _ & Hdisarm & _).
  apply keeps_bind; [apply keeps_modify, Hdisarm|]. intros _.
  apply keeps_bind; [apply keeps_getState|]. intros s.
  destruct (hasPendingOperation _ s); [apply keeps_tell|].
  apply keeps_bind; [apply keeps_modify, Hset|]. intros _.
  apply keeps_bind; [apply keeps_assign|]. intros _.
  apply keeps_tryCatchFinally.
  - apply opens_keeps, opens_v2vTry.
  - intros e. apply keeps_report.
  - apply keeps_bind; [apply keeps_v2vCleanup|]. intros _. apply keeps_modify, Hclear.
Qed.

Lemma keeps_dispatch_stable (env : Env) (k : UpdateKind) (ctx : Ctx) :
  from_id ctx = U → keeps S (dispatch env k ctx).
Proof.
  intros HU.
  pose proof HS as (Hadd & Hget & Hdel & Hset & Hclear & Harm & Hdisarm & _).
  destruct k; cbn [dispatch].
  - unfold handleHelp. apply keeps_tryCatch.
    + apply keeps_bind; [apply keeps_call|intros; apply keeps_ret].
    + intros _. apply keeps_tryCatch; [|intros; apply keeps_tell].
      apply keeps_bind; [apply keeps_call|intros; apply keeps_ret].
  - unfold handleTextCommand. destruct (negb (openai env)); [apply keeps_tell|].
    destruct (matchSlashT _); [|apply keeps_tell].
    destruct (Str.isEmpty _); [apply keeps_tell|]. by apply keeps_processGPTMessage_stable.
  - unfold handleTextToVoiceCommand. rewrite HU.
    destruct (parseT2v (msg_text ctx)); [apply keeps_tell..|].
    apply keeps_bind; [apply keeps_getState|]. intros s.
    destruct (hasPendingOperation _ s); [apply keeps_tell|].
    apply keeps_bind; [apply keeps_modify, Hset|]. intros _.
    apply keeps_bind; [apply keeps_assign|]. intros _.
    apply keeps_tryCatchFinally.
    + apply opens_keeps, opens_t2vTry.
    + intros e. apply keeps_report.
    + apply keeps_bind; [apply keeps_t2vCleanup|]. intros _. apply keeps_modify, Hclear.
  - unfold handleVoiceToVoiceCommand. rewrite HU.
    apply keeps_bind; [apply keeps_getState|]. intros s.
    destruct (hasPendingOperation _ s); [apply keeps_tell|].
    destruct (pendingV2V _ s); [apply keeps_tell|].
    apply keeps_tryCatch.
    + apply keeps_bind; [apply keeps_modify, Harm|]. intros _.
      apply keeps_bind; [apply keeps_call|intros; apply keeps_ret].
    + intros e. apply keeps_bind; [apply keeps_modify, Hdisarm|].
      intros _. apply keeps_tell.
  - unfold handleResetConversation. rewrite HU.
    destruct (negb (openai env)); [apply keeps_tell|].
    apply keeps_bind; [apply keeps_modify, Hdel|intros; apply keeps_tell].
  - unfold handleMessage. rewrite HU.
    match goal with |- keeps _ (if ?b then _ else _) => destruct b end; [apply keeps_ret|].
    apply keeps_bind; [apply keeps_getState|]. intros s0.
    destruct (pendingV2V _ s0).
    + apply keeps_bind; [apply keeps_tell|]. intros _. apply keeps_modify, Hdisarm.
    + destruct (negb (openai env)); [apply keeps_tell|].
      by apply keeps_processGPTMessage_stable.
  - destruct l; cbn [onSound]; unfold handleVoiceMessage, handleAudioMessage;
      (apply keeps_bind; [apply keeps_getState|]; intros s;
       destruct (pendingV2V _ s);
       [by apply keeps_processVoiceTransformation_stable|apply keeps_tell]).
  - apply keeps_ret.
Qed.

Lemma keeps_updateSession_stable : keeps S (updateSession U).
Proof.
  pose proof HS as (_ & _ & _ & _ & _ & _ & _ & Hcreate & Hstamp).
  unfold updateSession. apply keeps_bind; [apply keeps_getState|]. intros s.
  apply keeps_bind.
  - destruct (negb _); [|apply keeps_ret].
    apply keeps_bind; [apply keeps_query|]. intros now. apply keeps_modify, Hcreate.
  - intros _. apply keeps_bind; [apply keeps_query|]. intros now.
    apply keeps_modify, Hstamp.
Qed.

(** The part of the middleware that an authorized user reaches. *)
Lemma keeps_handled_stable (env : Env) (k : UpdateKind) (ctx : Ctx) :
  from_id ctx = U → keeps S (do! updateSession (from_id ctx) in dispatch env k ctx).
Proof.
  intros HU. apply keeps_bind; [rewrite HU; apply keeps_updateSession_stable|].
  intros _. by apply keeps_dispatch_stable.
Qed.

Lemma keeps_processUpdate_stable (env : Env) (k : UpdateKind) (ctx : Ctx) :
  from_id ctx = U → keeps S (processUpdate env k ctx).
Proof.
  intros HU. pose proof HS as (_ & _ & _ & _ & Hclear & _ & Hdisarm & _).
  unfold processUpdate. apply keeps_tryCatch.
  - destruct (negb (truthy (from_id ctx))); [apply keeps_ret|].
    apply keeps_bind; [apply keeps_getState|]. intros s.
    destruct (negb (isAuthorized _ s)); [apply keeps_tell|].
    by apply keeps_handled_stable.
  - intros e. rewrite HU. apply keeps_bind; [apply keeps_tell|]. intros _.
    destruct (truthy U); [|apply keeps_ret].
    apply keeps_bind; [apply keeps_modify, Hclear|]. intros _.
    apply keeps_modify, Hdisarm.
Qed.

End Stable.

Lemma evolves_runUpdates (S : StateManager -> Prop) (env : Env) (us : list (UpdateKind * Ctx)) :
  (∀ k ctx, keeps S (processUpdate env k ctx)) →
  ∀ w, S (sm w) → evolves S w (runUpdates env us w).
Proof.
  intros Hkeeps. induction us as [|[k ctx] us IH]; intros w Hw.
  - by apply evolves_refl.
  - cbn [runUpdates foldl]. fold (runUpdates env us (snd (processUpdate env k ctx w))).
    pose proof (Hkeeps k ctx w Hw) as Hstep.
    eapply evolves_trans; [exact Hstep|]. apply IH. by destruct Hstep.
Qed.

Lemma storeOk_onlyConversations : onlyConversations storeOk.
Proof. intros s s' Hc Hs u h. unfold historyOf. rewrite Hc. apply Hs. Qed.

Lemma stableFor_storeOk (U : Z) : stableFor U storeOk.
Proof.
  pose proof storeOk_onlyConversations as Hconv.
  unfold stableFor. repeat apply conj.
  - intros gpt r c s. apply storeOk_addMessage.
  - intros s Hs. by apply storeOk_getConversation.
  - intros s. apply storeOk_delete.
  - intros k s. by apply Hconv.
  - intros s. apply Hconv, clearPendingOperation_others.
  - intros id s. by apply Hconv.
  - intros s. apply Hconv, clearPendingVoiceTransformation_others.
  - intros now s. by apply Hconv.
  - intros now s. by apply Hconv.
Qed.

(** X3. In every state the bot reaches from its initial state by
    processing updates one after the other, whatever updates arrive from
    whatever users and whatever the backends answer, and at every moment
    recorded on the way, each stored conversation starts with the system
    prompt and holds at most 21 messages. *)
Theorem history_invariant_reachable
    (env : Env) (us : list (UpdateKind * Ctx)) (o : Oracle) (a b : option string) :
  let w := runUpdates env us (startWorld o (initializeState a b)) in
  (∀ U h, historyOf U (sm w) = Some h →
          (length h ≤ 21)%nat ∧ h !! 0%nat = Some systemMessage) ∧
  Forall (fun ev => ∀ U h, historyOf U (snapshot ev) = Some h →
                           (length h ≤ 21)%nat ∧ h !! 0%nat = Some systemMessage)
         (trace w).
Proof.
  cbn zeta.
  destruct (evolves_runUpdates storeOk env us) with (w := startWorld o (initializeState a b))
    as (Hend & evs & Htrace & Hall).
  - intros k ctx. apply (keeps_processUpdate_stable storeOk (from_id ctx)); [|done].
    apply stableFor_storeOk.
  - apply storeOk_initial.
  - rewrite <- maxMessages_21. split; [exact Hend|].
    rewrite Htrace. cbn [startWorld trace app]. exact Hall.
Qed.

Lemma addMessage_other_history (gpt : bool) (U V : Z) (r : Role.t) (c : string)
    (s : StateManager) :
  V ≠ U → historyOf V (addMessageToConversation gpt U r c s) = historyOf V s.
Proof.
  intros HV. destruct gpt; [|by rewrite addMessage_disabled].
  unfold historyOf. rewrite addMessage_conversations. by apply lookup_insert_ne.
Qed.

Lemma getConversation_other_history (U V : Z) (s : StateManager) :
  V ≠ U → historyOf V (snd (getConversation U s)) = historyOf V s.
Proof.
  intros HV. unfold getConversation, historyOf.
  destruct (conversations s !! U); [done|]. cbn [snd setConversations conversations].
  by apply lookup_insert_ne.
Qed.

Lemma stableFor_untouched (U V : Z) (s0 : StateManager) :
  V ≠ U → stableFor U (untouched V s0).
Proof.
  intros HV. unfold stableFor, untouched. repeat apply conj.
  - intros gpt r c s (Hh & Hl & Hi). rewrite addMessage_other_history by done.
    destruct (addMessage_is_setConversations gpt U r c s) as [cs ->]. done.
  - intros s (Hh & Hl & Hi). rewrite getConversation_other_history by done.
    destruct (getConversation_is_setConversations U s) as [cs ->]. done.
  - intros s (Hh & Hl & Hi). split; [|done].
    unfold historyOf. cbn [setConversations conversations].
    by rewrite lookup_delete_ne.
  - intros k s (Hh & Hl & Hi). split; [done|]. split; [|done].
    unfold lockOf. cbn [setPendingOperation setOperations pendingOperations].
    by rewrite lookup_insert_ne.
  - intros s (Hh & Hl & Hi).
    unfold historyOf, lockOf, intentOf.
    destruct (clearPendingOperation_others U s) as [-> ->].
    rewrite clearPendingOperation_table. split; [done|]. split; [|done].
    by rewrite lookup_delete_ne.
  - intros id s (Hh & Hl & Hi). split; [done|]. split; [done|].
    unfold intentOf. cbn [setPendingVoiceTransformation setVoiceTransformations
                          pendingVoiceTransformations].
    by rewrite lookup_insert_ne.
  - intros s (Hh & Hl & Hi).
    unfold historyOf, lockOf, intentOf.
    destruct (clearPendingVoiceTransformation_others U s) as [-> ->].
    rewrite clearPendingVoiceTransformation_table. split; [done|]. split; [done|].
    by rewrite lookup_delete_ne.
  - done.
  - done.
Qed.

(** X4. Users are isolated from each other: processing an update of one
    user, whatever it is and however it ends, never changes the
    conversation history, the lock or the voice intent of another user,
    neither at the end nor at any moment recorded in between. *)
Theorem updates_isolate_users
    (env : Env) (k : UpdateKind) (ctx : Ctx) (V : Z) (w : World) :
  from_id ctx ≠ V →
  let w' := snd (processUpdate env k ctx w) in
  untouched V (sm w) (sm w') ∧
  Forall (fun ev => untouched V (sm w) (snapshot ev)) (since w w').
Proof.
  intros HV. cbn zeta.
  destruct (keeps_processUpdate_stable (untouched V (sm w)) (from_id ctx)
              (stableFor_untouched (from_id ctx) V (sm w) (not_eq_sym HV))
              env k ctx eq_refl w) as (Hend & evs & Htrace & Hall).
  - done.
  - split; [exact Hend|]. by rewrite (since_app _ _ _ Htrace).
Qed.

Lemma updates_isolate_users_witness :
  let ctx := mkCtx 7 42 "hola Javier" "file-1" in
  let w := startWorld obligingOracle
             (addMessageToConversation true 8 Role.user "soy otro"
                (setPendingVoiceTransformation 8 40 idleState)) in
  let w' := snd (processUpdate sampleEnv text_message ctx w) in
  historyOf 7 (sm w') ≠ historyOf 7 (sm w) ∧
  untouched 8 (sm w) (sm w').
Proof.
  intros ctx w w'. split; [vm_compute; discriminate|].
  apply (updates_isolate_users sampleEnv text_message ctx 8 w). cbn. lia.
Defined.

Lemma stableFor_sameRegistry (U : Z) (s0 : StateManager) : stableFor U (sameRegistry s0).
Proof.
  unfold stableFor, sameRegistry. repeat apply conj.
  - intros gpt r c s H.
    by destruct (addMessage_is_setConversations gpt U r c s) as [cs ->].
  - intros s H. by destruct (getConversation_is_setConversations U s) as [cs ->].
  - done.
  - done.
  - intros s H. unfold clearPendingOperation. by destruct (bool_decide _).
  - done.
  - intros s H. unfold clearPendingVoiceTransformation. by destruct (bool_decide _).
  - done.
  - done.
Qed.

(** X5. No update changes who is authorized: after any sequence of
    updates, processed one after the other, the sets of authorized users
    and of administrators are those loaded at startup, so that the answer
    of [isAuthorized] and [isAdmin] for a user is the same for the whole
    life of the process. *)
Theorem registry_never_changes
    (env : Env) (us : list (UpdateKind * Ctx)) (w : World) (u : Z) :
  let w' := runUpdates env us w in
  authorizedUsers (sm w') = authorizedUsers (sm w) ∧
  adminUsers (sm w') = adminUsers (sm w) ∧
  isAuthorized u (sm w') = isAuthorized u (sm w) ∧
  isAdmin u (sm w') = isAdmin u (sm w).
Proof.
  cbn zeta.
  destruct (evolves_runUpdates (sameRegistry (sm w)) env us) with (w := w)
    as ((Hauth & Hadm) & _).
  - intros k ctx. apply (keeps_processUpdate_stable _ (from_id ctx)); [|done].
    apply stableFor_sameRegistry.
  - done.
  - unfold isAuthorized, isAdmin. by rewrite Hauth, Hadm.
Qed.

(** ** What a finished pipeline leaves in the state manager *)

Lemma release_after_acquire (U : Z) (k : Operation) (s : StateManager) :
  lockOf U s = None → clearPendingOperation U (setPendingOperation U k s) = s.
Proof.
  intros Hfree. unfold clearPendingOperation, setPendingOperation.
  cbn [setOperations pendingOperations]. rewrite lookup_insert_eq.
  rewrite bool_decide_eq_true_2 by (by eexists).
  destruct s as [au ad ops cs vts]. unfold setOperations. cbn in *.
  f_equal. by apply release_restores.
Qed.

(** X6. A /t2v command never changes the state manager: whatever the text
    of the command, whether the lock of the user is held or free, and
    whatever Telegram, ElevenLabs and the file system answer, the handler
    returns normally and the state manager is afterwards exactly what it
    was before (histories, voice intents and locks, of every user). *)
Theorem t2v_leaves_state_unchanged (env : Env) (ctx : Ctx) (w : World) :
  fst (handleTextToVoiceCommand env ctx w) = Value tt ∧
  sm (snd (handleTextToVoiceCommand env ctx w)) = sm w.
Proof.
  unfold handleTextToVoiceCommand.
  destruct (parseT2v (msg_text ctx)) as [e| |text overrides]; [by rewrite tell_run..|].
  rewrite bind_getState.
  destruct (lock_cases (from_id ctx) (sm w)) as [[k Hheld]|Hfree].
  - rewrite (hasPendingOperation_held _ _ _ Hheld). by rewrite tell_run.
  - rewrite (hasPendingOperation_free _ _ Hfree).
    destruct (guarded_run
                (fun s => s = setPendingOperation (from_id ctx) t2v_converting (sm w))
                (from_id ctx) t2v_converting (t2vTry env text overrides)
                (fun error => report (TVoiceError (errorText error))) t2vCleanup w)
      as (s1 & -> & Hret & Hsm & _).
    + apply opens_t2vTry.
    + intros e. apply keeps_report.
    + intros e. apply safe_report.
    + apply keeps_t2vCleanup.
    + apply safe_t2vCleanup.
    + reflexivity.
    + split; [exact Hret|]. rewrite Hsm. by apply release_after_acquire.
Qed.

Lemma processVoiceTransformation_state (env : Env) (ctx : Ctx) (label : TypeLabel) (w : World) :
  fst (processVoiceTransformation env ctx label w) = Value tt ∧
  sm (snd (processVoiceTransformation env ctx label w)) =
  clearPendingVoiceTransformation (from_id ctx) (sm w).
Proof.
  destruct (lock_cases (from_id ctx) (sm w)) as [[k Hheld]|Hfree].
  - rewrite (processVoiceTransformation_rejected env ctx label w k Hheld).
    by rewrite tell_run.
  - destruct (processVoiceTransformation_run env ctx label w Hfree) as (Hret & Hsm & _).
    split; [exact Hret|]. rewrite Hsm. apply release_after_acquire.
    unfold lockOf. by rewrite (proj2 (clearPendingVoiceTransformation_others _ _)).
Qed.

(** X7. The only thing a voice or audio message ever changes in the state
    manager is the voice intent of its sender: when the intent is armed the
    handler returns with the intent removed and everything else as before,
    whether the transformation succeeded, failed or was refused; when no
    intent is armed the state manager is left as it was. *)
Theorem sound_only_consumes_intent (env : Env) (label : TypeLabel) (ctx : Ctx) (w : World) :
  let U := from_id ctx in
  let w' := snd (onSound env label ctx w) in
  fst (onSound env label ctx w) = Value tt ∧
  sm w' = (if pendingV2V U (sm w) then clearPendingVoiceTransformation U (sm w) else sm w) ∧
  conversations (sm w') = conversations (sm w) ∧
  pendingOperations (sm w') = pendingOperations (sm w) ∧
  ∀ V, V ≠ U → intentOf V (sm w') = intentOf V (sm w).
Proof.
  cbn zeta.
  assert (H : fst (onSound env label ctx w) = Value tt ∧
              sm (snd (onSound env label ctx w)) =
              (if pendingV2V (from_id ctx) (sm w)
               then clearPendingVoiceTransformation (from_id ctx) (sm w) else sm w)).
  { destruct (pendingV2V (from_id ctx) (sm w)) eqn:Harmed.
    - rewrite (onSound_armed env label ctx w Harmed). apply processVoiceTransformation_state.
    - rewrite (onSound_idle env label ctx w Harmed). by rewrite tell_run. }
  destruct H as [Hret Hsm]. split; [exact Hret|]. split; [exact Hsm|]. rewrite Hsm.
  destruct (pendingV2V (from_id ctx) (sm w)); [|done].
  destruct (clearPendingVoiceTransformation_others (from_id ctx) (sm w)) as [-> ->].
  split; [done|]. split; [done|]. intros V HV. unfold intentOf.
  rewrite clearPendingVoiceTransformation_table. by apply lookup_delete_ne.
Qed.

Lemma bind_stateful {A B} (f : StateManager -> A * StateManager) (k : A -> M B) (w : World) :
  bind (stateful f) k w = k (fst (f (sm w))) (withState (snd (f (sm w))) w).
Proof. unfold bind, stateful. by destruct (f (sm w)). Qed.

(** A block that never throws and never writes the state manager. *)
Lemma run_quiet {A} (m : M A) (w : World) :
  (∀ S, keeps S m) → safe m →
  ∃ a w', m w = (Value a, w') ∧ sm w' = sm w.
Proof.
  intros Hk Hs.
  destruct (run_safe_keeps (fun s => s = sm w) m w (Hk _) Hs eq_refl) as (a & w' & E & Hsm & _).
  by exists a, w'.
Qed.

Lemma whenLoading_run {T} (lm : option ChatMessage) (c : ChatMessage -> Call T) (w : World) :
  ∃ w', whenLoading lm c w = (Value tt, w') ∧ sm w' = sm w ∧ oracle w' = oracle w.
Proof.
  destruct lm as [m|]; cbn [whenLoading when_].
  - unfold bind. rewrite caught_run. by eexists.
  - by eexists.
Qed.

Lemma addMessage_commutes_lock (gpt : bool) (U V : Z) (r : Role.t) (c : string) (k : Operation)
    (s : StateManager) :
  addMessageToConversation gpt U r c (setPendingOperation V k s) =
  setPendingOperation V k (addMessageToConversation gpt U r c s).
Proof.
  unfold addMessageToConversation, getConversation, setPendingOperation.
  destruct gpt; cbn [negb]; [|done].
  cbn [setOperations conversations].
  destruct (conversations s !! U); cbn [setConversations conversations];
    by destruct (_ <? _)%nat.
Qed.

Lemma pushed_last (h : list Message) (m : Message) : last (pushed h m) = Some m.
Proof.
  unfold pushed. rewrite maxMessages_21.
  destruct (_ <? _)%nat eqn:Hlong; [|apply last_snoc].
  apply Nat.ltb_lt in Hlong. rewrite length_app in Hlong. cbn [length] in Hlong.
  unfold splice. rewrite length_app. cbn [length].
  rewrite drop_app_le by lia. rewrite app_assoc. apply last_snoc.
Qed.

Lemma addMessage_history (U : Z) (r : Role.t) (c : string) (s : StateManager) :
  historyOf U (addMessageToConversation true U r c s) =
  Some (pushed (default [systemMessage] (historyOf U s)) (mkMessage r c)).
Proof. unfold historyOf at 1. rewrite addMessage_conversations. apply lookup_insert_eq. Qed.

Lemma getConversation_stored (U : Z) (h : list Message) (s : StateManager) :
  historyOf U s = Some h → getConversation U s = (h, s).
Proof. unfold historyOf, getConversation. by intros ->. Qed.

(** The end of the [try] block of the text pipeline, from the answer of
    the model on. *)
Lemma gptTry_steps (env : Env) (U : Z) (userMessage : string) (w : World) :
  openai env = true →
  let s1 := addMessageToConversation true U Role.user userMessage (sm w) in
  let h := pushed (default [systemMessage] (historyOf U (sm w)))
                  (mkMessage Role.user userMessage) in
  ∃ lm wg, oracle wg = oracle w ∧ sm wg = s1 ∧
    gptTry env U userMessage w =
    (let! gptResponse := generateGPTResponse env h in
     do! modify (addMessageToConversation true U Role.assistant gptResponse) in
     match lm with
     | Some m =>
         tryCatch (call (editMessageText (message_id m) (TAnswer gptResponse)))
           (fun _ =>
              do! tell (TAnswer gptResponse) in
              do! caught (deleteMessage (message_id m)) in
              ret tt)
     | None => tell (TAnswer gptResponse)
     end) wg.
Proof.
  intros Hgpt. cbn zeta. unfold gptTry. rewrite Hgpt.
  unfold bind at 1. rewrite caught_run. rewrite bind_assign.
  set (lm := swallowed _). set (w1 := withLocals _ _).
  unfold bind at 1.
  destruct (whenLoading_run lm (fun _ => sendChatAction typing) w1) as (w2 & -> & Hsm2 & Ho2).
  rewrite bind_modify, bind_stateful. cbn [withState sm].
  rewrite Hsm2. change (sm w1) with (sm w).
  rewrite (getConversation_stored U _ _ (addMessage_history U Role.user userMessage (sm w))).
  cbn [fst snd].
  eexists lm, _. split; [|split; [|reflexivity]]; [exact Ho2|reflexivity].
Qed.

(** The [try] block of the text pipeline: the history extended with the
    message of the user is what the model is asked with; the outcome of the
    generation decides between returning with the answer appended and
    throwing with the state as it was when the model was asked. *)
Lemma gptTry_outcome (env : Env) (U : Z) (userMessage : string) (w : World) :
  openai env = true →
  let s1 := addMessageToConversation true U Role.user userMessage (sm w) in
  let h := pushed (default [systemMessage] (historyOf U (sm w)))
                  (mkMessage Role.user userMessage) in
  ∃ wg, oracle wg = oracle w ∧ sm wg = s1 ∧
    match generateGPTResponse env h wg with
    | (Value answer, _) =>
        fst (gptTry env U userMessage w) = Value tt ∧
        sm (snd (gptTry env U userMessage w)) =
        addMessageToConversation true U Role.assistant answer s1
    | (Thrown e, wg') =>
        gptTry env U userMessage w = (Thrown e, wg') ∧ sm wg' = s1
    end.
Proof.
  intros Hgpt. cbn zeta.
  destruct (gptTry_steps env U userMessage w Hgpt) as (lm & wg & Ho & Hsm & ->).
  exists wg. split; [exact Ho|]. split; [exact Hsm|].
  pose proof (keeps_generateGPTResponse (fun s => s = sm wg) env
                (pushed (default [systemMessage] (historyOf U (sm w)))
                        (mkMessage Role.user userMessage)) wg eq_refl) as (Hsmg & _).
  destruct (generateGPTResponse env _ wg) as [[answer|e] wg'] eqn:Hgen; cbn [snd] in Hsmg.
  - rewrite !(bind_value _ _ _ _ _ Hgen). rewrite !bind_modify. rewrite Hsmg, Hsm.
    set (w3 := withState _ wg').
    match goal with |- fst (?m w3) = _ ∧ _ =>
      destruct (run_quiet m w3) as ([] & w4 & -> & Hsm4) end.
    + intros S. destruct lm as [m|]; [|apply keeps_tell].
      apply keeps_tryCatch; [apply keeps_call|]. intros _.
      apply keeps_bind; [apply keeps_tell|]. intros _.
      apply keeps_bind; [apply keeps_caught|intros; apply keeps_ret].
    + destruct lm as [m|]; [|apply safe_tell].
      apply safe_tryCatch. intros _.
      apply safe_bind; [apply safe_tell|]. intros _.
      apply safe_bind; [apply safe_caught|intros; apply safe_ret].
    + done.
  - rewrite (bind_thrown _ _ _ _ _ Hgen). split; [done|]. by rewrite Hsmg.
Qed.

(** X8. With the OpenAI client and the lock of the user free, the text
    pipeline appends the message of the user to the history and asks the
    model with exactly that history.  When the generation succeeds the
    answer is appended as well; when it fails the message of the user stays
    in the history without an answer.  Nothing else in the state manager
    changes. *)
Theorem gpt_exchange_recorded (env : Env) (ctx : Ctx) (userMessage : string) (w : World) :
  let U := from_id ctx in
  let h := pushed (default [systemMessage] (historyOf U (sm w)))
                  (mkMessage Role.user userMessage) in
  let s1 := addMessageToConversation true U Role.user userMessage (sm w) in
  let w' := snd (processGPTMessage env ctx userMessage w) in
  openai env = true → lockOf U (sm w) = None →
  historyOf U s1 = Some h ∧
  last h = Some (mkMessage Role.user userMessage) ∧
  ∃ wg, oracle wg = oracle w ∧
    match fst (generateGPTResponse env h wg) with
    | Value answer => sm w' = addMessageToConversation true U Role.assistant answer s1
    | Thrown _ => sm w' = s1
    end.
Proof.
  cbn zeta. intros Hgpt Hfree.
  split; [apply addMessage_history|]. split; [apply pushed_last|].
  unfold processGPTMessage. rewrite Hgpt. cbn [negb].
  rewrite bind_getState, (hasPendingOperation_free _ _ Hfree).
  rewrite bind_modify, bind_assign.
  set (w0 := withLocals _ _).
  destruct (gptTry_outcome env (from_id ctx) userMessage w0 Hgpt) as (wg & Ho & Hsm & Hout).
  cbn zeta in Hout.
  assert (Hh : historyOf (from_id ctx) (sm w0) = historyOf (from_id ctx) (sm w)) by done.
  assert (Hs1 : addMessageToConversation true (from_id ctx) Role.user userMessage (sm w0)
                = setPendingOperation (from_id ctx) gpt_generating
                    (addMessageToConversation true (from_id ctx) Role.user userMessage (sm w)))
    by apply addMessage_commutes_lock.
  rewrite Hh in Hout. rewrite Hs1 in Hout, Hsm.
  exists wg. split; [exact Ho|].
  unfold tryCatchFinally, tryCatch.
  destruct (generateGPTResponse env _ wg) as [[answer|e] wg']; cbn [fst].
  - destruct Hout as [Hret Hend].
    destruct (gptTry env (from_id ctx) userMessage w0) as [r w1]. cbn [fst snd] in Hret, Hend.
    subst r. cbn [modify snd withState sm]. rewrite Hend, addMessage_commutes_lock.
    apply release_after_acquire.
    unfold lockOf.
    destruct (addMessage_is_setConversations true (from_id ctx) Role.assistant answer
                (addMessageToConversation true (from_id ctx) Role.user userMessage (sm w)))
      as [cs ->].
    destruct (addMessage_is_setConversations true (from_id ctx) Role.user userMessage (sm w))
      as [cs' ->].
    exact Hfree.
  - destruct Hout as [-> Hend].
    destruct (run_quiet (report (TGptError (errorText e))) wg') as ([] & w2 & -> & Hsm2).
    + intros S. apply keeps_report.
    + apply safe_report.
    + cbn [modify snd withState sm]. rewrite Hsm2, Hend.
      apply release_after_acquire.
      unfold lockOf.
      destruct (addMessage_is_setConversations true (from_id ctx) Role.user userMessage (sm w))
        as [cs' ->].
      exact Hfree.
Qed.

Lemma gpt_exchange_recorded_witness :
  let ctx := mkCtx 7 42 "hola" "file-1" in
  let w := startWorld (flakyOracle 4) idleState in
  let h := [systemMessage; mkMessage Role.user "hola"] in
  historyOf 7 (addMessageToConversation true 7 Role.user "hola" (sm w)) = Some h ∧
  last h = Some (mkMessage Role.user "hola") ∧
  historyOf 7 (sm (snd (processGPTMessage sampleEnv ctx "hola" w))) = Some h.
Proof.
  intros ctx w h.
  destruct (gpt_exchange_recorded sampleEnv ctx "hola" w eq_refl eq_refl) as (H1 & H2 & _).
  split; [exact H1|]. split; [exact H2|]. vm_compute. reflexivity.
Defined.

(** ** The /v2v command *)

Lemma clear_after_arm (U id : Z) (s : StateManager) :
  clearPendingVoiceTransformation U (setPendingVoiceTransformation U id s) =
  setVoiceTransformations (delete U (pendingVoiceTransformations s)) s.
Proof.
  unfold clearPendingVoiceTransformation, setPendingVoiceTransformation.
  cbn [setVoiceTransformations pendingVoiceTransformations]. rewrite lookup_insert_eq.
  rewrite bool_decide_eq_true_2 by (by eexists).
  unfold setVoiceTransformations. cbn. by rewrite delete_insert_eq.
Qed.

(** X9. The /v2v command always returns normally and has four outcomes.
    While the lock of the user is held, or while an intent is already
    armed, it only sends its notice and changes nothing.  Otherwise it
    stores the id of the command as the intent of the user and confirms;
    if the confirmation cannot be delivered the intent is removed again, so
    that a user who was not told to send audio is not left armed, and the
    error is reported. *)
Theorem v2v_command_outcome (ctx : Ctx) (w : World) :
  let U := from_id ctx in
  let w' := snd (handleVoiceToVoiceCommand ctx w) in
  fst (handleVoiceToVoiceCommand ctx w) = Value tt ∧
  (hasPendingOperation U (sm w) = true →
   sm w' = sm w ∧ since w w' = [replyEvent TStillProcessingV2vCommand w]) ∧
  (hasPendingOperation U (sm w) = false → pendingV2V U (sm w) = true →
   sm w' = sm w ∧ since w w' = [replyEvent TAlreadyWaiting w]) ∧
  (hasPendingOperation U (sm w) = false → pendingV2V U (sm w) = false →
   let armed := setPendingVoiceTransformation U (msg_id ctx) (sm w) in
   match answer (oracle w) ChatMessage (reply TSendAudioNow) (steps w) with
   | Resolved m =>
       sm w' = armed ∧ intentOf U (sm w') = Some (msg_id ctx) ∧
       since w w' = [replyEvent TSendAudioNow (withState armed w)]
   | Rejected e =>
       sm w' = setVoiceTransformations (delete U (pendingVoiceTransformations (sm w))) (sm w) ∧
       intentOf U (sm w') = None ∧
       ∃ failed, since w w' =
                 [replyEvent TSendAudioNow (withState armed w);
                  replyEvent (TV2vStartError (message e)) failed]
   end).
Proof.
  cbn zeta. unfold handleVoiceToVoiceCommand. rewrite bind_getState.
  destruct (hasPendingOperation (from_id ctx) (sm w)) eqn:Hlock.
  { rewrite since_tell, tell_run. cbn [fst snd]. repeat split; done. }
  destruct (pendingV2V (from_id ctx) (sm w)) eqn:Harmed.
  { rewrite since_tell, tell_run. cbn [fst snd]. repeat split; done. }
  unfold tryCatch. rewrite bind_modify. unfold bind, call.
  cbn [withState oracle steps sm].
  destruct (answer (oracle w) ChatMessage (reply TSendAudioNow) (steps w)) as [m|e] eqn:Hreply;
    cbn [ret fst snd].
  - split; [done|]. split; [done|]. split; [done|]. intros _ _.
    split; [reflexivity|]. split.
    + unfold intentOf. cbn [tick record withState sm setPendingVoiceTransformation
                            setVoiceTransformations pendingVoiceTransformations].
      apply lookup_insert_eq.
    + unfold since, replyEvent. cbn [tick record withState trace oracle steps sm].
      rewrite drop_app_length. by rewrite Hreply.
  - cbn [modify]. rewrite tell_run. cbn [fst snd].
    split; [done|]. split; [done|]. split; [done|]. intros _ _.
    cbn [tick record withState sm]. rewrite clear_after_arm.
    split; [reflexivity|]. split.
    + unfold intentOf. cbn [setVoiceTransformations pendingVoiceTransformations].
      apply lookup_delete_eq.
    + exists (withState
                (setVoiceTransformations
                   (delete (from_id ctx) (pendingVoiceTransformations (sm w))) (sm w))
                (tick w)).
      unfold since, replyEvent. cbn [tick record withState trace oracle steps sm].
      rewrite <- app_assoc, drop_app_length. cbn [app]. rewrite Hreply. reflexivity.
Qed.

(** ** The middleware and the simple commands *)

Lemma tryCatch_value {A} (m : M A) (h : Error -> M A) (w : World) (a : A) :
  fst (m w) = Value a → tryCatch m h w = m w.
Proof. unfold tryCatch. destruct (m w) as [[v|e] w']; cbn [fst]; by intros. Qed.

(** X11. The help command tries its three texts in turn and stops at the
    first one that is delivered: the HTML help, then the plain help, then
    the short list of commands, whose failure is swallowed.  It always
    returns normally and never touches the state manager. *)
Theorem help_fallback_chain (w : World) :
  let o := oracle w in
  let n := steps w in
  let html := Called (reply THelp) (answer o ChatMessage (reply THelp) n) in
  let plain := Called (reply THelpPlain) (answer o ChatMessage (reply THelpPlain) (S n)) in
  let short := Called (reply THelpShort) (answer o ChatMessage (reply THelpShort) (S (S n))) in
  let w' := snd (handleHelp w) in
  fst (handleHelp w) = Value tt ∧
  sm w' = sm w ∧
  map action (since w w') =
    match answer o ChatMessage (reply THelp) n with
    | Resolved _ => [html]
    | Rejected _ =>
        match answer o ChatMessage (reply THelpPlain) (S n) with
        | Resolved _ => [html; plain]
        | Rejected _ => [html; plain; short]
        end
    end.
Proof.
  cbn zeta. unfold handleHelp, tryCatch, bind, call, since.
  destruct (answer (oracle w) ChatMessage (reply THelp) (steps w)) eqn:H1;
    cbn [ret fst snd tick record oracle steps sm trace].
  { rewrite drop_app_length. done. }
  destruct (answer (oracle w) ChatMessage (reply THelpPlain) (S (steps w))) eqn:H2;
    cbn [ret fst snd tick record oracle steps sm trace].
  { rewrite <- app_assoc, drop_app_length. done. }
  rewrite tell_run. cbn [fst snd tick record oracle steps sm trace].
  rewrite <- !app_assoc, drop_app_length. done.
Qed.

Lemma trimStart_allSpaces (s : string) : allSpaces s = true → Str.trimStart s = EmptyString.
Proof.
  induction s as [|c s IH]; [done|]. cbn [allSpaces Str.trimStart].
  intros [Hc Hs]%andb_true_iff. rewrite Hc. by apply IH.
Qed.

Lemma trimStart_idem (s : string) : Str.trimStart (Str.trimStart s) = Str.trimStart s.
Proof.
  induction s as [|c s IH]; [done|]. cbn [Str.trimStart].
  destruct (Str.isSpace c) eqn:Hc; [exact IH|]. cbn [Str.trimStart]. by rewrite Hc.
Qed.

Lemma lastChar_allSpaces (s : string) (c : ascii) :
  allSpaces s = true → lastChar s = Some c → Str.isSpace c = true.
Proof.
  induction s as [|a s IH]; [done|]. cbn [allSpaces lastChar].
  intros [Ha Hs]%andb_true_iff. destruct s as [|b s']; [by intros [= <-]|].
  by apply IH.
Qed.

Lemma trim_nonempty_trimStart (s : string) :
  Str.isEmpty (Str.trim s) = false → Str.isEmpty (Str.trimStart s) = false.
Proof. unfold Str.trim. by destruct (Str.trimStart s). Qed.

(** X12. The /t command, with the OpenAI client.  A text that is /t, one
    white space character and a body that is not blank is handed to the
    text pipeline with the body trimmed.  A /t followed by white space
    only, or by a character that is not white space (as in /t@name), gets
    the usage notice and nothing else happens. *)
Theorem t_command_routing (env : Env) (ctx : Ctx) (w : World) :
  openai env = true →
  (∀ c body, msg_text ctx = String "/" (String "t" (String c body)) →
             Str.isSpace c = true → Str.isEmpty (Str.trim body) = false →
             handleTextCommand env ctx w = processGPTMessage env ctx (Str.trim body) w) ∧
  (∀ blank, msg_text ctx = String "/" (String "t" blank) → allSpaces blank = true →
            handleTextCommand env ctx w = tell TUsageT w) ∧
  (∀ c rest, msg_text ctx = String "/" (String "t" (String c rest)) →
             Str.isSpace c = false →
             handleTextCommand env ctx w = tell TUsageT w).
Proof.
  intros Hgpt. unfold handleTextCommand. rewrite Hgpt. cbn [negb].
  split; [|split].
  - intros c body -> Hc Hbody. cbn [matchSlashT]. rewrite Hc.
    rewrite (trim_nonempty_trimStart _ Hbody).
    unfold Str.trim at 1 2. rewrite trimStart_idem. fold (Str.trim body). by rewrite Hbody.
  - intros blank -> Hblank. destruct blank as [|c r]; [done|].
    cbn [allSpaces] in Hblank. apply andb_true_iff in Hblank as [Hc Hr].
    cbn [matchSlashT]. rewrite Hc, (trimStart_allSpaces _ Hr). cbn [Str.isEmpty].
    destruct (lastChar r) as [c'|] eqn:Hlast; [|done].
    pose proof (lastChar_allSpaces r c' Hr Hlast) as Hc'.
    unfold Str.trim. cbn [Str.trimStart]. rewrite Hc'. done.
  - intros c rest -> Hc. cbn [matchSlashT]. by rewrite Hc.
Qed.

Lemma t_command_routing_witness :
  let w := startWorld obligingOracle idleState in
  handleTextCommand sampleEnv (mkCtx 7 42 "/t   hola Javier  " "f") w =
  processGPTMessage sampleEnv (mkCtx 7 42 "/t   hola Javier  " "f") "hola Javier" w ∧
  handleTextCommand sampleEnv (mkCtx 7 42 "/t@javierbot hola" "f") w = tell TUsageT w.
Proof.
  intros w. split.
  - destruct (t_command_routing sampleEnv (mkCtx 7 42 "/t   hola Javier  " "f") w eq_refl)
      as (H & _).
    apply (H " "%char "  hola Javier  "%string); reflexivity.
  - destruct (t_command_routing sampleEnv (mkCtx 7 42 "/t@javierbot hola" "f") w eq_refl)
      as (_ & _ & H).
    apply (H "@"%char "javierbot hola"%string); reflexivity.
Defined.

(** ** The cost of an update *)

Section Budget.
Context (cost : Action -> nat) (gChat gTts gSts : nat).
Context (Hobs : ∀ T (q : Query T) (v : T), cost (Observed q v) = 0%nat).
Context (Hfree : ∀ T (c : Call T) (r : Outcome T),
            backendCost (Called c r) = 0%nat → cost (Called c r) = 0%nat).
Context (HretryChat : ∀ messages,
            spends cost gChat (retry (call (chatCompletionsCreate messages))
                                     CONFIG.MAX_RETRIES CONFIG.RETRY_DELAY)).
Context (HretryTts : ∀ text settings,
            spends cost gTts (retry (call (postTextToSpeech text settings))
                                    CONFIG.MAX_RETRIES CONFIG.RETRY_DELAY)).
Context (HretrySts : ∀ audioFile,
            spends cost gSts (retry (call (postSpeechToSpeech audioFile))
                                    CONFIG.MAX_RETRIES CONFIG.RETRY_DELAY)).

Lemma weigh_app (evs evs' : list Event) :
  weigh cost (evs ++ evs') = (weigh cost evs + weigh cost evs')%nat.
Proof. apply sum_list_with_app. Qed.

Lemma spends_weaken {A} (n n' : nat) (m : M A) :
  (n ≤ n')%nat → spends cost n m → spends cost n' m.
Proof. intros Hn Hm w. destruct (Hm w) as (evs & Htr & Hc). exists evs. split; [done|lia]. Qed.

Lemma spends_ret {A} (a : A) : spends cost 0 (ret a).
Proof. intros w. exists []. by rewrite app_nil_r. Qed.

Lemma spends_throw {A} (e : Error) : spends cost 0 (@throw A e).
Proof. intros w. exists []. by rewrite app_nil_r. Qed.

Lemma spends_bind {A B} (n1 n2 : nat) (m : M A) (k : A -> M B) :
  spends cost n1 m → (∀ a, spends cost n2 (k a)) → spends cost (n1 + n2) (bind m k).
Proof.
  intros Hm Hk w. unfold bind. destruct (Hm w) as (evs & Htr & Hc).
  destruct (m w) as [[a|e] w1]; cbn [snd] in *.
  - destruct (Hk a w1) as (evs' & Htr' & Hc'). exists (evs ++ evs').
    rewrite Htr', Htr, app_assoc, weigh_app. split; [done|lia].
  - exists evs. split; [done|lia].
Qed.

Lemma spends_tryCatch {A} (n1 n2 : nat) (m : M A) (h : Error -> M A) :
  spends cost n1 m → (∀ e, spends cost n2 (h e)) → spends cost (n1 + n2) (tryCatch m h).
Proof.
  intros Hm Hh w. unfold tryCatch. destruct (Hm w) as (evs & Htr & Hc).
  destruct (m w) as [[a|e] w1]; cbn [snd] in *.
  - exists evs. split; [done|lia].
  - destruct (Hh e w1) as (evs' & Htr' & Hc'). exists (evs ++ evs').
    rewrite Htr', Htr, app_assoc, weigh_app. split; [done|lia].
Qed.

Lemma spends_tryCatchFinally {A} (n1 n2 n3 : nat) (m : M A) (h : Error -> M A) (f : M unit) :
  spends cost n1 m → (∀ e, spends cost n2 (h e)) → spends cost n3 f →
  spends cost (n1 + n2 + n3) (tryCatchFinally m h f).
Proof.
  intros Hm Hh Hf w. unfold tryCatchFinally.
  destruct (spends_tryCatch n1 n2 m h Hm Hh w) as (evs & Htr & Hc).
  destruct (tryCatch m h w) as [r w1]. cbn [snd] in *.
  destruct (Hf w1) as (evs' & Htr' & Hc').
  exists (evs ++ evs'). rewrite weigh_app.
  destruct (f w1) as [[[]|e] w2]; cbn [snd] in *;
    rewrite Htr', Htr, app_assoc; (split; [done|lia]).
Qed.

Lemma spends_step {A} (n : nat) (f : World -> Result A * World) :
  (∀ w, trace (snd (f w)) = trace w) → spends cost n f.
Proof. intros H w. exists []. rewrite H, app_nil_r. split; [done|]. cbn. lia. Qed.

Lemma spends_getState : spends cost 0 getState.
Proof. by apply spends_step. Qed.

Lemma spends_getLocals : spends cost 0 getLocals.
Proof. by apply spends_step. Qed.

Lemma spends_assign (f : Locals -> Locals) : spends cost 0 (assign f).
Proof. by apply spends_step. Qed.

Lemma spends_modify (f : StateManager -> StateManager) : spends cost 0 (modify f).
Proof. by apply spends_step. Qed.

Lemma spends_stateful {A} (f : StateManager -> A * StateManager) : spends cost 0 (stateful f).
Proof. apply spends_step. intros w. unfold stateful. by destruct (f (sm w)). Qed.

Lemma spends_query {T} (q : Query T) : spends cost 0 (query q).
Proof.
  intros w. eexists. split; [reflexivity|]. unfold weigh. cbn. rewrite Hobs. lia.
Qed.

Lemma spends_call {T} (c : Call T) :
  (∀ r, backendCost (Called c r) = 0%nat) → spends cost 0 (call c).
Proof.
  intros Hc w. unfold call.
  exists [mkEvent (Called c (answer (oracle w) T c (steps w))) (sm w)]. split.
  - by destruct (answer _ _ _ _).
  - unfold weigh. cbn. rewrite Hfree by apply Hc. lia.
Qed.

Lemma spends_caught {T} (c : Call T) :
  (∀ r, backendCost (Called c r) = 0%nat) → spends cost 0 (caught c).
Proof.
  intros Hc. apply (spends_tryCatch 0 0); [|intros; apply spends_ret].
  apply (spends_bind 0 0); [by apply spends_call|intros; apply spends_ret].
Qed.

Lemma spends_tell (text : Text) : spends cost 0 (tell text).
Proof. apply (spends_bind 0 0); [by apply spends_caught|intros; apply spends_ret]. Qed.

Lemma spends_whenLoading {T} (lm : option ChatMessage) (c : ChatMessage -> Call T) :
  (∀ m r, backendCost (Called (c m) r) = 0%nat) → spends cost 0 (whenLoading lm c).
Proof.
  intros Hc. destruct lm as [m|]; [|apply spends_ret].
  apply (spends_bind 0 0); [by apply spends_caught|intros; apply spends_ret].
Qed.

Lemma spends_report (text : Text) : spends cost 0 (report text).
Proof.
  apply (spends_bind 0 0); [apply spends_getLocals|]. intros l.
  destruct (loadingMessage l); [|apply spends_tell].
  apply (spends_tryCatch 0 0); [by apply spends_call|intros; apply spends_tell].
Qed.

Lemma spends_unlinkIfExists (p : option Path) : spends cost 0 (unlinkIfExists p).
Proof.
  destruct p as [f|]; [|apply spends_ret].
  apply (spends_bind 0 0); [apply spends_query|]. intros [|]; [|apply spends_ret].
  by apply spends_call.
Qed.

Ltac free :=
  first [ apply spends_ret | apply spends_throw | apply spends_getState
        | apply spends_getLocals | apply spends_assign | apply spends_modify
        | apply spends_stateful | apply spends_query | apply spends_tell
        | apply spends_report | apply spends_unlinkIfExists
        | by apply spends_whenLoading | by apply spends_caught | by apply spends_call ].

Ltac then_ n := apply (spends_bind 0 n); [free|intros ?].

Ltac cheap := apply (spends_weaken 0); [lia|free].

Lemma spends_generateGPTResponse (env : Env) (messages : list Message) :
  spends cost gChat (generateGPTResponse env messages).
Proof.
  unfold generateGPTResponse.
  destruct (negb (openai env)); [cheap|].
  rewrite <- (Nat.add_0_r gChat). apply spends_tryCatch; [|intros; free].
  rewrite <- (Nat.add_0_r gChat). apply spends_bind; [apply HretryChat|].
  intros [responseText|]; [|free]. destruct (Str.isEmpty responseText); free.
Qed.

Lemma spends_generateVoice (env : Env) (text : string) (options : Options.t) :
  spends cost gTts (generateVoice env text options).
Proof.
  unfold generateVoice.
  destruct (negb (ELEVEN_API_KEY env)); [cheap|].
  rewrite <- (Nat.add_0_r gTts). apply spends_tryCatch; [|intros; free].
  rewrite <- (Nat.add_0_r gTts). apply spends_bind; [apply HretryTts|].
  intros response. destruct (invalidResponse response); [free|].
  then_ 0%nat. then_ 0%nat. free.
Qed.

Lemma spends_transformVoice (env : Env) (audioFile : Path) :
  spends cost gSts (transformVoice env audioFile).
Proof.
  unfold transformVoice.
  destruct (negb (ELEVEN_API_KEY env)); [cheap|].
  rewrite <- (Nat.add_0_r gSts). apply spends_tryCatch; [|intros; free].
  then_ gSts. destruct (negb _); [cheap|].
  then_ gSts.
  rewrite <- (Nat.add_0_r gSts). apply spends_bind; [apply HretrySts|].
  intros response. destruct (invalidResponse response); [free|].
  then_ 0%nat. then_ 0%nat. free.
Qed.

Lemma spends_t2vTry (env : Env) (textToConvert : string) (overrides : Options.t) :
  spends cost gTts (t2vTry env textToConvert overrides).
Proof.
  unfold t2vTry. do 4 then_ gTts.
  rewrite <- (Nat.add_0_r gTts). apply spends_bind; [apply spends_generateVoice|].
  intros file. do 4 then_ 0%nat. free.
Qed.

Lemma spends_answer (lm : option ChatMessage) (gptResponse : string) :
  spends cost 0
    match lm with
    | Some m =>
        tryCatch (call (editMessageText (message_id m) (TAnswer gptResponse)))
          (fun _ =>
             do! tell (TAnswer gptResponse) in
             do! caught (deleteMessage (message_id m)) in
             ret tt)
    | None => tell (TAnswer gptResponse)
    end.
Proof.
  destruct lm as [m|]; [|free].
  apply (spends_tryCatch 0 0); [free|]. intros _. do 2 then_ 0%nat. free.
Qed.

Lemma spends_gptTry (env : Env) (userId : Z) (userMessage : string) :
  spends cost gChat (gptTry env userId userMessage).
Proof.
  unfold gptTry. apply (spends_bind 0 gChat); [free|]. intros lm. do 4 then_ gChat.
  rewrite <- (Nat.add_0_r gChat). apply spends_bind; [apply spends_generateGPTResponse|].
  intros gptResponse. then_ 0%nat. apply spends_answer.
Qed.

Lemma spends_v2vTry (env : Env) (ctx : Ctx) (label : TypeLabel) :
  spends cost gSts (v2vTry env ctx label).
Proof.
  unfold v2vTry. do 5 then_ gSts.
  match goal with |- spends _ _ (if ?b then _ else _) => destruct b end; [cheap|].
  do 5 then_ gSts.
  rewrite <- (Nat.add_0_r gSts). apply spends_bind; [apply spends_transformVoice|].
  intros transformed. do 4 then_ 0%nat.
  destruct (negb _); [free|]. then_ 0%nat. free.
Qed.

Lemma spends_guarded (g : nat) (U : Z) (kind : Operation) (body : M unit)
    (text : Error -> Text) (cleanup : M unit) :
  spends cost g body → spends cost 0 cleanup →
  spends cost g
    (do! modify (setPendingOperation U kind) in
     do! assign (fun _ => noLocals) in
     tryCatchFinally body (fun error => report (text error))
       (do! cleanup in modify (clearPendingOperation U))).
Proof.
  intros Hb Hc. do 2 then_ g.
  replace g with (g + 0 + 0)%nat by lia. apply spends_tryCatchFinally; [done|intros; free|].
  apply (spends_bind 0 0); [done|intros; free].
Qed.

Lemma spends_processGPTMessage (env : Env) (ctx : Ctx) (userMessage : string) :
  spends cost gChat (processGPTMessage env ctx userMessage).
Proof.
  unfold processGPTMessage.
  destruct (negb (openai env)); [cheap|].
  then_ gChat. destruct (hasPendingOperation _ _); [cheap|].
  rewrite finalizer_without_cleanup.
  apply (spends_guarded _ _ _ _ (fun error => TGptError (errorText error)));
    [apply spends_gptTry|free].
Qed.

Lemma spends_processVoiceTransformation (env : Env) (ctx : Ctx) (label : TypeLabel) :
  spends cost gSts (processVoiceTransformation env ctx label).
Proof.
  unfold processVoiceTransformation. do 2 then_ gSts.
  destruct (hasPendingOperation _ _); [cheap|].
  apply (spends_guarded _ _ _ _ (fun error => TTransformError (errorText error)));
    [apply spends_v2vTry|].
  unfold v2vCleanup. then_ 0%nat. apply (spends_tryCatch 0 0); [|intros; free].
  then_ 0%nat. free.
Qed.

Lemma spends_handleHelp : spends cost 0 handleHelp.
Proof.
  unfold handleHelp.
  apply (spends_tryCatch 0 0); [then_ 0%nat; free|]. intros _.
  apply (spends_tryCatch 0 0); [then_ 0%nat; free|intros; free].
Qed.

Lemma spends_handleTextCommand (env : Env) (ctx : Ctx) :
  spends cost gChat (handleTextCommand env ctx).
Proof.
  unfold handleTextCommand.
  destruct (negb (openai env)); [cheap|].
  destruct (matchSlashT _); [|cheap].
  destruct (Str.isEmpty _); [cheap|].
  apply spends_processGPTMessage.
Qed.

Lemma spends_handleTextToVoiceCommand (env : Env) (ctx : Ctx) :
  spends cost gTts (handleTextToVoiceCommand env ctx).
Proof.
  unfold handleTextToVoiceCommand.
  destruct (parseT2v _); [cheap..|].
  then_ gTts. destruct (hasPendingOperation _ _); [cheap|].
  apply (spends_guarded _ _ _ _ (fun error => TVoiceError (errorText error)));
    [apply spends_t2vTry|].
  unfold t2vCleanup. then_ 0%nat. apply (spends_tryCatch 0 0); [free|intros; free].
Qed.

Lemma spends_handleVoiceToVoiceCommand (ctx : Ctx) :
  spends cost 0 (handleVoiceToVoiceCommand ctx).
Proof.
  unfold handleVoiceToVoiceCommand.
  then_ 0%nat. destruct (hasPendingOperation _ _); [free|].
  destruct (pendingV2V _ _); [free|].
  apply (spends_tryCatch 0 0).
  - do 2 then_ 0%nat. free.
  - intros e. then_ 0%nat. free.
Qed.

Lemma spends_handleResetConversation (env : Env) (ctx : Ctx) :
  spends cost 0 (handleResetConversation env ctx).
Proof.
  unfold handleResetConversation.
  destruct (negb (openai env)); [free|]. then_ 0%nat. free.
Qed.

Lemma spends_handleMessage (env : Env) (ctx : Ctx) :
  spends cost gChat (handleMessage env ctx).
Proof.
  unfold handleMessage.
  match goal with |- spends _ _ (if ?b then _ else _) => destruct b end; [cheap|].
  then_ gChat. destruct (pendingV2V _ _).
  - apply (spends_weaken 0); [lia|]. then_ 0%nat. free.
  - destruct (negb (openai env)); [cheap|].
    apply spends_processGPTMessage.
Qed.

Lemma spends_onSound (env : Env) (l : TypeLabel) (ctx : Ctx) :
  spends cost gSts (onSound env l ctx).
Proof.
  destruct l; cbn [onSound]; unfold handleVoiceMessage, handleAudioMessage;
    (then_ gSts; destruct (pendingV2V _ _);
     [apply spends_processVoiceTransformation|cheap]).
Qed.

Lemma spends_dispatch (g : nat) (env : Env) (k : UpdateKind) (ctx : Ctx) :
  (gChat ≤ g)%nat → (gTts ≤ g)%nat → (gSts ≤ g)%nat →
  spends cost g (dispatch env k ctx).
Proof.
  intros H1 H2 H3. destruct k; cbn [dispatch].
  - apply (spends_weaken 0); [lia|apply spends_handleHelp].
  - apply (spends_weaken gChat); [lia|apply spends_handleTextCommand].
  - apply (spends_weaken gTts); [lia|apply spends_handleTextToVoiceCommand].
  - apply (spends_weaken 0); [lia|apply spends_handleVoiceToVoiceCommand].
  - apply (spends_weaken 0); [lia|apply spends_handleResetConversation].
  - apply (spends_weaken gChat); [lia|apply spends_handleMessage].
  - apply (spends_weaken gSts); [lia|apply spends_onSound].
  - cheap.
Qed.

Lemma spends_updateSession (U : Z) : spends cost 0 (updateSession U).
Proof.
  unfold updateSession. then_ 0%nat. apply (spends_bind 0 0).
  - destruct (negb _); [|free]. then_ 0%nat. free.
  - intros _. then_ 0%nat. free.
Qed.

Lemma spends_middleware (g : nat) (ctx : Ctx) (handler : M unit) :
  spends cost g handler →
  spends cost g
    (tryCatch
       (if negb (truthy (from_id ctx)) then ret tt
        else
          let! s := getState in
          if negb (isAuthorized (from_id ctx) s) then tell (TUnauthorized (from_id ctx))
          else handler)
       (fun error =>
          do! tell TUnexpectedError in
          if truthy (from_id ctx) then
            do! modify (clearPendingOperation (from_id ctx)) in
            modify (clearPendingVoiceTransformation (from_id ctx))
          else ret tt)).
Proof.
  intros Hh. rewrite <- (Nat.add_0_r g). apply spends_tryCatch.
  - destruct (negb (truthy _)); [cheap|].
    then_ g. destruct (negb (isAuthorized _ _)); [cheap|]. exact Hh.
  - intros e. then_ 0%nat. destruct (truthy _); [|free]. then_ 0%nat. free.
Qed.

Lemma spends_processUpdate (g : nat) (env : Env) (k : UpdateKind) (ctx : Ctx) :
  (gChat ≤ g)%nat → (gTts ≤ g)%nat → (gSts ≤ g)%nat →
  spends cost g (processUpdate env k ctx).
Proof.
  intros H1 H2 H3. unfold processUpdate.
  apply spends_middleware. apply (spends_bind 0 g); [apply spends_updateSession|].
  intros _. by apply spends_dispatch.
Qed.

End Budget.

Lemma backendCalls_weigh (evs : list Event) : backendCalls evs = weigh backendCost evs.
Proof.
  unfold backendCalls, weigh. induction evs as [|[a s] evs IH]; [done|].
  rewrite filter_cons. cbn [sum_list_with action]. rewrite <- IH.
  destruct a as [T c r|T q v|ms]; [destruct c|..]; by destruct (decide _).
Qed.

Lemma totalDelay_weigh (evs : list Event) : totalDelay evs ≤ Z.of_nat (weigh waitCost evs).
Proof.
  unfold totalDelay, delays, weigh. induction evs as [|[a s] evs IH]; [done|].
  destruct a as [T c r|T q v|ms]; cbn in *; lia.
Qed.

Lemma spends_retryFrom_requests {A} (n : nat) (fn : M A) (maxRetries : nat) (delay : Z)
    (left : nat) :
  spends backendCost n fn →
  ∀ i lastError, spends backendCost (left * n) (retryFrom fn maxRetries delay i left lastError).
Proof.
  intros Hfn. induction left as [|left IH]; intros i lastError; cbn [retryFrom].
  - apply spends_throw.
  - cbn [Nat.mul]. apply spends_tryCatch; [exact Hfn|]. intros e.
    apply (spends_bind backendCost 0); [|intros; apply IH].
    destruct (_ <? _)%nat; [|apply spends_ret].
    intros w. eexists. split; [reflexivity|]. cbn. lia.
Qed.

Lemma spends_call_request {T} (c : Call T) : spends backendCost 1 (call c).
Proof.
  intros w. unfold call.
  exists [mkEvent (Called c (answer (oracle w) T c (steps w))) (sm w)]. split.
  - by destruct (answer _ _ _ _).
  - unfold weigh. cbn [sum_list_with action].
    generalize (answer (oracle w) T c (steps w)). intros r. destruct c; cbn; lia.
Qed.

Lemma spends_retry_requests {T} (c : Call T) :
  spends backendCost 3 (retry (call c) CONFIG.MAX_RETRIES CONFIG.RETRY_DELAY).
Proof. apply (spends_retryFrom_requests 1 _ _ _ 3), spends_call_request. Qed.

Lemma spends_call_wait {T} (c : Call T) : spends waitCost 0 (call c).
Proof.
  intros w. unfold call.
  exists [mkEvent (Called c (answer (oracle w) T c (steps w))) (sm w)]. split.
  - by destruct (answer _ _ _ _).
  - cbn. lia.
Qed.

Lemma spends_sleep_wait (ms : Z) : spends waitCost (Z.to_nat ms) (sleep ms).
Proof. intros w. eexists. split; [reflexivity|]. cbn. lia. Qed.

Lemma spends_retry_wait {T} (c : Call T) :
  spends waitCost (Z.to_nat 15000) (retry (call c) CONFIG.MAX_RETRIES CONFIG.RETRY_DELAY).
Proof.
  unfold retry, CONFIG.MAX_RETRIES, CONFIG.RETRY_DELAY. cbn [retryFrom].
  change (0 <? 3 - 1)%nat with true. change (1 <? 3 - 1)%nat with true.
  change (2 <? 3 - 1)%nat with false.
  change (5000 * 2 ^ Z.of_nat 0) with 5000. change (5000 * 2 ^ Z.of_nat 1) with 10000.
  apply (spends_weaken waitCost
           (0 + (Z.to_nat 5000 + (0 + (Z.to_nat 10000 + (0 + (0 + 0))))))); [lia|].
  apply spends_tryCatch; [apply spends_call_wait|]. intros e1.
  apply spends_bind; [apply spends_sleep_wait|]. intros _.
  apply spends_tryCatch; [apply spends_call_wait|]. intros e2.
  apply spends_bind; [apply spends_sleep_wait|]. intros _.
  apply spends_tryCatch; [apply spends_call_wait|]. intros e3.
  apply spends_bind; [apply spends_ret|]. intros _. apply spends_throw.
Qed.

(** X13. The cost of one update is bounded.  Whatever the update and
    whatever the environment answers, processing it makes at most three
    requests to the generation and synthesis backends (the retry limit)
    and spends at most 15 seconds in the delays between retries. *)
Theorem update_cost_bounded (env : Env) (k : UpdateKind) (ctx : Ctx) (w : World) :
  let evs := since w (snd (processUpdate env k ctx w)) in
  (backendCalls evs ≤ CONFIG.MAX_RETRIES)%nat ∧
  totalDelay evs ≤ 15000.
Proof.
  cbn zeta. split.
  - destruct (spends_processUpdate backendCost 3 3 3) with (g := 3%nat) (env := env) (k := k)
      (ctx := ctx) (w := w) as (evs & Htr & Hc); try done.
    1-3: intros; apply spends_retry_requests.
    rewrite (since_app _ _ _ Htr), backendCalls_weigh. exact Hc.
  - destruct (spends_processUpdate waitCost (Z.to_nat 15000) (Z.to_nat 15000) (Z.to_nat 15000))
      with (g := Z.to_nat 15000) (env := env) (k := k) (ctx := ctx) (w := w)
      as (evs & Htr & Hc); try done.
    1-3: intros; apply spends_retry_wait.
    rewrite (since_app _ _ _ Htr). pose proof (totalDelay_weigh evs). lia.
Qed.

(** ** What the synthesis calls return *)

Lemma retryFrom_value {T} (c : Call T) (maxRetries : nat) (delay : Z) (left : nat) :
  ∀ (i : nat) (lastError : option Error) (w w' : World) (v : T),
    retryFrom (call c) maxRetries delay i left lastError w = (Value v, w') →
    sm w' = sm w ∧
    ∃ evs, trace w' = trace w ++ evs ++ [mkEvent (Called c (Resolved v)) (sm w)].
Proof.
  induction left as [|left IH]; intros i lastError w w' v; cbn [retryFrom]; [done|].
  unfold tryCatch at 1, call at 1.
  destruct (answer (oracle w) T c (steps w)) as [v0|e].
  - intros [= <- <-]. split; [done|]. by exists [].
  - unfold bind at 1. destruct (i <? maxRetries - 1)%nat; cbn [sleep ret].
    + intros H. apply IH in H as (Hsm & evs & Htr). split; [done|].
      eexists (_ :: _ :: evs). rewrite Htr. cbn [tick record trace sm].
      rewrite <- !app_assoc. reflexivity.
    + intros H. apply IH in H as (Hsm & evs & Htr). split; [done|].
      eexists (_ :: evs). rewrite Htr. cbn [tick record trace sm].
      rewrite <- !app_assoc. reflexivity.
Qed.

Lemma written_after_response {T} (c : Call T) (file : Z -> Path) (invalid : T -> bool)
    (refusal : T -> Error) (w w' : World) (p : Path) :
  (let! response := retry (call c) CONFIG.MAX_RETRIES CONFIG.RETRY_DELAY in
   if invalid response then throw (refusal response)
   else
     let! now := query DateNow in
     do! call (writeFileSync (file now)) in
     ret (file now)) w = (Value p, w') →
  ∃ now response evs,
    p = file now ∧ invalid response = false ∧ sm w' = sm w ∧
    trace w' = trace w ++ evs ++
      [mkEvent (Called c (Resolved response)) (sm w);
       mkEvent (Observed DateNow now) (sm w);
       mkEvent (Called (writeFileSync p) (Resolved tt)) (sm w)].
Proof.
  unfold bind at 1.
  destruct (retry (call c) _ _ w) as [[response|e] w1] eqn:Hretry; [|done].
  apply retryFrom_value in Hretry as (Hsm1 & evs & Htr1).
  destruct (invalid response) eqn:Hvalid; [done|].
  unfold bind, query, call. cbn [tick record oracle steps sm trace].
  set (now := observe (oracle w1) Z DateNow (steps w1)).
  destruct (answer (oracle w1) unit (writeFileSync (file now)) (S (steps w1))) as [[]|e];
    cbn [ret]; [|done].
  intros [= <- <-]. exists now, response, evs.
  split; [done|]. split; [done|]. split; [done|].
  cbn [tick record sm trace]. rewrite Htr1, Hsm1, <- !app_assoc. reflexivity.
Qed.

(** X14. Both synthesis calls hand back only a file they have just
    written.  When [generateVoice] or [transformVoice] returns a path, it
    is the output file named after the clock, and the last three things
    that happened are: the backend answered the request with status 200
    and a body that is not empty, the clock was read, and the write of
    that file succeeded.  The state manager is not touched. *)
Theorem synthesis_returns_written_file (env : Env) (w : World) :
  (∀ text options p,
     fst (generateVoice env text options w) = Value p →
     ∃ now response evs,
       p = tts_output now ∧ invalidResponse response = false ∧
       sm (snd (generateVoice env text options w)) = sm w ∧
       since w (snd (generateVoice env text options w)) =
       evs ++ [mkEvent (Called (postTextToSpeech text (finalSettings options))
                               (Resolved response)) (sm w);
               mkEvent (Observed DateNow now) (sm w);
               mkEvent (Called (writeFileSync p) (Resolved tt)) (sm w)]) ∧
  (∀ audioFile p,
     fst (transformVoice env audioFile w) = Value p →
     ∃ now response evs,
       p = sts_output now ∧ invalidResponse response = false ∧
       sm (snd (transformVoice env audioFile w)) = sm w ∧
       since w (snd (transformVoice env audioFile w)) =
       evs ++ [mkEvent (Called (postSpeechToSpeech audioFile) (Resolved response)) (sm w);
               mkEvent (Observed DateNow now) (sm w);
               mkEvent (Called (writeFileSync p) (Resolved tt)) (sm w)]).
Proof.
  split.
  - intros text options p. unfold generateVoice.
    destruct (negb (ELEVEN_API_KEY env)); [done|]. unfold tryCatch.
    match goal with |- context [let (_, _) := ?body w in _] =>
      destruct (body w) as [[p'|e] w'] eqn:Hbody end; [|done].
    cbn [fst snd]. intros [= ->].
    apply (written_after_response _ tts_output invalidResponse) in Hbody
      as (now & response & evs & Hp & Hvalid & Hsm & Htr).
    exists now, response, evs. split; [done|]. split; [done|]. split; [done|].
    by rewrite (since_app _ _ _ Htr).
  - intros audioFile p. unfold transformVoice.
    destruct (negb (ELEVEN_API_KEY env)); [done|]. unfold tryCatch.
    match goal with |- context [let (_, _) := ?body w in _] =>
      destruct (body w) as [[p'|e] w'] eqn:Hbody end; [|done].
    cbn [fst snd]. intros [= ->].
    rewrite bind_query in Hbody.
    destruct (observe (oracle w) bool (existsSync audioFile) (steps w)) eqn:Hfound;
      cbn [negb] in Hbody; [|done].
    set (w1 := tick (record _ w)) in Hbody.
    destruct (answer (oracle w1) unit (readFileSync audioFile) (steps w1)) as [[]|e] eqn:Hread.
    2:{ by rewrite (bind_thrown _ _ _ _ _ (call_rejected _ _ _ Hread)) in Hbody. }
    rewrite (bind_value _ _ _ _ _ (call_resolved _ _ _ Hread)) in Hbody.
    apply (written_after_response _ sts_output invalidResponse) in Hbody
      as (now & response & evs & Hp & Hvalid & Hsm & Htr).
    exists now, response,
      (mkEvent (Observed (existsSync audioFile) true) (sm w)
       :: mkEvent (Called (readFileSync audioFile) (Resolved tt)) (sm w) :: evs).
    split; [done|]. split; [done|]. split; [done|].
    unfold w1 in Htr. cbn [tick record trace sm] in Htr. rewrite <- !app_assoc in Htr.
    by rewrite (since_app _ _ _ Htr).
Qed.

(** ** Failures and odd answers of the backends *)

Lemma tryCatch_thrown {A} (m : M A) (h : Error -> M A) (w w' : World) (e : Error) :
  m w = (Thrown e, w') → tryCatch m h w = h e w'.
Proof. intros H. unfold tryCatch. by rewrite H. Qed.

Lemma retry_all_rejected {T} (c : Call T) (e : nat -> Error) (w : World) :
  (∀ j, (j < 3)%nat → answer (oracle w) T c (steps w + j) = Rejected (e j)) →
  ∃ w', retry (call c) CONFIG.MAX_RETRIES CONFIG.RETRY_DELAY w = (Thrown (e 2%nat), w') ∧
        retryFootprint w w' [5000; 10000] 3.
Proof.
  intros Hfail.
  destruct (retryFrom_exhaustion c 3 5000 2 e 0 None w) as [Hret Hfoot]; [done|..].
  - intros j Hj. apply Hfail. lia.
  - unfold retry, CONFIG.MAX_RETRIES, CONFIG.RETRY_DELAY.
    destruct (retryFrom (call c) 3 5000 0 3 None w) as [r w']. cbn [fst snd] in *.
    subst r. by exists w'.
Qed.

(** X15. When the backend rejects all three attempts of a request, the
    error that [generateGPTResponse] and [generateVoice] throw is built
    from the error of the third attempt, behind the prefix of the function.
    [generateGPTResponse] takes the message of the response body
    ([data.error.message]) when there is one, else the message of the
    error.  [generateVoice] takes, when the response has a body that can be
    read, the message of its [detail], or the [detail] itself when it is a
    string, else the status text of the response; and the message of the
    error when all of these are missing.  Three requests were made, with
    delays of 5 and 10 seconds between them and none after the last. *)
Theorem api_failure_reports_last_attempt (env : Env) (e : nat -> Error) (w : World) :
  (∀ messages,
     openai env = true →
     (∀ j, (j < 3)%nat →
           answer (oracle w) _ (chatCompletionsCreate messages) (steps w + j) = Rejected (e j)) →
     fst (generateGPTResponse env messages w) =
       Thrown (newError ("No pude generar una respuesta de la IA: " +:+
                         match responseData (e 2%nat) with
                         | Body false m _ => orElse m (message (e 2%nat))
                         | _ => message (e 2%nat)
                         end)) ∧
     retryFootprint w (snd (generateGPTResponse env messages w)) [5000; 10000] 3) ∧
  (∀ text options,
     ELEVEN_API_KEY env = true →
     (∀ j, (j < 3)%nat →
           answer (oracle w) _ (postTextToSpeech text (finalSettings options)) (steps w + j)
           = Rejected (e j)) →
     fst (generateVoice env text options w) =
       Thrown (newError ("Error al generar audio (TTS): " +:+
                         match responseData (e 2%nat) with
                         | Body _ _ (DetailObject m) =>
                             orElse (orElse m (responseStatusText (e 2%nat))) (message (e 2%nat))
                         | Body _ _ (DetailText d) => orElse d (message (e 2%nat))
                         | Body _ _ NoDetail =>
                             orElse (responseStatusText (e 2%nat)) (message (e 2%nat))
                         | _ => message (e 2%nat)
                         end)) ∧
     retryFootprint w (snd (generateVoice env text options w)) [5000; 10000] 3).
Proof.
  split.
  - intros messages Hgpt Hfail. unfold generateGPTResponse. rewrite Hgpt. cbn [negb].
    destruct (retry_all_rejected _ e w Hfail) as (w' & Hretry & Hfoot).
    rewrite (tryCatch_thrown _ _ w w' (e 2%nat)); [done|].
    by rewrite (bind_thrown _ _ _ _ _ Hretry).
  - intros text options Hkey Hfail. unfold generateVoice. rewrite Hkey. cbn [negb].
    destruct (retry_all_rejected _ e w Hfail) as (w' & Hretry & Hfoot).
    rewrite (tryCatch_thrown _ _ w w' (e 2%nat));
      [|by rewrite (bind_thrown _ _ _ _ _ Hretry)].
    split; [|done]. cbn [throw fst]. unfold voiceErrorMessage.
    by destruct (responseData (e 2%nat)) as [| |b m [|d|m']].
Qed.

(** X16. What [generateGPTResponse] makes of the first answer of the model.
    A completion without content, or with empty content, is an error, and
    the error is wrapped like a failed request.  Any other content is
    returned trimmed - also when it is white space only, in which case the
    answer handed to the pipeline is the empty string. *)
Theorem gpt_completion_outcomes (env : Env) (messages : list Message) (w : World)
    (completion : option string) :
  openai env = true →
  answer (oracle w) _ (chatCompletionsCreate messages) (steps w) = Resolved completion →
  let w' := tick (record (Called (chatCompletionsCreate messages) (Resolved completion)) w) in
  generateGPTResponse env messages w =
  match completion with
  | Some (String c rest) => (Value (Str.trim (String c rest)), w')
  | _ => (Thrown (newError ("No pude generar una respuesta de la IA: "
                            +:+ "Respuesta inesperada de la API de IA.")), w')
  end.
Proof.
  intros Hgpt Hanswer. cbn zeta. unfold generateGPTResponse. rewrite Hgpt. cbn [negb].
  unfold retry, CONFIG.MAX_RETRIES.
  pose proof (retryFrom_succeeded (call (chatCompletionsCreate messages)) 3 CONFIG.RETRY_DELAY
                0 2 None w _ completion (call_resolved _ w completion Hanswer)) as Hretry.
  unfold tryCatch. rewrite (bind_value _ _ _ _ _ Hretry).
  by destruct completion as [[|c rest]|].
Qed.

Lemma gpt_completion_outcomes_witness :
  let messages := [systemMessage; mkMessage Role.user "hola"] in
  let w := startWorld (mkOracle (fun T c n => Resolved
                                   match c in Call T return T with
                                   | chatCompletionsCreate _ => Some "   "%string
                                   | c' => sampleValue c'
                                   end)
                                (fun T q n => sampleObservation q)) idleState in
  fst (generateGPTResponse sampleEnv messages w) = Value EmptyString.
Proof.
  intros messages w.
  by rewrite (gpt_completion_outcomes sampleEnv messages w (Some "   "%string) eq_refl eq_refl).
Defined.

Lemma api_failure_reports_last_attempt_witness :
  let w := startWorld (flakyOracle 3) idleState in
  let w500 := startWorld serverErrorOracle idleState in
  fst (generateGPTResponse sampleEnv [systemMessage] w) =
    Thrown (newError "No pude generar una respuesta de la IA: attempt 2") ∧
  delays (trace (snd (generateGPTResponse sampleEnv [systemMessage] w))) = [5000; 10000] ∧
  fst (generateVoice sampleEnv "hola" Options.empty w500) =
    Thrown (newError "Error al generar audio (TTS): Internal Server Error").
Proof.
  intros w w500.
  destruct (api_failure_reports_last_attempt sampleEnv
              (fun j => newError ("attempt " +:+ pretty (Z.of_nat j))) w) as [Hgpt _].
  destruct (api_failure_reports_last_attempt sampleEnv (fun _ => serverError) w500)
    as [_ Htts].
  destruct (Hgpt [systemMessage] eq_refl) as (Hret & Hd & _).
  - intros j Hj. assert (j = 0 ∨ j = 1 ∨ j = 2)%nat as [->|[->| ->]] by lia; reflexivity.
  - split; [exact Hret|]. split; [rewrite Hd; reflexivity|].
    destruct (Htts "hola"%string Options.empty eq_refl) as (Hret' & _); [done|].
    exact Hret'.
Defined.

(** ** The option parser of /t2v, continued *)

Lemma flag_letter (flag : Flag.t) : charAt0 (Flag.name flag) = "s"%string.
Proof. by destruct flag. Qed.

Lemma parseParts_error (parts : list string) (v : ParseVars) (e : ParsingError) :
  parsingError v = None →
  parsingError (parseParts parts v) = Some e →
  ∃ part, e = ExpectedNumber "s" part ∧ part ∈ parts ∧ Num.parseFloat part = NaN ∧
          isFlagToken part = false.
Proof.
  revert v. induction parts as [|part rest IH]; intros v Hv; cbn [parseParts].
  { by rewrite Hv. }
  assert (Hrest : ∀ v', parsingError v' = None →
            parsingError (parseParts rest v') = Some e →
            ∃ p, e = ExpectedNumber "s" p ∧ p ∈ part :: rest ∧ Num.parseFloat p = NaN ∧
                 isFlagToken p = false).
  { intros v' Hv' He. destruct (IH v' Hv' He) as (p & -> & Hin & Hnan & Hflag).
    exists p. split; [done|]. split; [by apply list_elem_of_further|done]. }
  unfold isFlagToken.
  destruct (String.eqb part "-s") eqn:Hs; [by apply Hrest|].
  destruct (String.eqb part "-x") eqn:Hx; [by apply Hrest|].
  destruct (String.eqb part "-v") eqn:Hv'; [by apply Hrest|].
  destruct (currentFlag v) as [flag|]; [|by apply Hrest].
  destruct (Num.parseFloat part) eqn:Hnum; cbn [Num.isNaN negb]; try by apply Hrest.
  cbn [parsingError]. intros [= <-]. exists part. rewrite flag_letter, Hs, Hx, Hv'.
  split; [done|]. split; [apply list_elem_of_here|done].
Qed.

(** X17. The option letter named in a parsing error of /t2v is always s,
    whichever of -s, -x and -v was given a wrong value or no value: the
    letter is the first one of the name of the option (stability, style,
    speed).  An error about a value names a token of the message that is
    not a flag and does not start like a number. *)
Theorem t2v_error_always_names_s (messageText : string) (e : ParsingError) :
  parseT2v messageText = BadOptions e →
  letterOf e = "s"%string ∧
  ∀ part, e = ExpectedNumber (letterOf e) part →
          part ∈ tail (Str.splitSpaces messageText) ∧
          Num.parseFloat part = NaN ∧ isFlagToken part = false.
Proof.
  unfold parseT2v. set (v := parseParts _ _).
  destruct (parsingError v) as [e'|] eqn:Herr.
  - assert (He : BadOptions e' = BadOptions e → e' = e) by (by intros [= ->]).
    destruct (parseParts_error (tail (Str.splitSpaces messageText))
                (mkParseVars Options.empty [] None None) e' eq_refl Herr)
      as (p & -> & Hin & Hnan & Hflag).
    destruct (currentFlag v); intros <-%He; (split; [done|]); by intros part [= <-].
  - destruct (currentFlag v) as [flag|].
    + intros [= <-]. rewrite flag_letter. split; [done|]. by intros part.
    + by destruct (Str.isEmpty _).
Qed.

Lemma t2v_error_always_names_s_witness :
  parseT2v "/t2v -v rapido hola" = BadOptions (ExpectedNumber "s" "rapido") ∧
  letterOf (ExpectedNumber "s" "rapido") = "s"%string ∧
  parseT2v "/t2v hola -x" = BadOptions (MissingValue "s").
Proof.
  split; [reflexivity|]. split; [|reflexivity].
  apply (t2v_error_always_names_s "/t2v -v rapido hola" (ExpectedNumber "s" "rapido")).
  reflexivity.
Defined.

Lemma parseParts_plain (parts : list string) (v : ParseVars) :
  currentFlag v = None →
  Forall (fun part => isFlagToken part = false) parts →
  parseParts parts v =
  mkParseVars (overrideOptions v) (textParts v ++ parts) None (parsingError v).
Proof.
  revert v. induction parts as [|part rest IH]; intros v Hv Hparts.
  - destruct v. cbn in *. by rewrite Hv, app_nil_r.
  - apply Forall_cons in Hparts as [Hpart Hrest]. unfold isFlagToken in Hpart.
    apply orb_false_iff in Hpart as [[Hs Hx]%orb_false_iff Hv'].
    cbn [parseParts]. rewrite Hs, Hx, Hv', Hv.
    rewrite IH by done. cbn [overrideOptions textParts parsingError].
    by rewrite <- app_assoc.
Qed.

(** X18. Only the three tokens -s, -x and -v are flags.  A /t2v message
    without any of them - also one with other words that start with a
    dash - carries no override: the text to convert is made of all its
    words after the command, separated by single spaces whatever white
    space separated them, and the request is refused as empty exactly when
    there is no such word. *)
Theorem t2v_plain_message (messageText : string) :
  let words := tail (Str.splitSpaces messageText) in
  let body := Str.trim (Str.joinSpace words) in
  Forall (fun part => isFlagToken part = false) words →
  parseT2v messageText =
  if Str.isEmpty body then NoText else Convert body Options.empty.
Proof.
  cbn zeta. intros Hwords. unfold parseT2v.
  rewrite (parseParts_plain _ (mkParseVars Options.empty [] None None) eq_refl Hwords).
  reflexivity.
Qed.

Lemma t2v_plain_message_witness :
  parseT2v "/t2v   hola   -que  tal " = Convert "hola -que tal" Options.empty ∧
  parseT2v "/t2v   " = NoText.
Proof.
  split.
  - rewrite (t2v_plain_message "/t2v   hola   -que  tal ");
      [reflexivity|repeat constructor].
  - rewrite (t2v_plain_message "/t2v   "); [reflexivity|repeat constructor].
Defined.

Lemma onlyFlagOptions_parseParts (parts : list string) (v : ParseVars) :
  onlyFlagOptions (overrideOptions v) → onlyFlagOptions (overrideOptions (parseParts parts v)).
Proof.
  revert v. induction parts as [|part rest IH]; intros v Hv; [done|].
  cbn [parseParts].
  destruct (String.eqb part "-s"); [by apply IH|].
  destruct (String.eqb part "-x"); [by apply IH|].
  destruct (String.eqb part "-v"); [by apply IH|].
  destruct (currentFlag v) as [flag|]; [|by apply IH].
  destruct (negb _); [|done]. apply IH. cbn [overrideOptions]. by destruct flag.
Qed.

Lemma default_in_range (f : Flag.t) : inRange (validRange f) (defaultValue f).
Proof. destruct f; split; vm_compute; reflexivity. Qed.

(** X19. Whatever the user types after /t2v, the voice settings that the
    conversion submits are valid: when the message parses, each of
    stability, style and speed lies in its range (the value typed, clamped,
    or the default), and similarity boost and speaker boost, which the
    command cannot set, have their configured values. *)
Theorem t2v_settings_always_valid
    (messageText textToConvert : string) (overrides : Options.t) (f : Flag.t) :
  parseT2v messageText = Convert textToConvert overrides →
  let used := finalSettings overrides in
  inRange (validRange f) (usedValue f used) ∧
  VoiceSettings.similarity_boost used = CONFIG.SIMILARITY_BOOST ∧
  VoiceSettings.use_speaker_boost used = CONFIG.USE_SPEAKER_BOOST ∧
  Str.isEmpty textToConvert = false.
Proof.
  intros Hparse. cbn zeta.
  pose proof (parseT2v_numeric _ _ _ Hparse) as Hnum.
  assert (Honly : onlyFlagOptions overrides ∧ Str.isEmpty textToConvert = false).
  { revert Hparse. unfold parseT2v. set (v := parseParts _ _).
    assert (Hv : onlyFlagOptions (overrideOptions v))
      by (by apply onlyFlagOptions_parseParts).
    destruct (currentFlag v), (parsingError v); try discriminate.
    destruct (Str.isEmpty _) eqn:Hempty; [discriminate|]. by intros [= <- <-]. }
  destruct Honly as [[Hsim Hboost] Htext]. split; [|split; [|split]].
  - destruct (suppliedValue f overrides) as [x|] eqn:Hx.
    + by apply (finalSettings_clamps f overrides x (Hnum f x Hx)).
    + rewrite (finalSettings_defaults f overrides Hx). apply default_in_range.
  - unfold finalSettings. cbn [VoiceSettings.similarity_boost]. by rewrite Hsim.
  - unfold finalSettings. cbn [VoiceSettings.use_speaker_boost]. by rewrite Hboost.
  - exact Htext.
Qed.

Lemma t2v_settings_always_valid_witness :
  let used := finalSettings (Options.mk (Some (Num.decimal 70 (-1))) None None
                                        (Some (Num.decimal (-1) 0)) None) in
  inRange (validRange Flag.speed) (usedValue Flag.speed used) ∧
  VoiceSettings.similarity_boost used = CONFIG.SIMILARITY_BOOST ∧
  VoiceSettings.use_speaker_boost used = CONFIG.USE_SPEAKER_BOOST ∧
  Str.isEmpty "hola" = false.
Proof.
  apply (t2v_settings_always_valid "/t2v -s 7 -v -1 hola" "hola").
  vm_compute. reflexivity.
Defined.

(** ** Algebra of the state manager *)

Lemma StateManager_ext (s s' : StateManager) :
  authorizedUsers s = authorizedUsers s' → adminUsers s = adminUsers s' →
  userSessions s = userSessions s' →
  pendingOperations s = pendingOperations s' → conversations s = conversations s' →
  pendingVoiceTransformations s = pendingVoiceTransformations s' → s = s'.
Proof. destruct s, s'. cbn. by intros -> -> -> -> -> ->. Qed.

Lemma addMessage_frame (gpt : bool) (U : Z) (r : Role.t) (c : string) (s : StateManager) :
  authorizedUsers (addMessageToConversation gpt U r c s) = authorizedUsers s ∧
  adminUsers (addMessageToConversation gpt U r c s) = adminUsers s ∧
  pendingOperations (addMessageToConversation gpt U r c s) = pendingOperations s ∧
  pendingVoiceTransformations (addMessageToConversation gpt U r c s) =
    pendingVoiceTransformations s ∧
  userSessions (addMessageToConversation gpt U r c s) = userSessions s.
Proof. by destruct (addMessage_is_setConversations gpt U r c s) as [cs ->]. Qed.

(** X20. How operations on the conversation store compose.  Appending to
    the histories of two different users gives the same state manager in
    either order; reading a conversation, which creates it when it does
    not exist, makes no difference to what a later append leaves (with the
    client); and reading twice is reading once. *)
Theorem conversation_operations_compose
    (gpt : bool) (U V : Z) (r r' : Role.t) (c c' : string) (s : StateManager) :
  (U ≠ V →
   addMessageToConversation gpt U r c (addMessageToConversation gpt V r' c' s) =
   addMessageToConversation gpt V r' c' (addMessageToConversation gpt U r c s)) ∧
  addMessageToConversation true U r c (snd (getConversation U s)) =
  addMessageToConversation true U r c s ∧
  snd (getConversation U (snd (getConversation U s))) = snd (getConversation U s) ∧
  fst (getConversation U (snd (getConversation U s))) = fst (getConversation U s).
Proof.
  split; [|split; [|split]].
  - intros HUV. destruct gpt; [|by rewrite !addMessage_disabled].
    apply StateManager_ext.
    1: by rewrite !(proj1 (addMessage_frame _ _ _ _ _)).
    1: by rewrite !(proj1 (proj2 (addMessage_frame _ _ _ _ _))).
    1: by rewrite !(proj2 (proj2 (proj2 (proj2 (addMessage_frame _ _ _ _ _))))).
    1: by rewrite !(proj1 (proj2 (proj2 (addMessage_frame _ _ _ _ _)))).
    2: by rewrite !(proj1 (proj2 (proj2 (proj2 (addMessage_frame _ _ _ _ _))))).
    rewrite !addMessage_conversations.
    assert (HU : historyOf U (addMessageToConversation true V r' c' s) = historyOf U s)
      by (by apply addMessage_other_history).
    assert (HV : historyOf V (addMessageToConversation true U r c s) = historyOf V s)
      by (by apply addMessage_other_history).
    rewrite HU, HV. by apply insert_insert_ne.
  - unfold addMessageToConversation, getConversation. cbn [negb].
    destruct (conversations s !! U) as [h|] eqn:Hh; cbn [snd]; [by rewrite Hh|].
    cbn [setConversations conversations]. rewrite lookup_insert_eq.
    cbn [setConversations conversations authorizedUsers adminUsers pendingOperations
         pendingVoiceTransformations userSessions].
    by rewrite !insert_insert_eq.
  - unfold getConversation.
    destruct (conversations s !! U) as [h|] eqn:Hh; cbn [snd]; [by rewrite Hh|].
    cbn [setConversations conversations]. by rewrite lookup_insert_eq.
  - unfold getConversation.
    destruct (conversations s !! U) as [h|] eqn:Hh; cbn [snd fst]; [by rewrite Hh|].
    cbn [setConversations conversations]. by rewrite lookup_insert_eq.
Qed.

(** X21. The lock and the voice intent as round trips.  Taking a free lock
    and releasing it gives back the state manager unchanged; releasing
    twice is releasing once, and releasing a free lock does nothing; a
    held lock is seen as held whatever its kind, and the lock of one user
    is never seen through another.  The same holds for arming and clearing
    the voice intent, which counts as armed only when the stored message
    id is not zero. *)
Theorem lock_and_intent_round_trips (U V : Z) (k : Operation) (id : Z) (s : StateManager) :
  (lockOf U s = None → clearPendingOperation U (setPendingOperation U k s) = s) ∧
  clearPendingOperation U (clearPendingOperation U s) = clearPendingOperation U s ∧
  (lockOf U s = None → clearPendingOperation U s = s) ∧
  hasPendingOperation U (setPendingOperation U k s) = true ∧
  hasPendingOperation U (clearPendingOperation U s) = false ∧
  (V ≠ U → hasPendingOperation V (setPendingOperation U k s) = hasPendingOperation V s ∧
           hasPendingOperation V (clearPendingOperation U s) = hasPendingOperation V s) ∧
  (intentOf U s = None →
   clearPendingVoiceTransformation U (setPendingVoiceTransformation U id s) = s) ∧
  clearPendingVoiceTransformation U (clearPendingVoiceTransformation U s) =
    clearPendingVoiceTransformation U s ∧
  getPendingVoiceTransformation U (setPendingVoiceTransformation U id s) = Some id ∧
  pendingV2V U (setPendingVoiceTransformation U id s) = truthy id ∧
  pendingV2V U (clearPendingVoiceTransformation U s) = false ∧
  (V ≠ U → pendingV2V V (setPendingVoiceTransformation U id s) = pendingV2V V s ∧
           pendingV2V V (clearPendingVoiceTransformation U s) = pendingV2V V s).
Proof.
  repeat apply conj.
  - apply release_after_acquire.
  - unfold clearPendingOperation at 1. rewrite clearPendingOperation_table, lookup_delete_eq.
    by rewrite bool_decide_eq_false_2 by (by intros [? ?]).
  - intros Hfree. unfold clearPendingOperation. unfold lockOf in Hfree. rewrite Hfree.
    by rewrite bool_decide_eq_false_2 by (by intros [? ?]).
  - unfold hasPendingOperation. cbn [setPendingOperation setOperations pendingOperations].
    rewrite lookup_insert_eq. by apply bool_decide_eq_true_2.
  - unfold hasPendingOperation. rewrite clearPendingOperation_table, lookup_delete_eq.
    by apply bool_decide_eq_false_2; intros [? ?].
  - intros HV. unfold hasPendingOperation. rewrite clearPendingOperation_table.
    cbn [setPendingOperation setOperations pendingOperations].
    rewrite lookup_insert_ne, lookup_delete_ne by done. done.
  - intros Hnone. rewrite clear_after_arm. unfold intentOf in Hnone.
    rewrite (delete_id _ _ Hnone). by destruct s.
  - unfold clearPendingVoiceTransformation at 1.
    rewrite clearPendingVoiceTransformation_table, lookup_delete_eq.
    by rewrite bool_decide_eq_false_2 by (by intros [? ?]).
  - unfold getPendingVoiceTransformation.
    cbn [setPendingVoiceTransformation setVoiceTransformations pendingVoiceTransformations].
    apply lookup_insert_eq.
  - unfold pendingV2V, getPendingVoiceTransformation.
    cbn [setPendingVoiceTransformation setVoiceTransformations pendingVoiceTransformations].
    by rewrite lookup_insert_eq.
  - unfold pendingV2V, getPendingVoiceTransformation.
    by rewrite clearPendingVoiceTransformation_table, lookup_delete_eq.
  - intros HV. unfold pendingV2V, getPendingVoiceTransformation.
    rewrite clearPendingVoiceTransformation_table.
    cbn [setPendingVoiceTransformation setVoiceTransformations pendingVoiceTransformations].
    rewrite lookup_insert_ne, lookup_delete_ne by done. done.
Qed.

(** ** Startup *)

Lemma verifyApis_ok (client : bool) (p : Process.env) (sv : Services) (probes : list Probe) :
  verifyApis client p sv = (Value tt, probes) ↔
  (isSet (Process.ELEVEN_API_KEY p) = true ∧
   (client = true → ∃ n, openaiTest sv = Resolved (Some (S n))) ∧
   elevenUser sv = Resolved true ∧
   (∃ same, elevenVoice sv = Resolved same)) ∧
  probes = (if client then [POpenAITest] else []) ++ [PElevenUser; PElevenVoice].
Proof.
  unfold verifyApis, verifyOpenAI, verifyElevenLabs. split.
  - destruct client.
    + destruct (openaiTest sv) as [[[|n]|]|]; cbn [andb Nat.ltb Nat.leb];
        try (by destruct (isSet _), (elevenUser sv) as [[]|], (elevenVoice sv)).
      destruct (isSet _); [|done]. destruct (elevenUser sv) as [[]|]; try done.
      destruct (elevenVoice sv) as [same|]; [|done]. intros [= <-].
      repeat split; eauto.
    + destruct (isSet _); [|done]. destruct (elevenUser sv) as [[]|]; try done.
      destruct (elevenVoice sv) as [same|]; [|done]. intros [= <-].
      repeat split; eauto. done.
  - intros [(Hkey & Hgpt & -> & [same ->]) ->]. rewrite Hkey. destruct client; [|done].
    destruct (Hgpt eq_refl) as [n ->]. done.
Qed.

Lemma validateEnvVars_iff (p : Process.env) :
  validateEnvVars p = true ↔
  isSet (Process.BOT_TOKEN p) = true ∧ isSet (Process.ELEVEN_API_KEY p) = true ∧
  isSet (Process.AUTHORIZED_USERS p) = true.
Proof.
  unfold validateEnvVars, required. cbn [missingOf].
  destruct (isSet (Process.BOT_TOKEN p)), (isSet (Process.ELEVEN_API_KEY p)),
    (isSet (Process.AUTHORIZED_USERS p)); cbn [negb]; split; (done || by intros (? & ? & ?)).
Qed.

(** X22. When the bot comes to listen.  The script ends in a listening bot
    exactly when a temporary directory could be made, the three required
    variables are set and not empty, Telegraf could be constructed, the
    user request of ElevenLabs showed a subscription and the voice request
    was answered (a voice id that does not match is accepted), the test
    completion returned a choice if the OpenAI client exists, and the
    launch succeeded.  The bot then has the ElevenLabs key, has the OpenAI
    client exactly when that key is set and its constructor succeeded, and
    starts from the initial state.  In every other case the process exits
    with code 1. *)
Theorem bot_listens_iff (p : Process.env) (sv : Services) (e : Env) (s : StateManager) :
  ((∃ probes, main p sv = Listening e s probes) ↔
   (startsWith (openai e) p sv ∧ ELEVEN_API_KEY e = true ∧
    s = initializeState (Process.AUTHORIZED_USERS p) (Process.ADMIN_USERS p))) ∧
  (∀ code probes, main p sv = Exited code probes → code = 1).
Proof.
  unfold main, setupTmpDir, start, verifyPrerequisites. split; [split|].
  - intros [probes Hmain]. unfold startsWith.
    assert (Hdir : ∃ u, tmpDir sv = Resolved u ∨ fallbackTmpDir sv = Resolved u).
    { destruct (tmpDir sv) as [u|]; [by exists u; left|].
      destruct (fallbackTmpDir sv) as [u|]; [by exists u; right|done]. }
    destruct (tmpDir sv) as [u0|]; cbn [negb] in Hmain;
      [|destruct (fallbackTmpDir sv) as [u0|]; cbn [negb] in Hmain; [|done]].
    all: destruct (initOpenAI p sv) as [client probes1] eqn:Hinit;
      destruct (isSet (Process.BOT_TOKEN p)) eqn:Htoken; cbn [negb] in Hmain; [|done];
      destruct (telegrafConstructor sv) as [u1|]; [|done];
      destruct (validateEnvVars p) eqn:Hvalid; [|done];
      apply validateEnvVars_iff in Hvalid as (_ & Hkey & Hallow);
      destruct (verifyApis client p sv) as [[[]|err] probes2] eqn:Hapis; cbn [negb] in Hmain;
        [|done];
      apply verifyApis_ok in Hapis as [(_ & Hgpt & Huser & Hvoice) _];
      destruct (launch sv) as [u2|]; [|done];
      injection Hmain as <- <- _; cbn [openai ELEVEN_API_KEY fst];
      repeat split; eauto.
  - intros ((Hdir & Htoken & Hkey & Hallow & [u1 Htg] & Hclient & Hgpt & Huser & Hvoice &
             [u2 Hlaunch]) & Hekey & ->).
    assert (Hvalid : validateEnvVars p = true) by (by apply validateEnvVars_iff).
    assert (Hapis : verifyApis (openai e) p sv =
                    (Value tt, (if openai e then [POpenAITest] else [])
                               ++ [PElevenUser; PElevenVoice]))
      by (by apply verifyApis_ok).
    destruct e as [client key]. cbn [openai ELEVEN_API_KEY] in *. subst key.
    destruct (initOpenAI p sv) as [client' probes1]. cbn [fst] in Hclient. subst client'.
    rewrite Htoken, Htg, Hvalid, Hapis, Hlaunch, Hkey. cbn [negb].
    destruct Hdir as [u [Hd|Hd]].
    + rewrite Hd. cbn [negb]. by eexists.
    + rewrite Hd. destruct (tmpDir sv); cbn [negb]; by eexists.
  - intros code probes.
    destruct (tmpDir sv); cbn [negb];
      [|destruct (fallbackTmpDir sv); cbn [negb]; [|by intros [= <- _]]].
    all: destruct (initOpenAI p sv) as [client probes1];
      destruct (negb (isSet (Process.BOT_TOKEN p))); [by intros [= <- _]|];
      destruct (telegrafConstructor sv); [|by intros [= <- _]];
      destruct (validateEnvVars p); [|by intros [= <- _]];
      destruct (verifyApis client p sv) as [[[]|err] probes2]; cbn [negb];
        [|by intros [= <- _]];
      destruct (launch sv); [done|by intros [= <- _]].
Qed.

Lemma processUpdate_unauthorized (env : Env) (k : UpdateKind) (ctx : Ctx) (w : World) :
  isAuthorized (from_id ctx) (sm w) = false →
  sm (snd (processUpdate env k ctx w)) = sm w ∧
  ∃ evs, trace (snd (processUpdate env k ctx w)) = trace w ++ evs ∧ Forall isRefusal evs.
Proof.
  intros Hauth. unfold processUpdate.
  destruct (truthy (from_id ctx)) eqn:Hid; cbn [negb].
  - unfold tryCatch. rewrite bind_getState, Hauth. cbn [negb]. rewrite tell_run.
    cbn [snd tick record sm trace]. split; [done|]. eexists. split; [reflexivity|].
    constructor; [|done]. by eexists _, _.
  - cbn [tryCatch ret snd]. split; [done|]. exists []. by rewrite app_nil_r.
Qed.

(** X23. A list of authorized users in which no entry is a number passes
    the validation of the environment, which only asks for a value that is
    not empty, but authorizes nobody.  The bot that starts with it never
    runs a handler: whatever updates arrive, the state manager stays the
    initial one and everything the bot ever sends is the refusal. *)
Theorem malformed_allowlist_locks_everyone_out
    (p : Process.env) (env : Env) (us : list (UpdateKind * Ctx)) (o : Oracle) :
  isSet (Process.AUTHORIZED_USERS p) = true →
  (∀ t, t ∈ tokensOf (Process.AUTHORIZED_USERS p) → Str.parseInt (Str.trim t) = None) →
  let s := initializeState (Process.AUTHORIZED_USERS p) (Process.ADMIN_USERS p) in
  let w := runUpdates env us (startWorld o s) in
  validateEnvVars p =
    isSet (Process.BOT_TOKEN p) && isSet (Process.ELEVEN_API_KEY p) ∧
  sm w = s ∧
  Forall isRefusal (trace w).
Proof.
  intros Hset Hbad. cbn zeta. split.
  { unfold validateEnvVars, required. cbn [missingOf]. rewrite Hset.
    by destruct (isSet (Process.BOT_TOKEN p)), (isSet (Process.ELEVEN_API_KEY p)). }
  set (s := initializeState _ _).
  assert (Hnobody : authorizedUsers s = ∅) by (by apply idSet_all_malformed).
  assert (Hrun : ∀ w, sm w = s → Forall isRefusal (trace w) →
            sm (runUpdates env us w) = s ∧ Forall isRefusal (trace (runUpdates env us w))).
  { induction us as [|[k ctx] us IH]; intros w Hsm Htr; [done|].
    cbn [runUpdates foldl]. fold (runUpdates env us (snd (processUpdate env k ctx w))).
    destruct (processUpdate_unauthorized env k ctx w) as (Hsm' & evs & Htr' & Hevs).
    - unfold isAuthorized. rewrite Hsm, Hnobody.
      rewrite bool_decide_eq_false_2 by set_solver. apply andb_false_r.
    - apply IH; [congruence|]. rewrite Htr'. by apply Forall_app. }
  apply Hrun; [done|]. constructor.
Qed.

Lemma malformed_allowlist_locks_everyone_out_witness :
  let s := initializeState (Some "abc, x7"%string) None in
  let us := [(command_help, mkCtx 7 1 "/help" EmptyString);
             (text_message, mkCtx 7 2 "hola" EmptyString)] in
  (∃ probes, main sampleProcess sampleServices = Listening (mkEnv false true) s probes) ∧
  validateEnvVars sampleProcess = true ∧
  sm (runUpdates sampleEnv us (startWorld obligingOracle s)) = s ∧
  Forall isRefusal (trace (runUpdates sampleEnv us (startWorld obligingOracle s))).
Proof.
  intros s us. split; [by eexists|].
  apply (malformed_allowlist_locks_everyone_out sampleProcess sampleEnv us obligingOracle).
  - reflexivity.
  - intros t Ht. apply list_elem_of_In in Ht. vm_compute in Ht.
    destruct Ht as [<-|[<-|[]]]; reflexivity.
Defined.

(** ** Cleanup of the voice pipeline *)

(** X24. The two temporary files of the voice pipeline are removed in one
    [try]: when the removal of the downloaded input fails, the cleanup
    ends there without throwing, and the transformed output is neither
    looked for nor removed. *)
Theorem v2v_cleanup_stops_at_first_failure (w : World) (input output : Path) (e : Error) :
  tempInputFilePath (locals w) = Some input →
  transformedFilePath (locals w) = Some output →
  observe (oracle w) bool (existsSync input) (steps w) = true →
  answer (oracle w) unit (unlinkSync input) (S (steps w)) = Rejected e →
  fst (v2vCleanup w) = Value tt ∧
  sm (snd (v2vCleanup w)) = sm w ∧
  map action (since w (snd (v2vCleanup w))) =
    [Observed (existsSync input) true; Called (unlinkSync input) (Rejected e)].
Proof.
  intros Hin Hout Hfound Hfail.
  set (w1 := tick (record (Observed (existsSync input) true) w)).
  assert (Hfirst : unlinkIfExists (Some input) w =
                   (Thrown e, tick (record (Called (unlinkSync input) (Rejected e)) w1))).
  { cbn [unlinkIfExists]. rewrite bind_query, Hfound. by apply call_rejected. }
  change (v2vCleanup w) with
    (tryCatch (do! unlinkIfExists (tempInputFilePath (locals w)) in
               unlinkIfExists (transformedFilePath (locals w)))
              (fun _ => ret tt) w).
  rewrite Hin, Hout.
  rewrite (tryCatch_thrown _ _ _ _ _ (bind_thrown _ _ _ _ _ Hfirst)). cbn [ret fst snd].
  split; [done|]. split; [done|].
  unfold since, w1. cbn [tick record trace].
  by rewrite <- app_assoc, drop_app_length.
Qed.

Lemma v2v_cleanup_stops_at_first_failure_witness :
  let input := v2v_input 1 ".oga" in
  let w := withLocals (mkLocals None None (Some input) (Some (sts_output 2)))
             (startWorld (flakyOracle 2) idleState) in
  fst (v2vCleanup w) = Value tt ∧
  sm (snd (v2vCleanup w)) = sm w ∧
  map action (since w (snd (v2vCleanup w))) =
    [Observed (existsSync input) true;
     Called (unlinkSync input) (Rejected (newError "attempt 1"))].
Proof.
  intros input w.
  apply (v2v_cleanup_stops_at_first_failure w input (sts_output 2)); reflexivity.
Defined.

(** ** Text messages *)

(** X25. Where a text message goes.  A text that is empty, blank or starts
    with a slash - a command without handler - is ignored without any
    reply.  Any other text cancels an armed voice intent; without armed
    intent it gets the notice that the chat is off when there is no OpenAI
    client, and is handed as it is to the text pipeline otherwise. *)
Theorem text_message_routing (env : Env) (ctx : Ctx) (w : World) :
  let U := from_id ctx in
  (isPlainText (msg_text ctx) = false → handleMessage env ctx w = (Value tt, w)) ∧
  (isPlainText (msg_text ctx) = true → pendingV2V U (sm w) = false →
   handleMessage env ctx w =
   if openai env then processGPTMessage env ctx (msg_text ctx) w else tell TGptOff w) ∧
  (isPlainText (msg_text ctx) = true → pendingV2V U (sm w) = true →
   fst (handleMessage env ctx w) = Value tt ∧
   backendCalls (since w (snd (handleMessage env ctx w))) = 0%nat ∧
   pendingV2V U (sm (snd (handleMessage env ctx w))) = false).
Proof.
  cbn zeta. unfold handleMessage, isPlainText. split; [|split].
  - intros H%negb_false_iff. by rewrite H.
  - intros H%negb_true_iff Hidle. rewrite H, bind_getState, Hidle. by destruct (openai env).
  - intros H%negb_true_iff Harmed. rewrite H, bind_getState, Harmed.
    unfold bind. rewrite tell_run. cbn [modify fst snd]. split; [done|]. split.
    + unfold since. cbn [withState tick record trace]. by rewrite drop_app_length.
    + cbn [withState tick record sm]. unfold pendingV2V, getPendingVoiceTransformation.
      by rewrite clearPendingVoiceTransformation_table, lookup_delete_eq.
Qed.

(** ** Blocks that only talk *)

Section Tame.
Context (Φ : Action -> Prop).

Lemma tame_step {A} (f : World -> Result A * World) :
  (∀ w, sm (snd (f w)) = sm w ∧ locals (snd (f w)) = locals w ∧ trace (snd (f w)) = trace w) →
  tame Φ f.
Proof.
  intros H w. destruct (H w) as (Hsm & Hl & Htr). split; [done|]. split; [done|].
  exists []. by rewrite app_nil_r.
Qed.

Lemma tame_ret {A} (a : A) : tame Φ (ret a).
Proof. by apply tame_step. Qed.

Lemma tame_throw {A} (e : Error) : tame Φ (@throw A e).
Proof. by apply tame_step. Qed.

Lemma tame_getState : tame Φ getState.
Proof. by apply tame_step. Qed.

Lemma tame_getLocals : tame Φ getLocals.
Proof. by apply tame_step. Qed.

Lemma tame_then {A} (m1 : World -> Result A * World) (w w1 w2 : World) :
  (sm w1 = sm w ∧ locals w1 = locals w ∧
   ∃ evs, trace w1 = trace w ++ evs ∧
          Forall (fun ev => Φ (action ev) ∧ snapshot ev = sm w) evs) →
  (sm w2 = sm w1 ∧ locals w2 = locals w1 ∧
   ∃ evs, trace w2 = trace w1 ++ evs ∧
          Forall (fun ev => Φ (action ev) ∧ snapshot ev = sm w1) evs) →
  sm w2 = sm w ∧ locals w2 = locals w ∧
  ∃ evs, trace w2 = trace w ++ evs ∧
         Forall (fun ev => Φ (action ev) ∧ snapshot ev = sm w) evs.
Proof.
  intros (Hsm & Hl & evs & Htr & Hevs) (Hsm' & Hl' & evs' & Htr' & Hevs').
  split; [congruence|]. split; [congruence|]. exists (evs ++ evs').
  rewrite Htr', Htr, app_assoc. split; [done|]. apply Forall_app. split; [done|].
  eapply Forall_impl; [exact Hevs'|]. intros ev [? ?]. split; [done|congruence].
Qed.

Lemma tame_bind {A B} (m : M A) (k : A -> M B) :
  tame Φ m → (∀ a, tame Φ (k a)) → tame Φ (bind m k).
Proof.
  intros Hm Hk w. unfold bind. pose proof (Hm w) as H1.
  destruct (m w) as [[a|e] w1]; cbn [snd] in *; [|done].
  exact (tame_then m w w1 _ H1 (Hk a w1)).
Qed.

Lemma tame_tryCatch {A} (m : M A) (h : Error -> M A) :
  tame Φ m → (∀ e, tame Φ (h e)) → tame Φ (tryCatch m h).
Proof.
  intros Hm Hh w. unfold tryCatch. pose proof (Hm w) as H1.
  destruct (m w) as [[a|e] w1]; cbn [snd] in *; [done|].
  exact (tame_then m w w1 _ H1 (Hh e w1)).
Qed.

Lemma tame_call {T} (c : Call T) : (∀ r, Φ (Called c r)) → tame Φ (call c).
Proof.
  intros Hc w. unfold call.
  destruct (answer (oracle w) T c (steps w)); cbn [snd tick record sm locals trace];
    (split; [done|]; split; [done|]; eexists; split; [reflexivity|];
     constructor; [split; [apply Hc|done]|constructor]).
Qed.

Lemma tame_query {T} (q : Query T) : (∀ v, Φ (Observed q v)) → tame Φ (query q).
Proof.
  intros Hq w. cbn. split; [done|]. split; [done|]. eexists. split; [reflexivity|].
  constructor; [split; [apply Hq|done]|constructor].
Qed.

Lemma tame_sleep (ms : Z) : Φ (Slept ms) → tame Φ (sleep ms).
Proof.
  intros Hs w. cbn. split; [done|]. split; [done|]. eexists. split; [reflexivity|].
  constructor; [split; [apply Hs|done]|constructor].
Qed.

Lemma tame_caught {T} (c : Call T) : (∀ r, Φ (Called c r)) → tame Φ (caught c).
Proof.
  intros Hc. apply tame_tryCatch; [|intros; apply tame_ret].
  apply tame_bind; [by apply tame_call|intros; apply tame_ret].
Qed.

Lemma tame_tell (text : Text) : (∀ r, Φ (Called (reply text) r)) → tame Φ (tell text).
Proof. intros Hc. apply tame_bind; [by apply tame_caught|intros; apply tame_ret]. Qed.

Lemma tame_whenLoading {T} (lm : option ChatMessage) (c : ChatMessage -> Call T) :
  (∀ m r, Φ (Called (c m) r)) → tame Φ (whenLoading lm c).
Proof.
  intros Hc. destruct lm as [m|]; [|apply tame_ret].
  apply tame_bind; [by apply tame_caught|intros; apply tame_ret].
Qed.

Lemma tame_report (text : Text) :
  (∀ r, Φ (Called (reply text) r)) → (∀ id r, Φ (Called (editMessageText id text) r)) →
  tame Φ (report text).
Proof.
  intros Hr He. apply tame_bind; [apply tame_getLocals|]. intros l.
  destruct (loadingMessage l); [|by apply tame_tell].
  apply tame_tryCatch; [by apply tame_call|intros; by apply tame_tell].
Qed.

Lemma tame_retryFrom {A} (fn : M A) (maxRetries : nat) (delay : Z) (left : nat) :
  tame Φ fn → (∀ ms, Φ (Slept ms)) →
  ∀ i lastError, tame Φ (retryFrom fn maxRetries delay i left lastError).
Proof.
  intros Hfn Hs. induction left as [|left IH]; intros i lastError; cbn [retryFrom].
  - apply tame_throw.
  - apply tame_tryCatch; [done|]. intros e. apply tame_bind; [|intros; apply IH].
    destruct (_ <? _)%nat; [by apply tame_sleep|apply tame_ret].
Qed.

Lemma tame_retry {T} (c : Call T) (maxRetries : nat) (delay : Z) :
  (∀ r, Φ (Called c r)) → (∀ ms, Φ (Slept ms)) → tame Φ (retry (call c) maxRetries delay).
Proof. intros Hc Hs. apply tame_retryFrom; [by apply tame_call|done]. Qed.

End Tame.

Section Adds.
Context (G : Event -> Prop).

Lemma addsAt_bind {A B} (m : M A) (k : A -> M B) (w : World) :
  addsAt G m w → (∀ a, adds G (k a)) → addsAt G (bind m k) w.
Proof.
  intros (evs & Htr & Hevs) Hk. unfold addsAt, bind.
  destruct (m w) as [[a|e] w1]; cbn [snd] in *; [|by exists evs].
  destruct (Hk a w1) as (evs' & Htr' & Hevs'). exists (evs ++ evs').
  rewrite Htr', Htr, app_assoc. split; [done|]. by apply Forall_app.
Qed.

Lemma addsAt_tryCatch {A} (m : M A) (h : Error -> M A) (w : World) :
  addsAt G m w → (∀ e, adds G (h e)) → addsAt G (tryCatch m h) w.
Proof.
  intros (evs & Htr & Hevs) Hh. unfold addsAt, tryCatch.
  destruct (m w) as [[a|e] w1]; cbn [snd] in *; [by exists evs|].
  destruct (Hh e w1) as (evs' & Htr' & Hevs'). exists (evs ++ evs').
  rewrite Htr', Htr, app_assoc. split; [done|]. by apply Forall_app.
Qed.

Lemma addsAt_tryCatchFinally {A} (m : M A) (h : Error -> M A) (f : M unit) (w : World) :
  addsAt G m w → (∀ e, adds G (h e)) → adds G f → addsAt G (tryCatchFinally m h f) w.
Proof.
  intros Hm Hh Hf. destruct (addsAt_tryCatch m h w Hm Hh) as (evs & Htr & Hevs).
  unfold addsAt, tryCatchFinally. destruct (tryCatch m h w) as [r w1]. cbn [snd] in *.
  destruct (Hf w1) as (evs' & Htr' & Hevs'). exists (evs ++ evs').
  destruct (f w1) as [[[]|e] w2]; cbn [snd] in *;
    rewrite Htr', Htr, app_assoc; (split; [done|]; by apply Forall_app).
Qed.

Lemma adds_bind {A B} (m : M A) (k : A -> M B) :
  adds G m → (∀ a, adds G (k a)) → adds G (bind m k).
Proof. intros Hm Hk w. by apply addsAt_bind. Qed.

Lemma adds_tryCatch {A} (m : M A) (h : Error -> M A) :
  adds G m → (∀ e, adds G (h e)) → adds G (tryCatch m h).
Proof. intros Hm Hh w. by apply addsAt_tryCatch. Qed.

Lemma adds_silent {A} (f : World -> Result A * World) :
  (∀ w, trace (snd (f w)) = trace w) → adds G f.
Proof. intros H w. exists []. by rewrite H, app_nil_r. Qed.

Lemma adds_of_spends (cost : Action -> nat) {A} (m : M A) :
  (∀ ev, cost (action ev) = 0%nat → G ev) → spends cost 0 m → adds G m.
Proof.
  intros HG Hm w. destruct (Hm w) as (evs & Htr & Hc). exists evs. split; [done|].
  clear Htr. induction evs as [|ev evs IH]; [done|].
  unfold weigh in Hc. cbn [sum_list_with] in Hc. constructor.
  - apply HG. lia.
  - apply IH. unfold weigh. lia.
Qed.

End Adds.

(** ** Requests to the model *)

Lemma chatCost_observed T (q : Query T) (v : T) : chatCost (Observed q v) = 0%nat.
Proof. reflexivity. Qed.

Lemma chatCost_free T (c : Call T) (r : Outcome T) :
  backendCost (Called c r) = 0%nat → chatCost (Called c r) = 0%nat.
Proof. by destruct c. Qed.

Lemma spends_retry_chatless {T} (c : Call T) :
  (∀ r, chatCost (Called c r) = 0%nat) →
  spends chatCost 0 (retry (call c) CONFIG.MAX_RETRIES CONFIG.RETRY_DELAY).
Proof.
  intros Hc. unfold retry. generalize 0%nat at 2. generalize (@None Error).
  induction CONFIG.MAX_RETRIES as [|left IH] at 2; intros lastError i; cbn [retryFrom].
  - apply spends_throw.
  - apply (spends_tryCatch chatCost 0 0).
    + intros w. unfold call.
      exists [mkEvent (Called c (answer (oracle w) T c (steps w))) (sm w)]. split.
      * by destruct (answer _ _ _ _).
      * unfold weigh. cbn. rewrite Hc. lia.
    + intros e. apply (spends_bind chatCost 0 0); [|intros; apply IH].
      destruct (_ <? _)%nat; [|apply spends_ret].
      intros w. eexists. split; [reflexivity|]. cbn. lia.
Qed.

Lemma wellFormed_chatless (ev : Event) : chatCost (action ev) = 0%nat → wellFormedRequest ev.
Proof.
  intros H messages Hm. unfold chatCost in H. by rewrite Hm in H.
Qed.

Lemma adds_chatless {A} (m : M A) : spends chatCost 0 m → adds wellFormedRequest m.
Proof. apply adds_of_spends, wellFormed_chatless. Qed.

Lemma tame_generateGPTResponse (env : Env) (h : list Message) :
  tame (fun a => ∀ messages, chatMessagesOf a = Some messages → messages = h)
       (generateGPTResponse env h).
Proof.
  unfold generateGPTResponse. destruct (negb (openai env)); [apply tame_throw|].
  apply tame_tryCatch; [|intros; apply tame_throw].
  apply tame_bind.
  - apply tame_retry; [|done]. intros r messages [= <-]. done.
  - intros [responseText|]; [|apply tame_throw].
    destruct (Str.isEmpty responseText); [apply tame_throw|apply tame_ret].
Qed.

Ltac chatless :=
  apply adds_chatless;
  first [ apply spends_tell | apply spends_report | apply spends_whenLoading
        | apply spends_caught | apply spends_answer | apply spends_handleHelp
        | apply spends_handleTextToVoiceCommand | apply spends_handleVoiceToVoiceCommand
        | apply spends_handleResetConversation | apply spends_onSound
        | apply spends_updateSession | apply spends_ret ];
  first [ exact chatCost_observed | exact chatCost_free | done
        | (intros; by apply spends_retry_chatless) ].

Lemma adds_gptTry (env : Env) (U : Z) (userMessage : string) :
  openai env = true → adds wellFormedRequest (gptTry env U userMessage).
Proof.
  intros Hgpt. unfold gptTry. rewrite Hgpt.
  apply adds_bind; [chatless|]. intros lm.
  apply adds_bind; [by apply adds_silent|]. intros _.
  apply adds_bind; [chatless|]. intros _.
  intros w. unfold addsAt. rewrite bind_modify, bind_stateful. cbn [withState sm].
  rewrite (getConversation_stored U _ _ (addMessage_history U Role.user userMessage (sm w))).
  cbn [fst snd].
  set (h := pushed _ _). set (wg := withState _ (withState _ w)).
  change (trace w) with (trace wg). apply addsAt_bind.
  - destruct (tame_generateGPTResponse env h wg) as (_ & _ & evs & Htr & Hevs).
    exists evs. split; [done|]. eapply Forall_impl; [exact Hevs|].
    intros ev [Hchat Hsnap] messages Hm. rewrite (Hchat messages Hm), Hsnap. split.
    + exists U. apply addMessage_history.
    + exists userMessage. apply pushed_last.
  - intros gptResponse. apply adds_bind; [by apply adds_silent|]. intros _. chatless.
Qed.

Lemma adds_processGPTMessage (env : Env) (ctx : Ctx) (userMessage : string) :
  adds wellFormedRequest (processGPTMessage env ctx userMessage).
Proof.
  unfold processGPTMessage. destruct (openai env) eqn:Hgpt; cbn [negb]; [|chatless].
  apply adds_bind; [by apply adds_silent|]. intros s.
  destruct (hasPendingOperation _ s); [chatless|].
  apply adds_bind; [by apply adds_silent|]. intros _.
  apply adds_bind; [by apply adds_silent|]. intros _.
  intros w. apply addsAt_tryCatchFinally.
  - by apply adds_gptTry.
  - intros e. chatless.
  - by apply adds_silent.
Qed.

Lemma adds_processUpdate (env : Env) (k : UpdateKind) (ctx : Ctx) :
  adds wellFormedRequest (processUpdate env k ctx).
Proof.
  unfold processUpdate. apply adds_tryCatch.
  - destruct (negb (truthy _)); [by apply adds_silent|].
    apply adds_bind; [by apply adds_silent|]. intros s.
    destruct (negb (isAuthorized _ s)); [chatless|].
    apply adds_bind; [chatless|]. intros _.
    destruct k; cbn [dispatch]; try chatless.
    + unfold handleTextCommand. destruct (negb (openai env)); [chatless|].
      destruct (matchSlashT _); [|chatless].
      destruct (Str.isEmpty _); [chatless|]. apply adds_processGPTMessage.
    + unfold handleMessage.
      match goal with |- adds _ (if ?b then _ else _) => destruct b end;
        [by apply adds_silent|].
      apply adds_bind; [by apply adds_silent|]. intros s0.
      destruct (pendingV2V _ s0).
      * apply adds_bind; [chatless|]. intros _. by apply adds_silent.
      * destruct (negb (openai env)); [chatless|]. apply adds_processGPTMessage.
  - intros e. apply adds_bind; [chatless|]. intros _.
    destruct (truthy _); [|by apply adds_silent].
    apply adds_bind; by intros; apply adds_silent.
Qed.

(** X26. Every request the bot ever sends to the model is well formed.  In
    any run of the bot from its initial state, updates being processed one
    after the other, each call of the chat completion carries a history
    that is stored for some user at that moment, starts with the system
    prompt, ends with a message of the user, and holds at most 21
    messages. *)
Theorem model_requests_well_formed
    (env : Env) (us : list (UpdateKind * Ctx)) (o : Oracle) (a b : option string) :
  let w := runUpdates env us (startWorld o (initializeState a b)) in
  Forall (fun ev => ∀ messages,
            chatMessagesOf (action ev) = Some messages →
            (length messages ≤ 21)%nat ∧
            messages !! 0%nat = Some systemMessage ∧
            (∃ c, last messages = Some (mkMessage Role.user c)) ∧
            (∃ U, historyOf U (snapshot ev) = Some messages))
         (trace w).
Proof.
  cbn zeta.
  assert (Hreq : ∀ w, Forall wellFormedRequest (trace w) →
            Forall wellFormedRequest (trace (runUpdates env us w))).
  { induction us as [|[k ctx] us IH]; intros w Hw; [done|].
    cbn [runUpdates foldl]. fold (runUpdates env us (snd (processUpdate env k ctx w))).
    apply IH. destruct (adds_processUpdate env k ctx w) as (evs & -> & Hevs).
    by apply Forall_app. }
  destruct (evolves_runUpdates storeOk env us) with (w := startWorld o (initializeState a b))
    as (_ & evs & Htrace & Hstore).
  { intros k ctx. apply (keeps_processUpdate_stable storeOk (from_id ctx)); [|done].
    apply stableFor_storeOk. }
  { apply storeOk_initial. }
  specialize (Hreq (startWorld o (initializeState a b)) (Forall_nil_2 _)).
  rewrite Htrace in *. cbn [startWorld trace app] in *.
  apply Forall_forall. intros ev Hev messages Hm.
  rewrite Forall_forall in Hreq, Hstore.
  destruct (Hreq ev Hev messages Hm) as [[U HU] Hlast].
  destruct (Hstore ev Hev U messages HU) as [Hlen Hhead].
  rewrite maxMessages_21 in Hlen. eauto.
Qed.

(** ** The temporary file of the text-to-speech pipeline *)

Lemma untracked_tame {A} (tr0 : list Event) (m : M A) (w : World) :
  tame (fun a => writtenPath a = None) m → untracked tr0 w → untracked tr0 (snd (m w)).
Proof.
  intros Hm (evs & Htr & Hnone & Hevs). destruct (Hm w) as (_ & Hl & evs' & Htr' & Hevs').
  exists (evs ++ evs'). rewrite Htr', Htr, Hl, app_assoc. split; [done|]. split; [done|].
  apply Forall_app. split; [done|]. eapply Forall_impl; [exact Hevs'|]. by intros ev [? _].
Qed.

Lemma filesTracked_tame {A} (tr0 : list Event) (m : M A) (w : World) :
  tame (fun a => writtenPath a = None) m → filesTracked tr0 w → filesTracked tr0 (snd (m w)).
Proof.
  intros Hm [Hw|(p & evs1 & ev & evs2 & Htr & Hp & H1 & Hev & H2)].
  - left. by apply untracked_tame.
  - right. destruct (Hm w) as (_ & Hl & evs' & Htr' & Hevs').
    exists p, evs1, ev, (evs2 ++ evs'). rewrite Htr', Htr, Hl, <- !app_assoc.
    split; [done|]. split; [done|]. split; [done|]. split; [done|].
    apply Forall_app. split; [done|]. eapply Forall_impl; [exact Hevs'|]. by intros ? [? _].
Qed.

Lemma tracked_bind_tame {A B} (tr0 : list Event) (m : M A) (k : A -> M B) (w : World) :
  tame (fun a => writtenPath a = None) m →
  (∀ a w1, untracked tr0 w1 → filesTracked tr0 (snd (k a w1))) →
  untracked tr0 w → filesTracked tr0 (snd (bind m k w)).
Proof.
  intros Hm Hk Hw. pose proof (untracked_tame tr0 m w Hm Hw) as H1. unfold bind.
  destruct (m w) as [[a|e] w1]; cbn [snd] in *; [by apply Hk|by left].
Qed.

Lemma tracked_bind_assign {B} (tr0 : list Event) (f : Locals -> Locals) (k : unit -> M B)
    (w : World) :
  (∀ l, audioFilePath (f l) = audioFilePath l) →
  (∀ w1, untracked tr0 w1 → filesTracked tr0 (snd (k tt w1))) →
  untracked tr0 w → filesTracked tr0 (snd (bind (assign f) k w)).
Proof.
  intros Hf Hk (evs & Htr & Hnone & Hevs). rewrite bind_assign. apply Hk.
  exists evs. cbn [withLocals trace locals]. by rewrite Hf.
Qed.

Lemma tryCatch_returned {A} (m : M A) (h : Error -> M A) (w w' : World) (a : A) :
  m w = (Value a, w') → tryCatch m h w = (Value a, w').
Proof. intros H. unfold tryCatch. by rewrite H. Qed.

(** [generateVoice] writes at most one file, as the last thing it does, and
    exactly when it returns; the path returned is the path written. *)
Lemma generateVoice_files (env : Env) (text : string) (options : Options.t) (w : World) :
  ∃ r w', generateVoice env text options w = (r, w') ∧
    locals w' = locals w ∧
    ∃ evs, trace w' = trace w ++ evs ∧
      match r with
      | Value p => ∃ evs' ev, evs = evs' ++ [ev] ∧
                              Forall (fun ev => writtenPath (action ev) = None) evs' ∧
                              writtenPath (action ev) = Some p
      | Thrown _ => Forall (fun ev => writtenPath (action ev) = None) evs
      end.
Proof.
  unfold generateVoice. destruct (negb (ELEVEN_API_KEY env)).
  { eexists _, _. split; [reflexivity|]. split; [done|]. exists []. by rewrite app_nil_r. }
  destruct (tame_retry (fun a => writtenPath a = None)
              (postTextToSpeech text (finalSettings options))
              CONFIG.MAX_RETRIES CONFIG.RETRY_DELAY) with (w := w)
    as (_ & Hl & evs & Htr & Hevs); [done..|].
  assert (Hevs' : Forall (fun ev => writtenPath (action ev) = None) evs).
  { eapply Forall_impl; [exact Hevs|]. by intros ? [? _]. }
  destruct (retry _ _ _ w) as [[response|e] w1] eqn:Hretry; cbn [snd] in *.
  2:{ rewrite (tryCatch_thrown _ _ _ _ _ (bind_thrown _ _ _ _ _ Hretry)).
      eexists _, _. split; [reflexivity|]. split; [done|]. by exists evs. }
  destruct (invalidResponse response) eqn:Hinvalid.
  { erewrite tryCatch_thrown; [|by rewrite (bind_value _ _ _ _ _ Hretry), Hinvalid].
    eexists _, _. split; [reflexivity|]. split; [done|]. by exists evs. }
  set (now := observe (oracle w1) Z DateNow (steps w1)).
  set (w2 := tick (record (Observed DateNow now) w1)).
  destruct (answer (oracle w2) unit (writeFileSync (tts_output now)) (steps w2)) as [[]|e]
    eqn:Hwrite.
  - erewrite tryCatch_returned.
    2:{ rewrite (bind_value _ _ _ _ _ Hretry), Hinvalid, bind_query. fold now. fold w2.
        by rewrite (bind_value _ _ _ _ _ (call_resolved _ _ _ Hwrite)). }
    eexists _, _. split; [reflexivity|]. split; [done|]. eexists. split.
    + unfold w2. cbn [tick record trace]. rewrite Htr, <- !app_assoc. reflexivity.
    + exists (evs ++ [mkEvent (Observed DateNow now) (sm w1)]),
        (mkEvent (Called (writeFileSync (tts_output now)) (Resolved tt)) (sm w1)).
      rewrite <- app_assoc. split; [done|]. split; [|done].
      apply Forall_app. split; [done|]. by repeat constructor.
  - erewrite tryCatch_thrown.
    2:{ rewrite (bind_value _ _ _ _ _ Hretry), Hinvalid, bind_query. fold now. fold w2.
        by rewrite (bind_thrown _ _ _ _ _ (call_rejected _ _ _ Hwrite)). }
    eexists _, _. split; [reflexivity|]. split; [done|]. eexists. split.
    + unfold w2. cbn [tick record trace]. rewrite Htr, <- !app_assoc. reflexivity.
    + apply Forall_app. split; [done|]. by repeat constructor.
Qed.

Lemma t2vTry_files (env : Env) (textToConvert : string) (overrides : Options.t)
    (tr0 : list Event) (w : World) :
  untracked tr0 w → filesTracked tr0 (snd (t2vTry env textToConvert overrides w)).
Proof.
  unfold t2vTry.
  apply tracked_bind_tame; [by apply tame_caught|]. intros lm w1.
  apply tracked_bind_assign; [done|]. intros w2.
  apply tracked_bind_tame; [by apply tame_whenLoading|]. intros _ w3.
  apply tracked_bind_tame; [by apply tame_whenLoading|]. intros _ w4.
  intros (evs & Htr & Hnone & Hevs).
  destruct (generateVoice_files env textToConvert overrides w4)
    as ([p|e] & w5 & Hgv & Hl & gen & Hgen & Hres).
  - rewrite (bind_value _ _ _ _ _ Hgv).
    destruct Hres as (gen' & ev & -> & Hgen' & Hev). rewrite bind_assign.
    match goal with |- filesTracked _ (snd (?m ?w6)) =>
      apply (filesTracked_tame tr0 m w6) end.
    + apply tame_bind; [by apply tame_whenLoading|]. intros _.
      apply tame_bind; [by apply tame_whenLoading|]. intros _.
      apply tame_bind; [by apply tame_call|]. intros _.
      by apply tame_whenLoading.
    + right. exists p, (evs ++ gen'), ev, [].
      cbn [withLocals trace locals setAudioFilePath audioFilePath].
      rewrite Hgen, Htr, <- !app_assoc. split; [done|]. split; [done|].
      split; [by apply Forall_app|]. split; [done|constructor].
  - rewrite (bind_thrown _ _ _ _ _ Hgv). left. exists (evs ++ gen). cbn [snd].
    rewrite Hgen, Htr, Hl, app_assoc. split; [done|]. split; [done|]. by apply Forall_app.
Qed.

Lemma unique_write (p : Path) (evs1 evs2 before after : list Event) (ev x : Event) :
  Forall (fun ev => writtenPath (action ev) = None) evs1 →
  Forall (fun ev => writtenPath (action ev) = None) evs2 →
  evs1 ++ ev :: evs2 = before ++ x :: after →
  writtenPath (action x) = Some p →
  x = ev ∧ after = evs2.
Proof.
  intros H1 H2. revert before. induction H1 as [|y evs1 Hy H1 IH]; intros before Heq Hx.
  - destruct before as [|b before]; cbn in Heq.
    + by injection Heq as -> ->.
    + injection Heq as -> ->. apply Forall_app in H2 as [_ H2].
      apply Forall_cons in H2 as [H2 _]. congruence.
  - destruct before as [|b before]; cbn in Heq.
    + injection Heq as -> _. congruence.
    + injection Heq as _ Heq. by apply (IH before).
Qed.

Lemma filesRemoved_clean (tr0 : list Event) (w : World) (evs : list Event) :
  trace w = tr0 ++ evs → Forall (fun ev => writtenPath (action ev) = None) evs →
  filesRemoved tr0 w.
Proof.
  intros Htr Hevs. exists evs. split; [done|]. intros p before ev after -> Hev.
  apply Forall_app in Hevs as [_ Hevs]. apply Forall_cons in Hevs as [Hnone _]. congruence.
Qed.

Lemma t2vCleanup_removes (tr0 : list Event) (w : World) :
  filesTracked tr0 w → filesRemoved tr0 (snd (t2vCleanup w)).
Proof.
  unfold t2vCleanup, bind at 1, getLocals.
  intros [(evs & Htr & Hnone & Hevs)|(p & evs1 & ev & evs2 & Htr & Hp & H1 & Hev & H2)].
  - rewrite Hnone. cbn [unlinkIfExists tryCatch ret snd]. by eapply filesRemoved_clean.
  - rewrite Hp. cbn [unlinkIfExists]. unfold tryCatch. rewrite bind_query.
    set (found := observe (oracle w) bool (existsSync p) (steps w)).
    set (w1 := tick (record _ w)).
    assert (Hend : ∃ tail_,
      trace (snd (let (r, w') := (if found then call (unlinkSync p) else ret tt) w1 in
                  match r with Value a => (Value a, w') | Thrown e => ret tt w' end))
      = trace w1 ++ tail_ ∧
      Forall (fun ev => writtenPath (action ev) = None) tail_ ∧
      (found = true → ∃ r post', map action tail_ = Called (unlinkSync p) r :: post')).
    { destruct found.
      - unfold call. destruct (answer _ _ _ _); cbn [ret snd tick record trace];
          (eexists; split; [reflexivity|]; split; [by repeat constructor|];
           intros _; by eexists _, _).
      - exists []. cbn [ret snd]. rewrite app_nil_r. by repeat split. }
    destruct Hend as (tail_ & Htail & Hnw & Hunlink).
    eexists. split.
    { rewrite Htail. unfold w1. cbn [tick record trace]. rewrite Htr, <- !app_assoc.
      reflexivity. }
    intros p' before x after Heq Hx. cbn [app] in Heq.
    destruct (unique_write p' evs1 _ before after ev x H1
                (proj2 (Forall_app _ _ _) (conj H2
                   (Forall_cons_2 _ _ _ (eq_refl : writtenPath (action
                      (mkEvent (Observed (existsSync p) found) (sm w))) = None) Hnw))) Heq Hx)
      as [-> ->].
    assert (p' = p) as -> by congruence.
    exists (map action evs2), found, (map action tail_).
    split; [by rewrite map_app|]. intros Hfound. destruct (Hunlink Hfound) as (r & post' & ->).
    by eexists _, _.
Qed.

Lemma filesRemoved_modify (tr0 : list Event) (f : StateManager -> StateManager) (w : World) :
  filesRemoved tr0 w → filesRemoved tr0 (snd (modify f w)).
Proof. done. Qed.

(** X27. The text-to-speech command removes what it writes.  In any run of
    the /t2v handler, whatever the environment answers, every file whose
    write succeeded is afterwards looked for by the cleanup, and removed
    at once when it is found: the handler leaves no temporary file behind
    unless the removal itself fails. *)
Theorem t2v_removes_what_it_wrote
    (env : Env) (ctx : Ctx) (w : World) (p : Path) (before after : list Event) (ev : Event) :
  since w (snd (handleTextToVoiceCommand env ctx w)) = before ++ ev :: after →
  writtenPath (action ev) = Some p →
  removalOf p after.
Proof.
  assert (H : filesRemoved (trace w) (snd (handleTextToVoiceCommand env ctx w))).
  { unfold handleTextToVoiceCommand.
    assert (Htell : ∀ text, filesRemoved (trace w) (snd (tell text w))).
    { intros text. rewrite tell_run. eapply filesRemoved_clean; [reflexivity|].
      by repeat constructor. }
    destruct (parseT2v (msg_text ctx)) as [e| |text overrides]; [done..|].
    rewrite bind_getState. destruct (hasPendingOperation _ _); [done|].
    rewrite bind_modify, bind_assign. set (w0 := withLocals _ _).
    unfold tryCatchFinally, tryCatch.
    assert (H0 : untracked (trace w) w0).
    { exists []. rewrite app_nil_r. by repeat split. }
    pose proof (t2vTry_files env text overrides (trace w) w0 H0) as Htry.
    assert (Hcaught : ∃ r w1,
      (let (r, w') := t2vTry env text overrides w0 in
       match r with
       | Value a => (Value a, w')
       | Thrown e => report (TVoiceError (errorText e)) w'
       end) = (r, w1) ∧ filesTracked (trace w) w1).
    { destruct (t2vTry env text overrides w0) as [[[]|e] w1]; cbn [snd] in Htry.
      - by eexists _, _.
      - eexists _, _. split; [apply surjective_pairing|].
        apply filesTracked_tame; [by apply tame_report|done]. }
    destruct Hcaught as (r & w1 & -> & Htracked).
    pose proof (t2vCleanup_removes (trace w) w1 Htracked) as Hclean.
    unfold bind at 1. destruct (t2vCleanup w1) as [[[]|e] w2]; cbn [snd] in Hclean; [|done].
    cbn [modify snd]. done. }
  destruct H as (evs & Htr & Hall). rewrite (since_app _ _ _ Htr).
  intros -> Hev. by eapply Hall.
Qed.

Lemma t2v_removes_what_it_wrote_witness :
  let ctx := mkCtx 7 42 "/t2v hola" "file-1" in
  let w := startWorld obligingOracle idleState in
  let evs := since w (snd (handleTextToVoiceCommand sampleEnv ctx w)) in
  length evs = 12%nat ∧
  removalOf (tts_output 1700000000000) (drop 6 evs).
Proof.
  intros ctx w evs. split; [vm_compute; reflexivity|].
  apply (t2v_removes_what_it_wrote sampleEnv ctx w (tts_output 1700000000000) (take 5 evs)
           (drop 6 evs)
           (mkEvent (Called (writeFileSync (tts_output 1700000000000)) (Resolved tt))
                    (setPendingOperation 7 t2v_converting idleState))).
  - vm_compute. reflexivity.
  - reflexivity.
Defined.

(** ** Every update is answered *)

Lemma grows_extends {A} (m : M A) (w : World) :
  keeps (fun _ => True) m → ∃ evs, trace (snd (m w)) = trace w ++ evs.
Proof. intros Hm. destruct (Hm w I) as (_ & evs & Htr & _). by exists evs. Qed.

Lemma repliesFirst_extend {A} (w w' : World) (m : M A) :
  repliesFirstAt m w → (∃ evs, trace w' = trace (snd (m w)) ++ evs) →
  ∃ text r s rest, trace w' = trace w ++ mkEvent (Called (reply text) r) s :: rest.
Proof.
  intros (text & r & s & rest & Htr) (evs & Htr'). exists text, r, s, (rest ++ evs).
  by rewrite Htr', Htr, <- app_assoc.
Qed.

Lemma repliesFirst_bind {A B} (m : M A) (k : A -> M B) (w : World) :
  repliesFirstAt m w → (∀ a, keeps (fun _ => True) (k a)) → repliesFirstAt (bind m k) w.
Proof.
  intros Hm Hk. apply (repliesFirst_extend w _ m Hm). unfold bind.
  destruct (m w) as [[a|e] w1]; cbn [snd]; [apply grows_extends, Hk|].
  exists []. by rewrite app_nil_r.
Qed.

Lemma repliesFirst_tryCatch {A} (m : M A) (h : Error -> M A) (w : World) :
  repliesFirstAt m w → (∀ e, keeps (fun _ => True) (h e)) → repliesFirstAt (tryCatch m h) w.
Proof.
  intros Hm Hh. apply (repliesFirst_extend w _ m Hm). unfold tryCatch.
  destruct (m w) as [[a|e] w1]; cbn [snd]; [|apply grows_extends, Hh].
  exists []. by rewrite app_nil_r.
Qed.

Lemma repliesFirst_tryCatchFinally {A} (m : M A) (h : Error -> M A) (f : M unit) (w : World) :
  repliesFirstAt m w → (∀ e, keeps (fun _ => True) (h e)) → keeps (fun _ => True) f →
  repliesFirstAt (tryCatchFinally m h f) w.
Proof.
  intros Hm Hh Hf. pose proof (repliesFirst_tryCatch m h w Hm Hh) as Hc.
  apply (repliesFirst_extend w _ (tryCatch m h) Hc). unfold tryCatchFinally.
  destruct (tryCatch m h w) as [r w1]. cbn [snd].
  destruct (grows_extends f w1 Hf) as (evs & Htr). exists evs.
  by destruct (f w1) as [[[]|e] w2].
Qed.

Lemma repliesFirst_call (text : Text) : repliesFirst (call (reply text)).
Proof.
  intros w. unfold call. exists text, (answer (oracle w) ChatMessage (reply text) (steps w)),
    (sm w), []. by destruct (answer _ _ _ _).
Qed.

Lemma repliesFirst_caught (text : Text) : repliesFirst (caught (reply text)).
Proof. intros w. unfold repliesFirstAt. rewrite caught_run. by eexists text, _, _, []. Qed.

Lemma repliesFirst_tell (text : Text) : repliesFirst (tell text).
Proof. intros w. unfold repliesFirstAt. rewrite tell_run. by eexists text, _, _, []. Qed.

Lemma repliesFirst_after_getState {A} (k : StateManager -> M A) (w : World) :
  repliesFirstAt (k (sm w)) w → repliesFirstAt (bind getState k) w.
Proof. unfold repliesFirstAt. by rewrite bind_getState. Qed.

Lemma repliesFirst_after_modify {A} (f : StateManager -> StateManager) (k : unit -> M A)
    (w : World) :
  repliesFirstAt (k tt) (withState (f (sm w)) w) → repliesFirstAt (bind (modify f) k) w.
Proof. unfold repliesFirstAt. by rewrite bind_modify. Qed.

Lemma repliesFirst_after_assign {A} (f : Locals -> Locals) (k : unit -> M A) (w : World) :
  repliesFirstAt (k tt) (withLocals (f (locals w)) w) → repliesFirstAt (bind (assign f) k) w.
Proof. unfold repliesFirstAt. by rewrite bind_assign. Qed.

Lemma repliesFirst_guarded (U : Z) (kind : Operation) (body : M unit) (h : Error -> M unit)
    (f : M unit) :
  repliesFirst body → (∀ e, keeps (fun _ => True) (h e)) → keeps (fun _ => True) f →
  repliesFirst (do! modify (setPendingOperation U kind) in
                do! assign (fun _ => noLocals) in
                tryCatchFinally body h f).
Proof.
  intros Hb Hh Hf w. apply repliesFirst_after_modify, repliesFirst_after_assign.
  by apply repliesFirst_tryCatchFinally.
Qed.

Lemma repliesFirst_gptTry (env : Env) (U : Z) (userMessage : string) :
  repliesFirst (gptTry env U userMessage).
Proof.
  intros w. apply repliesFirst_bind; [apply repliesFirst_caught|]. intros lm.
  apply keeps_bind; [apply keeps_assign|]. intros _.
  apply keeps_bind; [apply keeps_whenLoading|]. intros _.
  apply keeps_bind; [by apply keeps_modify|]. intros _.
  apply keeps_bind; [by apply keeps_stateful|]. intros conversation.
  apply keeps_bind; [apply keeps_generateGPTResponse|]. intros gptResponse.
  apply keeps_bind; [by apply keeps_modify|]. intros _.
  destruct lm as [m|]; [|apply keeps_tell].
  apply keeps_tryCatch; [apply keeps_call|]. intros _.
  apply keeps_bind; [apply keeps_tell|]. intros _.
  apply keeps_bind; [apply keeps_caught|intros; apply keeps_ret].
Qed.

Lemma repliesFirst_t2vTry (env : Env) (textToConvert : string) (overrides : Options.t) :
  repliesFirst (t2vTry env textToConvert overrides).
Proof.
  intros w. apply repliesFirst_bind; [apply repliesFirst_caught|]. intros lm.
  apply keeps_bind; [apply keeps_assign|]. intros _.
  apply keeps_bind; [apply keeps_whenLoading|]. intros _.
  apply keeps_bind; [apply keeps_whenLoading|]. intros _.
  apply keeps_bind; [apply keeps_generateVoice|]. intros file.
  apply keeps_bind; [apply keeps_assign|]. intros _.
  apply keeps_bind; [apply keeps_whenLoading|]. intros _.
  apply keeps_bind; [apply keeps_whenLoading|]. intros _.
  apply keeps_bind; [apply keeps_call|]. intros _.
  apply keeps_whenLoading.
Qed.

Lemma repliesFirst_v2vTry (env : Env) (ctx : Ctx) (label : TypeLabel) :
  repliesFirst (v2vTry env ctx label).
Proof.
  intros w. apply repliesFirst_bind; [apply repliesFirst_caught|]. intros lm.
  apply keeps_bind; [apply keeps_assign|]. intros _.
  apply keeps_bind; [apply keeps_whenLoading|]. intros _.
  apply keeps_bind; [apply keeps_call|]. intros fileLink.
  apply keeps_bind; [apply keeps_call|]. intros downloadResponse.
  match goal with |- keeps _ (if ?b then _ else _) => destruct b end; [apply keeps_throw|].
  apply keeps_bind; [apply keeps_query|]. intros now.
  apply keeps_bind; [apply keeps_assign|]. intros _.
  apply keeps_bind; [apply keeps_call|]. intros _.
  apply keeps_bind; [apply keeps_whenLoading|]. intros _.
  apply keeps_bind; [apply keeps_whenLoading|]. intros _.
  apply keeps_bind; [apply keeps_transformVoice|]. intros transformed.
  apply keeps_bind; [apply keeps_assign|]. intros _.
  apply keeps_bind; [apply keeps_whenLoading|]. intros _.
  apply keeps_bind; [apply keeps_whenLoading|]. intros _.
  apply keeps_bind; [apply keeps_query|]. intros found.
  destruct (negb found); [apply keeps_throw|].
  apply keeps_bind; [apply keeps_call|]. intros _.
  apply keeps_whenLoading.
Qed.

Lemma repliesFirst_processGPTMessage (env : Env) (ctx : Ctx) (userMessage : string) :
  repliesFirst (processGPTMessage env ctx userMessage).
Proof.
  unfold processGPTMessage. destruct (negb (openai env)); [apply repliesFirst_tell|].
  intros w. apply repliesFirst_after_getState.
  destruct (hasPendingOperation _ _); [apply repliesFirst_tell|].
  apply (repliesFirst_guarded (from_id ctx) gpt_generating).
  - apply repliesFirst_gptTry.
  - intros e. apply keeps_report.
  - by apply keeps_modify.
Qed.

Lemma repliesFirst_processVoiceTransformation (env : Env) (ctx : Ctx) (label : TypeLabel) :
  repliesFirst (processVoiceTransformation env ctx label).
Proof.
  intros w. unfold processVoiceTransformation.
  apply repliesFirst_after_modify, repliesFirst_after_getState.
  destruct (hasPendingOperation _ _); [apply repliesFirst_tell|].
  apply (repliesFirst_guarded (from_id ctx) v2v_transforming).
  - apply repliesFirst_v2vTry.
  - intros e. apply keeps_report.
  - apply keeps_bind; [apply keeps_v2vCleanup|]. intros _. by apply keeps_modify.
Qed.

Lemma repliesFirst_dispatch (env : Env) (k : UpdateKind) (ctx : Ctx) :
  answered k ctx = true → repliesFirst (dispatch env k ctx).
Proof.
  intros Hplain. destruct k; cbn [dispatch]; [| | | | | | |discriminate Hplain].
  - intros w. unfold handleHelp. apply repliesFirst_tryCatch.
    + apply repliesFirst_bind; [apply repliesFirst_call|intros; apply keeps_ret].
    + intros _. apply keeps_tryCatch; [|intros; apply keeps_tell].
      apply keeps_bind; [apply keeps_call|intros; apply keeps_ret].
  - unfold handleTextCommand. destruct (negb (openai env)); [apply repliesFirst_tell|].
    destruct (matchSlashT _); [|apply repliesFirst_tell].
    destruct (Str.isEmpty _); [apply repliesFirst_tell|].
    apply repliesFirst_processGPTMessage.
  - unfold handleTextToVoiceCommand.
    destruct (parseT2v _); [apply repliesFirst_tell..|].
    intros w. apply repliesFirst_after_getState.
    destruct (hasPendingOperation _ _); [apply repliesFirst_tell|].
    apply (repliesFirst_guarded (from_id ctx) t2v_converting).
    + apply repliesFirst_t2vTry.
    + intros e. apply keeps_report.
    + apply keeps_bind; [apply keeps_t2vCleanup|]. intros _. by apply keeps_modify.
  - intros w. unfold handleVoiceToVoiceCommand. apply repliesFirst_after_getState.
    destruct (hasPendingOperation _ _); [apply repliesFirst_tell|].
    destruct (pendingV2V _ _); [apply repliesFirst_tell|].
    apply repliesFirst_tryCatch.
    + apply repliesFirst_after_modify. apply repliesFirst_bind;
        [apply repliesFirst_call|intros; apply keeps_ret].
    + intros e. apply keeps_bind; [by apply keeps_modify|]. intros _. apply keeps_tell.
  - unfold handleResetConversation. destruct (negb (openai env)); [apply repliesFirst_tell|].
    intros w. apply repliesFirst_after_modify, repliesFirst_tell.
  - unfold handleMessage. cbn [answered] in Hplain. rewrite (handleMessage_guard _ Hplain).
    intros w. apply repliesFirst_after_getState.
    destruct (pendingV2V _ _).
    + apply repliesFirst_bind; [apply repliesFirst_tell|]. intros _. by apply keeps_modify.
    + destruct (negb (openai env)); [apply repliesFirst_tell|].
      apply repliesFirst_processGPTMessage.
  - intros w. destruct (pendingV2V (from_id ctx) (sm w)) eqn:Harmed.
    + unfold repliesFirstAt. rewrite (onSound_armed env l ctx w Harmed).
      apply repliesFirst_processVoiceTransformation.
    + unfold repliesFirstAt. rewrite (onSound_idle env l ctx w Harmed).
      apply repliesFirst_tell.
Qed.

(** X28. Every command and every message the bot handles is answered.  For
    an update that has a handler - /start, /help, /t, /t2v, /v2v, /reset, a
    voice message, an audio file, or a text that is not empty, blank or
    starting with a slash - and that carries a user id, the first request
    the bot makes is a reply to the user (which may itself fail): the
    refusal for a user who is not authorized, and for an authorized user
    the notice, the confirmation or the progress message of the handler;
    before it the bot only reads the clock, for the session.  Any other
    update of an authorized user - a text that [handleMessage] ignores, or
    an update no handler is registered for, such as a photo, a sticker or
    an edited message - gets no answer: the bot reads the clock, stamps the
    session and does nothing else. *)
Theorem every_update_is_answered (env : Env) (k : UpdateKind) (ctx : Ctx) (w : World) :
  from_id ctx ≠ 0 →
  let evs := since w (snd (processUpdate env k ctx w)) in
  (answered k ctx = true →
   ∃ clock text r s rest,
     evs = clock ++ mkEvent (Called (reply text) r) s :: rest ∧ Forall isClockRead clock) ∧
  (answered k ctx = false → isAuthorized (from_id ctx) (sm w) = true →
   Forall isClockRead evs ∧ sessionsApart (sm w) (sm (snd (processUpdate env k ctx w)))).
Proof.
  intros Hid. cbn zeta.
  assert (Htruthy : truthy (from_id ctx) = true).
  { unfold truthy. apply negb_true_iff. by apply Z.eqb_neq. }
  destruct (updateSession_run (from_id ctx) w)
    as (w1 & Hrun & Hsm1 & _ & _ & _ & clock & Htr1 & Hclock & _).
  split.
  - intros Hans.
    assert (H : ∃ clock text r s rest,
               trace (snd (processUpdate env k ctx w)) =
               trace w ++ clock ++ mkEvent (Called (reply text) r) s :: rest ∧
               Forall isClockRead clock).
    { unfold processUpdate. rewrite Htruthy. cbn [negb].
      destruct (isAuthorized (from_id ctx) (sm w)) eqn:Hauth.
      - destruct (repliesFirst_dispatch env k ctx Hans w1) as (text & r & s & rest & Htr).
        destruct (dispatch_returns env k ctx w1) as [Hret _].
        exists clock, text, r, s, rest. split; [|done].
        unfold tryCatch. rewrite bind_getState, Hauth. cbn [negb].
        rewrite (bind_value _ _ _ _ _ Hrun).
        destruct (dispatch env k ctx w1) as [res w2]. cbn [fst snd] in *. subst res.
        cbn [snd]. by rewrite Htr, Htr1, <- app_assoc.
      - exists []. unfold tryCatch. rewrite bind_getState, Hauth. cbn [negb].
        rewrite tell_run. cbn [snd tick record trace]. by eexists _, _, _, [].  }
    destruct H as (clock' & text & r & s & rest & Htr & Hc).
    exists clock', text, r, s, rest. split; [|done]. by apply since_app.
  - intros Hans Hauth. unfold processUpdate, tryCatch. rewrite Htruthy. cbn [negb].
    rewrite bind_getState, Hauth. cbn [negb]. rewrite (bind_value _ _ _ _ _ Hrun).
    assert (Hnothing : dispatch env k ctx w1 = (Value tt, w1)).
    { destruct k; try discriminate Hans; [|done].
      cbn [dispatch answered] in *. unfold handleMessage, isPlainText in *.
      apply negb_false_iff in Hans. by rewrite Hans. }
    rewrite Hnothing. cbn [snd]. split; [|done].
    by rewrite (since_app w w1 clock Htr1).
Qed.

Lemma every_update_is_answered_witness :
  let ctx := mkCtx 7 42 "/t2v -s 0.4 hola" "file-1" in
  let w := startWorld obligingOracle idleState in
  ∃ clock text r s rest,
    since w (snd (processUpdate sampleEnv command_t2v ctx w))
    = clock ++ mkEvent (Called (reply text) r) s :: rest ∧ Forall isClockRead clock.
Proof.
  intros ctx w.
  assert (Hid : from_id ctx ≠ 0) by (cbn; lia).
  exact (proj1 (every_update_is_answered sampleEnv command_t2v ctx w Hid) eq_refl).
Defined.

(** ** C8: the numeric overrides of /t2v reach the backend clamped *)

Lemma ttsCost_observed T (q : Query T) (v : T) : ttsCost (Observed q v) = 0%nat.
Proof. reflexivity. Qed.

Lemma ttsCost_free T (c : Call T) (r : Outcome T) :
  backendCost (Called c r) = 0%nat → ttsCost (Called c r) = 0%nat.
Proof. by destruct c. Qed.

Lemma adds_ttsless (G : Event -> Prop) {A} (m : M A) :
  (∀ ev, ttsRequestOf (action ev) = None → G ev) → spends ttsCost 0 m → adds G m.
Proof.
  intros HG. apply adds_of_spends. intros ev Hev. apply HG.
  unfold ttsCost in Hev. by destruct (ttsRequestOf (action ev)).
Qed.

Lemma adds_of_tame (Φ : Action -> Prop) {A} (m : M A) :
  tame Φ m → adds (fun ev => Φ (action ev)) m.
Proof.
  intros Hm w. destruct (Hm w) as (_ & _ & evs & Htr & Hevs). exists evs.
  split; [done|]. eapply Forall_impl; [exact Hevs|]. by intros ev [? _].
Qed.

Lemma tame_generateVoice (env : Env) (text : string) (options : Options.t) :
  tame (fun a => ∀ request, ttsRequestOf a = Some request →
                            request = (text, finalSettings options))
       (generateVoice env text options).
Proof.
  unfold generateVoice. destruct (negb (ELEVEN_API_KEY env)); [apply tame_throw|].
  apply tame_tryCatch; [|intros; apply tame_throw].
  apply tame_bind.
  - apply tame_retry; [|done]. by intros r request [= <-].
  - intros response. destruct (invalidResponse response); [apply tame_throw|].
    apply tame_bind; [by apply tame_query|]. intros now.
    apply tame_bind; [by apply tame_call|]. intros _. apply tame_ret.
Qed.

Ltac ttsless :=
  apply adds_ttsless; [first [done | intros ? ? ? ?; congruence]|];
  first [ apply spends_tell | apply spends_report | apply spends_whenLoading
        | apply spends_caught | apply spends_call | apply spends_unlinkIfExists ];
  first [ exact ttsCost_observed | exact ttsCost_free | done ].

(** Every request that [handleTextToVoiceCommand] sends to the
    text-to-speech backend carries the text and the final settings of the
    options it parsed. *)
Lemma adds_handleTextToVoiceCommand (env : Env) (ctx : Ctx) (textToConvert : string)
    (overrides : Options.t) :
  parseT2v (msg_text ctx) = Convert textToConvert overrides →
  adds (fun ev => ∀ request, ttsRequestOf (action ev) = Some request →
                             request = (textToConvert, finalSettings overrides))
       (handleTextToVoiceCommand env ctx).
Proof.
  intros Hparse. unfold handleTextToVoiceCommand. rewrite Hparse.
  apply adds_bind; [by apply adds_silent|]. intros s.
  destruct (hasPendingOperation _ s); [ttsless|].
  apply adds_bind; [by apply adds_silent|]. intros _.
  apply adds_bind; [by apply adds_silent|]. intros _.
  intros w. apply addsAt_tryCatchFinally.
  - revert w. unfold t2vTry.
    apply adds_bind; [ttsless|]. intros lm.
    apply adds_bind; [by apply adds_silent|]. intros _.
    apply adds_bind; [ttsless|]. intros _.
    apply adds_bind; [ttsless|]. intros _.
    apply adds_bind; [apply (adds_of_tame _ _ (tame_generateVoice env _ _))|]. intros file.
    apply adds_bind; [by apply adds_silent|]. intros _.
    apply adds_bind; [ttsless|]. intros _.
    apply adds_bind; [ttsless|]. intros _.
    apply adds_bind; [ttsless|]. intros _. ttsless.
  - intros e. ttsless.
  - apply adds_bind.
    + unfold t2vCleanup. apply adds_bind; [by apply adds_silent|]. intros l.
      apply adds_tryCatch; [ttsless|]. intros _. by apply adds_silent.
    + intros _. by apply adds_silent.
Qed.

Section Reaches.
Context (Q P : Event -> Prop).

Lemma reaches_extend {A} (m : M A) (w w' : World) :
  reachesAt Q P m w → (∃ evs, trace w' = trace (snd (m w)) ++ evs) →
  ∃ before ev after, trace w' = trace w ++ before ++ ev :: after ∧ Forall Q before ∧ P ev.
Proof.
  intros (before & ev & after & Htr & HQ & HP) (evs & Htr').
  exists before, ev, (after ++ evs). split; [|done].
  by rewrite Htr', Htr, <- !app_assoc.
Qed.

Lemma reaches_bind {A B} (m : M A) (k : A -> M B) (w : World) :
  reachesAt Q P m w → (∀ a, keeps (fun _ => True) (k a)) → reachesAt Q P (bind m k) w.
Proof.
  intros Hm Hk. apply (reaches_extend m w _ Hm). unfold bind.
  destruct (m w) as [[a|e] w1]; cbn [snd]; [apply grows_extends, Hk|].
  exists []. by rewrite app_nil_r.
Qed.

Lemma reaches_tryCatchFinally {A} (m : M A) (h : Error -> M A) (f : M unit) (w : World) :
  reachesAt Q P m w → (∀ e, keeps (fun _ => True) (h e)) → keeps (fun _ => True) f →
  reachesAt Q P (tryCatchFinally m h f) w.
Proof.
  intros Hm Hh Hf. apply (reaches_extend m w _ Hm). unfold tryCatchFinally, tryCatch.
  destruct (m w) as [[a|e] w1]; cbn [snd].
  - destruct (grows_extends f w1 Hf) as (evs & Htr). exists evs.
    by destruct (f w1) as [[[]|e] w2].
  - destruct (grows_extends (h e) w1 (Hh e)) as (evs & Htr).
    destruct (h e w1) as [r w2]. cbn [snd] in *.
    destruct (grows_extends f w2 Hf) as (evs' & Htr'). exists (evs ++ evs').
    destruct (f w2) as [[[]|e'] w3]; cbn [snd] in *; by rewrite Htr', Htr, app_assoc.
Qed.

Lemma reaches_after {A B} (m : M A) (k : A -> M B) (w : World) :
  safe m → adds Q m → (∀ a w1, reachesAt Q P (k a) w1) → reachesAt Q P (bind m k) w.
Proof.
  intros Hsafe Hadds Hk. destruct (Hsafe w) as [a Ha].
  destruct (Hadds w) as (pre & Htr & Hpre). unfold reachesAt, bind.
  destruct (m w) as [r w1]. cbn [fst snd] in *. subst r.
  destruct (Hk a w1) as (before & ev & after & Htr' & HQ & HP).
  exists (pre ++ before), ev, after. rewrite Htr', Htr, <- !app_assoc.
  split; [done|]. split; [by apply Forall_app|done].
Qed.

Lemma reaches_after_getState {A} (k : StateManager -> M A) (w : World) :
  reachesAt Q P (k (sm w)) w → reachesAt Q P (bind getState k) w.
Proof. unfold reachesAt. by rewrite bind_getState. Qed.

Lemma reaches_after_modify {A} (f : StateManager -> StateManager) (k : unit -> M A)
    (w : World) :
  reachesAt Q P (k tt) (withState (f (sm w)) w) → reachesAt Q P (bind (modify f) k) w.
Proof. unfold reachesAt. by rewrite bind_modify. Qed.

Lemma reaches_after_assign {A} (f : Locals -> Locals) (k : unit -> M A) (w : World) :
  reachesAt Q P (k tt) (withLocals (f (locals w)) w) → reachesAt Q P (bind (assign f) k) w.
Proof. unfold reachesAt. by rewrite bind_assign. Qed.

Lemma reaches_first {T A} (c : Call T) (m : M A) (w : World) :
  firstCall c m → (∀ r s, P (mkEvent (Called c r) s)) → reachesAt Q P m w.
Proof.
  intros Hm HP. destruct (Hm w) as (rest & Htr).
  exists [], (mkEvent (Called c (answer (oracle w) T c (steps w))) (sm w)), rest.
  split; [exact Htr|]. split; [constructor|apply HP].
Qed.

End Reaches.

Lemma safe_whenLoading {T} (lm : option ChatMessage) (c : ChatMessage -> Call T) :
  safe (whenLoading lm c).
Proof.
  destruct lm as [m|]; cbn [whenLoading when_]; [|apply safe_ret].
  apply safe_bind; [apply safe_caught|intros; apply safe_ret].
Qed.

(** With the key configured and the lock free, [handleTextToVoiceCommand]
    sends the request to the text-to-speech backend, and this request is
    the first one it sends there. *)
Lemma reaches_handleTextToVoiceCommand (env : Env) (ctx : Ctx) (textToConvert : string)
    (overrides : Options.t) (w : World) :
  parseT2v (msg_text ctx) = Convert textToConvert overrides →
  lockOf (from_id ctx) (sm w) = None →
  ELEVEN_API_KEY env = true →
  reachesAt (fun ev => ttsRequestOf (action ev) = None)
            (fun ev => ∃ r, action ev =
                            Called (postTextToSpeech textToConvert (finalSettings overrides)) r)
            (handleTextToVoiceCommand env ctx) w.
Proof.
  intros Hparse Hfree Hkey. unfold handleTextToVoiceCommand. rewrite Hparse.
  apply reaches_after_getState. rewrite (hasPendingOperation_free _ _ Hfree).
  apply reaches_after_modify, reaches_after_assign.
  apply reaches_tryCatchFinally.
  - unfold t2vTry.
    apply reaches_after; [apply safe_caught|ttsless|]. intros lm w1.
    apply reaches_after; [apply safe_assign|by apply adds_silent|]. intros _ w2.
    apply reaches_after; [apply safe_whenLoading|ttsless|]. intros _ w3.
    apply reaches_after; [apply safe_whenLoading|ttsless|]. intros _ w4.
    apply reaches_bind.
    + apply (reaches_first _ _ (postTextToSpeech textToConvert (finalSettings overrides)));
        [by apply firstCall_generateVoice|]. intros r s. by exists r.
    + intros file.
      apply keeps_bind; [apply keeps_assign|]. intros _.
      apply keeps_bind; [apply keeps_whenLoading|]. intros _.
      apply keeps_bind; [apply keeps_whenLoading|]. intros _.
      apply keeps_bind; [apply keeps_call|]. intros _.
      apply keeps_whenLoading.
  - intros e. apply keeps_report.
  - apply keeps_bind; [apply keeps_t2vCleanup|]. intros _. by apply keeps_modify.
Qed.

(** C8. For each numeric option of the text-to-speech pipeline (stability,
    style, speed): a supplied number is used clamped to the range of the
    option, and the value used lies in that range; an option that is not
    supplied takes its configured default.  This holds of [generateVoice]
    for any options, where the first thing it does, once the key is
    configured, is the call to the backend with the final settings; and it
    holds of the pipeline of /t2v: when the message parses and the lock is
    free, the handler sends the text to the backend with the settings made
    of the options typed, each number clamped to its range, before any
    other request to that backend, and no request it sends there carries
    anything else.  So the request is made whatever the numbers are: no
    supplied number is rejected. *)
Theorem numeric_overrides_clamped (env : Env) :
  (∀ (text : string) (options : Options.t) (f : Flag.t),
     let used := finalSettings options in
     (∀ x, Num.isNaN x = false → suppliedValue f options = Some x →
           usedValue f used = clampedTo (fst (validRange f)) (snd (validRange f)) x ∧
           inRange (validRange f) (usedValue f used)) ∧
     (suppliedValue f options = None → usedValue f used = defaultValue f) ∧
     (ELEVEN_API_KEY env = true →
      firstCall (postTextToSpeech text used) (generateVoice env text options))) ∧
  (∀ (ctx : Ctx) (w : World) (textToConvert : string) (overrides : Options.t),
     parseT2v (msg_text ctx) = Convert textToConvert overrides →
     lockOf (from_id ctx) (sm w) = None →
     ELEVEN_API_KEY env = true →
     let used := finalSettings overrides in
     let evs := since w (snd (handleTextToVoiceCommand env ctx w)) in
     (∀ f x, suppliedValue f overrides = Some x →
             usedValue f used = clampedTo (fst (validRange f)) (snd (validRange f)) x ∧
             inRange (validRange f) (usedValue f used)) ∧
     (∀ f, suppliedValue f overrides = None → usedValue f used = defaultValue f) ∧
     (∃ before r s after,
        evs = before ++ mkEvent (Called (postTextToSpeech textToConvert used) r) s :: after ∧
        Forall (fun ev => ttsRequestOf (action ev) = None) before) ∧
     Forall (fun ev => ∀ request, ttsRequestOf (action ev) = Some request →
                                  request = (textToConvert, used)) evs).
Proof.
  split.
  - intros text options f. cbn zeta. split; [|split].
    + intros x Hx Hsup. by apply finalSettings_clamps.
    + apply finalSettings_defaults.
    + apply firstCall_generateVoice.
  - intros ctx w textToConvert overrides Hparse Hfree Hkey. cbn zeta.
    pose proof (parseT2v_numeric _ _ _ Hparse) as Hnum.
    split; [|split; [|split]].
    + intros f x Hx. by apply (finalSettings_clamps f overrides x (Hnum f x Hx)).
    + intros f. apply finalSettings_defaults.
    + destruct (reaches_handleTextToVoiceCommand env ctx _ _ w Hparse Hfree Hkey)
        as (before & [a s] & after & Htr & Hbefore & r & Hev).
      cbn [action] in Hev. subst a. exists before, r, s, after. split; [|done].
      by apply since_app.
    + destruct (adds_handleTextToVoiceCommand env ctx _ _ Hparse w) as (evs & Htr & Hevs).
      by rewrite (since_app _ _ _ Htr).
Qed.

Lemma numeric_overrides_clamped_witness :
  let ctx := mkCtx 7 42 "/t2v -s 7 -x -3 hola" EmptyString in
  let w := startWorld obligingOracle idleState in
  let sent := VoiceSettings.mk (Num.decimal 10 (-1)) CONFIG.SIMILARITY_BOOST (Num.decimal 0 0)
                               CONFIG.SPEED CONFIG.USE_SPEAKER_BOOST in
  ∃ before r s after,
    since w (snd (handleTextToVoiceCommand sampleEnv ctx w)) =
    before ++ mkEvent (Called (postTextToSpeech "hola" sent) r) s :: after ∧
    Forall (fun ev => ttsRequestOf (action ev) = None) before.
Proof.
  intros ctx w sent.
  destruct (numeric_overrides_clamped sampleEnv) as [_ Hpipeline].
  assert (Hparse : parseT2v (msg_text ctx) =
                   Convert "hola" (Options.mk (Some (Num.decimal 7 0)) None
                                              (Some (Num.decimal (-3) 0)) None None))
    by (vm_compute; reflexivity).
  destruct (Hpipeline ctx w _ _ Hparse eq_refl eq_refl) as (_ & _ & Hcall & _).
  assert (Hsent : finalSettings (Options.mk (Some (Num.decimal 7 0)) None
                                            (Some (Num.decimal (-3) 0)) None None) = sent)
    by (vm_compute; reflexivity).
  rewrite Hsent in Hcall. exact Hcall.
Defined.

(** ** Who the state manager knows *)

Lemma evolves_weaken (S S' : StateManager -> Prop) (w w' : World) :
  (∀ s, S s → S' s) → evolves S w w' → evolves S' w w'.
Proof.
  intros Himp (Hsm & evs & Htr & Hevs). split; [by apply Himp|]. exists evs.
  split; [done|]. eapply Forall_impl; [exact Hevs|]. intros ev. apply Himp.
Qed.

(** A property of the sessions that creating and stamping the session of
    [U] maintain is maintained by everything done on behalf of [U]. *)
Lemma stableFor_sessions (U : Z) (P : gmap Z Session -> Prop) :
  (∀ now m, P m → P (<[U := mkSession now]> m)) →
  (∀ now m, P m → P (alter (fun _ => mkSession now) U m)) →
  stableFor U (fun s => P (userSessions s)).
Proof.
  intros Hcreate Hstamp. unfold stableFor. repeat apply conj.
  - intros gpt r c s H. by rewrite (proj2 (proj2 (proj2 (proj2 (addMessage_frame _ _ _ _ _))))).
  - intros s H. by destruct (getConversation_is_setConversations U s) as [cs ->].
  - done.
  - done.
  - intros s H. unfold clearPendingOperation. by case_bool_decide.
  - done.
  - intros s H. unfold clearPendingVoiceTransformation. by case_bool_decide.
  - intros now s H. by apply Hcreate.
  - intros now s H. by apply Hstamp.
Qed.

Lemma stableFor_and (U : Z) (S1 S2 : StateManager -> Prop) :
  stableFor U S1 → stableFor U S2 → stableFor U (fun s => S1 s ∧ S2 s).
Proof.
  intros (A1 & A2 & A3 & A4 & A5 & A6 & A7 & A8 & A9)
         (B1 & B2 & B3 & B4 & B5 & B6 & B7 & B8 & B9).
  unfold stableFor. repeat apply conj; intros; destruct_and?; split; eauto.
Qed.

Lemma stableFor_forall {I : Type} (U : Z) (S : I -> StateManager -> Prop) :
  (∀ i, stableFor U (S i)) → stableFor U (fun s => ∀ i, S i s).
Proof.
  intros H. unfold stableFor.
  repeat apply conj; intros;
    match goal with
    | |- S ?j _ => destruct (H j) as (A1 & A2 & A3 & A4 & A5 & A6 & A7 & A8 & A9); eauto
    end.
Qed.

Lemma stableFor_othersAsIn (U : Z) (s0 : StateManager) : stableFor U (othersAsIn U s0).
Proof.
  apply stableFor_and; [apply stableFor_sameRegistry|].
  apply stableFor_forall. intros V.
  destruct (decide (V = U)) as [->|HV].
  { unfold stableFor. by repeat apply conj. }
  assert (H : stableFor U (fun s => untouched V s0 s ∧
                                    userSessions s !! V = userSessions s0 !! V)).
  { apply stableFor_and; [by apply stableFor_untouched|].
    apply (stableFor_sessions U (fun m => m !! V = userSessions s0 !! V)).
    - intros now m Hm. by rewrite lookup_insert_ne.
    - intros now m Hm. by rewrite lookup_alter_ne. }
  destruct H as (A1 & A2 & A3 & A4 & A5 & A6 & A7 & A8 & A9).
  unfold stableFor. repeat apply conj; eauto.
Qed.

Lemma othersAsIn_refl (U : Z) (s : StateManager) : othersAsIn U s s.
Proof. by split; [|intros V _]. Qed.

Lemma knownOnly_othersAsIn (U : Z) (s0 s : StateManager) :
  knownOnly s0 → isAuthorized U s0 = true → othersAsIn U s0 s → knownOnly s.
Proof.
  intros Hknown Hauth [[Hreg _] Hothers] V HV.
  assert (Hsame : ∀ X, isAuthorized X s = isAuthorized X s0)
    by (intros X; unfold isAuthorized; by rewrite Hreg).
  rewrite Hsame. destruct (decide (V = U)) as [->|Hne]; [done|].
  apply Hknown. destruct (Hothers V Hne) as ((Hh & Hl & Hi) & Hs).
  unfold hasState in *. by rewrite <- Hh, <- Hl, <- Hi, <- Hs.
Qed.

Lemma knownOnly_cleared (U : Z) (s : StateManager) :
  knownOnly s →
  knownOnly (clearPendingOperation U s) ∧ knownOnly (clearPendingVoiceTransformation U s).
Proof.
  intros Hknown. split; intros V HV.
  - unfold clearPendingOperation in *. case_bool_decide; [|by apply Hknown].
    apply (Hknown V). unfold hasState, lockOf, historyOf, intentOf in *.
    cbn [setOperations userSessions conversations pendingOperations
         pendingVoiceTransformations] in HV.
    destruct HV as [?|[?|[Hl|?]]]; auto.
    right. right. left.
    destruct (decide (V = U)) as [->|Hne];
      [by rewrite lookup_delete_eq in Hl; destruct Hl|by rewrite lookup_delete_ne in Hl].
  - unfold clearPendingVoiceTransformation in *. case_bool_decide; [|by apply Hknown].
    apply (Hknown V). unfold hasState, lockOf, historyOf, intentOf in *.
    cbn [setVoiceTransformations userSessions conversations pendingOperations
         pendingVoiceTransformations] in HV.
    destruct HV as [?|[?|[?|Hi]]]; auto.
    right. right. right.
    destruct (decide (V = U)) as [->|Hne];
      [by rewrite lookup_delete_eq in Hi; destruct Hi|by rewrite lookup_delete_ne in Hi].
Qed.

Lemma keeps_knownOnly_processUpdate (env : Env) (k : UpdateKind) (ctx : Ctx) :
  keeps knownOnly (processUpdate env k ctx).
Proof.
  intros w Hknown. unfold processUpdate.
  assert (Hhandler : ∀ e : Error, keeps knownOnly
            (do! tell TUnexpectedError in
             if truthy (from_id ctx) then
               do! modify (clearPendingOperation (from_id ctx)) in
               modify (clearPendingVoiceTransformation (from_id ctx))
             else ret tt)).
  { intros e. apply keeps_bind; [apply keeps_tell|]. intros _.
    destruct (truthy _); [|apply keeps_ret].
    apply keeps_bind; [|intros _]; apply keeps_modify; intros s Hs;
      by apply knownOnly_cleared. }
  destruct (truthy (from_id ctx)) eqn:Hid; cbn [negb];
    [|apply (keeps_tryCatch knownOnly); [apply keeps_ret|exact Hhandler|exact Hknown]].
  destruct (isAuthorized (from_id ctx) (sm w)) eqn:Hauth.
  - pose proof (keeps_handled_stable (othersAsIn (from_id ctx) (sm w)) (from_id ctx)
                  (stableFor_othersAsIn _ _) env k ctx eq_refl w (othersAsIn_refl _ _))
      as Hbody.
    apply (evolves_weaken _ knownOnly) in Hbody;
      [|intros s; by apply knownOnly_othersAsIn].
    unfold tryCatch. rewrite bind_getState, Hauth. cbn [negb].
    destruct ((do! updateSession (from_id ctx) in dispatch env k ctx) w) as [[[]|e] w1];
      cbn [snd] in *; [done|].
    eapply evolves_trans; [exact Hbody|]. apply (Hhandler e). by destruct Hbody.
  - unfold tryCatch. rewrite bind_getState, Hauth. cbn [negb].
    pose proof (keeps_tell knownOnly (TUnauthorized (from_id ctx)) w Hknown) as Htell.
    by rewrite tell_run in *.
Qed.

Lemma knownOnly_initial (a b : option string) : knownOnly (initializeState a b).
Proof.
  intros U [H|[H|[H|H]]]; unfold historyOf, lockOf, intentOf in H;
    cbn in H; rewrite lookup_empty in H; by destruct H.
Qed.

(** X10. The gate in front of the handlers.  An update that carries no
    user id is dropped: nothing is sent and nothing changes.  An update of
    a user who is not authorized is answered with the refusal that names
    the id, and nothing else is sent or changed, whatever the update is.
    An update of an authorized user leaves a session for that user.  So
    the state manager only ever knows authorized users: in every state the
    bot reaches from its initial state by processing updates one after the
    other, and at every moment recorded on the way, whoever has a session,
    a conversation, a lock or a voice intent is authorized. *)
Theorem middleware_gate (env : Env) :
  (∀ (k : UpdateKind) (ctx : Ctx) (w : World),
     let U := from_id ctx in
     let w' := snd (processUpdate env k ctx w) in
     (isAuthorized U (sm w) = false →
      sm w' = sm w ∧
      since w w' = if truthy U then [replyEvent (TUnauthorized U) w] else []) ∧
     (isAuthorized U (sm w) = true → is_Some (userSessions (sm w') !! U))) ∧
  (∀ (us : list (UpdateKind * Ctx)) (o : Oracle) (a b : option string),
     let w := runUpdates env us (startWorld o (initializeState a b)) in
     knownOnly (sm w) ∧ Forall (fun ev => knownOnly (snapshot ev)) (trace w)).
Proof.
  split.
  - intros k ctx w. cbn zeta. split.
    + intros Hauth. unfold processUpdate, tryCatch.
      destruct (truthy (from_id ctx)) eqn:Hid; cbn [negb].
      * rewrite bind_getState, Hauth. cbn [negb]. rewrite tell_run. cbn [snd].
        split; [done|]. by apply since_app.
      * cbn [ret snd]. split; [done|]. unfold since. by rewrite drop_all.
    + intros Hauth.
      assert (Hid : truthy (from_id ctx) = true)
        by (unfold isAuthorized in Hauth; by destruct (truthy (from_id ctx))).
      destruct (updateSession_run (from_id ctx) w) as (w1 & Hrun & _ & _ & _ & Hsession & _).
      assert (Hstable : stableFor (from_id ctx)
                          (fun s => is_Some (userSessions s !! from_id ctx))).
      { apply (stableFor_sessions _ (fun m => is_Some (m !! from_id ctx))).
        - intros now m _. rewrite lookup_insert_eq. by eexists.
        - intros now m [x Hx]. rewrite lookup_alter_eq, Hx. by eexists. }
      pose proof (keeps_dispatch_stable _ _ Hstable env k ctx eq_refl w1 Hsession) as [Hend _].
      destruct (dispatch_returns env k ctx w1) as [Hret _].
      unfold processUpdate, tryCatch. rewrite Hid. cbn [negb].
      rewrite bind_getState, Hauth. cbn [negb]. rewrite (bind_value _ _ _ _ _ Hrun).
      destruct (dispatch env k ctx w1) as [r w2]. cbn [fst snd] in *. by subst r.
  - intros us o a b. cbn zeta.
    destruct (evolves_runUpdates knownOnly env us) with (w := startWorld o (initializeState a b))
      as (Hend & evs & Htr & Hevs).
    + intros k ctx. apply keeps_knownOnly_processUpdate.
    + apply knownOnly_initial.
    + split; [done|]. by rewrite Htr.
Qed.

